(** * Pseudoknot detection of biotite.structure (pseudoknots.py)

    A shallow embedding of [biotite/structure/pseudoknots.py] and the
    verification of its specification.

    Conventions of the embedding.
    - A numpy array is a [list]; an [int32] array stores its values
      through [to_int32].  Base pair coordinates and scores are integers
      ([Z]).  The scoring vector is an [int64] array: [np.sum] and the
      sums of [np.int64] scalars wrap around ([to_int64]), and a score
      stored into the [float64] array [scores] is rounded to 53 bits
      ([to_float64]).  The default scores are the [float64] ones of
      [np.ones], whose sums are the same integers below [2 ^ 53].
    - A Python [set] or [frozenset] of [_region] objects is a [gset region].
      [_region] defines neither [__eq__] nor [__hash__], so membership is
      by object identity: the field [ident] stands for [id(self)].  Turning
      a set into a sequence ([for reg in regions], [list(candidates)]) is
      [elements]; CPython enumerates a set in the order of its hash table,
      which follows the addresses of the objects as the order of
      [elements] follows the identities, so the rows returned are
      compared up to their order.
    - An exception is a value of [exn]; a function that can raise returns
      a [result].  The recursion of [_get_result_diff] is bounded by the
      interpreter's recursion limit: the argument [recursion_limit] is
      the number of nested calls of [_get_result_diff] that limit leaves
      room for, the frames of the callers and of the calls made inside
      one call taken off. *)

From stdpp Require Import gmap list sorting.
From Stdlib Require Import ZArith Lia.

Open Scope Z_scope.

(** ** Exceptions *)

Inductive exn : Set :=
  | AssertionError
  | IndexError
  | TypeError
  | ValueError
  | RecursionError.

Inductive result (A : Type) : Type :=
  | Ok (a : A)
  | Raise (e : exn).
Arguments Ok {A} a.
Arguments Raise {A} e.

#[global] Instance result_ret : MRet result := fun A a => Ok a.
#[global] Instance result_bind : MBind result := fun A B f m =>
  match m with
  | Ok a => f a
  | Raise e => Raise e
  end.

#[global] Instance exn_eq_dec : EqDecision exn.
Proof. solve_decision. Defined.

#[global] Instance result_eq_dec {A} `{EqDecision A} : EqDecision (result A).
Proof. solve_decision. Defined.

(** A [for] loop that threads a state and may raise. *)
Fixpoint foldM {A S : Type} (f : S -> A -> result S) (s : S) (l : list A)
  : result S :=
  match l with
  | [] => Ok s
  | x :: l => s' ← f s x; foldM f s' l
  end.

Fixpoint mapM_r {A B : Type} (f : A -> result B) (l : list A)
  : result (list B) :=
  match l with
  | [] => Ok []
  | x :: l => y ← f x; ys ← mapM_r f l; Ok (y :: ys)
  end.

(** ** The parts of numpy and Python the module uses *)

Module Np.

(** Storing into an array of dtype [int32]. *)
Definition to_int32 (z : Z) : Z := (z + 2 ^ 31) `mod` 2 ^ 32 - 2 ^ 31.

(** Arithmetic on [int64] values wraps around. *)
Definition to_int64 (z : Z) : Z := (z + 2 ^ 63) `mod` 2 ^ 64 - 2 ^ 63.

(** Storing an integer into an array of dtype [float64]: the nearest
    number with a significand of 53 bits, a tie going to the even
    significand.  The [float64] is written as the integer it is. *)
Definition to_float64 (z : Z) : Z :=
  let a := Z.abs z in
  if decide (a < 2 ^ 53) then z
  else
    let e := Z.log2 a - 52 in
    let q := a / 2 ^ e in
    let r := a `mod` 2 ^ e in
    let q := if decide (2 * r < 2 ^ e) then q
             else if decide (2 ^ e < 2 * r) then q + 1
             else if Z.even q then q else q + 1 in
    Z.sgn z * (q * 2 ^ e).

(** The order [np.argsort] sorts keyed positions by. *)
Definition key_le (p q : Z * nat) : Prop := p.1 ≤ q.1.

#[global] Instance key_le_dec p q : Decision (key_le p q).
Proof. unfold key_le. apply _. Defined.

(** [np.argsort(keys)].  All arrays sorted by the module hold pairwise
    distinct keys on well-formed input, where every sorting algorithm
    returns the same permutation. *)
Definition argsort (keys : list Z) : list nat :=
  (merge_sort key_le (zip keys (seq 0 (length keys)))).*2.

(** [a[mask]] for an integer index array [mask]. *)
Definition take_at {A} (a : list A) (mask : list nat) : list A :=
  omap (fun i => a !! i) mask.

(** [a[i]] for a Python integer [i]: a negative index counts from the
    end, an index out of range raises [IndexError]. *)
Definition norm_index (n : nat) (i : Z) : result nat :=
  if decide (0 ≤ i < Z.of_nat n) then Ok (Z.to_nat i)
  else if decide (- Z.of_nat n ≤ i < 0) then Ok (Z.to_nat (i + Z.of_nat n))
  else Raise IndexError.

Definition get {A} (a : list A) (i : Z) : result A :=
  k ← norm_index (length a) i;
  match a !! k with
  | Some x => Ok x
  | None => Raise IndexError
  end.

(** [a[lo:hi]] for [0 <= lo]. *)
Definition slice {A} (lo hi : nat) (a : list A) : list A :=
  take (hi - lo) (drop lo a).

(** [np.nonzero(mask)[0]] *)
Fixpoint nonzero_from (i : nat) (mask : list bool) : list nat :=
  match mask with
  | [] => []
  | b :: mask => if b then i :: nonzero_from (S i) mask
                 else nonzero_from (S i) mask
  end.
Definition nonzero (mask : list bool) : list nat := nonzero_from 0 mask.

(** [np.where(a == v)[0][0]]: the first position of [v], [IndexError]
    when [v] does not occur. *)
Fixpoint where_first_from (i : nat) (a : list Z) (v : Z) : result nat :=
  match a with
  | [] => Raise IndexError
  | x :: a => if decide (x = v) then Ok i else where_first_from (S i) a v
  end.
Definition where_first (a : list Z) (v : Z) : result nat :=
  where_first_from 0 a v.

(** [range(lo, hi)] *)
Definition range (lo hi : Z) : list Z := seqZ lo (hi - lo).

(** [np.amax(a)]; a zero-size array raises [ValueError]. *)
Definition amax (a : list Z) : result Z :=
  match a with
  | [] => Raise ValueError
  | x :: a => Ok (foldl Z.max x a)
  end.

Definition amin (a : list nat) : result nat :=
  match a with
  | [] => Raise ValueError
  | x :: a => Ok (foldl Nat.min x a)
  end.

(** [np.vstack(rows)]: at least one row, all of one length. *)
Definition vstack (rows : list (list Z)) : result (list (list Z)) :=
  match rows with
  | [] => Raise ValueError
  | r :: rs =>
      if decide (Forall (fun r' => length r' = length r) rs) then Ok rows
      else Raise ValueError
  end.

End Np.

(** ** class _region *)

Record region : Set := Region {
  ident : nat;               (* id(self) *)
  start : Z;
  stop : Z;
  region_pairs : list nat    (* indices into the base pair array *)
}.

#[global] Instance region_eq_dec : EqDecision region.
Proof. solve_decision. Defined.

#[global] Instance region_countable : Countable region.
Proof.
  refine (inj_countable'
            (fun r => (ident r, start r, stop r, region_pairs r))
            (fun t => match t with (i, s, e, p) => Region i s e p end) _).
  by intros [].
Defined.

(** [_region.__init__].  [ident] is the identity the new object gets.
    [np.array(region_pairs)] of an empty list has a float dtype, on which
    [base_pairs[...]] raises [IndexError] (and [np.min] of the empty
    selection would raise next). *)
Definition _region_init (id : nat) (base_pairs : list (Z * Z))
    (region_pairs : list nat) : result region :=
  rows ← mapM_r (fun i => Np.get base_pairs (Z.of_nat i)) region_pairs;
  match flat_map (fun p : Z * Z => [p.1; p.2]) rows with
  | [] => Raise IndexError
  | x :: xs => Ok (Region id (foldl Z.min x xs) (foldl Z.max x xs) region_pairs)
  end.

Definition get_index_mask (self : region) : list nat := region_pairs self.

(** [_region.get_score]: the cached value is the sum computed at the first
    call; [scoring] is the same array during one call of [pseudoknots].
    [np.sum] of an [int64] array is an [int64]. *)
Definition get_score (self : region) (scoring : list Z) : result Z :=
  vals ← mapM_r (fun i => Np.get scoring (Z.of_nat i)) (get_index_mask self);
  Ok (Np.to_int64 (foldl Z.add 0 vals)).

(** ** _find_regions *)

(** One pass of the scan over the sorted base pairs; the state is the
    list [region_pairs] under construction, the set [regions] and the
    number of regions created so far, which stands for the identity of
    the next [_region] object. *)
Definition find_regions_step (base_pairs : list (Z * Z))
    (original_indices : list nat) (downstream_rank : list Z)
    (st : list nat * gset region * nat) (i : nat)
  : result (list nat * gset region * nat) :=
  let '(region_pairs, regions, created) := st in
  orig ← Np.get original_indices (Z.of_nat i);
  if decide (length region_pairs = 0%nat) then
    Ok (region_pairs ++ [orig], regions, created)
  else
    previous_rank ← Np.get downstream_rank (Z.of_nat i - 1);
    this_rank ← Np.get downstream_rank (Z.of_nat i);
    if decide (previous_rank - this_rank ≠ 1) then
      reg ← _region_init created base_pairs region_pairs;
      Ok ([orig], {[reg]} ∪ regions, S created)
    else
      Ok (region_pairs ++ [orig], regions, created).

Definition _find_regions (base_pairs : list (Z * Z)) : result (gset region) :=
  (* np.sort(base_pairs, axis=1) *)
  let sorted_base_pairs :=
    (fun p : Z * Z => (Z.min p.1 p.2, Z.max p.1 p.2)) <$> base_pairs in
  let original_indices := Np.argsort (sorted_base_pairs.*1) in
  let sorted_base_pairs := Np.take_at sorted_base_pairs original_indices in
  let downstream_order := Np.argsort (sorted_base_pairs.*2) in
  let downstream_rank := Np.argsort (Z.of_nat <$> downstream_order) in
  '(region_pairs, regions, created) ←
    foldM (find_regions_step base_pairs original_indices
             (Z.of_nat <$> downstream_rank))
          ([], ∅, 0%nat) (seq 0 (length sorted_base_pairs));
  reg ← _region_init created base_pairs region_pairs;
  Ok ({[reg]} ∪ regions).

(** ** _get_region_array_for (called with one content function) *)

Definition _get_region_array_for {C} (regions : gset region)
    (content : region -> C * C) : list region * list C :=
  let regs := elements regions in
  let region_array := flat_map (fun reg => [reg; reg]) regs in
  let content_array :=
    flat_map (fun reg => [(content reg).1; (content reg).2]) regs in
  let index_array :=
    flat_map (fun reg => [Np.to_int32 (start reg); Np.to_int32 (stop reg)])
             regs in
  let sort_mask := Np.argsort index_array in
  (Np.take_at region_array sort_mask, Np.take_at content_array sort_mask).

(** ** _get_first_occurrence_for: [None] when the loop falls through *)

Fixpoint first_occurrence_from (i : nat) (array : list region)
    (wanted_value : region) : option nat :=
  match array with
  | [] => None
  | value :: array =>
      if decide (value = wanted_value) then Some i
      else first_occurrence_from (S i) array wanted_value
  end.

Definition _get_first_occurrence_for (array : list region)
    (wanted_value : region) : option nat :=
  first_occurrence_from 0 array wanted_value.

(** ** _remove_non_conflicting_regions *)

(** The [counts] of [np.unique(a, return_counts=True)]: one entry per
    distinct region of [a].  numpy lists them by [__lt__], that is by
    [id]; only their number and their minimum are used. *)
Definition unique_counts (a : list region) : list nat :=
  (fun reg => length (filter (reg =.) a))
    <$> elements (list_to_set a : gset region).

Definition conflict_step (region_array : list region)
    (to_remove : list region) (start_index : nat) : result (list region) :=
  reg ← Np.get region_array (Z.of_nat start_index);
  (* [None + int] raises TypeError *)
  stop_index ←
    match _get_first_occurrence_for (drop (start_index + 1) region_array) reg
    with
    | Some k => Ok k
    | None => Raise TypeError
    end;
  let stop_index := (start_index + 1 + stop_index)%nat in
  let counts :=
    unique_counts (Np.slice (start_index + 1) stop_index region_array) in
  if decide (length counts = 0%nat) then Ok (to_remove ++ [reg])
  else
    least ← Np.amin counts;
    if decide (least = 2%nat) then Ok (to_remove ++ [reg]) else Ok to_remove.

Definition _remove_non_conflicting_regions (regions : gset region)
  : result (gset region) :=
  let '(region_array, start_stops) :=
    _get_region_array_for regions (fun _ => (true, false)) in
  let starts := Np.nonzero start_stops in
  to_remove ← foldM (conflict_step region_array) [] starts;
  Ok (list_to_set (filter (fun reg => reg ∉ to_remove) region_array)).

(** ** _cluster_conflicts *)

Definition cluster_step (region_array : list region) (start_stops : list Z)
    (st : Z * nat * list (gset region)) (i : nat)
  : Z * nat * list (gset region) :=
  let '(total, start, clusters) := st in
  let total := total + default 0 (start_stops !! i) in
  if decide (total = 0) then
    (total, S i,
     clusters ++ [list_to_set (Np.slice start (i + 1) region_array)])
  else (total, start, clusters).

Definition _cluster_conflicts (regions : gset region) : list (gset region) :=
  let '(region_array, start_stops) :=
    _get_region_array_for regions
      (fun _ => (Np.to_int32 1, Np.to_int32 (-1))) in
  let '(total, start, clusters) :=
    foldl (cluster_step region_array start_stops) (0, 0%nat, [])
          (seq 0 (length start_stops)) in
  if decide (0 < length (drop start region_array))%nat then
    clusters ++ [list_to_set (drop start region_array)]
  else clusters.

(** ** _get_optimal_solutions *)

(** [dp_matrix[i, j]] of the square object array [dp_matrix]; a cell that
    was never assigned holds [None]. *)
Definition dp_at (n : nat) (dp_matrix : gmap (nat * nat) (list (gset region)))
    (i j : Z) : result (option (list (gset region))) :=
  i ← Np.norm_index n i;
  j ← Np.norm_index n j;
  Ok (dp_matrix !! (i, j)).

(** [for x in cell]: iterating over [None] raises [TypeError]. *)
Definition iterate {A} (cell : option (list A)) : result (list A) :=
  match cell with
  | Some xs => Ok xs
  | None => Raise TypeError
  end.

(** The [minimum] and [maximum] base position of a solution, [-1] for
    the empty solution. *)
Definition solution_span (solution : gset region) : Z * Z :=
  foldl (fun (mm : Z * Z) reg =>
           let '(minimum, maximum) := mm in
           if decide (minimum = -1 ∨ maximum = -1) then (start reg, stop reg)
           else (if decide (minimum > start reg) then start reg else minimum,
                 if decide (maximum < stop reg) then stop reg else maximum))
        (-1, -1) (elements solution).

(** The body of [for k in range(...)]: every union of a solution of
    [dp_matrix[i, k]] with one of [dp_matrix[k+1, j]]. *)
Definition add_subsolutions (n : nat)
    (dp_matrix : gmap (nat * nat) (list (gset region))) (i j : nat)
    (solution_candidates : gset (gset region)) (k : Z)
  : result (gset (gset region)) :=
  cell1 ← dp_at n dp_matrix (Z.of_nat i) k;
  cell2 ← dp_at n dp_matrix (k + 1) (Z.of_nat j);
  cell1 ← iterate cell1;
  foldM (fun cands subsolution1 =>
           cell2 ← iterate cell2;
           Ok (foldl (fun cands subsolution2 =>
                        {[subsolution1 ∪ subsolution2]} ∪ cands)
                     cands cell2))
        solution_candidates cell1.

(** The body of the loops over [left] and [bottom]; [highest] is
    [stops[0][l]] and [lowest] is [starts[1][b]]. *)
Definition add_pair (n : nat)
    (dp_matrix : gmap (nat * nat) (list (gset region)))
    (start_stops : list Z) (i j : nat)
    (solution1 : gset region) (highest : Z)
    (solution_candidates : gset (gset region))
    (sl : gset region * Z) : result (gset (gset region)) :=
  let '(solution2, lowest) := sl in
  if decide (highest < lowest) then
    Ok ({[solution1 ∪ solution2]} ∪ solution_candidates)
  else
    lo ← Np.where_first start_stops lowest;
    hi ← Np.where_first start_stops highest;
    foldM (add_subsolutions n dp_matrix i j) solution_candidates
          (Np.range (Z.of_nat lo - 1) (Z.of_nat hi + 1)).

(** [score = 0; for reg in solution: score += reg.get_score(scoring)]:
    the sum of [np.int64] scalars is an [np.int64]. *)
Definition solution_score (scoring : list Z) (solution : gset region)
  : result Z :=
  foldM (fun score reg =>
           s ← get_score reg scoring; Ok (Np.to_int64 (score + s)))
        0 (elements solution).

(** [scores[s] = score]: [scores] is the [float64] array of [np.zeros]. *)
Definition stored_score (scoring : list Z) (solution : gset region)
  : result Z :=
  score ← solution_score scoring solution;
  Ok (Np.to_float64 score).

(** The body of the two loops over the top right of the matrix. *)
Definition fill_cell (scoring : list Z) (n : nat)
    (region_array : list region) (start_stops : list Z) (j : nat)
    (dp_matrix : gmap (nat * nat) (list (gset region))) (i : nat)
  : result (gmap (nat * nat) (list (gset region))) :=
  left ← dp_at n dp_matrix (Z.of_nat i) (Z.of_nat j - 1);
  bottom ← dp_at n dp_matrix (Z.of_nat i + 1) (Z.of_nat j);
  left ← iterate left;
  bottom ← iterate bottom;
  let solution_candidates : gset (gset region) :=
    list_to_set left ∪ list_to_set bottom in
  reg_i ← Np.get region_array (Z.of_nat i);
  reg_j ← Np.get region_array (Z.of_nat j);
  solution_candidates ←
    (if decide (reg_i = reg_j) then
       bottom_left ← dp_at n dp_matrix (Z.of_nat i + 1) (Z.of_nat j - 1);
       bottom_left ← iterate bottom_left;
       Ok (list_to_set ((fun solution => solution ∪ {[reg_i]}) <$> bottom_left)
             ∪ solution_candidates)
     else Ok solution_candidates);
  solution_candidates ←
    (if existsb (fun solution => bool_decide (solution ≠ ∅)) left
        && existsb (fun solution => bool_decide (solution ≠ ∅)) bottom
     then
       let stops_left :=
         (fun solution => Np.to_int32 (solution_span solution).2) <$> left in
       let starts_bottom :=
         (fun solution => Np.to_int32 (solution_span solution).1) <$> bottom in
       foldM (fun cands (sh : gset region * Z) =>
                foldM (add_pair n dp_matrix start_stops i j sh.1 sh.2)
                      cands (zip bottom starts_bottom))
             solution_candidates (zip left stops_left)
     else Ok solution_candidates);
  let solution_candidates := elements solution_candidates in
  scores ← mapM_r (stored_score scoring) solution_candidates;
  best ← Np.amax scores;
  let highest_scores :=
    filter (fun ss : gset region * Z => ss.2 = best)
           (zip solution_candidates scores) in
  Ok (<[(i, j) := highest_scores.*1]> dp_matrix).

Definition _get_optimal_solutions (cluster : gset region) (scoring : list Z)
  : result (list (gset region)) :=
  let n := (size cluster * 2)%nat in
  let '(region_array, start_stops) :=
    _get_region_array_for cluster
      (fun a => (Np.to_int32 (start a), Np.to_int32 (stop a))) in
  let dp_matrix : gmap (nat * nat) (list (gset region)) :=
    foldl (fun dp i => <[(i, i) := [∅]]> dp) ∅ (seq 0 n) in
  dp_matrix ←
    foldM (fun dp j =>
             foldM (fill_cell scoring n region_array start_stops j) dp
                   (reverse (seq 0 j)))
          dp_matrix (seq 0 n);
  (* the caller takes [len] of the cell returned *)
  optimal_solutions ← dp_at n dp_matrix 0 (-1);
  iterate optimal_solutions.

(** ** _get_result_diff *)

(** [results[mask] += 1] on an [int32] row. *)
Definition increment_at (results : list Z) (mask : list nat)
  : result (list Z) :=
  if decide (Forall (fun i => (i < length results)%nat) mask) then
    Ok (imap (fun p v => if decide (p ∈ mask) then Np.to_int32 (v + 1) else v)
             results)
  else Raise IndexError.

(** [results + diff] on [int32] rows of one length. *)
Definition add_rows (results diff : list Z) : list Z :=
  zip_with (fun a b => Np.to_int32 (a + b)) results diff.

(** The body of the loop over the optimal solutions; [recurse] is the
    recursive call [_get_result_diff(next_cluster, scoring)]. *)
Definition result_diff_of_solution
    (recurse : gset region -> result (list (list Z)))
    (cluster : gset region) (scoring : list Z)
    (optimal_solution : gset region) : result (list (list Z)) :=
  let results := replicate (length scoring) 0 in
  let next_cluster := cluster ∖ optimal_solution in
  results ←
    foldM (fun results reg => increment_at results (get_index_mask reg))
          results (elements next_cluster);
  next_cluster ← _remove_non_conflicting_regions next_cluster;
  if decide (0 < size next_cluster)%nat then
    next_result_diff ← recurse next_cluster;
    Ok (map (add_rows results) next_result_diff)
  else Ok [results].

Fixpoint _get_result_diff (recursion_limit : nat) (cluster : gset region)
    (scoring : list Z) : result (list (list Z)) :=
  match recursion_limit with
  | O => Raise RecursionError
  | S recursion_limit =>
      optimal_solutions ← _get_optimal_solutions cluster scoring;
      results_diff ←
        mapM_r (result_diff_of_solution
                  (fun next_cluster =>
                     _get_result_diff recursion_limit next_cluster scoring)
                  cluster scoring)
               optimal_solutions;
      Ok (concat results_diff)
  end.

(** ** pseudoknots *)

Definition pseudoknots (recursion_limit : nat) (base_pairs : list (Z * Z))
    (scoring : option (list Z)) : result (list (list Z)) :=
  let results := [replicate (length base_pairs) 0] in
  let scoring := default (replicate (length base_pairs) 1) scoring in
  if decide (length base_pairs = length scoring) then
    regions ← _find_regions base_pairs;
    cleaned_regions ← _remove_non_conflicting_regions regions;
    let conflict_clusters := _cluster_conflicts cleaned_regions in
    results ←
      foldM (fun _ cluster => _get_result_diff recursion_limit cluster scoring)
            results conflict_clusters;
    Np.vstack results
  else Raise AssertionError.

(** ** The addresses of the [_region] objects *)

(** A [_region] object is hashed and compared by [id(self)], its address,
    which differs from one call of [pseudoknots] to the next.  Here
    [address k] is the address of the [k]-th [_region] object that
    [_find_regions] creates; [find_regions_step], [_find_regions] and
    [pseudoknots] above are the case in which it is [k]. *)
Definition find_regions_step_at (address : nat -> nat)
    (base_pairs : list (Z * Z))
    (original_indices : list nat) (downstream_rank : list Z)
    (st : list nat * gset region * nat) (i : nat)
  : result (list nat * gset region * nat) :=
  let '(region_pairs, regions, created) := st in
  orig ← Np.get original_indices (Z.of_nat i);
  if decide (length region_pairs = 0%nat) then
    Ok (region_pairs ++ [orig], regions, created)
  else
    previous_rank ← Np.get downstream_rank (Z.of_nat i - 1);
    this_rank ← Np.get downstream_rank (Z.of_nat i);
    if decide (previous_rank - this_rank ≠ 1) then
      reg ← _region_init (address created) base_pairs region_pairs;
      Ok ([orig], {[reg]} ∪ regions, S created)
    else
      Ok (region_pairs ++ [orig], regions, created).

Definition _find_regions_at (address : nat -> nat)
    (base_pairs : list (Z * Z)) : result (gset region) :=
  let sorted_base_pairs :=
    (fun p : Z * Z => (Z.min p.1 p.2, Z.max p.1 p.2)) <$> base_pairs in
  let original_indices := Np.argsort (sorted_base_pairs.*1) in
  let sorted_base_pairs := Np.take_at sorted_base_pairs original_indices in
  let downstream_order := Np.argsort (sorted_base_pairs.*2) in
  let downstream_rank := Np.argsort (Z.of_nat <$> downstream_order) in
  '(region_pairs, regions, created) ←
    foldM (find_regions_step_at address base_pairs original_indices
             (Z.of_nat <$> downstream_rank))
          ([], ∅, 0%nat) (seq 0 (length sorted_base_pairs));
  reg ← _region_init (address created) base_pairs region_pairs;
  Ok ({[reg]} ∪ regions).

Definition pseudoknots_at (address : nat -> nat) (recursion_limit : nat)
    (base_pairs : list (Z * Z)) (scoring : option (list Z))
  : result (list (list Z)) :=
  let results := [replicate (length base_pairs) 0] in
  let scoring := default (replicate (length base_pairs) 1) scoring in
  if decide (length base_pairs = length scoring) then
    regions ← _find_regions_at address base_pairs;
    cleaned_regions ← _remove_non_conflicting_regions regions;
    let conflict_clusters := _cluster_conflicts cleaned_regions in
    results ←
      foldM (fun _ cluster => _get_result_diff recursion_limit cluster scoring)
            results conflict_clusters;
    Np.vstack results
  else Raise AssertionError.

(** ** Notions of the specification *)

(** Two base pairs cross when their spans overlap without nesting. *)
Definition crossing_pairs (p q : Z * Z) : Prop :=
  let '(a, b) := (Z.min p.1 p.2, Z.max p.1 p.2) in
  let '(c, d) := (Z.min q.1 q.2, Z.max q.1 q.2) in
  (a < c ∧ c < b ∧ b < d) ∨ (c < a ∧ a < d ∧ d < b).

(** ** Inputs used below *)

(** Two crossing base pairs: one conflict cluster of two regions. *)
Definition crossing_input : list (Z * Z) := [(0, 2); (1, 3)].
Definition region_a : region := Region 0 0 2 [0%nat].
Definition region_b : region := Region 1 1 3 [1%nat].

(** Two separate pairs of crossing base pairs: two conflict clusters. *)
Definition two_cluster_input : list (Z * Z) := [(0, 2); (1, 3); (4, 6); (5, 7)].
Definition region_c : region := Region 2 4 6 [2%nat].
Definition region_d : region := Region 3 5 7 [3%nat].

(** Scenario B of the specification. *)
Definition nested_input : list (Z * Z) := [(0, 5); (1, 4); (2, 3)].

(** Two base pairs side by side inside a third: three regions, none of
    which crosses another. *)
Definition side_by_side_input : list (Z * Z) := [(0, 5); (1, 2); (3, 4)].

(** Two crossing base pairs inside a third: events A B C B' C' A'. *)
Definition wrapped_input : list (Z * Z) := [(0, 5); (1, 3); (2, 4)].
Definition wrap_a : region := Region 0 0 5 [0%nat].
Definition wrap_b : region := Region 1 1 3 [1%nat].
Definition wrap_c : region := Region 2 2 4 [2%nat].

(** Two crossing stacks of two base pairs each. *)
Definition stacked_input : list (Z * Z) := [(0, 7); (1, 6); (2, 9); (3, 8)].
Definition stack_a : region := Region 0 0 7 [0; 1]%nat.
Definition stack_b : region := Region 1 2 9 [2; 3]%nat.

(** ** Notions used in the verification *)

(** A computation that does not raise the error of the length check. *)
Definition unvalidated {A} (m : result A) : Prop := m ≠ Raise AssertionError.

(** The base pairs of the regions found so far: each belongs to one
    region only, and all were scanned before the pairs of the region
    under construction. *)
Definition scan_inv (original_indices : list nat) (i : nat)
    (st : list nat * gset region * nat) : Prop :=
  ∃ closed : list nat,
    closed ++ st.1.1 = take i original_indices
    ∧ (∀ reg p, reg ∈ st.1.2 → p ∈ region_pairs reg → p ∈ closed)
    ∧ (∀ reg1 reg2 p, reg1 ∈ st.1.2 → reg2 ∈ st.1.2 →
         p ∈ region_pairs reg1 → p ∈ region_pairs reg2 → reg1 = reg2).

(** All members of [reg] are at one order in [row]. *)
Definition same_order (row : list Z) (reg : region) : Prop :=
  ∃ order, ∀ p, p ∈ region_pairs reg → row !! p = Some order.

(** Every region of [regions] has its members at one order in [row]. *)
Definition uniform (regions : gset region) (row : list Z) : Prop :=
  ∀ reg, reg ∈ regions → same_order row reg.

(** The events of [regions] before they are sorted: base position,
    region and content of each start and each stop. *)
Definition events {C} (content : region -> C * C) (regs : list region)
  : list (Z * (region * C)) :=
  flat_map (fun reg => [(Np.to_int32 (start reg), (reg, (content reg).1));
                        (Np.to_int32 (stop reg), (reg, (content reg).2))])
           regs.

Definition event_le {C} (e1 e2 : Z * (region * C)) : Prop := e1.1 ≤ e2.1.

(** ** Notions used for the stages *)

(** Two regions cross when their spans overlap without nesting. *)
Definition crossing (a b : region) : Prop :=
  (start a < start b ∧ start b < stop a ∧ stop a < stop b)
  ∨ (start b < start a ∧ start a < stop b ∧ stop b < stop a).

#[global] Instance crossing_dec a b : Decision (crossing a b).
Proof. unfold crossing. apply _. Defined.

(** Two regions overlap when their spans share a base position: they
    cross or one of them lies inside the other. *)
Definition overlapping (a b : region) : Prop :=
  start a < stop b ∧ start b < stop a.

(** The regions of a well-formed input: non-negative [int32] base
    positions, every region spans at least one base pair, and no base
    position is an end of two regions. *)
Definition well_placed (regions : gset region) : Prop :=
  (∀ reg, reg ∈ regions →
     0 ≤ start reg ∧ start reg < stop reg ∧ stop reg < 2 ^ 31)
  ∧ (∀ reg1 reg2, reg1 ∈ regions → reg2 ∈ regions → reg1 ≠ reg2 →
       start reg1 ≠ start reg2 ∧ start reg1 ≠ stop reg2
       ∧ stop reg1 ≠ stop reg2).

(** [region_array] holds, in the strict order of the base positions
    [keys], the start and the stop of every region of [regions]. *)
Definition event_array (regions : gset region) (region_array : list region)
    (keys : list Z) : Prop :=
  length region_array = length keys
  ∧ StronglySorted Z.lt keys
  ∧ (∀ reg, reg ∈ regions → start reg < stop reg)
  ∧ (∀ i reg, region_array !! i = Some reg →
       reg ∈ regions
       ∧ (keys !! i = Some (start reg) ∨ keys !! i = Some (stop reg)))
  ∧ (∀ reg, reg ∈ regions →
       ∃ s e, region_array !! s = Some reg ∧ keys !! s = Some (start reg)
              ∧ region_array !! e = Some reg ∧ keys !! e = Some (stop reg)).

(** [s] and [e] are the positions of the start and of the stop of [reg]
    in the event sequence. *)
Definition ends (region_array : list region) (keys : list Z) (reg : region)
    (s e : nat) : Prop :=
  region_array !! s = Some reg ∧ keys !! s = Some (start reg)
  ∧ region_array !! e = Some reg ∧ keys !! e = Some (stop reg).

(** No region has its start before the position [b] of the event
    sequence and its stop at or after it. *)
Definition closed_at (region_array : list region) (keys : list Z) (b : nat)
  : Prop :=
  ∀ reg s e, ends region_array keys reg s e → (s < b)%nat → (e < b)%nat.

(** A cluster of the sweep: the regions of the events from [b1] up to
    [b2], two positions at which no region is open. *)
Definition cluster_between (region_array : list region) (keys : list Z)
    (b1 b2 : nat) (cluster : gset region) : Prop :=
  (b1 ≤ b2)%nat ∧ closed_at region_array keys b1
  ∧ closed_at region_array keys b2
  ∧ cluster = list_to_set (Np.slice b1 b2 region_array).

(** The clusters of a list have no region in common. *)
Definition pairwise_disjoint (clusters : list (gset region)) : Prop :=
  ∀ i j c1 c2, (i < j)%nat → clusters !! i = Some c1 →
    clusters !! j = Some c2 → c1 ## c2.

(** The regions that are open before the event at [m] of the sweep, as
    many as the running counter [total]. *)
Definition open_before (region_array : list region) (keys : list Z)
    (m : nat) (total : Z) : Prop :=
  ∃ open : list region,
    NoDup open ∧ total = Z.of_nat (length open)
    ∧ ∀ reg, reg ∈ open
        ↔ ∃ s e, ends region_array keys reg s e ∧ (s < m)%nat ∧ (m ≤ e)%nat.

(** The state of the sweep of [_cluster_conflicts] after the events
    before [m]. *)
Definition sweep_inv (region_array : list region) (keys : list Z) (m : nat)
    (st : Z * nat * list (gset region)) : Prop :=
  (st.1.2 ≤ m)%nat
  ∧ closed_at region_array keys st.1.2
  ∧ open_before region_array keys m st.1.1
  ∧ Forall (fun cluster =>
              ∃ b1 b2, (b2 ≤ st.1.2)%nat
                       ∧ cluster_between region_array keys b1 b2 cluster) st.2
  ∧ pairwise_disjoint st.2.

(** The scan of [_find_regions] after [i] base pairs: every base pair
    scanned so far is in the region under construction or in a region of
    the set, and every region of the set is the object [_region] builds
    from its members. *)
Definition scan_cover (base_pairs : list (Z * Z)) (original_indices : list nat)
    (i : nat) (st : list nat * gset region * nat) : Prop :=
  (∀ p, p ∈ take i original_indices →
     p ∈ st.1.1 ∨ ∃ reg, reg ∈ st.1.2 ∧ p ∈ region_pairs reg)
  ∧ (∀ reg, reg ∈ st.1.2 →
       _region_init (ident reg) base_pairs (region_pairs reg) = Ok reg).

(** A well-formed input: at least one base pair, base positions that are
    non-negative [int32] values, and no base in two base pairs. *)
Definition well_formed (base_pairs : list (Z * Z)) : Prop :=
  base_pairs ≠ []
  ∧ Forall (fun p : Z * Z => 0 ≤ p.1 < 2 ^ 31 ∧ 0 ≤ p.2 < 2 ^ 31) base_pairs
  ∧ NoDup (flat_map (fun p : Z * Z => [p.1; p.2]) base_pairs).

#[global] Instance well_formed_dec base_pairs : Decision (well_formed base_pairs).
Proof. unfold well_formed. apply _. Defined.

(** [solution] is a set of regions of [cluster] that have both ends
    between the positions [a] and [b] of the event array, and no two of
    them cross. *)
Definition inside (region_array : list region) (keys : list Z)
    (cluster : gset region) (a b : nat) (solution : gset region) : Prop :=
  (∀ reg, reg ∈ solution →
     reg ∈ cluster
     ∧ ∃ s e, ends region_array keys reg s e ∧ (a ≤ s)%nat ∧ (e ≤ b)%nat)
  ∧ (∀ reg1 reg2, reg1 ∈ solution → reg2 ∈ solution → ¬ crossing reg1 reg2).

(** A cell of the matrix: at least one solution, no solution twice, all
    of one score, each a crossing-free set of regions between [a] and
    [b]. *)
Definition cell_ok (scoring : list Z) (region_array : list region)
    (keys : list Z) (cluster : gset region) (a b : nat)
    (solutions : list (gset region)) : Prop :=
  solutions ≠ []
  ∧ NoDup solutions
  ∧ (∃ best, ∀ solution, solution ∈ solutions →
       stored_score scoring solution = Ok best)
  ∧ (∀ solution, solution ∈ solutions →
       inside region_array keys cluster a b solution).

(** The matrix while column [j] is filled from the bottom, the cells
    [(a, j)] with [m <= a] being done: only cells of the diagonal, of the
    columns before [j] and those are assigned. *)
Definition dp_inv (scoring : list Z) (region_array : list region)
    (keys : list Z) (cluster : gset region) (j m : nat)
    (dp_matrix : gmap (nat * nat) (list (gset region))) : Prop :=
  ∀ a b solutions, dp_matrix !! (a, b) = Some solutions →
    (a ≤ b)%nat
    ∧ ((a < b)%nat → (b < j)%nat ∨ (b = j ∧ (m ≤ a)%nat))
    ∧ cell_ok scoring region_array keys cluster a b solutions.

(** The cells that are assigned while column [j] is filled, and their
    solutions: a cell with a region between its two positions does not
    hold the empty solution. *)
Definition dp_full (region_array : list region) (keys : list Z) (n j m : nat)
    (dp_matrix : gmap (nat * nat) (list (gset region))) : Prop :=
  (∀ a b, (a ≤ b)%nat → (b < n)%nat →
     a = b ∨ (b < j)%nat ∨ (b = j ∧ (m ≤ a)%nat) →
     is_Some (dp_matrix !! (a, b)))
  ∧ (∀ a b solutions reg s e,
       dp_matrix !! (a, b) = Some solutions →
       ends region_array keys reg s e → (a ≤ s)%nat → (e ≤ b)%nat →
       ∅ ∉ solutions).

(** The two steps of [fill_cell] that add candidates: the solutions
    inside a region whose two ends are at [i] and [j], and the unions of
    a solution of the cell on the left with one of the cell below. *)
Definition wrapped_candidates (n : nat)
    (dp_matrix : gmap (nat * nat) (list (gset region))) (i j : nat)
    (reg_i reg_j : region) (solution_candidates : gset (gset region))
  : result (gset (gset region)) :=
  if decide (reg_i = reg_j) then
    bottom_left ← dp_at n dp_matrix (Z.of_nat i + 1) (Z.of_nat j - 1);
    bottom_left ← iterate bottom_left;
    Ok (list_to_set ((fun solution => solution ∪ {[reg_i]}) <$> bottom_left)
          ∪ solution_candidates)
  else Ok solution_candidates.

Definition crossed_candidates (n : nat)
    (dp_matrix : gmap (nat * nat) (list (gset region)))
    (start_stops : list Z) (i j : nat) (left bottom : list (gset region))
    (solution_candidates : gset (gset region))
  : result (gset (gset region)) :=
  if existsb (fun solution => bool_decide (solution ≠ ∅)) left
     && existsb (fun solution => bool_decide (solution ≠ ∅)) bottom
  then
    let stops_left :=
      (fun solution => Np.to_int32 (solution_span solution).2) <$> left in
    let starts_bottom :=
      (fun solution => Np.to_int32 (solution_span solution).1) <$> bottom in
    foldM (fun cands (sh : gset region * Z) =>
             foldM (add_pair n dp_matrix start_stops i j sh.1 sh.2)
                   cands (zip bottom starts_bottom))
          solution_candidates (zip left stops_left)
  else Ok solution_candidates.

(** The clusters [_get_result_diff] is called with: regions of a
    well-formed input with members in the range of [scoring], every one
    crossing another one of the cluster. *)
Definition conflicting (scoring : list Z) (cluster : gset region) : Prop :=
  well_placed cluster
  ∧ (∀ reg, reg ∈ cluster → ∃ reg', reg' ∈ cluster ∧ crossing reg reg')
  ∧ (∀ reg, reg ∈ cluster →
       region_pairs reg ≠ []
       ∧ ∀ p, p ∈ region_pairs reg → (p < length scoring)%nat).

(** A result: at least one row, every row with one entry per base
    pair. *)
Definition rows_of (n : nat) (rows : list (list Z)) : Prop :=
  rows ≠ [] ∧ Forall (fun row => length row = n) rows.

(** All members of [reg] are at the order [k] in [row]. *)
Definition order_of (row : list Z) (reg : region) (k : Z) : Prop :=
  ∀ p, p ∈ region_pairs reg → row !! p = Some k.

#[global] Instance order_of_dec row reg k : Decision (order_of row reg k).
Proof.
  refine (cast_if (decide (Forall (fun p => row !! p = Some k)
                             (region_pairs reg))));
    unfold order_of; by rewrite <- Forall_forall.
Defined.

(** No base pair is a member of two regions of [regions]. *)
Definition disjoint_members (regions : gset region) : Prop :=
  ∀ reg1 reg2 p, reg1 ∈ regions → reg2 ∈ regions →
    p ∈ region_pairs reg1 → p ∈ region_pairs reg2 → reg1 = reg2.

(** [row] gives every region of [cluster] an order of at most [limit],
    regions of one order do not cross, and the base pairs outside the
    regions of [cluster] are at order 0. *)
Definition layered (n limit : nat) (cluster : gset region) (row : list Z)
  : Prop :=
  length row = n
  ∧ (∀ p, (p < n)%nat → (∀ reg, reg ∈ cluster → p ∉ region_pairs reg) →
       row !! p = Some 0)
  ∧ ∃ ord : region → nat,
      (∀ reg, reg ∈ cluster →
         (ord reg ≤ limit)%nat ∧ order_of row reg (Z.of_nat (ord reg)))
      ∧ (∀ reg1 reg2, reg1 ∈ cluster → reg2 ∈ cluster →
           ord reg1 = ord reg2 → ¬ crossing reg1 reg2).

(** The notions above can be decided on an input. *)
#[global] Instance well_placed_dec regions : Decision (well_placed regions).
Proof.
  refine (cast_if
    (decide (set_Forall (fun reg => 0 ≤ start reg ∧ start reg < stop reg
                                    ∧ stop reg < 2 ^ 31) regions
             ∧ set_Forall (fun reg1 => set_Forall (fun reg2 =>
                 reg1 ≠ reg2 →
                 start reg1 ≠ start reg2 ∧ start reg1 ≠ stop reg2
                 ∧ stop reg1 ≠ stop reg2) regions) regions)));
    unfold well_placed, set_Forall in *;
    match goal with H : _ |- _ => revert H end.
  - intros [H1 H2]. split; [exact H1|]. intros r1 r2 Hr1 Hr2. by apply H2.
  - intros Hno [H1 H2]. apply Hno. split; [exact H1|].
    intros r1 Hr1 r2 Hr2. by apply H2.
Defined.

#[global] Instance disjoint_members_dec regions :
  Decision (disjoint_members regions).
Proof.
  refine (cast_if
    (decide (set_Forall (fun reg1 => set_Forall (fun reg2 =>
               Forall (fun p => p ∈ region_pairs reg2 → reg1 = reg2)
                      (region_pairs reg1)) regions) regions)));
    unfold disjoint_members, set_Forall in *;
    match goal with H : _ |- _ => revert H end.
  - intros Hall r1 r2 p Hr1 Hr2 Hp1 Hp2.
    specialize (Hall r1 Hr1 r2 Hr2). rewrite Forall_forall in Hall.
    by apply (Hall p).
  - intros Hno Hall. apply Hno. intros r1 Hr1 r2 Hr2. apply Forall_forall.
    intros p Hp1 Hp2. by apply (Hall r1 r2 p).
Defined.

#[global] Instance conflicting_dec scoring cluster :
  Decision (conflicting scoring cluster).
Proof.
  refine (cast_if
    (decide (well_placed cluster
             ∧ set_Forall (fun reg =>
                 set_Exists (fun reg' => crossing reg reg') cluster) cluster
             ∧ set_Forall (fun reg =>
                 region_pairs reg ≠ []
                 ∧ Forall (fun p => (p < length scoring)%nat)
                          (region_pairs reg)) cluster)));
    unfold conflicting, set_Forall, set_Exists in *;
    match goal with H : _ |- _ => revert H end.
  - intros (H1 & H2 & H3). split; [exact H1|]. split; [exact H2|].
    intros reg Hreg. destruct (H3 reg Hreg) as [Hne Hall].
    split; [exact Hne|]. by apply Forall_forall.
  - intros Hno (H1 & H2 & H3). apply Hno. split; [exact H1|].
    split; [exact H2|].
    intros reg Hreg. destruct (H3 reg Hreg) as [Hne Hall].
    split; [exact Hne|]. by apply Forall_forall.
Defined.

(** The base pairs scanned at the positions [a] to [b - 1] follow each
    other in the ranks of their second bases, each one rank below the one
    before. *)
Definition chain (ranks : list nat) (a b : nat) : Prop :=
  ∀ t, (a < t)%nat → (t < b)%nat →
    ∃ r, ranks !! (t - 1)%nat = Some (S r) ∧ ranks !! t = Some r.

(** The scan of [_find_regions] after [i] base pairs: the members of the
    region under construction and of every region of the set were
    scanned one after the other and form a chain. *)
Definition scan_chain (original_indices ranks : list nat) (i : nat)
    (st : list nat * gset region * nat) : Prop :=
  (∃ a, (a ≤ i)%nat ∧ st.1.1 = Np.slice a i original_indices
        ∧ chain ranks a i)
  ∧ (∀ reg, reg ∈ st.1.2 →
       ∃ a b, (b ≤ i)%nat ∧ region_pairs reg = Np.slice a b original_indices
              ∧ chain ranks a b).

(** The base pair [q] lies inside the base pair [p]. *)
Definition nested_in (p q : Z * Z) : Prop :=
  Z.min p.1 p.2 ≤ Z.min q.1 q.2 ∧ Z.max q.1 q.2 ≤ Z.max p.1 p.2.

(** Between the positions [b1] and [b2] of the event array some region
    is open at every position: it started before and stops there or
    later. *)
Definition linked (region_array : list region) (keys : list Z)
    (b1 b2 : nat) : Prop :=
  ∀ m, (b1 < m)%nat → (m < b2)%nat →
    ∃ reg s e, ends region_array keys reg s e ∧ (s < m)%nat ∧ (m ≤ e)%nat.

(** The sweep of [_cluster_conflicts] keeps the regions of a cluster
    linked. *)
Definition sweep_linked (region_array : list region) (keys : list Z)
    (m : nat) (st : Z * nat * list (gset region)) : Prop :=
  ((st.1.2 < m)%nat → st.1.1 ≠ 0)
  ∧ linked region_array keys st.1.2 m
  ∧ Forall (fun cluster =>
              ∃ b1 b2, cluster_between region_array keys b1 b2 cluster
                       ∧ linked region_array keys b1 b2) st.2.

(** The scores of the members of a region, and of the regions of a set,
    added up as integers without bound. *)
Definition weight (scoring : list Z) (reg : region) : Z :=
  foldl Z.add 0 ((fun p => default 0 (scoring !! p)) <$> region_pairs reg).

Definition total_weight (scoring : list Z) (regs : list region) : Z :=
  foldr (fun reg acc => weight scoring reg + acc) 0 regs.

Definition solution_weight (scoring : list Z) (solution : gset region) : Z :=
  total_weight scoring (elements solution).

(** The scores of the regions of a cluster add up to less than [2 ^ 53]:
    then, for positive scores, no sum of scores wraps around and no
    score is rounded when it is stored. *)
Definition exact_scores (scoring : list Z) (cluster : gset region) : Prop :=
  solution_weight scoring cluster < 2 ^ 53.

#[global] Instance exact_scores_dec scoring cluster :
  Decision (exact_scores scoring cluster).
Proof. unfold exact_scores. apply _. Defined.

(** No crossing-free set of regions between the two positions of a cell
    scores higher than the solutions of the cell. *)
Definition dp_opt (scoring : list Z) (region_array : list region)
    (keys : list Z) (cluster : gset region)
    (dp_matrix : gmap (nat * nat) (list (gset region))) : Prop :=
  ∀ a b solutions solution other,
    dp_matrix !! (a, b) = Some solutions → solution ∈ solutions →
    inside region_array keys cluster a b other →
    solution_weight scoring other ≤ solution_weight scoring solution.

(** Every crossing-free set of regions between the two positions of a
    cell that scores as high as a solution of the cell is a solution of
    the cell. *)
Definition dp_complete (scoring : list Z) (region_array : list region)
    (keys : list Z) (cluster : gset region)
    (dp_matrix : gmap (nat * nat) (list (gset region))) : Prop :=
  ∀ a b solutions solution other,
    dp_matrix !! (a, b) = Some solutions → solution ∈ solutions →
    inside region_array keys cluster a b other →
    solution_weight scoring solution ≤ solution_weight scoring other →
    other ∈ solutions.

(** * Verification *)

(** ** The exception monad *)

Lemma bind_Ok {A B} (f : A -> result B) (a : A) : (Ok a ≫= f) = f a.
Proof. reflexivity. Qed.

Lemma bind_inv_Ok {A B} (f : A -> result B) (m : result A) (b : B) :
  (m ≫= f) = Ok b → ∃ a, m = Ok a ∧ f a = Ok b.
Proof. destruct m as [a|e]; [eauto | discriminate]. Qed.

(** An invariant of a loop holds of its final state. *)
Lemma foldM_invariant {A S} (P : S -> Prop) (f : S -> A -> result S)
    (l : list A) (s s' : S) :
  (∀ s x s', x ∈ l → P s → f s x = Ok s' → P s') →
  P s → foldM f s l = Ok s' → P s'.
Proof.
  revert s. induction l as [|x l IH]; intros s Hstep Hs Hrun.
  - by injection Hrun as <-.
  - simpl in Hrun. apply bind_inv_Ok in Hrun as (s1 & Hx & Hrun).
    eapply IH; [ | | exact Hrun].
    + intros ???? ; apply Hstep. by right.
    + eapply Hstep; [by left | exact Hs | exact Hx].
Qed.

Lemma mapM_r_inv {A B} (f : A -> result B) (l : list A) (ys : list B) :
  mapM_r f l = Ok ys → Forall2 (fun x y => f x = Ok y) l ys.
Proof.
  revert ys. induction l as [|x l IH]; intros ys H.
  - injection H as <-. constructor.
  - simpl in H. apply bind_inv_Ok in H as (y & Hy & H).
    apply bind_inv_Ok in H as (ys' & Hys & H). injection H as <-.
    constructor; auto.
Qed.

(** ** Evaluation on closed inputs *)

(** Decides a closed equation by evaluating its decision procedure; sets
    are compared without normalising the proofs they carry. *)
Ltac by_evaluation :=
  match goal with
  | |- ?P => apply (bool_decide_eq_true_1 P); vm_compute; reflexivity
  end.

(** ** Exceptions other than the failed assertion *)

Lemma unvalidated_Ok {A} (a : A) : unvalidated (Ok a).
Proof. discriminate. Qed.

Lemma unvalidated_bind {A B} (m : result A) (f : A -> result B) :
  unvalidated m → (∀ a, unvalidated (f a)) → unvalidated (m ≫= f).
Proof.
  destruct m as [a|e]; intros Hm Hf; [apply Hf|].
  intros H. apply Hm. by injection H as ->.
Qed.

Lemma unvalidated_foldM {A S} (f : S -> A -> result S) (s : S) (l : list A) :
  (∀ s x, unvalidated (f s x)) → unvalidated (foldM f s l).
Proof.
  intros Hf. revert s. induction l as [|x l IH]; intros s; simpl.
  - apply unvalidated_Ok.
  - apply unvalidated_bind; auto.
Qed.

Lemma unvalidated_mapM_r {A B} (f : A -> result B) (l : list A) :
  (∀ x, unvalidated (f x)) → unvalidated (mapM_r f l).
Proof.
  intros Hf. induction l as [|x l IH]; simpl.
  - apply unvalidated_Ok.
  - apply unvalidated_bind; [apply Hf|]. intros y.
    apply unvalidated_bind; [apply IH|]. intros ys. apply unvalidated_Ok.
Qed.

Create HintDb unvalidated.

(** Walks through a monadic body: binds, loops, branches. *)
Ltac unvalidated_step :=
  first
    [ apply unvalidated_Ok
    | discriminate
    | solve [ auto with unvalidated ]
    | apply unvalidated_bind; [ | intros ? ]
    | apply unvalidated_foldM; intros ? ?
    | apply unvalidated_mapM_r; intros ?
    | progress (cbv zeta)
    | case_decide
    | case_match ].

Ltac unvalidated_tac := repeat unvalidated_step.

Lemma unvalidated_norm_index n i : unvalidated (Np.norm_index n i).
Proof. unfold Np.norm_index, unvalidated. repeat case_decide; discriminate. Qed.
#[global] Hint Resolve unvalidated_norm_index : unvalidated.

Lemma unvalidated_get {A} (a : list A) i : unvalidated (Np.get a i).
Proof. unfold Np.get. unvalidated_tac. Qed.
#[global] Hint Resolve unvalidated_get : unvalidated.

Lemma unvalidated_where_first_from i a v :
  unvalidated (Np.where_first_from i a v).
Proof. revert i. induction a as [|x a IH]; intros i; simpl; unvalidated_tac. Qed.
#[global] Hint Resolve unvalidated_where_first_from : unvalidated.

Lemma unvalidated_amax a : unvalidated (Np.amax a).
Proof. destruct a; discriminate. Qed.
Lemma unvalidated_amin a : unvalidated (Np.amin a).
Proof. destruct a; discriminate. Qed.
Lemma unvalidated_vstack rows : unvalidated (Np.vstack rows).
Proof. unfold Np.vstack. unvalidated_tac. Qed.
#[global] Hint Resolve unvalidated_amax unvalidated_amin unvalidated_vstack
  : unvalidated.

Lemma unvalidated_region_init id base_pairs region_pairs :
  unvalidated (_region_init id base_pairs region_pairs).
Proof. unfold _region_init. unvalidated_tac. Qed.
#[global] Hint Resolve unvalidated_region_init : unvalidated.

Lemma unvalidated_get_score self scoring : unvalidated (get_score self scoring).
Proof. unfold get_score. unvalidated_tac. Qed.
#[global] Hint Resolve unvalidated_get_score : unvalidated.

Lemma unvalidated_find_regions base_pairs :
  unvalidated (_find_regions base_pairs).
Proof.
  unfold _find_regions, find_regions_step. unvalidated_tac.
Qed.

Lemma unvalidated_remove_non_conflicting regions :
  unvalidated (_remove_non_conflicting_regions regions).
Proof.
  unfold _remove_non_conflicting_regions, conflict_step. unvalidated_tac.
Qed.
#[global] Hint Resolve unvalidated_find_regions
  unvalidated_remove_non_conflicting : unvalidated.

Lemma unvalidated_dp_at n dp i j : unvalidated (dp_at n dp i j).
Proof. unfold dp_at. unvalidated_tac. Qed.
Lemma unvalidated_iterate {A} (cell : option (list A)) :
  unvalidated (iterate cell).
Proof. destruct cell; discriminate. Qed.
#[global] Hint Resolve unvalidated_dp_at unvalidated_iterate : unvalidated.

Lemma unvalidated_add_pair n dp start_stops i j s1 highest cands sl :
  unvalidated (add_pair n dp start_stops i j s1 highest cands sl).
Proof.
  unfold add_pair, Np.where_first. unvalidated_tac.
Qed.
#[global] Hint Resolve unvalidated_add_pair : unvalidated.

Lemma unvalidated_fill_cell scoring n region_array start_stops j dp i :
  unvalidated (fill_cell scoring n region_array start_stops j dp i).
Proof.
  unfold fill_cell. unvalidated_tac.
Qed.
#[global] Hint Resolve unvalidated_fill_cell : unvalidated.

Lemma unvalidated_optimal_solutions cluster scoring :
  unvalidated (_get_optimal_solutions cluster scoring).
Proof. unfold _get_optimal_solutions. unvalidated_tac. Qed.
#[global] Hint Resolve unvalidated_optimal_solutions : unvalidated.

Lemma unvalidated_increment_at results mask :
  unvalidated (increment_at results mask).
Proof. unfold increment_at. unvalidated_tac. Qed.
#[global] Hint Resolve unvalidated_increment_at : unvalidated.

Lemma unvalidated_result_diff limit cluster scoring :
  unvalidated (_get_result_diff limit cluster scoring).
Proof.
  revert cluster. induction limit as [|limit IH]; intros cluster; simpl.
  - discriminate.
  - unfold result_diff_of_solution. unvalidated_tac.
Qed.
#[global] Hint Resolve unvalidated_result_diff : unvalidated.

(** ** The length check of [pseudoknots] *)

(** C3.  [pseudoknots] raises the error of its length check exactly when
    an explicit scoring vector is given whose length differs from the
    number of base pairs.  The error is raised whatever the base pairs
    are, also for those on which region detection itself would raise, and
    no later stage (region detection, filtering, clustering, solving,
    stacking) can raise it: it is the only validated failure. *)
Theorem scoring_length_mismatch (limit : nat) (base_pairs : list (Z * Z))
    (scoring : option (list Z)) :
  pseudoknots limit base_pairs scoring = Raise AssertionError
  ↔ ∃ sc, scoring = Some sc ∧ length sc ≠ length base_pairs.
Proof.
  unfold pseudoknots. split.
  - intros H. case_decide as Hlen.
    + exfalso. revert H. change (unvalidated
        (regions ← _find_regions base_pairs;
         cleaned_regions ← _remove_non_conflicting_regions regions;
         results ← foldM
           (fun _ cluster =>
              _get_result_diff limit cluster
                (default (replicate (length base_pairs) 1) scoring))
           [replicate (length base_pairs) 0]
           (_cluster_conflicts cleaned_regions);
         Np.vstack results)).
      unvalidated_tac.
    + destruct scoring as [sc|]; simpl in Hlen.
      * exists sc. split; [reflexivity | congruence].
      * rewrite length_replicate in Hlen. contradiction.
  - intros (sc & -> & Hlen). simpl. case_decide; congruence.
Qed.

Lemma scoring_length_mismatch_witness :
  length [1] ≠ length crossing_input
  ∧ pseudoknots 10 crossing_input (Some [1]) = Raise AssertionError.
Proof.
  split; [discriminate|].
  apply scoring_length_mismatch. exists [1]. split; [reflexivity | discriminate].
Defined.

(** ** Sorting by keys *)

Lemma argsort_Permutation (keys : list Z) :
  Np.argsort keys ≡ₚ seq 0 (length keys).
Proof.
  unfold Np.argsort. rewrite merge_sort_Permutation.
  rewrite snd_zip; [reflexivity|]. by rewrite length_seq.
Qed.

Lemma argsort_NoDup (keys : list Z) : NoDup (Np.argsort keys).
Proof. rewrite argsort_Permutation. apply NoDup_seq. Qed.

Lemma argsort_bound (keys : list Z) (i : nat) :
  i ∈ Np.argsort keys → (i < length keys)%nat.
Proof. rewrite argsort_Permutation, elem_of_seq. lia. Qed.

Lemma elem_of_take_at {A} (a : list A) (mask : list nat) (x : A) :
  x ∈ Np.take_at a mask → x ∈ a.
Proof.
  unfold Np.take_at. rewrite list_elem_of_omap.
  intros (i & _ & Hi). by eapply list_elem_of_lookup_2.
Qed.

Lemma get_of_nat {A} (a : list A) (i : nat) (x : A) :
  Np.get a (Z.of_nat i) = Ok x → a !! i = Some x.
Proof.
  unfold Np.get, Np.norm_index. intros H.
  case_decide as Hi.
  - rewrite bind_Ok, Nat2Z.id in H. destruct (a !! i); congruence.
  - case_decide; [lia | discriminate].
Qed.

(** ** Arrays ordered by [np.argsort] *)

Lemma take_at_fmap {A B} (f : A -> B) (a : list A) (mask : list nat) :
  Np.take_at (f <$> a) mask = f <$> Np.take_at a mask.
Proof.
  unfold Np.take_at. induction mask as [|i mask IH]; [reflexivity|].
  simpl. rewrite list_lookup_fmap.
  destruct (a !! i); simpl; fold (@omap list _); by rewrite IH.
Qed.

Lemma take_at_seq {A} (a1 a2 : list A) :
  Np.take_at (a1 ++ a2) (seq (length a1) (length a2)) = a2.
Proof.
  unfold Np.take_at. revert a1.
  induction a2 as [|x a2 IH]; intros a1; [reflexivity|]. simpl.
  rewrite lookup_app_r, Nat.sub_diag by lia. simpl. f_equal.
  specialize (IH (a1 ++ [x])).
  rewrite length_app, <- app_assoc in IH. simpl in IH.
  by rewrite Nat.add_1_r in IH.
Qed.

Lemma take_at_Permutation {A} (a : list A) (mask : list nat) :
  mask ≡ₚ seq 0 (length a) → Np.take_at a mask ≡ₚ a.
Proof.
  intros Hmask. pose proof (take_at_seq [] a) as Hseq.
  unfold Np.take_at in *. simpl in Hseq. by rewrite Hmask, Hseq.
Qed.

(** The keys read through the sorting permutation are in ascending
    order. *)
Lemma argsort_Sorted (keys : list Z) :
  Sorted Z.le (Np.take_at keys (Np.argsort keys)).
Proof.
  unfold Np.argsort.
  set (sorted := merge_sort Np.key_le (zip keys (seq 0 (length keys)))).
  assert (Hall : Forall (fun p : Z * nat => keys !! p.2 = Some p.1) sorted).
  { apply Forall_forall. intros [k i] Hin.
    apply (elem_of_Permutation_proper _ _ _ (merge_sort_Permutation _ _)) in Hin.
    apply list_elem_of_lookup in Hin as [j Hj].
    apply lookup_zip_with_Some in Hj as (k' & i' & [= -> ->] & Hk & Hi).
    apply lookup_seq in Hi as [-> _]. exact Hk. }
  assert (Hsorted : Sorted Np.key_le sorted).
  { apply Sorted_merge_sort. intros p q. unfold Np.key_le. lia. }
  clearbody sorted. unfold Np.take_at.
  induction Hsorted as [|p l Hl IH Hhd]; [constructor|].
  apply Forall_cons in Hall as [Hp Hall]. simpl. rewrite Hp. simpl.
  constructor; [by apply IH|].
  destruct Hhd as [|q l Hpq]; [constructor|].
  apply Forall_cons in Hall as [Hq _]. simpl. rewrite Hq. simpl.
  constructor. exact Hpq.
Qed.

(** ** The event sequence of a set of regions *)

#[global] Instance events_Permutation {C} (content : region -> C * C) :
  Proper ((≡ₚ) ==> (≡ₚ)) (events content).
Proof. intros regs1 regs2 Hperm. unfold events. by rewrite Hperm. Qed.

#[global] Instance event_le_trans {C} : Transitive (@event_le C).
Proof. unfold event_le. intros e1 e2 e3. lia. Qed.

Lemma events_keys {C} (content : region -> C * C) (regs : list region) :
  (events content regs).*1
  = flat_map (fun reg => [Np.to_int32 (start reg); Np.to_int32 (stop reg)])
             regs.
Proof.
  induction regs as [|reg regs IH]; [reflexivity|].
  simpl. do 2 f_equal. exact IH.
Qed.

Lemma events_regions {C} (content : region -> C * C) (regs : list region) :
  (fun e => e.2.1) <$> events content regs
  = flat_map (fun reg => [reg; reg]) regs.
Proof.
  induction regs as [|reg regs IH]; [reflexivity|].
  simpl. do 2 f_equal. exact IH.
Qed.

Lemma events_content {C} (content : region -> C * C) (regs : list region) :
  (fun e => e.2.2) <$> events content regs
  = flat_map (fun reg => [(content reg).1; (content reg).2]) regs.
Proof.
  induction regs as [|reg regs IH]; [reflexivity|].
  simpl. do 2 f_equal. exact IH.
Qed.

Lemma events_sorted_by_keys {C} (l : list (Z * (region * C))) :
  Sorted Z.le (l.*1) → Sorted event_le l.
Proof.
  induction l as [|e l IH]; intros Hsorted; [constructor|].
  rewrite fmap_cons in Hsorted. apply Sorted_inv in Hsorted as [Hl Hhd].
  constructor; [by apply IH|].
  destruct l as [|e' l]; [constructor|].
  rewrite fmap_cons in Hhd. apply HdRel_inv in Hhd. by constructor.
Qed.

(** [_get_region_array_for] returns the events in the order of their
    base positions. *)
Lemma region_array_events {C} (regions : gset region)
    (content : region -> C * C) :
  ∃ sorted : list (Z * (region * C)),
    sorted ≡ₚ events content (elements regions)
    ∧ Sorted event_le sorted
    ∧ _get_region_array_for regions content
      = ((fun e => e.2.1) <$> sorted, (fun e => e.2.2) <$> sorted).
Proof.
  set (evs := events content (elements regions)).
  exists (Np.take_at evs (Np.argsort (evs.*1))). split; [|split].
  - apply take_at_Permutation.
    by rewrite argsort_Permutation, length_fmap.
  - apply events_sorted_by_keys. rewrite <- take_at_fmap.
    apply argsort_Sorted.
  - unfold _get_region_array_for.
    rewrite <- (events_keys content), <- (events_regions content),
      <- (events_content content).
    by rewrite !take_at_fmap.
Qed.

(** Events at pairwise distinct positions have one ascending order. *)
Lemma region_array_unique {C} (regions : gset region)
    (content : region -> C * C) (ordered : list (Z * (region * C))) :
  ordered ≡ₚ events content (elements regions) →
  Sorted event_le ordered →
  (∀ e1 e2, e1 ∈ ordered → e2 ∈ ordered → e1.1 = e2.1 → e1 = e2) →
  _get_region_array_for regions content
  = ((fun e => e.2.1) <$> ordered, (fun e => e.2.2) <$> ordered).
Proof.
  intros Hperm Hord Hinj.
  destruct (region_array_events regions content)
    as (sorted & Hperm' & Hsorted & ->).
  assert (sorted = ordered) as ->; [|reflexivity].
  apply (Sorted_unique_strong event_le); auto.
  - intros e1 e2 H1 H2 H12 H21. apply Hinj; auto.
    + by rewrite Hperm, <- Hperm'.
    + unfold event_le in *. lia.
  - by rewrite Hperm.
Qed.

Lemma to_int32_small (z : Z) :
  - 2 ^ 31 ≤ z < 2 ^ 31 → Np.to_int32 z = z.
Proof. intros H. unfold Np.to_int32. rewrite Z.mod_small; lia. Qed.

(** ** Regions share no base pair *)

Lemma region_init_pairs id base_pairs pairs reg :
  _region_init id base_pairs pairs = Ok reg → region_pairs reg = pairs.
Proof.
  unfold _region_init. intros H.
  apply bind_inv_Ok in H as (rows & _ & H).
  destruct (flat_map _ rows); [discriminate|]. by injection H as <-.
Qed.

Lemma scan_inv_close original_indices i closed pairs regions reg :
  NoDup original_indices →
  closed ++ pairs = take i original_indices →
  (∀ reg p, reg ∈ regions → p ∈ region_pairs reg → p ∈ closed) →
  (∀ reg1 reg2 p, reg1 ∈ regions → reg2 ∈ regions →
     p ∈ region_pairs reg1 → p ∈ region_pairs reg2 → reg1 = reg2) →
  region_pairs reg = pairs →
  (∀ reg' p, reg' ∈ ({[reg]} ∪ regions : gset region) →
     p ∈ region_pairs reg' → p ∈ closed ++ pairs)
  ∧ (∀ reg1 reg2 p, reg1 ∈ ({[reg]} ∪ regions : gset region) →
       reg2 ∈ ({[reg]} ∪ regions : gset region) →
       p ∈ region_pairs reg1 → p ∈ region_pairs reg2 → reg1 = reg2).
Proof.
  intros Hnd Htake Hclosed Hdisj Hreg.
  assert (Hsep : ∀ p, p ∈ closed → p ∉ pairs).
  { assert (NoDup (closed ++ pairs)) as Hnd'.
    { rewrite Htake. eapply sublist_NoDup; [exact Hnd|].
      apply sublist_take. }
    apply NoDup_app in Hnd'. tauto. }
  split.
  - intros reg' p [->%elem_of_singleton | Hin]%elem_of_union Hp.
    + rewrite Hreg in Hp. apply elem_of_app. by right.
    + apply elem_of_app. left. by eapply Hclosed.
  - intros reg1 reg2 p [->%elem_of_singleton | H1]%elem_of_union
                        [->%elem_of_singleton | H2]%elem_of_union Hp1 Hp2.
    + reflexivity.
    + rewrite Hreg in Hp1. exfalso. eapply Hsep; [|exact Hp1]. eauto.
    + rewrite Hreg in Hp2. exfalso. eapply Hsep; [|exact Hp2]. eauto.
    + eauto.
Qed.

Lemma scan_inv_step base_pairs original_indices downstream_rank i st st' :
  NoDup original_indices →
  scan_inv original_indices i st →
  find_regions_step base_pairs original_indices downstream_rank st i = Ok st' →
  scan_inv original_indices (S i) st'.
Proof.
  intros Hnd (closed & Htake & Hclosed & Hdisj) Hstep.
  destruct st as [[pairs regions] created]. simpl in *.
  apply bind_inv_Ok in Hstep as (orig & Horig%get_of_nat & Hstep).
  assert (Hext : closed ++ pairs ++ [orig] = take (S i) original_indices).
  { by rewrite (take_S_r _ _ _ Horig), <- Htake, app_assoc. }
  assert (Hkeep : scan_inv original_indices (S i)
                    (pairs ++ [orig], regions, created)).
  { exists closed. simpl. auto. }
  case_decide.
  { by injection Hstep as <-. }
  apply bind_inv_Ok in Hstep as (previous_rank & _ & Hstep).
  apply bind_inv_Ok in Hstep as (this_rank & _ & Hstep).
  case_decide.
  - apply bind_inv_Ok in Hstep as (reg & Hreg%region_init_pairs & Hstep).
    injection Hstep as <-.
    destruct (scan_inv_close original_indices i closed pairs regions reg)
      as [Hclosed' Hdisj']; auto.
    exists (closed ++ pairs). simpl. split; [|split]; auto.
    by rewrite <- app_assoc.
  - by injection Hstep as <-.
Qed.

Lemma scan_inv_loop base_pairs original_indices downstream_rank n i st st' :
  NoDup original_indices →
  scan_inv original_indices i st →
  foldM (find_regions_step base_pairs original_indices downstream_rank)
        st (seq i n) = Ok st' →
  scan_inv original_indices (i + n) st'.
Proof.
  intros Hnd. revert i st.
  induction n as [|n IH]; intros i st Hinv Hrun; simpl in Hrun.
  - injection Hrun as <-. by rewrite Nat.add_0_r.
  - apply bind_inv_Ok in Hrun as (st1 & Hstep & Hrun).
    replace (i + S n)%nat with (S i + n)%nat by lia.
    eapply IH; [|exact Hrun]. by eapply scan_inv_step.
Qed.

(** The regions of [_find_regions] partition the base pairs they hold:
    a base pair is a member of one region only, and every member is the
    position of a base pair of the input. *)
Lemma find_regions_disjoint (base_pairs : list (Z * Z))
    (regions : gset region) :
  _find_regions base_pairs = Ok regions →
  (∀ reg p, reg ∈ regions → p ∈ region_pairs reg →
     (p < length base_pairs)%nat)
  ∧ (∀ reg1 reg2 p, reg1 ∈ regions → reg2 ∈ regions →
       p ∈ region_pairs reg1 → p ∈ region_pairs reg2 → reg1 = reg2).
Proof.
  unfold _find_regions. intros H.
  set (sorted := (fun p : Z * Z => (Z.min p.1 p.2, Z.max p.1 p.2))
                   <$> base_pairs) in *.
  set (original_indices := Np.argsort (sorted.*1)) in *.
  apply bind_inv_Ok in H as ([[pairs regs] created] & Hloop & H).
  apply bind_inv_Ok in H as (reg & Hreg%region_init_pairs & H).
  injection H as <-.
  assert (Hnd : NoDup original_indices) by apply argsort_NoDup.
  eapply (scan_inv_loop _ _ _ _ 0) in Hloop; [|exact Hnd|].
  - destruct Hloop as (closed & Htake & Hclosed & Hdisj). simpl in *.
    destruct (scan_inv_close original_indices _ closed pairs regs reg
                Hnd Htake Hclosed Hdisj Hreg) as [Hclosed' Hdisj'].
    split; [|exact Hdisj'].
    intros reg' p Hin Hp. specialize (Hclosed' _ _ Hin Hp).
    rewrite Htake in Hclosed'.
    apply subseteq_take, argsort_bound in Hclosed'.
    unfold sorted in Hclosed'. by rewrite !length_fmap in Hclosed'.
  - exists []. simpl. split; [by rewrite take_0|].
    split; intros *; set_solver.
Qed.

(** ** Region detection raises on the empty input only *)

Lemma argsort_length (keys : list Z) :
  length (Np.argsort keys) = length keys.
Proof. by rewrite argsort_Permutation, length_seq. Qed.

Lemma get_in_range {A} (a : list A) (i : Z) :
  - Z.of_nat (length a) ≤ i < Z.of_nat (length a) → ∃ x, Np.get a i = Ok x.
Proof.
  intros Hi. unfold Np.get, Np.norm_index. case_decide.
  - rewrite bind_Ok. destruct (a !! Z.to_nat i) as [x|] eqn:Hx; [eauto|].
    apply lookup_ge_None in Hx. lia.
  - rewrite decide_True by lia. rewrite bind_Ok.
    destruct (a !! Z.to_nat (i + Z.of_nat (length a))) as [x|] eqn:Hx; [eauto|].
    apply lookup_ge_None in Hx. lia.
Qed.

Lemma region_init_total (id : nat) (base_pairs : list (Z * Z))
    (pairs : list nat) :
  pairs ≠ [] →
  Forall (fun p => (p < length base_pairs)%nat) pairs →
  ∃ reg, _region_init id base_pairs pairs = Ok reg.
Proof.
  intros Hne Hall. unfold _region_init.
  assert (Hrows : ∃ rows, mapM_r (fun i => Np.get base_pairs (Z.of_nat i)) pairs
                          = Ok rows ∧ length rows = length pairs).
  { clear Hne. induction Hall as [|p pairs Hp _ (rows & Hrows & Hlen)].
    - by exists [].
    - destruct (get_in_range base_pairs (Z.of_nat p)) as [x Hx]; [lia|].
      exists (x :: rows). simpl. rewrite Hx, bind_Ok, Hrows, bind_Ok.
      by rewrite Hlen. }
  destruct Hrows as (rows & -> & Hlen). rewrite bind_Ok.
  destruct rows as [|row rows]; [by destruct pairs|]. simpl. eauto.
Qed.

(** The region under construction is not empty after a pass, and holds
    positions of base pairs. *)
Lemma find_regions_step_total base_pairs original_indices downstream_rank
    (st : list nat * gset region * nat) (i : nat) :
  length original_indices = length downstream_rank →
  Forall (fun p => (p < length base_pairs)%nat) original_indices →
  (i < length original_indices)%nat →
  Forall (fun p => (p < length base_pairs)%nat) st.1.1 →
  ∃ st', find_regions_step base_pairs original_indices downstream_rank st i
         = Ok st'
         ∧ st'.1.1 ≠ []
         ∧ Forall (fun p => (p < length base_pairs)%nat) st'.1.1.
Proof.
  intros Hlen Hbound Hi Hpairs. destruct st as [[pairs regions] created].
  simpl in Hpairs. unfold find_regions_step.
  destruct (get_in_range original_indices (Z.of_nat i)) as [orig Horig]; [lia|].
  rewrite Horig, bind_Ok.
  assert (Horig' : (orig < length base_pairs)%nat).
  { apply get_of_nat, list_elem_of_lookup_2 in Horig.
    by eapply Forall_forall in Hbound. }
  assert (Hgrow : Forall (fun p => (p < length base_pairs)%nat)
                         (pairs ++ [orig])).
  { apply Forall_app. split; [exact Hpairs|]. by apply Forall_singleton. }
  case_decide as Hempty.
  { eexists. split; [reflexivity|]. simpl. split; [|exact Hgrow].
    by destruct pairs. }
  destruct (get_in_range downstream_rank (Z.of_nat i - 1)) as [prev ->]; [lia|].
  destruct (get_in_range downstream_rank (Z.of_nat i)) as [this ->]; [lia|].
  rewrite !bind_Ok. case_decide.
  - destruct (region_init_total created base_pairs pairs) as [reg ->];
      [by destruct pairs | exact Hpairs |].
    rewrite bind_Ok. eexists. split; [reflexivity|]. simpl.
    split; [done|]. by apply Forall_singleton.
  - eexists. split; [reflexivity|]. simpl. split; [|exact Hgrow].
    by destruct pairs.
Qed.

Lemma find_regions_total (base_pairs : list (Z * Z)) :
  base_pairs ≠ [] → ∃ regions, _find_regions base_pairs = Ok regions.
Proof.
  intros Hne. unfold _find_regions.
  set (sorted := (fun p : Z * Z => (Z.min p.1 p.2, Z.max p.1 p.2))
                   <$> base_pairs).
  set (original_indices := Np.argsort (sorted.*1)).
  set (reordered := Np.take_at sorted original_indices).
  set (downstream_rank :=
         Z.of_nat <$> Np.argsort (Z.of_nat <$> Np.argsort (reordered.*2))).
  assert (Hn : length original_indices = length base_pairs).
  { unfold original_indices, sorted. by rewrite argsort_length, !length_fmap. }
  assert (Hreordered : length reordered = length base_pairs).
  { unfold reordered. rewrite take_at_Permutation.
    - unfold sorted. by rewrite length_fmap.
    - unfold original_indices. by rewrite argsort_Permutation, length_fmap. }
  assert (Hrank : length original_indices = length downstream_rank).
  { unfold downstream_rank.
    by rewrite length_fmap, argsort_length, length_fmap, argsort_length,
      length_fmap, Hreordered. }
  assert (Hbound : Forall (fun p => (p < length base_pairs)%nat)
                          original_indices).
  { apply Forall_forall. intros p Hp%argsort_bound.
    unfold sorted in Hp. by rewrite !length_fmap in Hp. }
  assert (Hloop : ∀ n i st,
             (i + n ≤ length original_indices)%nat →
             Forall (fun p => (p < length base_pairs)%nat) st.1.1 →
             (n = 0%nat → st.1.1 ≠ []) →
             ∃ st', foldM (find_regions_step base_pairs original_indices
                             downstream_rank) st (seq i n) = Ok st'
                    ∧ st'.1.1 ≠ []
                    ∧ Forall (fun p => (p < length base_pairs)%nat) st'.1.1).
  { induction n as [|n IH]; intros i st Hi Hst Hst0.
    - exists st. auto.
    - destruct (find_regions_step_total base_pairs original_indices
                  downstream_rank st i Hrank Hbound)
        as (st1 & Hstep & Hne1 & Hst1); [lia | exact Hst |].
      destruct (IH (S i) st1) as (st' & Hrun & Hst'); [lia | exact Hst1 | done |].
      exists st'. simpl. by rewrite Hstep. }
  destruct (Hloop (length reordered) 0%nat ([], ∅, 0%nat))
    as ([[pairs regions] created] & -> & Hpairs & Hall).
  - lia.
  - constructor.
  - rewrite Hreordered. by destruct base_pairs.
  - rewrite bind_Ok. simpl in Hpairs, Hall.
    destruct (region_init_total created base_pairs pairs Hpairs Hall)
      as [reg ->].
    rewrite bind_Ok. eauto.
Qed.

(** ** The stages return regions they were given *)

Lemma region_array_subset {C} (regions : gset region)
    (content : region -> C * C) (reg : region) :
  reg ∈ (_get_region_array_for regions content).1 → reg ∈ regions.
Proof.
  unfold _get_region_array_for. simpl. intros H%elem_of_take_at.
  apply list_elem_of_In, in_flat_map in H as (reg' & Hreg' & Hin).
  apply list_elem_of_In, elem_of_elements in Hreg'.
  destruct Hin as [<- | [<- | []]]; exact Hreg'.
Qed.

Lemma remove_non_conflicting_subset (regions cleaned : gset region) :
  _remove_non_conflicting_regions regions = Ok cleaned → cleaned ⊆ regions.
Proof.
  unfold _remove_non_conflicting_regions.
  pose proof (region_array_subset regions (fun _ => (true, false))) as Hsub.
  destruct (_get_region_array_for regions (fun _ => (true, false)))
    as [region_array start_stops]. simpl in Hsub.
  intros H. apply bind_inv_Ok in H as (to_remove & _ & H).
  injection H as <-. intros reg Hreg.
  apply elem_of_list_to_set, list_elem_of_filter in Hreg as [_ Hreg]. auto.
Qed.

Lemma cluster_step_subset (regions : gset region)
    (region_array : list region) (start_stops : list Z)
    (st : Z * nat * list (gset region)) (i : nat) :
  (∀ reg, reg ∈ region_array → reg ∈ regions) →
  Forall (fun cluster => cluster ⊆ regions) st.2 →
  Forall (fun cluster => cluster ⊆ regions)
         (cluster_step region_array start_stops st i).2.
Proof.
  intros Hsub Hst. destruct st as [[total first] clusters].
  unfold cluster_step. case_decide; simpl; [|exact Hst].
  apply Forall_app. split; [exact Hst|].
  apply Forall_singleton. intros reg Hreg.
  apply elem_of_list_to_set in Hreg. apply Hsub.
  unfold Np.slice in Hreg. by apply subseteq_take, subseteq_drop in Hreg.
Qed.

Lemma cluster_conflicts_subset (regions cluster : gset region) :
  cluster ∈ _cluster_conflicts regions → cluster ⊆ regions.
Proof.
  unfold _cluster_conflicts.
  pose proof (region_array_subset regions
                (fun _ => (Np.to_int32 1, Np.to_int32 (-1)))) as Hsub.
  destruct (_get_region_array_for regions _) as [region_array start_stops].
  simpl in Hsub.
  assert (Hall : ∀ l st,
             Forall (fun cluster => cluster ⊆ regions) st.2 →
             Forall (fun cluster => cluster ⊆ regions)
                    (foldl (cluster_step region_array start_stops) st l).2).
  { induction l as [|i l IH]; intros st Hst; [exact Hst|].
    simpl. apply IH. by apply cluster_step_subset. }
  specialize (Hall (seq 0 (length start_stops)) (0, 0%nat, [])
                (Forall_nil_2 _)).
  destruct (foldl _ _ _) as [[total first] clusters]. simpl in Hall.
  rewrite Forall_forall in Hall.
  case_decide; [|by apply Hall].
  intros [Hin | ->%list_elem_of_singleton]%elem_of_app; [by apply Hall|].
  intros reg Hreg. apply elem_of_list_to_set in Hreg.
  by apply Hsub, (subseteq_drop first).
Qed.

(** ** Empty input *)

(** C4.  On an empty base pair array the scan of [_find_regions] makes no
    pass, and the region closed after the scan is built from an empty
    [region_pairs]: [_region.__init__] raises, and so does [pseudoknots],
    with and without a scoring vector.  No matrix is returned. *)
Theorem empty_input_raises (limit : nat) :
  _find_regions [] = Raise IndexError
  ∧ pseudoknots limit [] None = Raise IndexError
  ∧ pseudoknots limit [] (Some []) = Raise IndexError.
Proof. repeat split. Qed.

(** ** Input without conflicts *)

Lemma cluster_conflicts_empty : _cluster_conflicts ∅ = [].
Proof. reflexivity. Qed.

(** ** The scenarios of the specification *)

(** Scenario A: [(0, 3)] and [(1, 4)] cross, [(5, 6)] is isolated; the two
    tied rows are returned and the isolated pair is at order 0. *)
Example scenario_a (limit : nat) :
  ∃ rows, pseudoknots (S limit) [(0, 3); (1, 4); (5, 6)] None = Ok rows
          ∧ rows ≡ₚ [[0; 1; 0]; [1; 0; 0]].
Proof. eexists. split; [vm_compute; reflexivity|]. solve_Permutation. Qed.

(** Scenario B: fully nested base pairs form one region. *)
Example scenario_b (limit : nat) :
  pseudoknots limit nested_input None = Ok [[0; 0; 0]].
Proof. reflexivity. Qed.

(** ** A wrapper around two crossing regions *)

Lemma get_nat {A} (a : list A) (i : nat) (x : A) :
  a !! i = Some x → Np.get a (Z.of_nat i) = Ok x.
Proof.
  intros H. unfold Np.get, Np.norm_index.
  pose proof (lookup_lt_Some _ _ _ H).
  rewrite decide_True by lia. by rewrite bind_Ok, Nat2Z.id, H.
Qed.

Lemma amin_constant (k : nat) (counts : list nat) :
  counts ≠ [] → Forall (eq k) counts → Np.amin counts = Ok k.
Proof.
  destruct counts as [|c counts]; [done|]. intros _ Hall.
  apply Forall_cons in Hall as [<- Hall]. simpl. f_equal.
  induction Hall as [|c counts <- _ IH]; [reflexivity|].
  simpl. by rewrite Nat.min_id.
Qed.

(** When every region of [a] occurs [k] times in [a], the counts of
    [np.unique] are all [k]. *)
Lemma unique_counts_constant (k : nat) (a : list region) :
  a ≠ [] →
  (∀ reg, reg ∈ a → length (filter (reg =.) a) = k) →
  length (unique_counts a) ≠ 0%nat ∧ Np.amin (unique_counts a) = Ok k.
Proof.
  intros Hne Hk. unfold unique_counts.
  assert (Hcounts : (fun reg : region => length (filter (reg =.) a))
                      <$> elements (list_to_set a : gset region) ≠ []).
  { destruct a as [|reg a]; [done|]. intros Hnil.
    apply fmap_nil_inv, elements_empty_inv in Hnil.
    apply (not_elem_of_empty (C := gset region) reg). rewrite <- Hnil.
    apply elem_of_list_to_set. by left. }
  split.
  - by destruct (_ <$> _).
  - apply amin_constant; [exact Hcounts|].
    apply Forall_fmap, Forall_forall. intros reg Hreg. simpl. symmetry.
    apply Hk. by apply elem_of_elements, elem_of_list_to_set in Hreg.
Qed.

Lemma elements_three (x y z : region) :
  x ≠ y → x ≠ z → y ≠ z →
  elements ({[x; y; z]} : gset region) ≡ₚ [x; y; z].
Proof.
  intros Hxy Hxz Hyz. apply NoDup_Permutation; [apply NoDup_elements| |].
  - rewrite !NoDup_cons, !not_elem_of_cons. repeat split; auto.
    + apply not_elem_of_nil.
    + apply not_elem_of_nil.
    + apply not_elem_of_nil.
    + apply NoDup_nil_2.
  - intros reg.
    rewrite elem_of_elements, !elem_of_union, !elem_of_singleton.
    rewrite !elem_of_cons, elem_of_nil. tauto.
Qed.

Section Wrapper.

Variables outer left_inner right_inner : region.

(** The events are ordered A B C B' C' A', at [int32] base positions. *)
Hypothesis positions :
  - 2 ^ 31 ≤ start outer ∧ start outer < start left_inner
  ∧ start left_inner < start right_inner
  ∧ start right_inner < stop left_inner
  ∧ stop left_inner < stop right_inner
  ∧ stop right_inner < stop outer ∧ stop outer < 2 ^ 31.

Lemma wrapper_distinct :
  outer ≠ left_inner ∧ outer ≠ right_inner ∧ left_inner ≠ right_inner
  ∧ left_inner ≠ outer ∧ right_inner ≠ outer ∧ right_inner ≠ left_inner.
Proof. repeat split; intros Heq; rewrite Heq in positions; lia. Qed.

Lemma wrapper_region_array {C} (content : region -> C * C) :
  _get_region_array_for {[outer; left_inner; right_inner]} content
  = ([outer; left_inner; right_inner; left_inner; right_inner; outer],
     [(content outer).1; (content left_inner).1; (content right_inner).1;
      (content left_inner).2; (content right_inner).2; (content outer).2]).
Proof.
  destruct wrapper_distinct as (? & ? & ? & ? & ? & ?).
  rewrite (region_array_unique _ _
    [(start outer, (outer, (content outer).1));
     (start left_inner, (left_inner, (content left_inner).1));
     (start right_inner, (right_inner, (content right_inner).1));
     (stop left_inner, (left_inner, (content left_inner).2));
     (stop right_inner, (right_inner, (content right_inner).2));
     (stop outer, (outer, (content outer).2))]); [reflexivity| | |].
  - rewrite elements_three by done.
    unfold events. simpl. rewrite !to_int32_small by lia.
    solve_Permutation.
  - repeat constructor; unfold event_le; simpl; lia.
  - intros e1 e2 He1 He2 Hkey.
    rewrite !elem_of_cons, elem_of_nil in He1, He2.
    destruct_or!; subst; simpl in Hkey; try reflexivity; lia.
Qed.

Ltac decide_regions :=
  repeat first [ rewrite decide_True by done | rewrite decide_False by done ].

Lemma wrapper_step_outer (to_remove : list region) :
  conflict_step
    [outer; left_inner; right_inner; left_inner; right_inner; outer]
    to_remove 0
  = Ok (to_remove ++ [outer]).
Proof.
  destruct wrapper_distinct as (? & ? & ? & ? & ? & ?).
  unfold conflict_step.
  rewrite (get_nat _ 0 outer) by reflexivity. rewrite bind_Ok.
  unfold _get_first_occurrence_for. simpl. decide_regions.
  rewrite bind_Ok.
  destruct (unique_counts_constant 2
              [left_inner; right_inner; left_inner; right_inner])
    as [Hlen Hmin]; [done| |].
  { intros reg Hreg. rewrite !elem_of_cons, elem_of_nil in Hreg.
    destruct_or!; subst; rewrite !filter_cons, filter_nil;
      decide_regions; done. }
  cbv zeta. unfold Np.slice. simpl.
  rewrite decide_False by exact Hlen. rewrite Hmin, bind_Ok.
  by rewrite decide_True.
Qed.

Lemma wrapper_step_left (to_remove : list region) :
  conflict_step
    [outer; left_inner; right_inner; left_inner; right_inner; outer]
    to_remove 1
  = Ok to_remove.
Proof.
  destruct wrapper_distinct as (? & ? & ? & ? & ? & ?).
  unfold conflict_step.
  rewrite (get_nat _ 1 left_inner) by reflexivity. rewrite bind_Ok.
  unfold _get_first_occurrence_for. simpl. decide_regions.
  rewrite bind_Ok.
  destruct (unique_counts_constant 1 [right_inner]) as [Hlen Hmin]; [done| |].
  { intros reg Hreg. rewrite !elem_of_cons, elem_of_nil in Hreg.
    destruct_or!; subst; rewrite !filter_cons, filter_nil;
      decide_regions; done. }
  cbv zeta. unfold Np.slice. simpl.
  rewrite decide_False by exact Hlen. rewrite Hmin, bind_Ok.
  by rewrite decide_False.
Qed.

Lemma wrapper_step_right (to_remove : list region) :
  conflict_step
    [outer; left_inner; right_inner; left_inner; right_inner; outer]
    to_remove 2
  = Ok to_remove.
Proof.
  destruct wrapper_distinct as (? & ? & ? & ? & ? & ?).
  unfold conflict_step.
  rewrite (get_nat _ 2 right_inner) by reflexivity. rewrite bind_Ok.
  unfold _get_first_occurrence_for. simpl. decide_regions.
  rewrite bind_Ok.
  destruct (unique_counts_constant 1 [left_inner]) as [Hlen Hmin]; [done| |].
  { intros reg Hreg. rewrite !elem_of_cons, elem_of_nil in Hreg.
    destruct_or!; subst; rewrite !filter_cons, filter_nil;
      decide_regions; done. }
  cbv zeta. unfold Np.slice. simpl.
  rewrite decide_False by exact Hlen. rewrite Hmin, bind_Ok.
  by rewrite decide_False.
Qed.

Lemma wrapper_filtered :
  _remove_non_conflicting_regions {[outer; left_inner; right_inner]}
  = Ok {[left_inner; right_inner]}.
Proof.
  destruct wrapper_distinct as (? & ? & ? & ? & ? & ?).
  unfold _remove_non_conflicting_regions.
  rewrite wrapper_region_array. cbv beta iota zeta.
  change (Np.nonzero _) with [0; 1; 2]%nat.
  cbn [foldM].
  rewrite wrapper_step_outer, bind_Ok, wrapper_step_left, bind_Ok.
  rewrite wrapper_step_right, !bind_Ok. f_equal.
  change ([] ++ [outer]) with [outer].
  apply set_eq. intros reg.
  rewrite elem_of_list_to_set, list_elem_of_filter.
  rewrite !elem_of_cons, !elem_of_nil, elem_of_union, !elem_of_singleton.
  split.
  - intros [Hkeep Hreg].
    destruct_or!; subst; auto; exfalso; apply Hkeep; auto.
  - intros [-> | ->]; (split; [|auto 10]); by intros [? | []].
Qed.

End Wrapper.

(** C6, as amended.  For three regions whose events are ordered
    A B C B' C' A' the filter removes the wrapper A: every region with an
    event inside the span of A has both events there.  B and C, which
    cross, are the surviving set. *)
Theorem wrapper_is_removed (outer left_inner right_inner : region) :
  - 2 ^ 31 ≤ start outer →
  start outer < start left_inner →
  start left_inner < start right_inner →
  start right_inner < stop left_inner →
  stop left_inner < stop right_inner →
  stop right_inner < stop outer →
  stop outer < 2 ^ 31 →
  (_get_region_array_for {[outer; left_inner; right_inner]}
     (fun _ => (true, false))).1
  = [outer; left_inner; right_inner; left_inner; right_inner; outer]
  ∧ _remove_non_conflicting_regions {[outer; left_inner; right_inner]}
    = Ok {[left_inner; right_inner]}.
Proof.
  intros. split.
  - by rewrite wrapper_region_array.
  - by apply wrapper_filtered.
Qed.

Lemma wrapper_is_removed_witness :
  _remove_non_conflicting_regions {[wrap_a; wrap_b; wrap_c]}
  = Ok {[wrap_b; wrap_c]}.
Proof.
  apply (wrapper_is_removed wrap_a wrap_b wrap_c); simpl; lia.
Defined.

(** C6, as stated, fails on [wrapped_input]: its regions have the events
    A B C B' C' A', and the wrapper A is not in the surviving set. *)
Lemma wrapper_not_kept :
  _find_regions wrapped_input = Ok {[wrap_a; wrap_b; wrap_c]}
  ∧ (_get_region_array_for {[wrap_a; wrap_b; wrap_c]}
       (fun _ => (true, false))).1
    = [wrap_a; wrap_b; wrap_c; wrap_b; wrap_c; wrap_a]
  ∧ ∃ cleaned,
      _remove_non_conflicting_regions {[wrap_a; wrap_b; wrap_c]} = Ok cleaned
      ∧ wrap_a ∉ cleaned.
Proof.
  split; [by_evaluation|]. split; [by_evaluation|].
  exists {[wrap_b; wrap_c]}. split; by_evaluation.
Qed.

(** ** Orders of the members of a region *)

Section RegionOrders.

Variable regions : gset region.
Variable n : nat.
Hypothesis regions_bound :
  ∀ reg p, reg ∈ regions → p ∈ region_pairs reg → (p < n)%nat.
Hypothesis regions_disjoint :
  ∀ reg1 reg2 p, reg1 ∈ regions → reg2 ∈ regions →
    p ∈ region_pairs reg1 → p ∈ region_pairs reg2 → reg1 = reg2.

Lemma uniform_zeros : uniform regions (replicate n 0).
Proof.
  intros reg Hreg. exists 0. intros p Hp.
  apply lookup_replicate_2. by eapply regions_bound.
Qed.

Lemma uniform_increment (row row' : list Z) (reg : region) :
  reg ∈ regions → uniform regions row →
  increment_at row (get_index_mask reg) = Ok row' → uniform regions row'.
Proof.
  intros Hreg Hrow Hinc. unfold increment_at, get_index_mask in Hinc.
  case_decide; [|discriminate]. injection Hinc as <-.
  intros reg' Hreg'. destruct (Hrow reg' Hreg') as [order Horder].
  destruct (decide (reg' = reg)) as [-> | Hne].
  - exists (Np.to_int32 (order + 1)). intros p Hp.
    rewrite list_lookup_imap, (Horder p Hp). simpl.
    by rewrite decide_True.
  - exists order. intros p Hp.
    rewrite list_lookup_imap, (Horder p Hp). simpl.
    rewrite decide_False; [reflexivity|].
    intros Hp'. apply Hne. by eapply regions_disjoint.
Qed.

Lemma uniform_add_rows (row diff : list Z) :
  uniform regions row → uniform regions diff → uniform regions (add_rows row diff).
Proof.
  intros Hrow Hdiff reg Hreg.
  destruct (Hrow reg Hreg) as [o1 H1], (Hdiff reg Hreg) as [o2 H2].
  exists (Np.to_int32 (o1 + o2)). intros p Hp. unfold add_rows.
  by rewrite lookup_zip_with, (H1 p Hp), (H2 p Hp).
Qed.

Lemma uniform_result_diff_of_solution
    (recurse : gset region -> result (list (list Z)))
    (cluster : gset region) (scoring : list Z)
    (optimal_solution : gset region) (rows : list (list Z)) :
  length scoring = n →
  cluster ⊆ regions →
  (∀ next rows', next ⊆ regions → recurse next = Ok rows' →
     Forall (uniform regions) rows') →
  result_diff_of_solution recurse cluster scoring optimal_solution = Ok rows →
  Forall (uniform regions) rows.
Proof.
  intros Hlen Hsub Hrec H. unfold result_diff_of_solution in H.
  apply bind_inv_Ok in H as (results & Hinc & H).
  apply bind_inv_Ok in H as (next & Hnext%remove_non_conflicting_subset & H).
  assert (Hresults : uniform regions results).
  { eapply (foldM_invariant (uniform regions)); [| |exact Hinc].
    - intros row reg row' Hreg%elem_of_elements Hrow.
      apply uniform_increment; [|exact Hrow].
      apply Hsub. by apply elem_of_difference in Hreg as [? _].
    - rewrite Hlen. apply uniform_zeros. }
  case_decide.
  - apply bind_inv_Ok in H as (next_rows & Hcall & H). injection H as <-.
    apply Forall_fmap. eapply Forall_impl.
    + eapply Hrec; [|exact Hcall].
      intros reg Hreg%Hnext. apply Hsub.
      by apply elem_of_difference in Hreg as [? _].
    + intros diff Hdiff. simpl. by apply uniform_add_rows.
  - injection H as <-. by apply Forall_singleton.
Qed.

Lemma uniform_result_diff (limit : nat) (cluster : gset region)
    (scoring : list Z) (rows : list (list Z)) :
  length scoring = n →
  cluster ⊆ regions →
  _get_result_diff limit cluster scoring = Ok rows →
  Forall (uniform regions) rows.
Proof.
  intros Hlen. revert cluster rows.
  induction limit as [|limit IH]; intros cluster rows Hsub H;
    [discriminate|].
  simpl in H. apply bind_inv_Ok in H as (solutions & _ & H).
  apply bind_inv_Ok in H as (results_diff & Hmap%mapM_r_inv & H).
  injection H as <-. apply Forall_concat.
  induction Hmap as [|solution rows' solutions results_diff Hrows _ IHmap];
    constructor; [|exact IHmap].
  eapply uniform_result_diff_of_solution; [exact Hlen|exact Hsub| |exact Hrows].
  intros next rows'' Hnext Hcall. by eapply IH.
Qed.

End RegionOrders.

(** C10.  In every row that [pseudoknots] returns, the base pairs of one
    region of [_find_regions] are all at the same order. *)
Theorem same_region_same_order (limit : nat) (base_pairs : list (Z * Z))
    (scoring : option (list Z)) (rows : list (list Z))
    (regions : gset region) :
  pseudoknots limit base_pairs scoring = Ok rows →
  _find_regions base_pairs = Ok regions →
  ∀ row reg, row ∈ rows → reg ∈ regions →
    ∃ order, ∀ p, p ∈ region_pairs reg → row !! p = Some order.
Proof.
  intros Hrun Hfind.
  destruct (find_regions_disjoint _ _ Hfind) as [Hbound Hdisj].
  unfold pseudoknots in Hrun. case_decide as Hlen; [|discriminate].
  rewrite Hfind, bind_Ok in Hrun.
  apply bind_inv_Ok in Hrun
    as (cleaned & Hcleaned%remove_non_conflicting_subset & Hrun).
  apply bind_inv_Ok in Hrun as (results & Hloop & Hstack).
  assert (Hresults : Forall (uniform regions) results).
  { eapply (foldM_invariant (Forall (uniform regions))); [| |exact Hloop].
    - intros rows0 cluster rows1 Hcluster%cluster_conflicts_subset _ Hdiff.
      eapply (uniform_result_diff regions (length base_pairs));
        [exact Hbound|exact Hdisj|by symmetry| |exact Hdiff].
      intros reg Hreg. by apply Hcleaned, Hcluster.
    - apply Forall_singleton. by apply uniform_zeros. }
  unfold Np.vstack in Hstack. destruct results as [|r rs]; [discriminate|].
  case_decide; [|discriminate]. injection Hstack as <-.
  intros row reg Hrow Hreg. rewrite Forall_forall in Hresults.
  by apply Hresults.
Qed.

Lemma same_region_same_order_witness :
  pseudoknots 10 stacked_input None = Ok [[1; 1; 0; 0]; [0; 0; 1; 1]]
  ∧ _find_regions stacked_input = Ok {[stack_a; stack_b]}
  ∧ ∃ order, ∀ p, p ∈ region_pairs stack_a →
      [1; 1; 0; 0] !! p = Some order.
Proof.
  split; [by_evaluation|]. split; [by_evaluation|].
  apply (same_region_same_order 10 stacked_input None
           [[1; 1; 0; 0]; [0; 0; 1; 1]] {[stack_a; stack_b]}).
  - by_evaluation.
  - by_evaluation.
  - apply list_elem_of_here.
  - by_evaluation.
Defined.

(** ** Several conflict clusters *)

Lemma two_cluster_regions :
  _find_regions two_cluster_input
  = Ok {[region_a; region_b; region_c; region_d]}.
Proof. by_evaluation. Qed.

Lemma two_cluster_clusters :
  _remove_non_conflicting_regions {[region_a; region_b; region_c; region_d]}
  = Ok {[region_a; region_b; region_c; region_d]}
  ∧ _cluster_conflicts {[region_a; region_b; region_c; region_d]}
    = [{[region_a; region_b]}; {[region_c; region_d]}].
Proof. split; by_evaluation. Qed.

(** C1.  On [two_cluster_input] the conflicting regions form two
    clusters and [_get_result_diff] finds two tied rows for each, yet
    [pseudoknots] returns two rows, not four: the rows of the last cluster
    alone, in which the columns of the first cluster are 0.  The loop over
    the clusters assigns each cluster's rows to [results] and so drops the
    rows of the clusters before. *)
Theorem last_cluster_overwrites_results (limit : nat) :
  _cluster_conflicts {[region_a; region_b; region_c; region_d]}
  = [{[region_a; region_b]}; {[region_c; region_d]}]
  ∧ (∃ rows1, _get_result_diff (S limit) {[region_a; region_b]} [1; 1; 1; 1]
              = Ok rows1
              ∧ rows1 ≡ₚ [[1; 0; 0; 0]; [0; 1; 0; 0]])
  ∧ (∃ rows2, _get_result_diff (S limit) {[region_c; region_d]} [1; 1; 1; 1]
              = Ok rows2
              ∧ rows2 ≡ₚ [[0; 0; 1; 0]; [0; 0; 0; 1]])
  ∧ ∃ rows, pseudoknots (S limit) two_cluster_input None = Ok rows
            ∧ rows ≡ₚ [[0; 0; 1; 0]; [0; 0; 0; 1]].
Proof.
  split; [apply two_cluster_clusters|].
  repeat split; eexists; (split; [vm_compute; reflexivity|]);
    solve_Permutation.
Qed.

(** C8.  In every row returned for [two_cluster_input] the base pairs
    [(0, 2)] and [(1, 3)] of the first cluster are at order 0, and they
    cross.  This is the defect of C1: the increments of the first cluster
    are dropped with its rows. *)
Theorem order_zero_pairs_cross (limit : nat) :
  ∃ rows p q,
    pseudoknots (S limit) two_cluster_input None = Ok rows
    ∧ two_cluster_input !! 0%nat = Some p
    ∧ two_cluster_input !! 1%nat = Some q
    ∧ crossing_pairs p q
    ∧ rows ≠ []
    ∧ ∀ row, row ∈ rows → row !! 0%nat = Some 0 ∧ row !! 1%nat = Some 0.
Proof.
  eexists _, _, _. split; [vm_compute; reflexivity|].
  split; [reflexivity|]. split; [reflexivity|].
  split; [left; simpl; lia|]. split; [discriminate|].
  intros row Hrow.
  repeat (apply elem_of_cons in Hrow as [-> | Hrow]; [by split|]).
  by apply elem_of_nil in Hrow.
Qed.

(** ** Scores that are not positive *)

Lemma crossing_cluster :
  _find_regions crossing_input = Ok {[region_a; region_b]}
  ∧ _remove_non_conflicting_regions {[region_a; region_b]}
    = Ok {[region_a; region_b]}
  ∧ _cluster_conflicts {[region_a; region_b]} = [{[region_a; region_b]}].
Proof. repeat split; by_evaluation. Qed.

(** C2.  For the cluster of the two crossing regions of [crossing_input]
    and the scores 1 and 0, the only optimal solution is [{region_a}];
    the solver raises [IndexError] and returns no solution.  In the cell
    for the whole cluster the solution [{region_a}] on the left meets the
    empty solution, tied with [{region_b}] at score 0, at the bottom, whose
    [minimum] is the marker -1, looked up in [start_stops]. *)
Theorem solver_raises_on_zero_score (limit : nat) :
  _get_optimal_solutions {[region_a; region_b]} [1; 0] = Raise IndexError
  ∧ _get_optimal_solutions {[region_a; region_b]} [0; 0] = Raise IndexError
  ∧ pseudoknots (S limit) crossing_input (Some [1; 0]) = Raise IndexError.
Proof. repeat split; vm_compute; reflexivity. Qed.

Lemma negative_scores_solution :
  _get_optimal_solutions {[region_a; region_b]} [-1; -1] = Ok [∅].
Proof. by_evaluation. Qed.

Lemma negative_scores_filter :
  _remove_non_conflicting_regions ({[region_a; region_b]} ∖ ∅)
  = Ok {[region_a; region_b]}.
Proof. by_evaluation. Qed.

Lemma negative_scores_increments :
  foldM (fun results reg => increment_at results (get_index_mask reg))
        (replicate (length [-1; -1]) 0)
        (elements ({[region_a; region_b]} ∖ (∅ : gset region)))
  = Ok [1; 1].
Proof. by_evaluation. Qed.

Lemma negative_scores_no_progress
    (recurse : gset region -> result (list (list Z))) :
  result_diff_of_solution recurse {[region_a; region_b]} [-1; -1] ∅
  = (recurse {[region_a; region_b]}
       ≫= fun next => Ok (map (add_rows [1; 1]) next)).
Proof.
  unfold result_diff_of_solution. cbv zeta.
  rewrite negative_scores_increments, bind_Ok.
  rewrite negative_scores_filter, bind_Ok.
  rewrite decide_True; [reflexivity|].
  by_evaluation.
Qed.

Lemma negative_scores_exhaust_limit (limit : nat) :
  _get_result_diff limit {[region_a; region_b]} [-1; -1]
  = Raise RecursionError.
Proof.
  induction limit as [|limit IH]; [reflexivity|].
  change (_get_result_diff (S limit) {[region_a; region_b]} [-1; -1])
    with (optimal_solutions ←
            _get_optimal_solutions {[region_a; region_b]} [-1; -1];
          results_diff ←
            mapM_r (result_diff_of_solution
                      (fun next_cluster =>
                         _get_result_diff limit next_cluster [-1; -1])
                      {[region_a; region_b]} [-1; -1])
                   optimal_solutions;
          Ok (concat results_diff)).
  rewrite negative_scores_solution, bind_Ok. unfold mapM_r.
  rewrite negative_scores_no_progress, IH. reflexivity.
Qed.

(** The recursion shrinks the cluster when the solution holds one of its
    regions; nothing in [_get_result_diff] makes sure that it does. *)
Lemma next_cluster_shrinks (cluster optimal_solution next : gset region)
    (reg : region) :
  reg ∈ cluster → reg ∈ optimal_solution →
  _remove_non_conflicting_regions (cluster ∖ optimal_solution) = Ok next →
  next ⊂ cluster.
Proof.
  intros Hcluster Hsolution Hnext%remove_non_conflicting_subset. split.
  - intros reg' Hreg'%Hnext. by apply elem_of_difference in Hreg' as [? _].
  - intros Hsub. apply Hsub, Hnext, elem_of_difference in Hcluster as [_ Hno].
    contradiction.
Qed.

(** C7.  For [crossing_input] with the scores -1 and -1 the only optimal
    solution of the cluster is the empty one: no region is removed from
    the cluster, the filter keeps both regions, and the recursive call
    receives the cluster itself.  Whatever the recursion limit, [pseudoknots]
    exhausts it and returns no result. *)
Theorem negative_scores_never_return (limit : nat) :
  _get_optimal_solutions {[region_a; region_b]} [-1; -1] = Ok [∅]
  ∧ _remove_non_conflicting_regions ({[region_a; region_b]} ∖ ∅)
    = Ok {[region_a; region_b]}
  ∧ pseudoknots limit crossing_input (Some [-1; -1]) = Raise RecursionError.
Proof.
  split; [apply negative_scores_solution|].
  split; [apply negative_scores_filter|].
  unfold pseudoknots. rewrite decide_True by reflexivity.
  destruct crossing_cluster as (-> & Hclean & Hclusters).
  rewrite bind_Ok, Hclean, bind_Ok, Hclusters. simpl foldM.
  change (default _ (Some [-1; -1])) with [-1; -1].
  rewrite negative_scores_exhaust_limit. reflexivity.
Qed.

(** ** The event sequence of well placed regions *)

Lemma strictly_sorted (l : list Z) :
  Sorted Z.le l → NoDup l → StronglySorted Z.lt l.
Proof.
  intros Hsorted%Sorted_StronglySorted Hnd; [|intros ???; lia].
  induction Hsorted as [|x l Hl IH Hx]; [constructor|].
  apply NoDup_cons in Hnd as [Hnotin Hnd].
  constructor; [by apply IH|].
  rewrite Forall_forall in *. intros y Hy.
  specialize (Hx y Hy). assert (x ≠ y) by (intros ->; contradiction). lia.
Qed.

Lemma strictly_sorted_lookup (l : list Z) (i j : nat) (a b : Z) :
  StronglySorted Z.lt l →
  l !! i = Some a → l !! j = Some b → (i < j)%nat ↔ a < b.
Proof.
  intros Hsorted Hi Hj.
  assert (Hlt : ∀ i j a b, l !! i = Some a → l !! j = Some b →
                  (i < j)%nat → a < b).
  { clear i j a b Hi Hj.
    induction Hsorted as [|x l Hl IH Hx]; intros i j a b Hi Hj Hij.
    - by rewrite lookup_nil in Hi.
    - destruct j as [|j]; [lia|]. simpl in Hj.
      destruct i as [|i].
      + injection Hi as <-. rewrite Forall_forall in Hx.
        apply Hx. by eapply list_elem_of_lookup_2.
      + simpl in Hi. eapply IH; eauto. lia. }
  split; [by apply Hlt|]. intros Hab.
  destruct (decide (i < j)%nat) as [|Hge]; [done|].
  destruct (decide (i = j)) as [->|Hne].
  - rewrite Hi in Hj. injection Hj as ->. lia.
  - assert (b < a) by (eapply (Hlt j i); eauto; lia). lia.
Qed.

Lemma flat_map_ext_elem {A B} (f g : A -> list B) (l : list A) :
  (∀ x, x ∈ l → f x = g x) → flat_map f l = flat_map g l.
Proof.
  induction l as [|x l IH]; intros Hfg; [reflexivity|]. simpl.
  rewrite (Hfg x) by left. rewrite IH; [reflexivity|].
  intros y Hy. apply Hfg. by right.
Qed.

Lemma events_keys_NoDup {C} (content : region -> C * C) (regs : list region) :
  NoDup regs →
  (∀ reg, reg ∈ regs → start reg < stop reg) →
  (∀ reg1 reg2, reg1 ∈ regs → reg2 ∈ regs → reg1 ≠ reg2 →
     start reg1 ≠ start reg2 ∧ start reg1 ≠ stop reg2
     ∧ stop reg1 ≠ stop reg2) →
  NoDup (flat_map (fun reg => [start reg; stop reg]) regs).
Proof.
  intros Hnd Hspan Hdist. induction Hnd as [|reg regs Hnotin Hnd IH]; simpl.
  { constructor. }
  assert (Hother : ∀ z, z ∈ flat_map (fun reg => [start reg; stop reg]) regs →
                     ∃ reg', reg' ∈ regs ∧ (z = start reg' ∨ z = stop reg')).
  { intros z Hz. apply list_elem_of_In, in_flat_map in Hz as (reg' & Hin & Hz).
    exists reg'. split; [by apply list_elem_of_In|].
    destruct Hz as [<- | [<- | []]]; auto. }
  assert (Hne : ∀ reg', reg' ∈ regs → reg ≠ reg').
  { intros reg' Hin ->. contradiction. }
  constructor; [|constructor].
  - intros [Heq | (reg' & Hin & Hz)%Hother]%elem_of_cons.
    + specialize (Hspan reg (list_elem_of_here _ _)). lia.
    + destruct (Hdist reg reg') as (? & ? & ?);
        [by left | by right | by apply Hne |].
      destruct Hz; congruence.
  - intros (reg' & Hin & Hz)%Hother.
    destruct (Hdist reg reg') as (? & ? & ?);
      [by left | by right | by apply Hne |].
    destruct (Hdist reg' reg) as (? & ? & ?);
      [by right | by left | by apply not_eq_sym, Hne |].
    destruct Hz; congruence.
  - apply IH.
    + intros reg' Hin. apply Hspan. by right.
    + intros reg1 reg2 H1 H2. apply Hdist; by right.
Qed.

(** The arrays of [_get_region_array_for] for well placed regions: the
    events are in the strict order of their base positions [keys]; every
    entry is the start or the stop of a region of the set, and every
    region has both. *)
Lemma region_array_spec {C} (regions : gset region)
    (content : region -> C * C) :
  well_placed regions →
  ∃ keys : list Z,
    length (_get_region_array_for regions content).1 = length keys
    ∧ length (_get_region_array_for regions content).2 = length keys
    ∧ StronglySorted Z.lt keys
    ∧ (∀ i reg, (_get_region_array_for regions content).1 !! i = Some reg →
         reg ∈ regions
         ∧ ((keys !! i = Some (start reg)
             ∧ (_get_region_array_for regions content).2 !! i
               = Some (content reg).1)
            ∨ (keys !! i = Some (stop reg)
               ∧ (_get_region_array_for regions content).2 !! i
                 = Some (content reg).2)))
    ∧ (∀ reg, reg ∈ regions →
         ∃ s e, (_get_region_array_for regions content).1 !! s = Some reg
                ∧ keys !! s = Some (start reg)
                ∧ (_get_region_array_for regions content).1 !! e = Some reg
                ∧ keys !! e = Some (stop reg)).
Proof.
  intros [Hspan Hdist].
  destruct (region_array_events regions content)
    as (sorted & Hperm & Hsorted & ->). simpl.
  assert (Hsmall : ∀ reg, reg ∈ regions →
            Np.to_int32 (start reg) = start reg
            ∧ Np.to_int32 (stop reg) = stop reg).
  { intros reg Hreg. destruct (Hspan reg Hreg) as (? & ? & ?).
    split; apply to_int32_small; lia. }
  assert (Hev : ∀ ev, ev ∈ sorted ↔
            ∃ reg, reg ∈ regions
                   ∧ (ev = (start reg, (reg, (content reg).1))
                      ∨ ev = (stop reg, (reg, (content reg).2)))).
  { intros ev. rewrite Hperm. unfold events.
    rewrite list_elem_of_In, in_flat_map. split.
    - intros (reg & Hreg%list_elem_of_In%elem_of_elements & Hin).
      destruct (Hsmall reg Hreg) as [Hs He]. rewrite Hs, He in Hin.
      exists reg. split; [done|]. destruct Hin as [<- | [<- | []]]; auto.
    - intros (reg & Hreg & Hin). exists reg.
      destruct (Hsmall reg Hreg) as [Hs He]. rewrite Hs, He.
      split; [by apply list_elem_of_In, elem_of_elements|].
      destruct Hin as [-> | ->]; simpl; auto. }
  exists (sorted.*1). rewrite !length_fmap. repeat split.
  - apply strictly_sorted.
    + clear -Hsorted. induction Hsorted as [|ev l Hl IH Hhd]; [constructor|].
      rewrite fmap_cons. constructor; [exact IH|].
      destruct Hhd as [|ev' l Hle]; constructor. exact Hle.
    + rewrite Hperm, events_keys.
      assert (flat_map (fun reg => [Np.to_int32 (start reg);
                                    Np.to_int32 (stop reg)])
                       (elements regions)
              = flat_map (fun reg => [start reg; stop reg])
                         (elements regions)) as ->.
      { apply flat_map_ext_elem. intros reg Hreg%elem_of_elements.
        by destruct (Hsmall reg Hreg) as [-> ->]. }
      apply (events_keys_NoDup content); [apply NoDup_elements| |].
      * intros reg Hreg%elem_of_elements. apply Hspan in Hreg. lia.
      * intros reg1 reg2 H1%elem_of_elements H2%elem_of_elements.
        by apply Hdist.
  - apply list_lookup_fmap_Some in H as (ev & -> & Hev').
    apply list_elem_of_lookup_2, Hev in Hev' as (reg & Hreg & [-> | ->]);
      exact Hreg.
  - apply list_lookup_fmap_Some in H as (ev & -> & Hlook).
    pose proof (list_elem_of_lookup_2 _ _ _ Hlook) as Hin.
    apply Hev in Hin as (reg & Hreg & [-> | ->]); simpl;
      rewrite !list_lookup_fmap, Hlook; simpl; auto.
  - intros reg Hreg.
    assert (H1 : (start reg, (reg, (content reg).1)) ∈ sorted)
      by (apply Hev; eauto).
    assert (H2 : (stop reg, (reg, (content reg).2)) ∈ sorted)
      by (apply Hev; eauto).
    apply list_elem_of_lookup in H1 as [s Hs], H2 as [e He].
    exists s, e. rewrite !list_lookup_fmap, Hs, He. simpl. auto.
Qed.

Lemma region_array_event_array {C} (regions : gset region)
    (content : region -> C * C) :
  well_placed regions →
  ∃ keys, event_array regions (_get_region_array_for regions content).1 keys
          ∧ length (_get_region_array_for regions content).2 = length keys
          ∧ ∀ i reg, (_get_region_array_for regions content).1 !! i = Some reg →
              (keys !! i = Some (start reg)
               ∧ (_get_region_array_for regions content).2 !! i
                 = Some (content reg).1)
              ∨ (keys !! i = Some (stop reg)
                 ∧ (_get_region_array_for regions content).2 !! i
                   = Some (content reg).2).
Proof.
  intros Hwp.
  destruct (region_array_spec regions content Hwp)
    as (keys & Hlen & Hlen' & Hsorted & Hentry & Hboth).
  exists keys. split; [|split; [exact Hlen'|]].
  - split; [exact Hlen|]. split; [exact Hsorted|]. split; [|split].
    + intros reg Hreg. destruct Hwp as [Hspan _]. apply Hspan in Hreg. lia.
    + intros i reg Hi. destruct (Hentry i reg Hi) as [Hreg Hcases].
      split; [exact Hreg|]. destruct Hcases as [[? _] | [? _]]; auto.
    + exact Hboth.
  - intros i reg Hi. by destruct (Hentry i reg Hi) as [_ Hcases].
Qed.

Section EventArray.

Variable regions : gset region.
Variable region_array : list region.
Variable keys : list Z.
Hypothesis array : event_array regions region_array keys.

Lemma key_inj (i j : nat) (a : Z) :
  keys !! i = Some a → keys !! j = Some a → i = j.
Proof.
  destruct array as (_ & Hsorted & _). intros Hi Hj.
  destruct (Nat.lt_trichotomy i j) as [Hlt | [-> | Hlt]]; [|done|].
  - apply (strictly_sorted_lookup keys i j a a Hsorted Hi Hj) in Hlt. lia.
  - apply (strictly_sorted_lookup keys j i a a Hsorted Hj Hi) in Hlt. lia.
Qed.

Lemma key_order (i j : nat) (a b : Z) :
  keys !! i = Some a → keys !! j = Some b → (i < j)%nat ↔ a < b.
Proof. destruct array as (_ & Hsorted & _). by apply strictly_sorted_lookup. Qed.

Lemma ends_exist (reg : region) :
  reg ∈ regions → ∃ s e, ends region_array keys reg s e.
Proof. destruct array as (_ & _ & _ & _ & Hboth). apply Hboth. Qed.

Lemma ends_lt (reg : region) (s e : nat) :
  ends region_array keys reg s e → (s < e)%nat.
Proof.
  intros (Hs & Hks & He & Hke).
  destruct array as (_ & _ & Hspan & Hentry & _).
  apply (key_order s e _ _ Hks Hke), Hspan. by apply (Hentry s).
Qed.

Lemma ends_only (reg : region) (s e i : nat) :
  ends region_array keys reg s e →
  region_array !! i = Some reg → i = s ∨ i = e.
Proof.
  intros (Hs & Hks & He & Hke) Hi.
  destruct array as (_ & _ & _ & Hentry & _).
  destruct (Hentry i reg Hi) as [_ [Hk | Hk]].
  - left. by eapply key_inj.
  - right. by eapply key_inj.
Qed.

Lemma ends_of_occurrence (reg : region) (i : nat) :
  region_array !! i = Some reg →
  ∃ s e, ends region_array keys reg s e ∧ (i = s ∨ i = e).
Proof.
  intros Hi. destruct array as (_ & _ & _ & Hentry & _).
  destruct (Hentry i reg Hi) as [Hreg _].
  destruct (ends_exist reg Hreg) as (s & e & Hends).
  exists s, e. split; [exact Hends|]. by eapply ends_only.
Qed.

Lemma ends_distinct (reg reg' : region) (s e s' e' : nat) :
  ends region_array keys reg s e → ends region_array keys reg' s' e' →
  reg ≠ reg' → s ≠ s' ∧ s ≠ e' ∧ e ≠ s' ∧ e ≠ e'.
Proof.
  intros (Hs & _ & He & _) (Hs' & _ & He' & _) Hne.
  repeat split; intros ->; congruence.
Qed.

(** Two regions cross when one of them has exactly one end between the
    ends of the other. *)
Lemma crossing_ends (reg reg' : region) (s e s' e' : nat) :
  ends region_array keys reg s e → ends region_array keys reg' s' e' →
  crossing reg reg'
  ↔ ((s < s' ∧ s' < e ∧ e < e') ∨ (s' < s ∧ s < e' ∧ e' < e))%nat.
Proof.
  intros (Hs & Hks & He & Hke) (Hs' & Hks' & He' & Hke'). unfold crossing.
  rewrite (key_order s s' _ _ Hks Hks'), (key_order s' e _ _ Hks' Hke).
  rewrite (key_order e e' _ _ Hke Hke'), (key_order s' s _ _ Hks' Hks).
  rewrite (key_order s e' _ _ Hks Hke'), (key_order e' e _ _ Hke' Hke).
  reflexivity.
Qed.

End EventArray.

(** ** Helpers of the conflict filter *)

Lemma nonzero_from_spec (mask : list bool) (k i : nat) :
  i ∈ Np.nonzero_from k mask
  ↔ (k ≤ i)%nat ∧ mask !! (i - k)%nat = Some true.
Proof.
  revert k. induction mask as [|b mask IH]; intros k; simpl.
  - rewrite elem_of_nil, lookup_nil. split; [done | by intros [_ ?]].
  - destruct b.
    + rewrite elem_of_cons, IH. split.
      * intros [-> | [Hk Hi]].
        -- split; [lia|]. by rewrite Nat.sub_diag.
        -- split; [lia|]. by replace (i - k)%nat with (S (i - S k)) by lia.
      * intros [Hk Hi]. destruct (decide (i = k)) as [->|]; [by left|].
        right. split; [lia|].
        by replace (i - k)%nat with (S (i - S k)) in Hi by lia.
    + rewrite IH. split.
      * intros [Hk Hi]. split; [lia|].
        by replace (i - k)%nat with (S (i - S k)) by lia.
      * intros [Hk Hi]. destruct (decide (i = k)) as [->|].
        { by rewrite Nat.sub_diag in Hi. }
        split; [lia|].
        by replace (i - k)%nat with (S (i - S k)) in Hi by lia.
Qed.

(** [np.nonzero] lists the positions that hold [True]. *)
Lemma nonzero_spec (mask : list bool) (i : nat) :
  i ∈ Np.nonzero mask ↔ mask !! i = Some true.
Proof.
  unfold Np.nonzero. rewrite nonzero_from_spec, Nat.sub_0_r.
  split; [by intros [_ ?] | split; [lia | done]].
Qed.

Lemma first_occurrence_from_spec (array : list region) (wanted : region)
    (k : nat) :
  match first_occurrence_from k array wanted with
  | Some i => (k ≤ i)%nat ∧ array !! (i - k)%nat = Some wanted
              ∧ ∀ j, (j < i - k)%nat → array !! j ≠ Some wanted
  | None => wanted ∉ array
  end.
Proof.
  revert k. induction array as [|value array IH]; intros k; simpl.
  - apply not_elem_of_nil.
  - case_decide as Heq.
    + subst. rewrite Nat.sub_diag. repeat split; [lia|]. intros j Hj. lia.
    + specialize (IH (S k)).
      destruct (first_occurrence_from (S k) array wanted) as [i|].
      * destruct IH as (Hk & Hi & Hfirst). split; [lia|].
        replace (i - k)%nat with (S (i - S k)) by lia. split; [exact Hi|].
        intros [|j] Hj; simpl; [congruence|]. apply Hfirst. lia.
      * apply not_elem_of_cons. split; [congruence | exact IH].
Qed.

Lemma count_positive (x : region) (l : list region) :
  x ∈ l ↔ (1 ≤ length (filter (x =.) l))%nat.
Proof.
  split.
  - intros Hx. assert (Hin : x ∈ filter (x =.) l)
      by (by apply list_elem_of_filter).
    destruct (filter (x =.) l); [by apply elem_of_nil in Hin | simpl; lia].
  - intros Hlen. destruct (filter (x =.) l) as [|y l'] eqn:Hf; [simpl in Hlen; lia|].
    assert (Hy : y ∈ filter (x =.) l) by (rewrite Hf; left).
    apply list_elem_of_filter in Hy as [-> Hy]. exact Hy.
Qed.

(** An element counted twice occurs at two places. *)
Lemma count_twice (x : region) (l : list region) :
  (2 ≤ length (filter (x =.) l))%nat
  ↔ ∃ i j, (i < j)%nat ∧ l !! i = Some x ∧ l !! j = Some x.
Proof.
  induction l as [|y l IH].
  - rewrite filter_nil. simpl. split; [lia|].
    intros (i & j & _ & Hi & _). by rewrite lookup_nil in Hi.
  - rewrite filter_cons. destruct (decide (x = y)) as [<-|Hne].
    + simpl. split.
      * intros Hlen. assert (Hx : x ∈ l) by (apply count_positive; lia).
        apply list_elem_of_lookup in Hx as [j Hj].
        exists 0%nat, (S j). split; [lia|]. by split.
      * intros (i & j & Hij & Hi & Hj). destruct j as [|j]; [lia|].
        simpl in Hj. apply list_elem_of_lookup_2, count_positive in Hj. lia.
    + rewrite IH. split.
      * intros (i & j & Hij & Hi & Hj). exists (S i), (S j).
        split; [lia|]. by split.
      * intros (i & j & Hij & Hi & Hj).
        destruct i as [|i]; [simpl in Hi; congruence|].
        destruct j as [|j]; [lia|].
        exists i, j. split; [lia|]. by split.
Qed.

Lemma count_slice_le (x : region) (lo hi : nat) (l : list region) :
  (length (filter (x =.) (Np.slice lo hi l))
   ≤ length (filter (x =.) l))%nat.
Proof.
  unfold Np.slice.
  rewrite <- (take_drop lo l) at 2. rewrite filter_app, length_app.
  rewrite <- (take_drop (hi - lo) (drop lo l)) at 2.
  rewrite filter_app, length_app. lia.
Qed.

Lemma count_duplicated (x : region) (l : list region) :
  NoDup l →
  (length (filter (x =.) (flat_map (fun reg => [reg; reg]) l)) ≤ 2)%nat.
Proof.
  intros Hnd. assert (Hzero : ∀ l, x ∉ l →
    length (filter (x =.) (flat_map (fun reg => [reg; reg]) l)) = 0%nat).
  { clear. induction l as [|y l IH]; intros Hx; [reflexivity|].
    apply not_elem_of_cons in Hx as [Hne Hx]. simpl.
    rewrite !filter_cons, !decide_False by done. by apply IH. }
  induction Hnd as [|y l Hy Hnd IH]; [simpl; lia|]. simpl.
  rewrite !filter_cons. destruct (decide (x = y)) as [->|Hne].
  - simpl. rewrite Hzero by done. lia.
  - exact IH.
Qed.

(** Every region occurs at most twice in the region array. *)
Lemma region_array_count {C} (regions : gset region)
    (content : region -> C * C) (x : region) :
  (length (filter (x =.) (_get_region_array_for regions content).1) ≤ 2)%nat.
Proof.
  destruct (region_array_events regions content)
    as (sorted & Hperm & _ & ->). simpl.
  rewrite Hperm, events_regions. apply count_duplicated, NoDup_elements.
Qed.

Lemma amin_spec (counts : list nat) (least : nat) :
  Np.amin counts = Ok least →
  least ∈ counts ∧ ∀ c, c ∈ counts → (least ≤ c)%nat.
Proof.
  destruct counts as [|c counts]; [discriminate|]. simpl.
  intros [= <-]. revert c. induction counts as [|d counts IH]; intros c; simpl.
  - split; [left|]. intros c' ->%list_elem_of_singleton. lia.
  - destruct (IH (c `min` d)%nat) as [Hin Hle]. split.
    + apply elem_of_cons in Hin as [-> | Hin].
      * destruct (Nat.min_spec c d) as [[_ ->] | [_ ->]];
          [left | right; left].
      * right. by right.
    + intros c' Hc'. specialize (Hle (c `min` d)%nat (list_elem_of_here _ _)).
      apply elem_of_cons in Hc' as [-> | Hc']; [lia|].
      apply elem_of_cons in Hc' as [-> | Hc']; [lia|].
      apply (IH (c `min` d)%nat). by right.
Qed.

Lemma unique_counts_spec (a : list region) (c : nat) :
  c ∈ unique_counts a
  ↔ ∃ reg, reg ∈ a ∧ c = length (filter (reg =.) a).
Proof.
  unfold unique_counts. rewrite list_elem_of_fmap.
  split; intros (reg & Hc & Hreg); exists reg.
  - by apply elem_of_elements, elem_of_list_to_set in Hreg.
  - split; [done|]. by apply elem_of_elements, elem_of_list_to_set.
Qed.

Lemma slice_lookup {A} (lo hi t : nat) (l : list A) (x : A) :
  Np.slice lo hi l !! t = Some x
  ↔ (lo + t < hi)%nat ∧ l !! (lo + t)%nat = Some x.
Proof.
  unfold Np.slice. rewrite lookup_take_Some, lookup_drop.
  split; intros [? ?]; split; auto; lia.
Qed.

Lemma elem_of_slice {A} (lo hi : nat) (l : list A) (x : A) :
  x ∈ Np.slice lo hi l
  ↔ ∃ t, (lo ≤ t)%nat ∧ (t < hi)%nat ∧ l !! t = Some x.
Proof.
  rewrite list_elem_of_lookup. split.
  - intros (t & [Ht Hx]%slice_lookup). exists (lo + t)%nat.
    split; [lia|]. by split.
  - intros (t & Hlo & Hhi & Hx). exists (t - lo)%nat.
    apply slice_lookup. replace (lo + (t - lo))%nat with t by lia. by split.
Qed.

Section ConflictStep.

Variable regions : gset region.
Variable keys : list Z.

Let region_array : list region :=
  (_get_region_array_for regions (fun _ => (true, false))).1.

Hypothesis array : event_array regions region_array keys.

Lemma stop_index_found (reg : region) (s e : nat) :
  ends region_array keys reg s e →
  _get_first_occurrence_for (drop (s + 1) region_array) reg
  = Some (e - s - 1)%nat.
Proof.
  intros Hends. pose proof (ends_lt _ _ _ array _ _ _ Hends) as Hlt.
  pose proof Hends as (_ & _ & He & _).
  unfold _get_first_occurrence_for.
  pose proof (first_occurrence_from_spec (drop (s + 1) region_array) reg 0)
    as Hspec.
  destruct (first_occurrence_from 0 (drop (s + 1) region_array) reg) as [i|].
  - destruct Hspec as (_ & Hi & _). rewrite Nat.sub_0_r, lookup_drop in Hi.
    destruct (ends_only _ _ _ array _ _ _ _ Hends Hi); [lia|].
    f_equal. lia.
  - exfalso. apply Hspec. apply list_elem_of_lookup. exists (e - s - 1)%nat.
    rewrite lookup_drop. by replace (s + 1 + (e - s - 1))%nat with e by lia.
Qed.

(** The decision of the filter for the region that starts at [s]. *)
Lemma conflict_step_ends (reg : region) (s e : nat) (to_remove : list region) :
  ends region_array keys reg s e →
  conflict_step region_array to_remove s
  = (let counts := unique_counts (Np.slice (s + 1) e region_array) in
     if decide (length counts = 0%nat) then Ok (to_remove ++ [reg])
     else least ← Np.amin counts;
          if decide (least = 2%nat) then Ok (to_remove ++ [reg])
          else Ok to_remove).
Proof.
  intros Hends. pose proof (ends_lt _ _ _ array _ _ _ Hends) as Hlt.
  unfold conflict_step.
  rewrite (get_nat _ s reg) by apply Hends.
  rewrite bind_Ok, (stop_index_found reg s e Hends), bind_Ok.
  by replace (s + 1 + (e - s - 1))%nat with e by lia.
Qed.

Lemma count_in_slice (reg reg' : region) (s e s' e' : nat) :
  ends region_array keys reg s e → ends region_array keys reg' s' e' →
  (2 ≤ length (filter (reg' =.) (Np.slice (s + 1) e region_array)))%nat
  ↔ (s < s' ∧ e' < e)%nat.
Proof.
  intros Hends Hends'.
  pose proof (ends_lt _ _ _ array _ _ _ Hends') as Hlt'.
  rewrite count_twice. split.
  - intros (i & j & Hij & [Hi Hri]%slice_lookup & [Hj Hrj]%slice_lookup).
    destruct (ends_only _ _ _ array _ _ _ _ Hends' Hri),
             (ends_only _ _ _ array _ _ _ _ Hends' Hrj); lia.
  - intros [Hs He]. exists (s' - (s + 1))%nat, (e' - (s + 1))%nat.
    split; [lia|]. rewrite !slice_lookup.
    replace (s + 1 + (s' - (s + 1)))%nat with s' by lia.
    replace (s + 1 + (e' - (s + 1)))%nat with e' by lia.
    destruct Hends' as (? & _ & ? & _). repeat split; auto; lia.
Qed.

Lemma conflict_step_crossed (reg reg' : region) (s e : nat)
    (to_remove : list region) :
  ends region_array keys reg s e →
  reg' ∈ regions → crossing reg reg' →
  conflict_step region_array to_remove s = Ok to_remove.
Proof.
  intros Hends Hreg' Hcross.
  destruct (ends_exist _ _ _ array reg' Hreg') as (s' & e' & Hends').
  pose proof (ends_lt _ _ _ array _ _ _ Hends') as Hlt'.
  pose proof (proj1 (crossing_ends _ _ _ array _ _ _ _ _ _ Hends Hends')
                Hcross) as Hidx.
  rewrite (conflict_step_ends reg s e) by done. cbv zeta.
  set (slice := Np.slice (s + 1) e region_array).
  assert (Hin : reg' ∈ slice).
  { apply elem_of_slice. destruct Hends' as (Hs' & _ & He' & _).
    destruct Hidx as [(? & ? & ?) | (? & ? & ?)];
      [exists s' | exists e']; repeat split; auto; lia. }
  assert (Hone : length (filter (reg' =.) slice) = 1%nat).
  { apply count_positive in Hin as Hge.
    destruct (decide (2 ≤ length (filter (reg' =.) slice))%nat) as [Htwo|];
      [|lia].
    apply (count_in_slice reg reg' s e s' e' Hends Hends') in Htwo. lia. }
  assert (Hcount : 1%nat ∈ unique_counts slice).
  { apply unique_counts_spec. eauto. }
  rewrite decide_False.
  2:{ destruct (unique_counts slice); [by apply elem_of_nil in Hcount|done]. }
  destruct (Np.amin (unique_counts slice)) as [least|err] eqn:Hmin.
  - rewrite bind_Ok. apply amin_spec in Hmin as [_ Hle].
    specialize (Hle 1%nat Hcount). rewrite decide_False by lia. reflexivity.
  - destruct (unique_counts slice); [by apply elem_of_nil in Hcount|].
    discriminate.
Qed.

Lemma conflict_step_free (reg : region) (s e : nat)
    (to_remove : list region) :
  ends region_array keys reg s e →
  (∀ reg', reg' ∈ regions → ¬ crossing reg reg') →
  conflict_step region_array to_remove s = Ok (to_remove ++ [reg]).
Proof.
  intros Hends Hfree.
  pose proof (ends_lt _ _ _ array _ _ _ Hends) as Hlt.
  rewrite (conflict_step_ends reg s e) by done. cbv zeta.
  set (slice := Np.slice (s + 1) e region_array).
  case_decide as Hlen; [reflexivity|].
  rewrite (amin_constant 2).
  - rewrite bind_Ok. by rewrite decide_True.
  - intros Hnil. by rewrite Hnil in Hlen.
  - apply Forall_forall. intros c (reg' & Hin & ->)%unique_counts_spec.
    apply elem_of_slice in Hin as Hocc. destruct Hocc as (t & Hlo & Hhi & Ht).
    destruct (ends_of_occurrence _ _ _ array reg' t Ht)
      as (s' & e' & Hends' & Hcase).
    pose proof (ends_lt _ _ _ array _ _ _ Hends') as Hlt'.
    assert (Hne : reg ≠ reg').
    { intros <-. destruct (ends_only _ _ _ array _ _ _ _ Hends Ht); lia. }
    destruct (ends_distinct region_array keys reg reg' s e s' e'
                Hends Hends' Hne) as (? & ? & ? & ?).
    assert (Hreg' : reg' ∈ regions).
    { destruct array as (_ & _ & _ & Hentry & _). by apply (Hentry t). }
    pose proof (Hfree reg' Hreg') as Hno.
    rewrite (crossing_ends _ _ _ array _ _ _ _ _ _ Hends Hends') in Hno.
    assert (Hinside : (s < s' ∧ e' < e)%nat) by lia.
    apply (count_in_slice reg reg' s e s' e' Hends Hends') in Hinside.
    pose proof (count_slice_le reg' (s + 1) e region_array) as Hle.
    pose proof (region_array_count regions (fun _ => (true, false)) reg')
      as Hle'.
    change (_get_region_array_for regions _).1 with region_array in Hle'.
    subst slice. lia.
Qed.

End ConflictStep.

Lemma remove_non_conflicting_unfold (regions : gset region) :
  _remove_non_conflicting_regions regions
  = (to_remove ←
       foldM (conflict_step
                (_get_region_array_for regions (fun _ => (true, false))).1)
             []
             (Np.nonzero
                (_get_region_array_for regions (fun _ => (true, false))).2);
     Ok (list_to_set
           (filter (fun reg => reg ∉ to_remove)
              (_get_region_array_for regions (fun _ => (true, false))).1))).
Proof.
  unfold _remove_non_conflicting_regions.
  by destruct (_get_region_array_for regions (fun _ => (true, false))).
Qed.

Lemma crossed_or_free (regions : gset region) (reg : region) :
  (∃ reg', reg' ∈ regions ∧ crossing reg reg')
  ∨ (∀ reg', reg' ∈ regions → ¬ crossing reg reg').
Proof.
  destruct (decide (Exists (crossing reg) (elements regions))) as [Hex|Hno].
  - left. apply Exists_exists in Hex as (reg' & Hin%elem_of_elements & Hc).
    eauto.
  - right. intros reg' Hin Hc. apply Hno, Exists_exists.
    exists reg'. split; [by apply elem_of_elements | exact Hc].
Qed.

Lemma foldM_cons {A S} (f : S -> A -> result S) (s : S) (x : A)
    (l : list A) :
  foldM f s (x :: l) = (f s x ≫= fun s' => foldM f s' l).
Proof. reflexivity. Qed.

(** The loop of the filter collects the regions that cross no other. *)
Lemma conflict_loop (regions : gset region) (keys : list Z)
    (starts : list nat) (to_remove : list region) :
  event_array regions
    (_get_region_array_for regions (fun _ => (true, false))).1 keys →
  (∀ s, s ∈ starts →
     ∃ reg e, ends (_get_region_array_for regions (fun _ => (true, false))).1
                   keys reg s e) →
  ∃ to_remove',
    foldM (conflict_step
             (_get_region_array_for regions (fun _ => (true, false))).1)
          to_remove starts = Ok to_remove'
    ∧ ∀ reg, reg ∈ to_remove'
        ↔ reg ∈ to_remove
          ∨ ∃ s, s ∈ starts
                 ∧ (_get_region_array_for regions
                      (fun _ => (true, false))).1 !! s = Some reg
                 ∧ ∀ reg', reg' ∈ regions → ¬ crossing reg reg'.
Proof.
  intros array. revert to_remove.
  induction starts as [|s starts IH]; intros to_remove Hstarts.
  - exists to_remove. split; [reflexivity|]. intros reg. split; [auto|].
    intros [? | (s & []%elem_of_nil & _)]. done.
  - destruct (Hstarts s (list_elem_of_here _ _)) as (reg & e & Hends).
    pose proof Hends as (Hs & _).
    rewrite foldM_cons. destruct (crossed_or_free regions reg) as [(reg' & Hin & Hc) | Hfree].
    + rewrite (conflict_step_crossed regions keys array reg reg' s e) by done.
      rewrite bind_Ok.
      destruct (IH to_remove) as (to_remove' & -> & Hspec).
      { intros s' Hs'. apply Hstarts. by right. }
      exists to_remove'. split; [reflexivity|]. intros reg0.
      rewrite Hspec. split.
      * intros [? | (s' & Hs' & ?)]; [by left|]. right. exists s'.
        split; [by right | done].
      * intros [? | (s' & [-> | Hs']%elem_of_cons & Hl & Hf)]; [by left| |].
        -- exfalso. rewrite Hs in Hl. injection Hl as <-. by eapply Hf.
        -- right. eauto.
    + rewrite (conflict_step_free regions keys array reg s e) by done.
      rewrite bind_Ok.
      destruct (IH (to_remove ++ [reg])) as (to_remove' & -> & Hspec).
      { intros s' Hs'. apply Hstarts. by right. }
      exists to_remove'. split; [reflexivity|]. intros reg0.
      rewrite Hspec, elem_of_app, list_elem_of_singleton. split.
      * intros [[? | ->] | (s' & Hs' & ?)]; [by left | |].
        -- right. exists s. split; [by left | done].
        -- right. exists s'. split; [by right | done].
      * intros [? | (s' & [-> | Hs']%elem_of_cons & Hl & Hf)]; [auto| |].
        -- left. right. rewrite Hs in Hl. by injection Hl.
        -- right. eauto.
Qed.

(** ConflictFilter is exact on well placed regions: it returns, without
    raising, the regions that cross another region of the set. *)
Lemma conflict_filter_spec (regions : gset region) :
  well_placed regions →
  ∃ cleaned,
    _remove_non_conflicting_regions regions = Ok cleaned
    ∧ ∀ reg, reg ∈ cleaned
        ↔ reg ∈ regions ∧ ∃ reg', reg' ∈ regions ∧ crossing reg reg'.
Proof.
  intros Hwp. rewrite remove_non_conflicting_unfold.
  destruct (region_array_event_array regions (fun _ => (true, false)) Hwp)
    as (keys & array & Hlen & Hflag).
  set (ra := (_get_region_array_for regions (fun _ => (true, false))).1) in *.
  set (ca := (_get_region_array_for regions (fun _ => (true, false))).2) in *.
  simpl in Hflag.
  assert (Hstart : ∀ s, ca !! s = Some true →
            ∃ reg e, ends ra keys reg s e).
  { intros s Hs. destruct (ra !! s) as [reg|] eqn:Hreg.
    - destruct (Hflag s reg Hreg) as [[Hk _] | [_ Hc]]; [|congruence].
      pose proof array as (_ & _ & _ & Hentry & Hboth).
      destruct (Hentry s reg Hreg) as [Hin _].
      destruct (Hboth reg Hin) as (s0 & e & Hends).
      exists reg, e. pose proof Hends as (_ & Hk0 & _).
      by rewrite <- (key_inj regions ra keys array s0 s _ Hk0 Hk).
    - apply lookup_lt_Some in Hs. apply lookup_ge_None in Hreg.
      destruct array as (Hlen' & _). lia. }
  assert (Hflagged : ∀ reg s e, ends ra keys reg s e → ca !! s = Some true).
  { intros reg s e Hends. pose proof Hends as (Hs & Hk & _).
    destruct (Hflag s reg Hs) as [[_ Hc] | [Hk' _]]; [exact Hc|].
    pose proof array as (_ & _ & Hspan & Hentry & _).
    destruct (Hentry s reg Hs) as [Hin _]. apply Hspan in Hin.
    rewrite Hk in Hk'. injection Hk' as Hk'. lia. }
  destruct (conflict_loop regions keys (Np.nonzero ca) [] array)
    as (to_remove & Hloop & Hspec).
  { intros s Hs%nonzero_spec. by apply Hstart. }
  fold ra in Hloop, Hspec. rewrite Hloop, bind_Ok. eexists. split; [reflexivity|]. intros reg.
  rewrite elem_of_list_to_set, list_elem_of_filter, Hspec.
  pose proof array as (_ & _ & _ & Hentry & Hboth). split.
  - intros [Hkeep Hin]. apply list_elem_of_lookup in Hin as [i Hi].
    destruct (Hentry i reg Hi) as [Hreg _]. split; [exact Hreg|].
    destruct (crossed_or_free regions reg) as [Hc | Hfree]; [exact Hc|].
    exfalso. apply Hkeep. right.
    destruct (Hboth reg Hreg) as (s & e & Hends).
    exists s. split; [|split; [apply Hends | exact Hfree]].
    apply nonzero_spec. by eapply Hflagged.
  - intros [Hreg (reg' & Hreg' & Hc)]. split.
    + intros [[]%elem_of_nil | (s & _ & _ & Hfree)]. by eapply Hfree.
    + destruct (Hboth reg Hreg) as (s & _ & Hs & _).
      by eapply list_elem_of_lookup_2.
Qed.

(** ** The clusters partition the regions *)

Lemma region_array_lengths {C} (regions : gset region)
    (content : region -> C * C) :
  length (_get_region_array_for regions content).2
  = length (_get_region_array_for regions content).1.
Proof.
  destruct (region_array_events regions content) as (sorted & _ & _ & ->).
  simpl. by rewrite !length_fmap.
Qed.

Lemma region_array_elem_of {C} (regions : gset region)
    (content : region -> C * C) (reg : region) :
  reg ∈ (_get_region_array_for regions content).1 ↔ reg ∈ regions.
Proof.
  split; [apply region_array_subset|]. intros Hreg.
  destruct (region_array_events regions content)
    as (sorted & Hperm & _ & ->). simpl.
  rewrite Hperm, events_regions.
  apply list_elem_of_In, in_flat_map. exists reg.
  split; [by apply list_elem_of_In, elem_of_elements | by left].
Qed.

Lemma cluster_conflicts_unfold (regions : gset region) :
  _cluster_conflicts regions
  = (let ra := (_get_region_array_for regions
                  (fun _ => (Np.to_int32 1, Np.to_int32 (-1)))).1 in
     let ss := (_get_region_array_for regions
                  (fun _ => (Np.to_int32 1, Np.to_int32 (-1)))).2 in
     let st := foldl (cluster_step ra ss) (0, 0%nat, []) (seq 0 (length ss)) in
     if decide (0 < length (drop st.1.2 ra))%nat then
       st.2 ++ [list_to_set (drop st.1.2 ra)]
     else st.2).
Proof.
  unfold _cluster_conflicts.
  destruct (_get_region_array_for regions _) as [ra ss]. simpl.
  by destruct (foldl _ _ _) as [[total first] clusters].
Qed.

Lemma take_slice {A} (lo hi : nat) (l : list A) :
  (lo ≤ hi)%nat → take hi l = take lo l ++ Np.slice lo hi l.
Proof.
  intros Hle. unfold Np.slice.
  rewrite <- (take_drop lo (take hi l)).
  rewrite take_take, Nat.min_l by lia. f_equal.
  by rewrite skipn_firstn_comm.
Qed.

(** The state of the sweep after the events before [m]: the clusters
    closed so far hold the regions of the events before [first], and none
    of them is empty. *)
Lemma cluster_sweep_cover (ra : list region) (ss : list Z) (k m : nat)
    (st : Z * nat * list (gset region)) :
  (m + k ≤ length ra)%nat →
  (st.1.2 ≤ m)%nat →
  ⋃ st.2 = list_to_set (take st.1.2 ra) →
  Forall (fun cluster : gset region => cluster ≠ ∅) st.2 →
  let st' := foldl (cluster_step ra ss) st (seq m k) in
  (st'.1.2 ≤ m + k)%nat
  ∧ ⋃ st'.2 = list_to_set (take st'.1.2 ra)
  ∧ Forall (fun cluster : gset region => cluster ≠ ∅) st'.2.
Proof.
  revert m st. induction k as [|k IH]; intros m st Hlen Hfirst Hcover Hne.
  { simpl. rewrite Nat.add_0_r. auto. }
  simpl. destruct st as [[total first] clusters]. simpl in *.
  replace (m + S k)%nat with (S m + k)%nat by lia.
  apply IH; [lia| | |]; unfold cluster_step; case_decide; simpl; auto.
  - rewrite union_list_app_L, Hcover. simpl. rewrite (right_id_L ∅ (∪)).
    rewrite <- list_to_set_app_L. f_equal.
    rewrite Nat.add_1_r. symmetry. apply take_slice. lia.
  - apply Forall_app. split; [exact Hne|]. apply Forall_singleton.
    destruct (ra !! first) as [reg|] eqn:Hreg.
    + intros Hempty. apply (not_elem_of_empty (C := gset region) reg).
      rewrite <- Hempty. apply elem_of_list_to_set, elem_of_slice.
      exists first. repeat split; auto; lia.
    + apply lookup_ge_None in Hreg. lia.
Qed.

Lemma cluster_conflicts_cover_nonempty (regions : gset region) :
  ⋃ _cluster_conflicts regions = regions
  ∧ ∀ cluster, cluster ∈ _cluster_conflicts regions → cluster ≠ ∅.
Proof.
  rewrite cluster_conflicts_unfold. cbv zeta.
  set (ra := (_get_region_array_for regions _).1).
  set (ss := (_get_region_array_for regions _).2).
  assert (Hlen : length ss = length ra) by apply region_array_lengths.
  destruct (cluster_sweep_cover ra ss (length ss) 0 (0, 0%nat, []))
    as (Hfirst & Hcover & Hne); simpl; auto; [lia|].
  set (st := foldl (cluster_step ra ss) (0, 0%nat, []) (seq 0 (length ss)))
    in *.
  assert (Hall : list_to_set ra = regions).
  { apply set_eq. intros reg. rewrite elem_of_list_to_set.
    apply region_array_elem_of. }
  case_decide as Hrest.
  - split.
    + rewrite union_list_app_L, Hcover. simpl. rewrite (right_id_L ∅ (∪)).
      by rewrite <- list_to_set_app_L, take_drop.
    + intros cluster [Hin | ->%list_elem_of_singleton]%elem_of_app.
      * rewrite Forall_forall in Hne. by apply Hne.
      * destruct (drop st.1.2 ra) as [|reg rest]; [simpl in Hrest; lia|].
        intros Hempty. apply (not_elem_of_empty (C := gset region) reg).
        rewrite <- Hempty. apply elem_of_list_to_set. left.
  - split.
    + rewrite Hcover, <- Hall. f_equal. apply take_ge.
      rewrite length_drop in Hrest. lia.
    + intros cluster Hin. rewrite Forall_forall in Hne. by apply Hne.
Qed.

Lemma length_filter_remove (x : region) (l : list region) :
  NoDup l → x ∈ l →
  S (length (filter (fun y => y ≠ x) l)) = length l.
Proof.
  intros Hnd. induction Hnd as [|y l Hy Hnd IH]; intros Hx.
  - by apply elem_of_nil in Hx.
  - rewrite filter_cons. destruct (decide (y ≠ x)) as [Hne | Heq].
    + simpl. f_equal. apply IH.
      apply elem_of_cons in Hx as [-> | Hx]; [done | exact Hx].
    + assert (y = x) as -> by (by destruct (decide (y = x))).
      simpl. f_equal.
      assert (Hall : ∀ l : list region,
                x ∉ l → filter (fun y => y ≠ x) l = l).
      { clear. induction l as [|z l IH]; intros Hx; [reflexivity|].
        apply not_elem_of_cons in Hx as [Hne Hx].
        rewrite filter_cons, decide_True by done. by rewrite IH. }
      by rewrite Hall.
Qed.

Section ClusterSweep.

Variable regions : gset region.
Variable keys : list Z.

Let ra : list region :=
  (_get_region_array_for regions
     (fun _ => (Np.to_int32 1, Np.to_int32 (-1)))).1.
Let ss : list Z :=
  (_get_region_array_for regions
     (fun _ => (Np.to_int32 1, Np.to_int32 (-1)))).2.

Hypothesis array : event_array regions ra keys.
Hypothesis flags : ∀ i reg, ra !! i = Some reg →
  (keys !! i = Some (start reg) ∧ ss !! i = Some 1)
  ∨ (keys !! i = Some (stop reg) ∧ ss !! i = Some (-1)).

Lemma ends_unique (reg : region) (s e s' e' : nat) :
  ends ra keys reg s e → ends ra keys reg s' e' → s = s' ∧ e = e'.
Proof.
  intros (_ & Hs & _ & He) (_ & Hs' & _ & He').
  split; eapply (key_inj regions ra keys array); eauto.
Qed.

Lemma ends_bound (reg : region) (s e : nat) :
  ends ra keys reg s e → (e < length ra)%nat.
Proof. intros (_ & _ & He & _). by eapply lookup_lt_Some. Qed.

Lemma open_before_step (m : nat) (total : Z) :
  (m < length ra)%nat → open_before ra keys m total →
  open_before ra keys (S m) (total + default 0 (ss !! m)).
Proof.
  intros Hm (open & Hnd & -> & Hopen).
  destruct (lookup_lt_is_Some_2 ra m Hm) as [reg Hreg].
  destruct (ends_of_occurrence regions ra keys array reg m Hreg)
    as (s & e & Hends & Hcase).
  pose proof (ends_lt regions ra keys array reg s e Hends) as Hlt.
  pose proof Hends as (_ & Hks & _ & Hke).
  pose proof (proj1 (key_order regions ra keys array s e _ _ Hks Hke) Hlt)
    as Hspan.
  assert (Hother : ∀ reg' s' e', ends ra keys reg' s' e' →
            (s' = m ∨ e' = m) → reg' = reg).
  { intros reg' s' e' (Hs' & _ & He' & _) [-> | ->]; congruence. }
  destruct Hcase as [-> | ->].
  - (* the start of [reg] *)
    destruct (flags s reg Hreg) as [[_ ->] | [Hk _]];
      [|rewrite Hks in Hk; injection Hk as Hk; lia].
    exists (reg :: open). simpl. split; [|split; [lia|]].
    + constructor; [|exact Hnd].
      intros (s' & e' & Hends' & Hs' & _)%Hopen.
      destruct (ends_unique reg s e s' e' Hends Hends'). lia.
    + intros reg'. rewrite elem_of_cons, Hopen. split.
      * intros [-> | (s' & e' & Hends' & Hs' & He')].
        -- exists s, e. split; [exact Hends | lia].
        -- exists s', e'. split; [exact Hends'|]. split; [lia|].
           destruct (decide (e' = s)) as [->|]; [|lia].
           rewrite (Hother reg' s' s Hends') in Hends' by auto.
           destruct (ends_unique reg s e s' s Hends Hends'). lia.
      * intros (s' & e' & Hends' & Hs' & He').
        destruct (decide (s' = s)) as [->|].
        -- left. apply (Hother reg' s e' Hends'). by left.
        -- right. exists s', e'. split; [exact Hends' | lia].
  - (* the stop of [reg] *)
    destruct (flags e reg Hreg) as [[Hk _] | [_ ->]];
      [rewrite Hke in Hk; injection Hk as Hk; lia|].
    assert (Hin : reg ∈ open).
    { apply Hopen. exists s, e. split; [exact Hends | lia]. }
    exists (filter (fun y => y ≠ reg) open). simpl.
    split; [by apply NoDup_filter|]. split.
    + pose proof (length_filter_remove reg open Hnd Hin). lia.
    + intros reg'. rewrite list_elem_of_filter, Hopen. split.
      * intros (Hne & s' & e' & Hends' & Hs' & He').
        exists s', e'. split; [exact Hends'|]. split; [lia|].
        destruct (decide (e' = e)) as [->|]; [|lia].
        exfalso. apply Hne. apply (Hother reg' s' e Hends'). by right.
      * intros (s' & e' & Hends' & Hs' & He'). split.
        -- intros ->. destruct (ends_unique reg s e s' e' Hends Hends'). lia.
        -- exists s', e'. split; [exact Hends'|].
           destruct (decide (s' = e)) as [->|]; [|lia].
           rewrite (Hother reg' e e' Hends') in Hends' by auto.
           destruct (ends_unique reg s e e e' Hends Hends'). lia.
Qed.

Lemma cluster_between_inside (b1 b2 : nat) (cluster : gset region)
    (reg : region) :
  cluster_between ra keys b1 b2 cluster → reg ∈ cluster →
  ∃ s e, ends ra keys reg s e ∧ (b1 ≤ s)%nat ∧ (e < b2)%nat.
Proof.
  intros (Hle & Hb1 & Hb2 & ->) Hreg.
  apply elem_of_list_to_set, elem_of_slice in Hreg as (t & Hlo & Hhi & Ht).
  destruct (ends_of_occurrence regions ra keys array reg t Ht)
    as (s & e & Hends & Hcase).
  pose proof (ends_lt regions ra keys array reg s e Hends) as Hlt.
  exists s, e. split; [exact Hends|].
  destruct Hcase as [-> | ->].
  - split; [lia|]. apply (Hb2 reg s e Hends). lia.
  - split; [|lia]. destruct (decide (s < b1)%nat) as [Hs|]; [|lia].
    apply (Hb1 reg s e Hends) in Hs. lia.
Qed.

Lemma pairwise_disjoint_snoc (clusters : list (gset region))
    (first b2 : nat) (cluster : gset region) :
  pairwise_disjoint clusters →
  Forall (fun cluster =>
            ∃ b1 b2, (b2 ≤ first)%nat
                     ∧ cluster_between ra keys b1 b2 cluster) clusters →
  cluster_between ra keys first b2 cluster →
  pairwise_disjoint (clusters ++ [cluster]).
Proof.
  intros Hdisj Hall Hnew i j c1 c2 Hij H1 H2.
  destruct (decide (j < length clusters)%nat) as [Hj|Hj].
  - rewrite lookup_app_l in H1, H2 by lia.
    exact (Hdisj i j c1 c2 Hij H1 H2).
  - rewrite lookup_app_r in H2 by lia.
    apply list_lookup_singleton_Some in H2 as [Hj' <-].
    rewrite lookup_app_l in H1 by lia.
    rewrite Forall_forall in Hall.
    destruct (Hall c1 (list_elem_of_lookup_2 _ _ _ H1))
      as (b1 & b2' & Hb2' & Hold).
    apply elem_of_disjoint. intros reg Hreg1 Hreg2.
    destruct (cluster_between_inside _ _ _ reg Hold Hreg1)
      as (s & e & Hends & _ & He).
    destruct (cluster_between_inside _ _ _ reg Hnew Hreg2)
      as (s' & e' & Hends' & Hs' & _).
    destruct (ends_unique reg s e s' e' Hends Hends') as [<- <-].
    pose proof (ends_lt regions ra keys array reg s e Hends). lia.
Qed.

Lemma sweep_inv_step (m : nat) (st : Z * nat * list (gset region)) :
  (m < length ra)%nat → sweep_inv ra keys m st →
  sweep_inv ra keys (S m) (cluster_step ra ss st m).
Proof.
  intros Hm (Hfirst & Hclosed & Hopen & Hall & Hdisj).
  destruct st as [[total first] clusters]. simpl in *.
  pose proof (open_before_step m total Hm Hopen) as Hopen'.
  unfold cluster_step. case_decide as Hzero; unfold sweep_inv; simpl.
  - assert (Hclosed' : closed_at ra keys (S m)).
    { destruct Hopen' as (open & _ & Hlen & Hspec).
      rewrite Hzero in Hlen. destruct open; [|simpl in Hlen; lia].
      intros reg s e Hends Hs. destruct (decide (e < S m)%nat); [done|].
      exfalso. apply (not_elem_of_nil reg), Hspec.
      exists s, e. split; [exact Hends | lia]. }
    assert (Hnew : cluster_between ra keys first (S m)
                     (list_to_set (Np.slice first (m + 1) ra))).
    { rewrite Nat.add_1_r. split; [lia|]. by split. }
    split; [lia|]. split; [exact Hclosed'|]. split; [exact Hopen'|]. split.
    + apply Forall_app. split.
      * eapply Forall_impl; [exact Hall|]. simpl.
        intros c (b1 & b2 & ? & ?). exists b1, b2. split; [lia | done].
      * apply Forall_singleton. exists first, (S m). split; [lia | done].
    + by eapply pairwise_disjoint_snoc.
  - split; [lia|]. split; [exact Hclosed|]. split; [exact Hopen'|]. done.
Qed.

Lemma sweep_inv_loop (k m : nat) (st : Z * nat * list (gset region)) :
  (m + k ≤ length ra)%nat → sweep_inv ra keys m st →
  sweep_inv ra keys (m + k) (foldl (cluster_step ra ss) st (seq m k)).
Proof.
  revert m st. induction k as [|k IH]; intros m st Hlen Hinv.
  { by rewrite Nat.add_0_r. }
  simpl. replace (m + S k)%nat with (S m + k)%nat by lia.
  apply IH; [lia|]. apply sweep_inv_step; [lia | exact Hinv].
Qed.

Lemma sweep_clusters :
  pairwise_disjoint (_cluster_conflicts regions)
  ∧ Forall (fun cluster => ∃ b1 b2, cluster_between ra keys b1 b2 cluster)
           (_cluster_conflicts regions).
Proof.
  rewrite cluster_conflicts_unfold. cbv zeta. fold ra ss.
  assert (Hlen : length ss = length ra) by apply region_array_lengths.
  assert (Hinit : sweep_inv ra keys 0 (0, 0%nat, [])).
  { split; [simpl; lia|]. split; [intros reg s e _ Hs; simpl in Hs; lia|].
    split; [|split; [constructor|]].
    - exists []. split; [constructor|]. split; [reflexivity|].
      intros reg. split; [by intros []%elem_of_nil|].
      intros (s & e & _ & Hs & _). lia.
    - intros i j c1 c2 _ Hi. cbn in Hi. by rewrite ?lookup_nil in Hi. }
  pose proof (sweep_inv_loop (length ss) 0 _ ltac:(lia) Hinit) as Hend.
  simpl in Hend.
  destruct (foldl (cluster_step ra ss) (0, 0%nat, []) (seq 0 (length ss)))
    as [[total first] clusters].
  destruct Hend as (Hfirst & Hclosed & _ & Hall & Hdisj). simpl in *.
  case_decide as Hrest.
  - assert (Hnew : cluster_between ra keys first (length ra)
                     (list_to_set (drop first ra))).
    { split; [lia|]. split; [exact Hclosed|]. split.
      - intros reg s e Hends _. by eapply ends_bound.
      - unfold Np.slice. by rewrite take_ge by (rewrite length_drop; lia). }
    split.
    + by eapply pairwise_disjoint_snoc.
    + apply Forall_app. split.
      * eapply Forall_impl; [exact Hall|]. simpl.
        intros c (b1 & b2 & _ & ?). eauto.
      * apply Forall_singleton. eauto.
  - split; [exact Hdisj|].
    eapply Forall_impl; [exact Hall|]. simpl.
    intros c (b1 & b2 & _ & ?). eauto.
Qed.

(** A region whose span overlaps the span of a region of a cluster is in
    the cluster. *)
Lemma cluster_between_overlapping (b1 b2 : nat) (cluster : gset region)
    (reg reg' : region) :
  cluster_between ra keys b1 b2 cluster →
  reg ∈ cluster → reg' ∈ regions → overlapping reg reg' → reg' ∈ cluster.
Proof.
  intros Hbetween Hreg Hreg' [Hover Hover'].
  destruct (cluster_between_inside _ _ _ reg Hbetween Hreg)
    as (s & e & Hends & Hs & He).
  destruct (ends_exist regions ra keys array reg' Hreg') as (s' & e' & Hends').
  pose proof Hends as (_ & Hks & _ & Hke).
  pose proof Hends' as (Hs' & Hks' & _ & Hke').
  apply (key_order regions ra keys array _ _ _ _ Hks Hke') in Hover.
  apply (key_order regions ra keys array _ _ _ _ Hks' Hke) in Hover'.
  destruct Hbetween as (_ & Hb1 & Hb2 & ->).
  apply elem_of_list_to_set, elem_of_slice. exists s'.
  split; [|split; [|exact Hs']].
  - destruct (decide (s' < b1)%nat) as [Hlow|]; [|lia].
    apply (Hb1 reg' s' e' Hends') in Hlow. lia.
  - lia.
Qed.

(** Some region is open where the counter is not zero. *)
Lemma open_region (m : nat) (total : Z) :
  open_before ra keys m total → total ≠ 0 →
  ∃ reg s e, ends ra keys reg s e ∧ (s < m)%nat ∧ (m ≤ e)%nat.
Proof.
  intros (open & _ & Hlen & Hspec) Hne.
  destruct open as [|reg open]; [simpl in Hlen; lia|].
  destruct (proj1 (Hspec reg) (list_elem_of_here _ _)) as (s & e & ? & ? & ?).
  by exists reg, s, e.
Qed.

Lemma sweep_linked_step (m : nat) (st : Z * nat * list (gset region)) :
  (m < length ra)%nat → sweep_inv ra keys m st → sweep_linked ra keys m st →
  sweep_linked ra keys (S m) (cluster_step ra ss st m).
Proof.
  intros Hm (Hfirst & Hclosed & Hopen & _ & _) (Hcount & Hlinked & Hall).
  destruct st as [[total first] clusters]. simpl in *.
  pose proof (open_before_step m total Hm Hopen) as Hopen'.
  assert (Hnext : linked ra keys first (S m)).
  { intros m' Hlow Hhigh. destruct (decide (m' = m)) as [-> | ?].
    - apply (open_region m total Hopen). by apply Hcount.
    - apply Hlinked; lia. }
  unfold cluster_step. case_decide as Hzero; unfold sweep_linked; simpl.
  - split; [lia|]. split; [intros m' ? ?; lia|].
    apply Forall_app. split; [exact Hall|].
    apply Forall_singleton. exists first, (S m). split; [|exact Hnext].
    rewrite Nat.add_1_r. split; [lia|]. split; [exact Hclosed|].
    split; [|done].
    destruct Hopen' as (open & _ & Hlen & Hspec).
    rewrite Hzero in Hlen. destruct open; [|simpl in Hlen; lia].
    intros reg s e Hends Hs. destruct (decide (e < S m)%nat); [done|].
    exfalso. apply (not_elem_of_nil reg), Hspec.
    exists s, e. split; [exact Hends | lia].
  - split; [done|]. split; [exact Hnext | exact Hall].
Qed.

Lemma sweep_linked_loop (k m : nat) (st : Z * nat * list (gset region)) :
  (m + k ≤ length ra)%nat → sweep_inv ra keys m st →
  sweep_linked ra keys m st →
  sweep_linked ra keys (m + k) (foldl (cluster_step ra ss) st (seq m k)).
Proof.
  revert m st. induction k as [|k IH]; intros m st Hlen Hinv Hlinked.
  { by rewrite Nat.add_0_r. }
  simpl. replace (m + S k)%nat with (S m + k)%nat by lia.
  apply IH; [lia | |].
  - apply sweep_inv_step; [lia | exact Hinv].
  - apply sweep_linked_step; [lia | exact Hinv | exact Hlinked].
Qed.

Lemma sweep_inv_init : sweep_inv ra keys 0 (0, 0%nat, []).
Proof.
  split; [simpl; lia|]. split; [intros reg s e _ Hs; simpl in Hs; lia|].
  split; [|split; [constructor|]].
  - exists []. split; [constructor|]. split; [reflexivity|].
    intros reg. split; [by intros []%elem_of_nil|].
    intros (s & e & _ & Hs & _). lia.
  - intros i j c1 c2 _ Hi. cbn in Hi. by rewrite ?lookup_nil in Hi.
Qed.

Lemma sweep_clusters_linked :
  Forall (fun cluster =>
            ∃ b1 b2, cluster_between ra keys b1 b2 cluster
                     ∧ linked ra keys b1 b2)
         (_cluster_conflicts regions).
Proof.
  rewrite cluster_conflicts_unfold. cbv zeta. fold ra ss.
  assert (Hlen : length ss = length ra) by apply region_array_lengths.
  assert (Hinit : sweep_linked ra keys 0 (0, 0%nat, [])).
  { split; [simpl; lia|]. split; [intros m ? ?; simpl in *; lia|].
    constructor. }
  pose proof (sweep_inv_loop (length ss) 0 _ ltac:(lia) sweep_inv_init)
    as Hend.
  pose proof (sweep_linked_loop (length ss) 0 _ ltac:(lia) sweep_inv_init
                Hinit) as Hend'.
  simpl in Hend, Hend'.
  destruct (foldl (cluster_step ra ss) (0, 0%nat, []) (seq 0 (length ss)))
    as [[total first] clusters].
  destruct Hend as (Hfirst & Hclosed & _ & _ & _).
  destruct Hend' as (_ & Hlinked & Hall). simpl in *.
  case_decide as Hrest; [|exact Hall].
  apply Forall_app. split; [exact Hall|].
  apply Forall_singleton. exists first, (length ra).
  rewrite Hlen in Hlinked. split; [|exact Hlinked].
  split; [lia|]. split; [exact Hclosed|]. split.
  - intros reg s e Hends _. by eapply ends_bound.
  - unfold Np.slice. by rewrite take_ge by (rewrite length_drop; lia).
Qed.

(** A cluster does not split: of two parts of a cluster, a region of
    the one overlaps a region of the other. *)
Lemma cluster_between_connected (b1 b2 : nat) (cluster part : gset region) :
  cluster_between ra keys b1 b2 cluster → linked ra keys b1 b2 →
  (∃ reg, reg ∈ cluster ∧ reg ∈ part) →
  (∃ reg, reg ∈ cluster ∧ reg ∉ part) →
  ∃ reg reg', reg ∈ cluster ∧ reg ∈ part ∧ reg' ∈ cluster
              ∧ (reg' ∉ part) ∧ overlapping reg reg'.
Proof.
  intros Hbetween Hlinked (rin & Hrin & Hin) (rout & Hrout & Hout).
  pose proof Hbetween as (Hle & Hb1 & Hb2 & Hcluster).
  assert (Hpos : ∀ reg, reg ∈ cluster →
            ∃ t, (b1 ≤ t)%nat ∧ (t < b2)%nat ∧ ra !! t = Some reg).
  { intros reg Hreg. rewrite Hcluster in Hreg.
    by apply elem_of_list_to_set, elem_of_slice in Hreg. }
  assert (Hmember : ∀ t reg, (b1 ≤ t)%nat → (t < b2)%nat →
            ra !! t = Some reg → reg ∈ cluster).
  { intros t reg Hlo Hhi Ht. rewrite Hcluster.
    apply elem_of_list_to_set, elem_of_slice. eauto. }
  destruct (Hpos rin Hrin) as (tin & Hlo_in & Hhi_in & Htin).
  destruct (lookup_lt_is_Some_2 ra b1) as [r0 Hr0].
  { apply lookup_lt_Some in Htin. lia. }
  set (side := fun reg : region => bool_decide (reg ∈ part)).
  assert (Hother : ∃ u ru, (b1 ≤ u)%nat ∧ (u < b2)%nat ∧ ra !! u = Some ru
                           ∧ side ru ≠ side r0).
  { destruct (decide (r0 ∈ part)) as [H0 | H0].
    - destruct (Hpos rout Hrout) as (u & ? & ? & ?). exists u, rout.
      repeat split; auto. unfold side.
      rewrite (bool_decide_eq_true_2 _ H0), (bool_decide_eq_false_2 _ Hout).
      done.
    - exists tin, rin. repeat split; auto. unfold side.
      rewrite (bool_decide_eq_true_2 _ Hin), (bool_decide_eq_false_2 _ H0).
      done. }
  destruct Hother as (u & ru & Hlo_u & Hhi_u & Hu & Hside_u).
  assert (Hfirst : ∀ k,
            (∀ m r, (b1 ≤ m)%nat → (m < b1 + k)%nat → ra !! m = Some r →
               side r = side r0)
            ∨ ∃ m r, (b1 < m)%nat ∧ (m < b1 + k)%nat ∧ ra !! m = Some r
                     ∧ side r ≠ side r0
                     ∧ ∀ m' r', (b1 ≤ m')%nat → (m' < m)%nat →
                         ra !! m' = Some r' → side r' = side r0).
  { induction k as [|k IH].
    - left. intros m r ? ?. lia.
    - destruct IH as [Hsame | (m & r & ? & ? & ? & ? & ?)].
      2:{ right. exists m, r. repeat split; auto. lia. }
      destruct (ra !! (b1 + k)%nat) as [r|] eqn:Hr.
      + destruct (decide (side r = side r0)) as [Heq | Hne].
        * left. intros m r' Hlo Hhi Hm.
          destruct (decide (m = b1 + k)%nat) as [-> | ?];
            [congruence | apply (Hsame m); auto; lia].
        * right. exists (b1 + k)%nat, r.
          assert (k ≠ 0%nat).
          { intros ->. rewrite Nat.add_0_r, Hr0 in Hr. congruence. }
          repeat split; auto; lia.
      + left. intros m r' Hlo Hhi Hm.
        destruct (decide (m = b1 + k)%nat) as [-> | ?];
          [congruence | apply (Hsame m); auto; lia]. }
  destruct (Hfirst (S (u - b1))) as [Hsame | (m & r' & Hlo & Hhi & Hm & Hside
                                              & Hbefore)].
  { exfalso. apply Hside_u. apply (Hsame u); auto. lia. }
  assert (Hm_hi : (m < b2)%nat) by lia.
  destruct (ends_of_occurrence regions ra keys array r' m Hm)
    as (s' & e' & Hends' & Hcase).
  pose proof (ends_lt regions ra keys array r' s' e' Hends') as Hlt'.
  assert (m = s') as <-.
  { destruct Hcase as [-> | ->]; [done|]. exfalso. apply Hside.
    apply (Hbefore s'); [|lia|by destruct Hends'].
    destruct (decide (s' < b1)%nat) as [Hs|]; [|lia].
    apply (Hb1 r' s' e' Hends') in Hs. lia. }
  destruct (Hlinked m Hlo Hm_hi) as (reg & s & e & Hends & Hs & He).
  assert (Hs_lo : (b1 ≤ s)%nat).
  { destruct (decide (s < b1)%nat) as [Hlow|]; [|lia].
    apply (Hb1 reg s e Hends) in Hlow. lia. }
  assert (Hside_reg : side reg = side r0).
  { apply (Hbefore s); [done | done | by destruct Hends]. }
  assert (Hne : reg ≠ r') by (intros ->; contradiction).
  assert (He' : e ≠ m).
  { intros ->. destruct Hends as (_ & _ & He_reg & _). congruence. }
  assert (Hover : overlapping reg r' ∧ overlapping r' reg).
  { pose proof Hends as (_ & Hks & _ & Hke).
    pose proof Hends' as (_ & Hks' & _ & Hke').
    pose proof (proj1 (key_order regions ra keys array _ _ _ _ Hks Hks') Hs).
    pose proof (proj1 (key_order regions ra keys array _ _ _ _ Hks' Hke)
                  ltac:(lia)).
    pose proof (proj1 (key_order regions ra keys array _ _ _ _ Hks' Hke')
                  Hlt').
    unfold overlapping. lia. }
  assert (Hreg : reg ∈ cluster).
  { apply (Hmember s); [done | lia | by destruct Hends]. }
  assert (Hr' : r' ∈ cluster).
  { apply (Hmember m); [lia | done | done]. }
  unfold side in Hside, Hside_reg.
  destruct (decide (r0 ∈ part)) as [H0 | H0].
  - rewrite (bool_decide_eq_true_2 _ H0) in Hside, Hside_reg.
    apply bool_decide_eq_true in Hside_reg.
    apply not_true_is_false, bool_decide_eq_false in Hside.
    exists reg, r'. by destruct Hover.
  - rewrite (bool_decide_eq_false_2 _ H0) in Hside, Hside_reg.
    apply bool_decide_eq_false in Hside_reg.
    apply not_false_is_true, bool_decide_eq_true in Hside.
    exists r', reg. by destruct Hover.
Qed.

End ClusterSweep.

Lemma crossing_overlapping (a b : region) : crossing a b → overlapping a b.
Proof. unfold crossing, overlapping. lia. Qed.

Lemma cluster_conflicts_spec (regions : gset region) :
  well_placed regions →
  pairwise_disjoint (_cluster_conflicts regions)
  ∧ ∀ cluster reg reg',
      cluster ∈ _cluster_conflicts regions → reg ∈ cluster →
      reg' ∈ regions → overlapping reg reg' → reg' ∈ cluster.
Proof.
  intros Hwp.
  destruct (region_array_event_array regions
              (fun _ => (Np.to_int32 1, Np.to_int32 (-1))) Hwp)
    as (keys & Harray & _ & Hflags).
  destruct (sweep_clusters regions keys Harray Hflags) as [Hdisj Hall].
  split; [exact Hdisj|].
  intros cluster reg reg' Hcluster Hreg Hreg' Hover.
  rewrite Forall_forall in Hall.
  destruct (Hall cluster Hcluster) as (b1 & b2 & Hbetween).
  exact (cluster_between_overlapping regions keys Harray b1 b2 cluster
           reg reg' Hbetween Hreg Hreg' Hover).
Qed.

(** The clusters are the classes of regions linked by overlaps: a
    cluster does not split into two parts without overlap between
    them. *)
Lemma cluster_conflicts_connected (regions cluster part : gset region) :
  well_placed regions →
  cluster ∈ _cluster_conflicts regions →
  (∃ reg, reg ∈ cluster ∧ reg ∈ part) →
  (∃ reg, reg ∈ cluster ∧ reg ∉ part) →
  ∃ reg reg', reg ∈ cluster ∧ reg ∈ part ∧ reg' ∈ cluster
              ∧ (reg' ∉ part) ∧ overlapping reg reg'.
Proof.
  intros Hwp Hcluster Hin Hout.
  destruct (region_array_event_array regions
              (fun _ => (Np.to_int32 1, Np.to_int32 (-1))) Hwp)
    as (keys & Harray & _ & Hflags).
  pose proof (sweep_clusters_linked regions keys Harray Hflags) as Hall.
  rewrite Forall_forall in Hall.
  destruct (Hall cluster Hcluster) as (b1 & b2 & Hbetween & Hlinked).
  exact (cluster_between_connected regions keys Harray b1 b2 cluster part
           Hbetween Hlinked Hin Hout).
Qed.

(** ** The regions of an input *)

Lemma foldl_min_spec (x : Z) (xs : list Z) :
  foldl Z.min x xs ∈ x :: xs ∧ ∀ y, y ∈ x :: xs → foldl Z.min x xs ≤ y.
Proof.
  revert x. induction xs as [|a xs IH]; intros x; simpl.
  - split; [left|]. intros y ->%list_elem_of_singleton. lia.
  - destruct (IH (Z.min x a)) as [Hin Hle].
    pose proof (Hle (Z.min x a) ltac:(left)) as Hhead. split.
    + apply elem_of_cons in Hin as [Hin|Hin]; [|by do 2 right].
      rewrite Hin.
      destruct (Z.min_spec x a) as [[_ ->]|[_ ->]]; [left | right; left].
    + intros y [->|[->|Hy]%elem_of_cons]%elem_of_cons; [lia | lia |].
      apply Hle. by right.
Qed.

Lemma foldl_max_spec (x : Z) (xs : list Z) :
  foldl Z.max x xs ∈ x :: xs ∧ ∀ y, y ∈ x :: xs → y ≤ foldl Z.max x xs.
Proof.
  revert x. induction xs as [|a xs IH]; intros x; simpl.
  - split; [left|]. intros y ->%list_elem_of_singleton. lia.
  - destruct (IH (Z.max x a)) as [Hin Hle].
    pose proof (Hle (Z.max x a) ltac:(left)) as Hhead. split.
    + apply elem_of_cons in Hin as [Hin|Hin]; [|by do 2 right].
      rewrite Hin.
      destruct (Z.max_spec x a) as [[_ ->]|[_ ->]]; [right; left | left].
    + intros y [->|[->|Hy]%elem_of_cons]%elem_of_cons; [lia | lia |].
      apply Hle. by right.
Qed.

Lemma elem_of_flat_map {A B} (f : A -> list B) (l : list A) (y : B) :
  y ∈ flat_map f l ↔ ∃ x, x ∈ l ∧ y ∈ f x.
Proof.
  rewrite list_elem_of_In, in_flat_map. split.
  - intros (x & Hx & Hy). exists x. by rewrite !list_elem_of_In.
  - intros (x & Hx & Hy). exists x. by rewrite <- !list_elem_of_In.
Qed.

(** What [_region.__init__] stores. *)
Lemma region_init_spec (id : nat) (base_pairs : list (Z * Z))
    (pairs : list nat) (reg : region) :
  _region_init id base_pairs pairs = Ok reg →
  ident reg = id ∧ region_pairs reg = pairs
  ∧ (∀ p, p ∈ pairs → ∃ row, base_pairs !! p = Some row
       ∧ start reg ≤ row.1 ≤ stop reg ∧ start reg ≤ row.2 ≤ stop reg)
  ∧ (∃ p row, p ∈ pairs ∧ base_pairs !! p = Some row
       ∧ (start reg = row.1 ∨ start reg = row.2))
  ∧ (∃ p row, p ∈ pairs ∧ base_pairs !! p = Some row
       ∧ (stop reg = row.1 ∨ stop reg = row.2)).
Proof.
  unfold _region_init. intros H.
  apply bind_inv_Ok in H as (rows & Hrows%mapM_r_inv & H).
  destruct (flat_map _ rows) as [|x xs] eqn:Hcoords; [discriminate|].
  injection H as <-. simpl.
  destruct (foldl_min_spec x xs) as [Hmin_in Hmin].
  destruct (foldl_max_spec x xs) as [Hmax_in Hmax].
  rewrite <- Hcoords in Hmin_in, Hmin, Hmax_in, Hmax.
  assert (Hrow : ∀ row, row ∈ rows →
            ∃ p, p ∈ pairs ∧ base_pairs !! p = Some row).
  { intros row Hin. apply list_elem_of_lookup in Hin as [k Hk].
    destruct (Forall2_lookup_r _ _ _ _ _ Hrows Hk) as (p & Hp & Hget).
    exists p. split; [by eapply list_elem_of_lookup_2|].
    by apply get_of_nat. }
  split; [reflexivity|]. split; [reflexivity|]. split; [|split].
  - intros p Hp. apply list_elem_of_lookup in Hp as [k Hk].
    destruct (Forall2_lookup_l _ _ _ _ _ Hrows Hk) as (row & Hrowk & Hget).
    exists row. split; [by apply get_of_nat|].
    assert (Hin : row ∈ rows) by by eapply list_elem_of_lookup_2.
    assert (H1 : row.1 ∈ flat_map (fun p : Z * Z => [p.1; p.2]) rows).
    { apply elem_of_flat_map. exists row. split; [done | left]. }
    assert (H2 : row.2 ∈ flat_map (fun p : Z * Z => [p.1; p.2]) rows).
    { apply elem_of_flat_map. exists row. split; [done | right; left]. }
    pose proof (Hmin _ H1). pose proof (Hmin _ H2).
    pose proof (Hmax _ H1). pose proof (Hmax _ H2). lia.
  - apply elem_of_flat_map in Hmin_in as (row & Hin & Hc).
    destruct (Hrow row Hin) as (p & Hp & Hget). exists p, row.
    split; [done|]. split; [done|].
    apply elem_of_cons in Hc as [Hc | Hc%list_elem_of_singleton]; auto.
  - apply elem_of_flat_map in Hmax_in as (row & Hin & Hc).
    destruct (Hrow row Hin) as (p & Hp & Hget). exists p, row.
    split; [done|]. split; [done|].
    apply elem_of_cons in Hc as [Hc | Hc%list_elem_of_singleton]; auto.
Qed.

Lemma scan_cover_step base_pairs original_indices downstream_rank i st st' :
  scan_cover base_pairs original_indices i st →
  find_regions_step base_pairs original_indices downstream_rank st i = Ok st' →
  scan_cover base_pairs original_indices (S i) st'.
Proof.
  intros [Hcover Hmade] Hstep.
  destruct st as [[pairs regions] created]. simpl in *.
  apply bind_inv_Ok in Hstep as (orig & Horig%get_of_nat & Hstep).
  assert (Hkeep : scan_cover base_pairs original_indices (S i)
                    (pairs ++ [orig], regions, created)).
  { split; [|exact Hmade]. simpl. intros p.
    rewrite (take_S_r _ _ _ Horig), !elem_of_app, list_elem_of_singleton.
    intros [Hp | ->]; [|by left; right].
    destruct (Hcover p Hp) as [? | ?]; [by left; left | by right]. }
  case_decide.
  { by injection Hstep as <-. }
  apply bind_inv_Ok in Hstep as (previous_rank & _ & Hstep).
  apply bind_inv_Ok in Hstep as (this_rank & _ & Hstep).
  case_decide.
  - apply bind_inv_Ok in Hstep as (reg & Hreg & Hstep).
    injection Hstep as <-.
    destruct (region_init_spec _ _ _ _ Hreg) as (Hid & Hpairs & _).
    split; simpl.
    + intros p.
      rewrite (take_S_r _ _ _ Horig), elem_of_app, !list_elem_of_singleton.
      intros [Hp | ->]; [|by left]. right.
      destruct (Hcover p Hp) as [Hin | (reg' & Hreg' & Hin)].
      * exists reg. rewrite Hpairs, elem_of_union, elem_of_singleton. auto.
      * exists reg'. rewrite elem_of_union. auto.
    + intros reg' [->%elem_of_singleton | Hin]%elem_of_union; [|auto].
      by rewrite Hid, Hpairs.
  - by injection Hstep as <-.
Qed.

Lemma scan_cover_loop base_pairs original_indices downstream_rank n i st st' :
  scan_cover base_pairs original_indices i st →
  foldM (find_regions_step base_pairs original_indices downstream_rank)
        st (seq i n) = Ok st' →
  scan_cover base_pairs original_indices (i + n) st'.
Proof.
  revert i st.
  induction n as [|n IH]; intros i st Hinv Hrun; simpl in Hrun.
  - injection Hrun as <-. by rewrite Nat.add_0_r.
  - apply bind_inv_Ok in Hrun as (st1 & Hstep & Hrun).
    replace (i + S n)%nat with (S i + n)%nat by lia.
    eapply IH; [|exact Hrun]. by eapply scan_cover_step.
Qed.

(** Every base pair is a member of a region, and every region is the
    object [_region] builds from its members. *)
Lemma find_regions_cover (base_pairs : list (Z * Z)) (regions : gset region) :
  _find_regions base_pairs = Ok regions →
  (∀ p, (p < length base_pairs)%nat →
     ∃ reg, reg ∈ regions ∧ p ∈ region_pairs reg)
  ∧ (∀ reg, reg ∈ regions →
       _region_init (ident reg) base_pairs (region_pairs reg) = Ok reg).
Proof.
  unfold _find_regions. intros H.
  set (sorted := (fun p : Z * Z => (Z.min p.1 p.2, Z.max p.1 p.2))
                   <$> base_pairs) in *.
  set (original_indices := Np.argsort (sorted.*1)) in *.
  apply bind_inv_Ok in H as ([[pairs regs] created] & Hloop & H).
  apply bind_inv_Ok in H as (reg & Hreg & H).
  injection H as <-.
  destruct (region_init_spec _ _ _ _ Hreg) as (Hid & Hpairs & _).
  eapply (scan_cover_loop _ _ _ _ 0) in Hloop.
  - destruct Hloop as [Hcover Hmade]. simpl in *. split.
    + intros p Hp.
      assert (Hperm : original_indices ≡ₚ seq 0 (length sorted)).
      { unfold original_indices. by rewrite argsort_Permutation, length_fmap. }
      assert (Hin : p ∈ take (length (Np.take_at sorted original_indices))
                         original_indices).
      { rewrite (take_at_Permutation sorted original_indices Hperm).
        rewrite take_ge by (rewrite Hperm, length_seq; lia).
        rewrite Hperm, elem_of_seq. unfold sorted. rewrite length_fmap. lia. }
      destruct (Hcover p Hin) as [Hlast | (reg' & Hreg' & Hlast)].
      * exists reg. rewrite Hpairs, elem_of_union, elem_of_singleton. auto.
      * exists reg'. rewrite elem_of_union. auto.
    + intros reg' [->%elem_of_singleton | Hin]%elem_of_union; [|auto].
      by rewrite Hid, Hpairs.
  - split; simpl.
    + intros p. rewrite take_0. by intros ?%elem_of_nil.
    + intros reg' ?%elem_of_empty. done.
Qed.

(** A base position belongs to one base pair of a well-formed input. *)
Lemma coordinates_distinct (base_pairs : list (Z * Z)) (p1 p2 : nat)
    (r1 r2 : Z * Z) (c : Z) :
  NoDup (flat_map (fun p : Z * Z => [p.1; p.2]) base_pairs) →
  base_pairs !! p1 = Some r1 → base_pairs !! p2 = Some r2 →
  c ∈ [r1.1; r1.2] → c ∈ [r2.1; r2.2] → p1 = p2.
Proof.
  revert p1 p2. induction base_pairs as [|r base_pairs IH];
    intros p1 p2 Hnd H1 H2 Hc1 Hc2; [done|].
  simpl in Hnd. apply NoDup_cons in Hnd as [Hr1 Hnd].
  apply NoDup_cons in Hnd as [Hr2 Hnd].
  assert (Hrest : ∀ k r', base_pairs !! k = Some r' → c ∈ [r'.1; r'.2] →
            c ∈ flat_map (fun p : Z * Z => [p.1; p.2]) base_pairs).
  { intros k r' Hk Hc. apply elem_of_flat_map. exists r'.
    split; [by eapply list_elem_of_lookup_2 | done]. }
  assert (Hhead : c ∈ [r.1; r.2] →
            c ∉ flat_map (fun p : Z * Z => [p.1; p.2]) base_pairs).
  { intros [->|[->|[]%elem_of_nil]%elem_of_cons]%elem_of_cons Hin; [|done].
    apply Hr1. by right. }
  destruct p1 as [|p1], p2 as [|p2]; simpl in H1, H2.
  - reflexivity.
  - injection H1 as ->. exfalso. apply (Hhead Hc1). by eapply Hrest.
  - injection H2 as ->. exfalso. apply (Hhead Hc2). by eapply Hrest.
  - f_equal. by eapply IH.
Qed.

Lemma coordinates_pair (base_pairs : list (Z * Z)) (p : nat) (r : Z * Z) :
  NoDup (flat_map (fun p : Z * Z => [p.1; p.2]) base_pairs) →
  base_pairs !! p = Some r → r.1 ≠ r.2.
Proof.
  revert p. induction base_pairs as [|r' base_pairs IH]; intros p Hnd Hp;
    [done|].
  simpl in Hnd. apply NoDup_cons in Hnd as [Hr1 Hnd].
  apply NoDup_cons in Hnd as [Hr2 Hnd].
  destruct p as [|p]; simpl in Hp.
  - injection Hp as ->. intros Heq. apply Hr1. rewrite Heq. left.
  - by eapply IH.
Qed.

(** The regions of a well-formed input. *)
Lemma find_regions_well_placed (base_pairs : list (Z * Z)) :
  well_formed base_pairs →
  ∃ regions, _find_regions base_pairs = Ok regions ∧ well_placed regions.
Proof.
  intros (Hne & Hrange & Hnd).
  destruct (find_regions_total base_pairs Hne) as [regions Hregions].
  exists regions. split; [exact Hregions|].
  destruct (find_regions_disjoint base_pairs regions Hregions)
    as [_ Hdisj].
  destruct (find_regions_cover base_pairs regions Hregions) as [_ Hmade].
  rewrite Forall_forall in Hrange.
  assert (Hin : ∀ p (row : Z * Z), base_pairs !! p = Some row →
            0 ≤ row.1 < 2 ^ 31 ∧ 0 ≤ row.2 < 2 ^ 31).
  { intros p row Hp. apply Hrange. by eapply list_elem_of_lookup_2. }
  assert (Hend : ∀ reg, reg ∈ regions →
            (∃ p row, p ∈ region_pairs reg ∧ base_pairs !! p = Some row
               ∧ start reg ∈ [row.1; row.2])
            ∧ (∃ p row, p ∈ region_pairs reg ∧ base_pairs !! p = Some row
               ∧ stop reg ∈ [row.1; row.2])
            ∧ start reg < stop reg).
  { intros reg Hreg.
    destruct (region_init_spec _ _ _ _ (Hmade reg Hreg))
      as (_ & _ & Hspan & (p & row & Hp & Hrow & Hstart)
          & (p' & row' & Hp' & Hrow' & Hstop)).
    split; [|split].
    - exists p, row. split; [done|]. split; [done|].
      destruct Hstart as [-> | ->]; [left | right; left].
    - exists p', row'. split; [done|]. split; [done|].
      destruct Hstop as [-> | ->]; [left | right; left].
    - destruct (Hspan p Hp) as (row0 & Hrow0 & H1 & H2).
      pose proof (coordinates_pair base_pairs p row0 Hnd Hrow0). lia. }
  split.
  - intros reg Hreg.
    destruct (Hend reg Hreg)
      as ((p & row & _ & Hrow & Hstart) & (p' & row' & _ & Hrow' & Hstop)
          & Hlt).
    pose proof (Hin p row Hrow). pose proof (Hin p' row' Hrow').
    apply elem_of_cons in Hstart as [Hs | Hs%list_elem_of_singleton];
      apply elem_of_cons in Hstop as [He | He%list_elem_of_singleton]; lia.
  - intros reg1 reg2 Hreg1 Hreg2 Hne'.
    destruct (Hend reg1 Hreg1)
      as ((p1 & r1 & Hp1 & Hr1 & Hs1) & (q1 & t1 & Hq1 & Ht1 & He1) & _).
    destruct (Hend reg2 Hreg2)
      as ((p2 & r2 & Hp2 & Hr2 & Hs2) & (q2 & t2 & Hq2 & Ht2 & He2) & _).
    repeat split; intros Heq; apply Hne'.
    + rewrite Heq in Hs1.
      pose proof (coordinates_distinct _ _ _ _ _ _ Hnd Hr1 Hr2 Hs1 Hs2)
        as Hsame.
      rewrite Hsame in Hp1. exact (Hdisj reg1 reg2 p2 Hreg1 Hreg2 Hp1 Hp2).
    + rewrite Heq in Hs1.
      pose proof (coordinates_distinct _ _ _ _ _ _ Hnd Hr1 Ht2 Hs1 He2)
        as Hsame.
      rewrite Hsame in Hp1. exact (Hdisj reg1 reg2 q2 Hreg1 Hreg2 Hp1 Hq2).
    + rewrite Heq in He1.
      pose proof (coordinates_distinct _ _ _ _ _ _ Hnd Ht1 Ht2 He1 He2)
        as Hsame.
      rewrite Hsame in Hq1. exact (Hdisj reg1 reg2 q2 Hreg1 Hreg2 Hq1 Hq2).
Qed.

(** ** The solutions of the dynamic programme cross nowhere *)

Lemma norm_index_inv (n : nat) (i : Z) (k : nat) :
  Np.norm_index n i = Ok k →
  (0 ≤ i < Z.of_nat n ∧ k = Z.to_nat i)
  ∨ (- Z.of_nat n ≤ i < 0 ∧ k = Z.to_nat (i + Z.of_nat n)).
Proof.
  unfold Np.norm_index. intros H. case_decide.
  - injection H as <-. by left.
  - case_decide; [|discriminate]. injection H as <-. by right.
Qed.

Lemma dp_at_inv (n : nat) (dp_matrix : gmap (nat * nat) (list (gset region)))
    (i j : Z) (cell : option (list (gset region))) :
  dp_at n dp_matrix i j = Ok cell →
  ∃ a b, Np.norm_index n i = Ok a ∧ Np.norm_index n j = Ok b
         ∧ cell = dp_matrix !! (a, b).
Proof.
  unfold dp_at. intros H.
  apply bind_inv_Ok in H as (a & Ha & H).
  apply bind_inv_Ok in H as (b & Hb & H). injection H as <-. eauto.
Qed.

Lemma iterate_inv {A} (cell : option (list A)) (xs : list A) :
  iterate cell = Ok xs → cell = Some xs.
Proof. destruct cell; [by intros [= ->] | discriminate]. Qed.

Lemma crossing_irrefl (reg : region) : ¬ crossing reg reg.
Proof. unfold crossing. lia. Qed.

Lemma crossing_sym (a b : region) : crossing a b → crossing b a.
Proof. unfold crossing. lia. Qed.

Lemma zip_fmap_elem {A B} (f : A -> B) (l : list A) (p : A * B) :
  p ∈ zip l (f <$> l) → p.1 ∈ l ∧ p.2 = f p.1.
Proof.
  intros [k Hk]%list_elem_of_lookup.
  apply lookup_zip_with_Some in Hk as (x & y & -> & Hx & Hy).
  rewrite list_lookup_fmap, Hx in Hy. injection Hy as <-.
  split; [by eapply list_elem_of_lookup_2 | done].
Qed.

(** The span of a solution bounds its regions. *)
Lemma solution_span_fold (regs : list region) (minimum maximum : Z) :
  (∀ reg, reg ∈ regs → 0 ≤ start reg ∧ 0 ≤ stop reg) →
  (minimum = -1 ∧ maximum = -1) ∨ (0 ≤ minimum ∧ 0 ≤ maximum) →
  let span :=
    foldl (fun (mm : Z * Z) reg =>
             let '(minimum, maximum) := mm in
             if decide (minimum = -1 ∨ maximum = -1) then (start reg, stop reg)
             else (if decide (minimum > start reg) then start reg else minimum,
                   if decide (maximum < stop reg) then stop reg else maximum))
          (minimum, maximum) regs in
  (∀ reg, reg ∈ regs → span.1 ≤ start reg ∧ stop reg ≤ span.2)
  ∧ (0 ≤ minimum → span.1 ≤ minimum ∧ maximum ≤ span.2)
  ∧ (0 ≤ minimum ∨ regs ≠ [] → 0 ≤ span.1 ∧ 0 ≤ span.2)
  ∧ (span.1 = minimum ∨ ∃ reg, reg ∈ regs ∧ span.1 = start reg)
  ∧ (span.2 = maximum ∨ ∃ reg, reg ∈ regs ∧ span.2 = stop reg).
Proof.
  revert minimum maximum.
  induction regs as [|reg regs IH]; intros minimum maximum Hpos Hacc; simpl.
  { split; [by intros ? ?%elem_of_nil|]. split; [lia|].
    split; [intros [? | ?]; [lia | done]|]. auto. }
  assert (Hreg : 0 ≤ start reg ∧ 0 ≤ stop reg) by (apply Hpos; left).
  assert (Hrest : ∀ r, r ∈ regs → 0 ≤ start r ∧ 0 ≤ stop r).
  { intros r Hr. apply Hpos. by right. }
  case_decide as Hfirst.
  - destruct (IH (start reg) (stop reg) Hrest ltac:(right; lia))
      as (Hall & Hacc' & Hnonneg & Hmin & Hmax).
    specialize (Hacc' ltac:(lia)). specialize (Hnonneg ltac:(left; lia)).
    split; [|split; [lia|split; [intros _; exact Hnonneg|split]]].
    + intros r [-> | Hr]%elem_of_cons; [lia | by apply Hall].
    + right. destruct Hmin as [Hmin | (r & Hr & Hmin)].
      * exists reg. split; [left | done].
      * exists r. split; [by right | done].
    + right. destruct Hmax as [Hmax | (r & Hr & Hmax)].
      * exists reg. split; [left | done].
      * exists r. split; [by right | done].
  - destruct Hacc as [? | Hacc]; [lia|].
    destruct (IH (if decide (minimum > start reg) then start reg else minimum)
                 (if decide (maximum < stop reg) then stop reg else maximum)
                 Hrest)
      as (Hall & Hacc' & Hnonneg & Hmin & Hmax).
    { right. repeat case_decide; lia. }
    specialize (Hacc' ltac:(repeat case_decide; lia)).
    specialize (Hnonneg ltac:(left; repeat case_decide; lia)).
    split; [|split; [|split; [intros _; exact Hnonneg|split]]].
    + intros r [-> | Hr]%elem_of_cons; [|by apply Hall].
      repeat case_decide; lia.
    + intros _. repeat case_decide; lia.
    + destruct Hmin as [Hmin | (r & Hr & Hmin)].
      * rewrite Hmin. destruct (decide (minimum > start reg)); [|by left].
        right. exists reg. split; [left | done].
      * right. exists r. split; [by right | done].
    + destruct Hmax as [Hmax | (r & Hr & Hmax)].
      * rewrite Hmax. destruct (decide (maximum < stop reg)); [|by left].
        right. exists reg. split; [left | done].
      * right. exists r. split; [by right | done].
Qed.

Lemma solution_span_spec (solution : gset region) :
  (∀ reg, reg ∈ solution → 0 ≤ start reg ∧ 0 ≤ stop reg) →
  (∀ reg, reg ∈ solution →
     (solution_span solution).1 ≤ start reg
     ∧ stop reg ≤ (solution_span solution).2)
  ∧ ((solution_span solution).1 = -1
     ∨ ∃ reg, reg ∈ solution ∧ (solution_span solution).1 = start reg)
  ∧ ((solution_span solution).2 = -1
     ∨ ∃ reg, reg ∈ solution ∧ (solution_span solution).2 = stop reg)
  ∧ (solution ≠ ∅ →
     0 ≤ (solution_span solution).1 ∧ 0 ≤ (solution_span solution).2).
Proof.
  intros Hpos. unfold solution_span.
  destruct (solution_span_fold (elements solution) (-1) (-1))
    as (Hall & _ & Hnonneg & Hmin & Hmax).
  { intros reg Hreg. apply Hpos. by apply elem_of_elements. }
  { by left. }
  simpl in *. split; [|split; [|split]].
  - intros reg Hreg. apply Hall. by apply elem_of_elements.
  - destruct Hmin as [? | (reg & Hreg & ?)]; [by left|].
    right. exists reg. split; [by apply elem_of_elements | done].
  - destruct Hmax as [? | (reg & Hreg & ?)]; [by left|].
    right. exists reg. split; [by apply elem_of_elements | done].
  - intros Hne. apply Hnonneg. right. intros Hnil. apply Hne.
    by apply elements_empty_inv, leibniz_equiv in Hnil.
Qed.

Lemma foldl_invariant {A S} (P : S -> Prop) (f : S -> A -> S) (l : list A)
    (s : S) :
  (∀ s x, x ∈ l → P s → P (f s x)) → P s → P (foldl f s l).
Proof.
  revert s. induction l as [|x l IH]; intros s Hstep Hs; [done|].
  simpl. apply IH.
  - intros s' y Hy. apply Hstep. by right.
  - apply Hstep; [left | done].
Qed.

Section Solver.

Variable cluster : gset region.
Variable keys : list Z.
Variable scoring : list Z.

Let ra : list region :=
  (_get_region_array_for cluster
     (fun a => (Np.to_int32 (start a), Np.to_int32 (stop a)))).1.
Let ss : list Z :=
  (_get_region_array_for cluster
     (fun a => (Np.to_int32 (start a), Np.to_int32 (stop a)))).2.

Hypothesis array : event_array cluster ra keys.
Hypothesis bounds : ∀ reg, reg ∈ cluster → 0 ≤ start reg ∧ stop reg < 2 ^ 31.

Lemma inside_mono (a b a' b' : nat) (solution : gset region) :
  inside ra keys cluster a b solution → (a' ≤ a)%nat → (b ≤ b')%nat →
  inside ra keys cluster a' b' solution.
Proof.
  intros [Hin Hfree] Ha Hb. split; [|exact Hfree].
  intros reg Hreg. destruct (Hin reg Hreg) as (Hc & s & e & Hends & Hs & He).
  split; [exact Hc|]. exists s, e. split; [exact Hends | lia].
Qed.

Lemma inside_union (a b : nat) (solution1 solution2 : gset region) :
  inside ra keys cluster a b solution1 →
  inside ra keys cluster a b solution2 →
  (∀ reg1 reg2, reg1 ∈ solution1 → reg2 ∈ solution2 → ¬ crossing reg1 reg2) →
  inside ra keys cluster a b (solution1 ∪ solution2).
Proof.
  intros [Hin1 Hfree1] [Hin2 Hfree2] Hfree. split.
  - intros reg [Hreg | Hreg]%elem_of_union; auto.
  - intros reg1 reg2 [H1 | H1]%elem_of_union [H2 | H2]%elem_of_union.
    + by apply Hfree1.
    + by apply Hfree.
    + intros Hc%crossing_sym. by apply (Hfree reg2 reg1).
    + by apply Hfree2.
Qed.

(** Solutions of two ranges that follow each other. *)
Lemma inside_union_split (i k j : nat) (solution1 solution2 : gset region) :
  inside ra keys cluster i k solution1 →
  inside ra keys cluster (S k) j solution2 →
  (i ≤ k)%nat → (S k ≤ j)%nat →
  inside ra keys cluster i j (solution1 ∪ solution2).
Proof.
  intros H1 H2 Hik Hkj. apply inside_union.
  - apply (inside_mono i k); [exact H1 | lia | lia].
  - apply (inside_mono (S k) j); [exact H2 | lia | lia].
  - intros reg1 reg2 Hreg1 Hreg2.
    destruct H1 as [Hin1 _]. destruct H2 as [Hin2 _].
    destruct (Hin1 reg1 Hreg1) as (_ & s & e & Hends & Hs & He).
    destruct (Hin2 reg2 Hreg2) as (_ & s' & e' & Hends' & Hs' & He').
    rewrite (crossing_ends cluster ra keys array _ _ _ _ _ _ Hends Hends').
    pose proof (ends_lt cluster ra keys array _ _ _ Hends).
    pose proof (ends_lt cluster ra keys array _ _ _ Hends'). lia.
Qed.

(** A solution between the two ends of a region, and the region. *)
Lemma inside_wrap (i j a b : nat) (solution : gset region) (reg : region) :
  inside ra keys cluster a b solution →
  ends ra keys reg i j → reg ∈ cluster → (i < a)%nat → (b < j)%nat →
  inside ra keys cluster i j (solution ∪ {[reg]}).
Proof.
  intros Hsol Hends Hreg Hia Hbj. apply inside_union.
  - apply (inside_mono a b); [exact Hsol | lia | lia].
  - split.
    + intros reg' ->%elem_of_singleton. split; [exact Hreg|].
      exists i, j. split; [exact Hends | lia].
    + intros reg1 reg2 ->%elem_of_singleton ->%elem_of_singleton.
      apply crossing_irrefl.
  - intros reg1 reg2 Hreg1 ->%elem_of_singleton.
    destruct Hsol as [Hin _].
    destruct (Hin reg1 Hreg1) as (_ & s & e & Hends1 & Hs & He).
    rewrite (crossing_ends cluster ra keys array _ _ _ _ _ _ Hends1 Hends).
    lia.
Qed.

(** A solution that stops before another one starts. *)
Lemma inside_union_span (a b : nat) (solution1 solution2 : gset region) :
  inside ra keys cluster a b solution1 →
  inside ra keys cluster a b solution2 →
  Np.to_int32 (solution_span solution1).2
  < Np.to_int32 (solution_span solution2).1 →
  inside ra keys cluster a b (solution1 ∪ solution2).
Proof.
  intros H1 H2 Hlt. apply inside_union; [exact H1 | exact H2 |].
  intros reg1 reg2 Hreg1 Hreg2.
  assert (Hpos : ∀ solution, inside ra keys cluster a b solution →
            ∀ reg, reg ∈ solution →
              0 ≤ start reg ∧ 0 ≤ stop reg ∧ start reg < 2 ^ 31
              ∧ stop reg < 2 ^ 31).
  { intros solution [Hin _] reg Hreg.
    destruct (Hin reg Hreg) as (Hc & _).
    destruct array as (_ & _ & Hspan & _).
    pose proof (Hspan reg Hc). pose proof (bounds reg Hc). lia. }
  destruct (solution_span_spec solution1) as (Hall1 & _ & Hmax & _).
  { intros reg Hreg. pose proof (Hpos _ H1 reg Hreg). lia. }
  destruct (solution_span_spec solution2) as (Hall2 & Hmin & _ & _).
  { intros reg Hreg. pose proof (Hpos _ H2 reg Hreg). lia. }
  rewrite to_int32_small in Hlt.
  2:{ destruct Hmax as [-> | (reg & Hreg & ->)]; [lia|].
      pose proof (Hpos _ H1 reg Hreg). lia. }
  rewrite to_int32_small in Hlt.
  2:{ destruct Hmin as [-> | (reg & Hreg & ->)]; [lia|].
      pose proof (Hpos _ H2 reg Hreg). lia. }
  pose proof (Hall1 reg1 Hreg1). pose proof (Hall2 reg2 Hreg2).
  unfold crossing. lia.
Qed.

Lemma norm_index_nat (n i k : nat) :
  Np.norm_index n (Z.of_nat i) = Ok k → k = i ∧ (i < n)%nat.
Proof. intros [[? ->] | [? ->]]%norm_index_inv; lia. Qed.

Lemma add_subsolutions_inside (n j m i : nat)
    (dp_matrix : gmap (nat * nat) (list (gset region)))
    (cands cands' : gset (gset region)) (k : Z) :
  dp_inv scoring ra keys cluster j m dp_matrix →
  (i < m)%nat → (i < j)%nat →
  (∀ solution, solution ∈ cands → inside ra keys cluster i j solution) →
  add_subsolutions n dp_matrix i j cands k = Ok cands' →
  ∀ solution, solution ∈ cands' → inside ra keys cluster i j solution.
Proof.
  intros Hinv Him Hij Hcands Hrun. unfold add_subsolutions in Hrun.
  apply bind_inv_Ok in Hrun as (cell1 & Hcell1 & Hrun).
  apply bind_inv_Ok in Hrun as (cell2 & Hcell2 & Hrun).
  apply bind_inv_Ok in Hrun as (subs1 & ->%iterate_inv & Hrun).
  apply dp_at_inv in Hcell1
    as (a1 & b1 & [-> Hin]%norm_index_nat & Hb1 & Hsubs1).
  apply dp_at_inv in Hcell2
    as (a2 & b2 & Ha2 & [-> Hjn]%norm_index_nat & ->).
  symmetry in Hsubs1.
  destruct (Hinv _ _ _ Hsubs1) as (Hle1 & Hfilled1 & _ & _ & _ & Hinside1).
  eapply (foldM_invariant (fun c : gset (gset region) =>
            ∀ solution, solution ∈ c → inside ra keys cluster i j solution));
    [|exact Hcands|exact Hrun].
  intros cands1 sub1 cands2 Hsub1 Hcands1 Hstep.
  apply bind_inv_Ok in Hstep as (subs2 & Hsubs2%iterate_inv & Hstep).
  injection Hstep as <-.
  destruct (Hinv _ _ _ Hsubs2) as (Hle2 & _ & _ & _ & _ & Hinside2).
  assert (Hnext : a2 = S b1).
  { apply norm_index_inv in Hb1 as [[? ->] | [? ->]];
      apply norm_index_inv in Ha2 as [[? ->] | [? ->]]; lia. }
  subst a2.
  apply (foldl_invariant (fun c : gset (gset region) =>
            ∀ solution, solution ∈ c → inside ra keys cluster i j solution));
    [|exact Hcands1].
  intros cands3 sub2 Hsub2 Hcands3 solution
    [->%elem_of_singleton | Hold]%elem_of_union; [|by apply Hcands3].
  apply (inside_union_split i b1 j); auto.
Qed.

Lemma add_pair_inside (n j m i : nat)
    (dp_matrix : gmap (nat * nat) (list (gset region)))
    (solution1 solution2 : gset region)
    (cands cands' : gset (gset region)) :
  dp_inv scoring ra keys cluster j m dp_matrix →
  (i < m)%nat → (i < j)%nat →
  inside ra keys cluster i j solution1 →
  inside ra keys cluster i j solution2 →
  (∀ solution, solution ∈ cands → inside ra keys cluster i j solution) →
  add_pair n dp_matrix ss i j solution1
    (Np.to_int32 (solution_span solution1).2) cands
    (solution2, Np.to_int32 (solution_span solution2).1) = Ok cands' →
  ∀ solution, solution ∈ cands' → inside ra keys cluster i j solution.
Proof.
  intros Hinv Him Hij H1 H2 Hcands Hrun. unfold add_pair in Hrun.
  case_decide as Hlt.
  - injection Hrun as <-.
    intros solution [->%elem_of_singleton | Hold]%elem_of_union;
      [|by apply Hcands].
    by apply inside_union_span.
  - apply bind_inv_Ok in Hrun as (lo & _ & Hrun).
    apply bind_inv_Ok in Hrun as (hi & _ & Hrun).
    eapply (foldM_invariant (fun c : gset (gset region) =>
            ∀ solution, solution ∈ c → inside ra keys cluster i j solution));
      [|exact Hcands|exact Hrun].
    intros cands1 k cands2 _ Hcands1 Hstep.
    by eapply add_subsolutions_inside.
Qed.


(** The solutions of the highest score among the candidates. *)
Lemma best_scores_ok (cands : list (gset region)) (scores : list Z)
    (best : Z) :
  NoDup cands →
  mapM_r (stored_score scoring) cands = Ok scores →
  Np.amax scores = Ok best →
  (filter (fun ss : gset region * Z => ss.2 = best) (zip cands scores)).*1
  ≠ []
  ∧ NoDup (filter (fun ss : gset region * Z => ss.2 = best)
             (zip cands scores)).*1
  ∧ ∀ solution,
      solution ∈ (filter (fun ss : gset region * Z => ss.2 = best)
                    (zip cands scores)).*1 →
      solution ∈ cands ∧ stored_score scoring solution = Ok best.
Proof.
  intros Hnd Hscores%mapM_r_inv Hbest.
  pose proof (Forall2_length _ _ _ Hscores) as Hlen.
  split; [|split].
  - destruct scores as [|x xs]; [discriminate|].
    injection Hbest as <-.
    destruct (foldl_max_spec x xs) as [[k Hk]%list_elem_of_lookup _].
    destruct (lookup_lt_is_Some_2 cands k) as [c Hc].
    { rewrite Hlen. by eapply lookup_lt_Some. }
    assert (Hin : (c, foldl Z.max x xs)
                  ∈ filter (fun ss : gset region * Z =>
                              ss.2 = foldl Z.max x xs)
                      (zip cands (x :: xs))).
    { apply list_elem_of_filter. split; [reflexivity|].
      apply (list_elem_of_lookup_2 _ k).
      apply lookup_zip_with_Some. eauto. }
    intros Hnil. apply (list_elem_of_fmap_2 fst) in Hin.
    rewrite Hnil in Hin. by apply elem_of_nil in Hin.
  - eapply sublist_NoDup; [exact Hnd|].
    rewrite <- (fst_zip cands scores) at 2 by lia.
    apply fmap_sublist, sublist_filter.
  - intros solution ([sol score] & -> & [Hscore Hin]%list_elem_of_filter)
      %list_elem_of_fmap.
    simpl in *. subst score.
    apply list_elem_of_lookup in Hin as [k Hk].
    apply lookup_zip_with_Some in Hk as (c & sc & [= -> ->] & Hc & Hsc).
    split; [by eapply list_elem_of_lookup_2|].
    exact (Forall2_lookup_lr _ _ _ _ _ _ Hscores Hc Hsc).
Qed.

Lemma fill_cell_unfold (n j i : nat)
    (dp_matrix : gmap (nat * nat) (list (gset region))) :
  fill_cell scoring n ra ss j dp_matrix i
  = (left ← dp_at n dp_matrix (Z.of_nat i) (Z.of_nat j - 1);
     bottom ← dp_at n dp_matrix (Z.of_nat i + 1) (Z.of_nat j);
     left ← iterate left;
     bottom ← iterate bottom;
     reg_i ← Np.get ra (Z.of_nat i);
     reg_j ← Np.get ra (Z.of_nat j);
     solution_candidates ←
       wrapped_candidates n dp_matrix i j reg_i reg_j
         (list_to_set left ∪ list_to_set bottom);
     solution_candidates ←
       crossed_candidates n dp_matrix ss i j left bottom solution_candidates;
     scores ← mapM_r (stored_score scoring) (elements solution_candidates);
     best ← Np.amax scores;
     Ok (<[(i, j) :=
             (filter (fun ss : gset region * Z => ss.2 = best)
                (zip (elements solution_candidates) scores)).*1]> dp_matrix)).
Proof. reflexivity. Qed.

(** The candidates of the cell [(i, j)]. *)
Lemma wrapped_candidates_inside (n j i : nat)
    (dp_matrix : gmap (nat * nat) (list (gset region)))
    (reg_i reg_j : region) (cands cands' : gset (gset region)) :
  dp_inv scoring ra keys cluster j (S i) dp_matrix → (i < j)%nat →
  ra !! i = Some reg_i → ra !! j = Some reg_j →
  (∀ solution, solution ∈ cands → inside ra keys cluster i j solution) →
  wrapped_candidates n dp_matrix i j reg_i reg_j cands = Ok cands' →
  ∀ solution, solution ∈ cands' → inside ra keys cluster i j solution.
Proof.
  intros Hinv Hij Hreg_i Hreg_j Hcands Hrun. unfold wrapped_candidates in Hrun.
  case_decide as Hsame; [|by injection Hrun as <-].
  apply bind_inv_Ok in Hrun as (cell & Hcell & Hrun).
  apply bind_inv_Ok in Hrun as (bottom_left & ->%iterate_inv & Hrun).
  injection Hrun as <-.
  apply dp_at_inv in Hcell as (a & b & Ha' & Hb' & Hcell).
  assert (a = S i) as ->.
  { apply norm_index_inv in Ha' as [[? ->] | [? ->]]; lia. }
  assert (b = (j - 1)%nat) as ->.
  { apply norm_index_inv in Hb' as [[? ->] | [? ->]]; lia. }
  symmetry in Hcell.
  destruct (Hinv _ _ _ Hcell) as (Hle & _ & _ & _ & _ & Hinside_bl).
  subst reg_j.
  destruct (ends_of_occurrence cluster ra keys array reg_i i Hreg_i)
    as (s & e & Hends & Hi).
  pose proof (ends_only cluster ra keys array reg_i s e j Hends Hreg_j)
    as Hj.
  pose proof (ends_lt cluster ra keys array reg_i s e Hends) as Hlt.
  assert (s = i ∧ e = j) as [-> ->] by lia.
  assert (Hreg : reg_i ∈ cluster).
  { destruct array as (_ & _ & _ & Hentry & _).
    by destruct (Hentry i reg_i Hreg_i). }
  intros solution [Hnew | Hold]%elem_of_union; [|by apply Hcands].
  apply elem_of_list_to_set, list_elem_of_fmap in Hnew
    as (sol & -> & Hsol).
  apply (inside_wrap i j (S i) (j - 1)); auto; lia.
Qed.

Lemma crossed_candidates_inside (n j i : nat)
    (dp_matrix : gmap (nat * nat) (list (gset region)))
    (left bottom : list (gset region)) (cands cands' : gset (gset region)) :
  dp_inv scoring ra keys cluster j (S i) dp_matrix → (i < j)%nat →
  (∀ solution, solution ∈ left → inside ra keys cluster i j solution) →
  (∀ solution, solution ∈ bottom → inside ra keys cluster i j solution) →
  (∀ solution, solution ∈ cands → inside ra keys cluster i j solution) →
  crossed_candidates n dp_matrix ss i j left bottom cands = Ok cands' →
  ∀ solution, solution ∈ cands' → inside ra keys cluster i j solution.
Proof.
  intros Hinv Hij Hleft Hbottom Hcands Hrun. unfold crossed_candidates in Hrun.
  destruct (existsb _ left && existsb _ bottom);
    [|by injection Hrun as <-].
  eapply (foldM_invariant
            (fun c : gset (gset region) =>
               ∀ solution, solution ∈ c →
                 inside ra keys cluster i j solution));
    [|exact Hcands|exact Hrun].
  intros c1 sh c2 [Hsh1 Hsh2]%zip_fmap_elem Hc1 Hinner.
  eapply (foldM_invariant
            (fun c : gset (gset region) =>
               ∀ solution, solution ∈ c →
                 inside ra keys cluster i j solution));
    [|exact Hc1|exact Hinner].
  intros c3 [solution2 lowest] c4 [Hsl1 Hsl2]%zip_fmap_elem Hc3 Hpair.
  simpl in Hsl1, Hsl2. rewrite Hsh2, Hsl2 in Hpair.
  eapply (add_pair_inside n j (S i) i);
    [exact Hinv | lia | lia | | | exact Hc3 | exact Hpair]; auto.
Qed.

(** What [fill_cell] reads and computes when it returns. *)
Lemma fill_cell_inv_Ok (n j i : nat)
    (dp_matrix dp_matrix' : gmap (nat * nat) (list (gset region))) :
  dp_inv scoring ra keys cluster j (S i) dp_matrix → (i < j)%nat →
  fill_cell scoring n ra ss j dp_matrix i = Ok dp_matrix' →
  ∃ left bottom reg_i reg_j cands1 cands2 scores best,
    dp_matrix !! (i, (j - 1)%nat) = Some left
    ∧ dp_matrix !! (S i, j) = Some bottom
    ∧ ra !! i = Some reg_i ∧ ra !! j = Some reg_j
    ∧ wrapped_candidates n dp_matrix i j reg_i reg_j
        (list_to_set left ∪ list_to_set bottom) = Ok cands1
    ∧ crossed_candidates n dp_matrix ss i j left bottom cands1 = Ok cands2
    ∧ mapM_r (stored_score scoring) (elements cands2) = Ok scores
    ∧ Np.amax scores = Ok best
    ∧ dp_matrix'
      = <[(i, j) :=
            (filter (fun ss : gset region * Z => ss.2 = best)
               (zip (elements cands2) scores)).*1]> dp_matrix
    ∧ ∀ solution, solution ∈ cands2 → inside ra keys cluster i j solution.
Proof.
  intros Hinv Hij Hrun. rewrite fill_cell_unfold in Hrun.
  apply bind_inv_Ok in Hrun as (left_cell & Hleft & Hrun).
  apply bind_inv_Ok in Hrun as (bottom_cell & Hbottom & Hrun).
  apply bind_inv_Ok in Hrun as (left & ->%iterate_inv & Hrun).
  apply bind_inv_Ok in Hrun as (bottom & ->%iterate_inv & Hrun).
  apply bind_inv_Ok in Hrun as (reg_i & Hreg_i%get_of_nat & Hrun).
  apply bind_inv_Ok in Hrun as (reg_j & Hreg_j%get_of_nat & Hrun).
  apply bind_inv_Ok in Hrun as (cands1 & Hcands1 & Hrun).
  apply bind_inv_Ok in Hrun as (cands2 & Hcands2 & Hrun).
  apply bind_inv_Ok in Hrun as (scores & Hscores & Hrun).
  apply bind_inv_Ok in Hrun as (best & Hbest & Hrun).
  injection Hrun as <-.
  apply dp_at_inv in Hleft as (a & b & [-> Hin]%norm_index_nat & Hb & Hleft).
  assert (b = (j - 1)%nat) as ->.
  { apply norm_index_inv in Hb as [[? ->] | [? ->]]; lia. }
  apply dp_at_inv in Hbottom
    as (a & b & Ha & [-> Hjn]%norm_index_nat & Hbottom).
  assert (a = S i) as ->.
  { apply norm_index_inv in Ha as [[? ->] | [? ->]]; lia. }
  symmetry in Hleft, Hbottom.
  exists left, bottom, reg_i, reg_j, cands1, cands2, scores, best.
  do 9 (split; [done|]).
  destruct (Hinv _ _ _ Hleft) as (_ & _ & _ & _ & _ & Hinside_left).
  destruct (Hinv _ _ _ Hbottom) as (_ & _ & _ & _ & _ & Hinside_bottom).
  assert (Hleft_in : ∀ solution, solution ∈ left →
            inside ra keys cluster i j solution).
  { intros solution Hsol. apply (inside_mono i (j - 1)); [auto | lia | lia]. }
  assert (Hbottom_in : ∀ solution, solution ∈ bottom →
            inside ra keys cluster i j solution).
  { intros solution Hsol. apply (inside_mono (S i) j); [auto | lia | lia]. }
  eapply crossed_candidates_inside; [exact Hinv | exact Hij | exact Hleft_in
    | exact Hbottom_in | | exact Hcands2].
  eapply wrapped_candidates_inside; [exact Hinv | exact Hij | exact Hreg_i
    | exact Hreg_j | | exact Hcands1].
  intros solution [H | H]%elem_of_union;
    apply elem_of_list_to_set in H; auto.
Qed.

(** Filling the cell [(i, j)]. *)
Lemma fill_cell_inv (n j i : nat)
    (dp_matrix dp_matrix' : gmap (nat * nat) (list (gset region))) :
  dp_inv scoring ra keys cluster j (S i) dp_matrix → (i < j)%nat →
  fill_cell scoring n ra ss j dp_matrix i = Ok dp_matrix' →
  dp_inv scoring ra keys cluster j i dp_matrix'.
Proof.
  intros Hinv Hij Hrun.
  destruct (fill_cell_inv_Ok n j i _ _ Hinv Hij Hrun)
    as (left & bottom & reg_i & reg_j & cands1 & cands2 & scores & best
        & _ & _ & _ & _ & _ & _ & Hscores & Hbest & -> & H2).
  destruct (best_scores_ok (elements cands2) scores best
              (NoDup_elements cands2) Hscores Hbest)
    as (Hne & Hnd & Hbest_in).
  intros a b solutions [[[= <- <-] <-] | [Hother Hold]]%lookup_insert_Some.
  - split; [lia|]. split; [intros _; right; lia|].
    split; [exact Hne|]. split; [exact Hnd|]. split.
    + exists best. intros solution Hsol. by apply Hbest_in.
    + intros solution [Hsol _]%Hbest_in.
      apply H2. by apply elem_of_elements.
  - destruct (Hinv _ _ _ Hold) as (Hle & Hfilled & Hcell).
    split; [exact Hle|]. split; [|exact Hcell].
    intros Hab. destruct (Hfilled Hab) as [? | [? ?]]; [by left|].
    right. split; [done | lia].
Qed.

(** Filling column [j] from the cell above the diagonal up. *)
Lemma fill_column_inv (n j m : nat)
    (dp_matrix dp_matrix' : gmap (nat * nat) (list (gset region))) :
  dp_inv scoring ra keys cluster j m dp_matrix → (m ≤ j)%nat →
  foldM (fill_cell scoring n ra ss j) dp_matrix (reverse (seq 0 m))
  = Ok dp_matrix' →
  dp_inv scoring ra keys cluster j 0 dp_matrix'.
Proof.
  revert dp_matrix. induction m as [|m IH]; intros dp_matrix Hinv Hm Hrun.
  - by injection Hrun as <-.
  - rewrite seq_S, reverse_snoc in Hrun. simpl in Hrun.
    apply bind_inv_Ok in Hrun as (dp1 & Hcell & Hrun).
    apply (IH dp1); [|lia|exact Hrun].
    apply (fill_cell_inv n j m dp_matrix); [exact Hinv | lia | exact Hcell].
Qed.

Lemma next_column_inv (j : nat)
    (dp_matrix : gmap (nat * nat) (list (gset region))) :
  dp_inv scoring ra keys cluster j 0 dp_matrix →
  dp_inv scoring ra keys cluster (S j) (S j) dp_matrix.
Proof.
  intros Hinv a b solutions Hcell.
  destruct (Hinv a b solutions Hcell) as (Hle & Hfilled & Hok).
  split; [exact Hle|]. split; [|exact Hok].
  intros Hab. left. destruct (Hfilled Hab) as [? | [? ?]]; lia.
Qed.

Lemma fill_matrix_inv (n k j : nat)
    (dp_matrix dp_matrix' : gmap (nat * nat) (list (gset region))) :
  dp_inv scoring ra keys cluster j j dp_matrix →
  foldM (fun dp j =>
           foldM (fill_cell scoring n ra ss j) dp (reverse (seq 0 j)))
        dp_matrix (seq j k) = Ok dp_matrix' →
  dp_inv scoring ra keys cluster (j + k) (j + k) dp_matrix'.
Proof.
  revert j dp_matrix. induction k as [|k IH]; intros j dp_matrix Hinv Hrun.
  - injection Hrun as <-. by rewrite Nat.add_0_r.
  - simpl in Hrun. apply bind_inv_Ok in Hrun as (dp1 & Hcolumn & Hrun).
    replace (j + S k)%nat with (S j + k)%nat by lia.
    apply (IH (S j) dp1); [|exact Hrun].
    apply next_column_inv.
    apply (fill_column_inv n j j) in Hcolumn; [exact Hcolumn|exact Hinv|lia].
Qed.

Lemma solution_score_empty : solution_score scoring ∅ = Ok 0.
Proof. unfold solution_score. by rewrite elements_empty. Qed.

Lemma stored_score_empty : stored_score scoring ∅ = Ok 0.
Proof. unfold stored_score. by rewrite solution_score_empty. Qed.

Lemma diagonal_inv (l : list nat) :
  dp_inv scoring ra keys cluster 0 0
    (foldl (fun dp i => <[(i, i) := [∅]]> dp) ∅ l).
Proof.
  apply (foldl_invariant (dp_inv scoring ra keys cluster 0 0)).
  - intros dp i _ Hdp a b solutions
      [[[= <- <-] <-] | [_ Hold]]%lookup_insert_Some; [|by apply Hdp].
    split; [lia|]. split; [lia|].
    split; [done|]. split; [apply NoDup_singleton|]. split.
    + exists 0. intros solution ->%list_elem_of_singleton.
      apply stored_score_empty.
    + intros solution ->%list_elem_of_singleton. split.
      * by intros reg ?%elem_of_empty.
      * by intros reg1 reg2 ?%elem_of_empty.
  - intros a b solutions Hcell. by rewrite lookup_empty in Hcell.
Qed.

End Solver.

(** What [_get_optimal_solutions] returns for the regions of a
    well-formed input. *)
Lemma optimal_solutions_cell (cluster : gset region) (scoring : list Z)
    (solutions : list (gset region)) :
  well_placed cluster →
  _get_optimal_solutions cluster scoring = Ok solutions →
  solutions ≠ [] ∧ NoDup solutions
  ∧ (∃ best, ∀ solution, solution ∈ solutions →
       stored_score scoring solution = Ok best)
  ∧ ∀ solution, solution ∈ solutions →
      solution ⊆ cluster
      ∧ ∀ reg1 reg2, reg1 ∈ solution → reg2 ∈ solution →
          ¬ crossing reg1 reg2.
Proof.
  intros Hwp Hrun.
  destruct (region_array_event_array cluster
              (fun a => (Np.to_int32 (start a), Np.to_int32 (stop a))) Hwp)
    as (keys & Harray & _).
  assert (Hbounds : ∀ reg, reg ∈ cluster →
            0 ≤ start reg ∧ stop reg < 2 ^ 31).
  { intros reg Hreg. destruct Hwp as [Hspan _]. apply Hspan in Hreg. lia. }
  unfold _get_optimal_solutions in Hrun.
  destruct (_get_region_array_for cluster _) as [ra ss] eqn:Harrays.
  simpl in Harray.
  apply bind_inv_Ok in Hrun as (dp & Hfill & Hrun).
  apply bind_inv_Ok in Hrun as (cell & Hcell & ->%iterate_inv).
  assert (Hra : ra = (_get_region_array_for cluster
                        (fun a => (Np.to_int32 (start a),
                                   Np.to_int32 (stop a)))).1)
    by by rewrite Harrays.
  assert (Hss : ss = (_get_region_array_for cluster
                        (fun a => (Np.to_int32 (start a),
                                   Np.to_int32 (stop a)))).2)
    by by rewrite Harrays.
  clear Harrays. subst ra ss.
  apply (fill_matrix_inv cluster keys scoring Harray Hbounds _ _ 0) in Hfill;
    [|apply diagonal_inv].
  apply dp_at_inv in Hcell as (a & b & _ & _ & Hcell). symmetry in Hcell.
  destruct (Hfill a b solutions Hcell)
    as (_ & _ & Hne & Hnd & Hbest & Hinside).
  split; [exact Hne|]. split; [exact Hnd|]. split; [exact Hbest|].
  intros solution Hsol. destruct (Hinside solution Hsol) as [Hin Hfree].
  split; [|exact Hfree].
  intros reg Hreg. by destruct (Hin reg Hreg).
Qed.

(** ** The dynamic programme returns for positive scores *)

Lemma foldM_total {A S} (f : S -> A -> result S) (l : list A) (s : S) :
  (∀ s x, x ∈ l → ∃ s', f s x = Ok s') → ∃ s', foldM f s l = Ok s'.
Proof.
  revert s. induction l as [|x l IH]; intros s Hstep; simpl; [eauto|].
  destruct (Hstep s x) as [s1 ->]; [left|]. rewrite bind_Ok.
  apply IH. intros s' y Hy. apply Hstep. by right.
Qed.

Lemma mapM_r_total {A B} (f : A -> result B) (l : list A) :
  (∀ x, x ∈ l → ∃ y, f x = Ok y) → ∃ ys, mapM_r f l = Ok ys.
Proof.
  induction l as [|x l IH]; intros Hall; simpl; [eauto|].
  destruct (Hall x) as [y ->]; [left|]. rewrite bind_Ok.
  destruct IH as [ys ->]; [intros z Hz; apply Hall; by right|].
  rewrite bind_Ok. eauto.
Qed.

Lemma where_first_from_spec (a : list Z) (v : Z) (k s : nat) :
  NoDup a → a !! s = Some v → Np.where_first_from k a v = Ok (k + s)%nat.
Proof.
  revert k s. induction a as [|x a IH]; intros k s Hnd Hs; [done|].
  apply NoDup_cons in Hnd as [Hx Hnd]. simpl.
  destruct s as [|s]; simpl in Hs.
  - injection Hs as ->. rewrite decide_True by done. by rewrite Nat.add_0_r.
  - rewrite decide_False.
    + rewrite (IH (S k) s Hnd Hs). f_equal. lia.
    + intros ->. apply Hx. by eapply list_elem_of_lookup_2.
Qed.

Lemma region_array_length {C} (regions : gset region)
    (content : region -> C * C) :
  length (_get_region_array_for regions content).1 = (size regions * 2)%nat.
Proof.
  destruct (region_array_events regions content)
    as (sorted & Hperm & _ & ->). simpl.
  rewrite length_fmap, Hperm. unfold size, set_size. simpl. clear Hperm.
  induction (elements regions) as [|reg regs IH]; [reflexivity|].
  simpl. rewrite IH. lia.
Qed.

Lemma sum_positive (vals : list Z) (acc : Z) :
  Forall (fun v => 0 < v) vals →
  acc ≤ foldl Z.add acc vals ∧ (vals ≠ [] → acc < foldl Z.add acc vals).
Proof.
  revert acc. induction vals as [|v vals IH]; intros acc Hpos; simpl.
  - split; [lia | done].
  - apply Forall_cons in Hpos as [Hv Hpos].
    destruct (IH (acc + v) Hpos) as [Hle _]. split; [lia|]. intros _. lia.
Qed.

(** ** Scores that are computed exactly *)

Lemma to_int64_small (z : Z) :
  - 2 ^ 63 ≤ z < 2 ^ 63 → Np.to_int64 z = z.
Proof. intros H. unfold Np.to_int64. rewrite Z.mod_small; lia. Qed.

Lemma to_float64_small (z : Z) :
  - 2 ^ 53 < z < 2 ^ 53 → Np.to_float64 z = z.
Proof. intros H. unfold Np.to_float64. rewrite decide_True; [done|lia]. Qed.

Lemma mapM_get_scores (scoring : list Z) (pairs : list nat) :
  (∀ p, p ∈ pairs → (p < length scoring)%nat) →
  mapM_r (fun i => Np.get scoring (Z.of_nat i)) pairs
  = Ok ((fun p => default 0 (scoring !! p)) <$> pairs).
Proof.
  induction pairs as [|p pairs IH]; intros Hin; [done|]. simpl.
  destruct (get_in_range scoring (Z.of_nat p)) as [v Hv].
  { specialize (Hin p ltac:(left)). lia. }
  rewrite Hv, bind_Ok, IH by (intros q Hq; apply Hin; by right).
  rewrite bind_Ok. apply get_of_nat in Hv. by rewrite Hv.
Qed.

#[global] Instance total_weight_Permutation (scoring : list Z) :
  Proper ((≡ₚ) ==> (=)) (total_weight scoring).
Proof.
  intros l1 l2 Hperm. unfold total_weight.
  induction Hperm as [|x l1 l2 _ IH|x y l|l1 l2 l3 _ IH1 _ IH2]; simpl;
    [done | by rewrite IH | lia | congruence].
Qed.

Lemma total_weight_app (scoring : list Z) (l1 l2 : list region) :
  total_weight scoring (l1 ++ l2)
  = total_weight scoring l1 + total_weight scoring l2.
Proof.
  unfold total_weight. induction l1 as [|x l1 IH]; simpl; [done|].
  rewrite IH. lia.
Qed.

Lemma solution_weight_empty (scoring : list Z) :
  solution_weight scoring ∅ = 0.
Proof. unfold solution_weight. by rewrite elements_empty. Qed.

Lemma solution_weight_union (scoring : list Z) (s1 s2 : gset region) :
  s1 ## s2 →
  solution_weight scoring (s1 ∪ s2)
  = solution_weight scoring s1 + solution_weight scoring s2.
Proof.
  intros Hdisj. unfold solution_weight.
  by rewrite elements_disj_union, total_weight_app.
Qed.

Lemma solution_weight_singleton (scoring : list Z) (reg : region) :
  solution_weight scoring {[reg]} = weight scoring reg.
Proof.
  unfold solution_weight. rewrite elements_singleton. simpl. lia.
Qed.

Section Scores.

Variable cluster : gset region.
Variable scoring : list Z.

Hypothesis members : ∀ reg, reg ∈ cluster →
  region_pairs reg ≠ []
  ∧ ∀ p, p ∈ region_pairs reg → (p < length scoring)%nat.
Hypothesis positive : Forall (fun v => 0 < v) scoring.

Lemma weight_positive (reg : region) :
  reg ∈ cluster → 0 < weight scoring reg.
Proof.
  intros Hreg. destruct (members reg Hreg) as [Hne Hin]. unfold weight.
  apply sum_positive.
  - apply Forall_forall. intros v (p & -> & Hp)%list_elem_of_fmap.
    destruct (lookup_lt_is_Some_2 scoring p (Hin p Hp)) as [v Hv].
    rewrite Hv. simpl. rewrite Forall_forall in positive.
    apply positive. by eapply list_elem_of_lookup_2.
  - intros Hnil. by apply fmap_nil_inv in Hnil.
Qed.

Lemma total_weight_nonneg (regs : list region) :
  (∀ reg, reg ∈ regs → reg ∈ cluster) → 0 ≤ total_weight scoring regs.
Proof.
  induction regs as [|reg regs IH]; intros Hin; simpl; [done|].
  pose proof (weight_positive reg (Hin reg ltac:(left))).
  pose proof (IH (fun r Hr => Hin r ltac:(by right))). lia.
Qed.

Lemma solution_weight_nonneg (solution : gset region) :
  solution ⊆ cluster → 0 ≤ solution_weight scoring solution.
Proof.
  intros Hsub. apply total_weight_nonneg.
  intros reg Hreg%elem_of_elements. by apply Hsub.
Qed.

Lemma solution_weight_positive (solution : gset region) :
  solution ⊆ cluster → solution ≠ ∅ → 0 < solution_weight scoring solution.
Proof.
  intros Hsub [reg Hreg]%set_choose_L.
  rewrite (union_difference_singleton_L reg solution Hreg).
  rewrite solution_weight_union, solution_weight_singleton.
  - pose proof (weight_positive reg (Hsub reg Hreg)).
    pose proof (solution_weight_nonneg (solution ∖ {[reg]})) as Hrest.
    assert (solution ∖ {[reg]} ⊆ cluster).
    { intros r [Hr _]%elem_of_difference. by apply Hsub. }
    specialize (Hrest ltac:(done)). lia.
  - apply disjoint_singleton_l.
    rewrite elem_of_difference, elem_of_singleton. tauto.
Qed.

Lemma solution_weight_subseteq (solution1 solution2 : gset region) :
  solution1 ⊆ solution2 → solution2 ⊆ cluster →
  solution_weight scoring solution1 ≤ solution_weight scoring solution2.
Proof.
  intros Hsub Hin. rewrite (union_difference_L solution1 solution2 Hsub).
  rewrite solution_weight_union.
  - pose proof (solution_weight_nonneg (solution2 ∖ solution1)) as Hrest.
    assert (solution2 ∖ solution1 ⊆ cluster).
    { intros r [Hr _]%elem_of_difference. by apply Hin. }
    specialize (Hrest ltac:(done)). lia.
  - intros r Hr [_ Hnot]%elem_of_difference. contradiction.
Qed.

(** With positive scores that add up to less than [2 ^ 53] over the
    cluster nothing wraps around and nothing is rounded. *)
Hypothesis small : exact_scores scoring cluster.

Lemma solution_weight_small (solution : gset region) :
  solution ⊆ cluster →
  0 ≤ solution_weight scoring solution < 2 ^ 53.
Proof.
  intros Hsub. split; [by apply solution_weight_nonneg|].
  eapply Z.le_lt_trans; [|exact small].
  by apply solution_weight_subseteq.
Qed.

Lemma get_score_weight (reg : region) :
  reg ∈ cluster → get_score reg scoring = Ok (weight scoring reg).
Proof.
  intros Hreg. destruct (members reg Hreg) as [_ Hin].
  unfold get_score, get_index_mask.
  rewrite mapM_get_scores, bind_Ok by exact Hin.
  fold (weight scoring reg). rewrite to_int64_small; [done|].
  pose proof (weight_positive reg Hreg).
  pose proof (solution_weight_small {[reg]}) as Hsmall.
  rewrite solution_weight_singleton in Hsmall.
  assert ({[reg]} ⊆ cluster) by by apply singleton_subseteq_l.
  specialize (Hsmall ltac:(done)). lia.
Qed.

Lemma solution_score_fold (regs : list region) (acc : Z) :
  (∀ reg, reg ∈ regs → reg ∈ cluster) →
  0 ≤ acc → acc + total_weight scoring regs < 2 ^ 63 →
  foldM (fun score reg =>
           s ← get_score reg scoring; Ok (Np.to_int64 (score + s)))
        acc regs
  = Ok (acc + total_weight scoring regs).
Proof.
  revert acc. induction regs as [|reg regs IH]; intros acc Hin Hacc Hsum.
  - simpl. f_equal. lia.
  - simpl in *. rewrite get_score_weight by (apply Hin; left).
    pose proof (weight_positive reg (Hin reg ltac:(left))).
    pose proof (total_weight_nonneg regs
                  (fun r Hr => Hin r ltac:(by right))).
    rewrite !bind_Ok, to_int64_small by lia.
    rewrite IH; [f_equal; lia| |lia|lia].
    intros r Hr. apply Hin. by right.
Qed.

Lemma solution_score_weight (solution : gset region) :
  solution ⊆ cluster →
  solution_score scoring solution = Ok (solution_weight scoring solution).
Proof.
  intros Hsub. unfold solution_score.
  pose proof (solution_weight_small solution Hsub) as Hsmall.
  unfold solution_weight in *. rewrite solution_score_fold; [done| |lia|lia].
  intros reg Hreg%elem_of_elements. by apply Hsub.
Qed.

Lemma stored_score_weight (solution : gset region) :
  solution ⊆ cluster →
  stored_score scoring solution = Ok (solution_weight scoring solution).
Proof.
  intros Hsub. unfold stored_score.
  rewrite solution_score_weight, bind_Ok by exact Hsub.
  rewrite to_float64_small; [done|].
  pose proof (solution_weight_small solution Hsub). lia.
Qed.

Lemma stored_score_total (solution : gset region) :
  solution ⊆ cluster →
  ∃ score, stored_score scoring solution = Ok score
           ∧ 0 ≤ score ∧ (solution ≠ ∅ → 0 < score).
Proof.
  intros Hsub. exists (solution_weight scoring solution).
  split; [by apply stored_score_weight|].
  split; [by apply solution_weight_nonneg|].
  by apply solution_weight_positive.
Qed.

End Scores.

Lemma norm_index_ok (n i : nat) :
  (i < n)%nat → Np.norm_index n (Z.of_nat i) = Ok i.
Proof.
  intros Hi. unfold Np.norm_index.
  rewrite decide_True by lia. by rewrite Nat2Z.id.
Qed.

Lemma dp_at_nat (n a b : nat)
    (dp_matrix : gmap (nat * nat) (list (gset region))) :
  (a < n)%nat → (b < n)%nat →
  dp_at n dp_matrix (Z.of_nat a) (Z.of_nat b) = Ok (dp_matrix !! (a, b)).
Proof.
  intros Ha Hb. unfold dp_at.
  by rewrite (norm_index_ok n a Ha), bind_Ok, (norm_index_ok n b Hb), bind_Ok.
Qed.

Lemma existsb_nonempty (solutions : list (gset region)) :
  existsb (fun solution => bool_decide (solution ≠ ∅)) solutions = true →
  ∃ solution, solution ∈ solutions ∧ solution ≠ ∅.
Proof.
  intros (solution & Hin & Hne)%existsb_exists. exists solution.
  split; [by apply list_elem_of_In|]. by apply bool_decide_eq_true in Hne.
Qed.

(** The candidates of a cell only grow. *)
Lemma add_subsolutions_grow (n i j : nat)
    (dp_matrix : gmap (nat * nat) (list (gset region)))
    (cands cands' : gset (gset region)) (k : Z) (solution : gset region) :
  add_subsolutions n dp_matrix i j cands k = Ok cands' →
  solution ∈ cands → solution ∈ cands'.
Proof.
  unfold add_subsolutions. intros Hrun Hin.
  apply bind_inv_Ok in Hrun as (cell1 & _ & Hrun).
  apply bind_inv_Ok in Hrun as (cell2 & _ & Hrun).
  apply bind_inv_Ok in Hrun as (subs1 & _ & Hrun).
  eapply (foldM_invariant (fun c : gset (gset region) => solution ∈ c));
    [|exact Hin|exact Hrun].
  intros c sub1 c' _ Hc Hstep.
  apply bind_inv_Ok in Hstep as (subs2 & _ & Hstep). injection Hstep as <-.
  apply (foldl_invariant (fun c : gset (gset region) => solution ∈ c));
    [|exact Hc].
  intros c0 sub2 _ Hc0. apply elem_of_union. by right.
Qed.

Lemma add_pair_grow (n i j : nat)
    (dp_matrix : gmap (nat * nat) (list (gset region)))
    (start_stops : list Z) (solution1 : gset region) (highest : Z)
    (cands cands' : gset (gset region)) (sl : gset region * Z)
    (solution : gset region) :
  add_pair n dp_matrix start_stops i j solution1 highest cands sl
  = Ok cands' →
  solution ∈ cands → solution ∈ cands'.
Proof.
  unfold add_pair. destruct sl as [solution2 lowest]. intros Hrun Hin.
  case_decide.
  - injection Hrun as <-. apply elem_of_union. by right.
  - apply bind_inv_Ok in Hrun as (lo & _ & Hrun).
    apply bind_inv_Ok in Hrun as (hi & _ & Hrun).
    eapply (foldM_invariant (fun c : gset (gset region) => solution ∈ c));
      [|exact Hin|exact Hrun].
    intros c k c' _ Hc Hstep. by eapply add_subsolutions_grow.
Qed.

Lemma crossed_candidates_grow (n i j : nat)
    (dp_matrix : gmap (nat * nat) (list (gset region)))
    (start_stops : list Z) (left bottom : list (gset region))
    (cands cands' : gset (gset region)) (solution : gset region) :
  crossed_candidates n dp_matrix start_stops i j left bottom cands
  = Ok cands' →
  solution ∈ cands → solution ∈ cands'.
Proof.
  unfold crossed_candidates. intros Hrun Hin.
  destruct (existsb _ left && existsb _ bottom);
    [|by injection Hrun as <-].
  eapply (foldM_invariant (fun c : gset (gset region) => solution ∈ c));
    [|exact Hin|exact Hrun].
  intros c sh c' _ Hc Hinner.
  eapply (foldM_invariant (fun c : gset (gset region) => solution ∈ c));
    [|exact Hc|exact Hinner].
  intros c0 sl c1 _ Hc0 Hstep. by eapply add_pair_grow.
Qed.

Lemma wrapped_candidates_grow (n i j : nat)
    (dp_matrix : gmap (nat * nat) (list (gset region)))
    (reg_i reg_j : region) (cands cands' : gset (gset region))
    (solution : gset region) :
  wrapped_candidates n dp_matrix i j reg_i reg_j cands = Ok cands' →
  solution ∈ cands → solution ∈ cands'.
Proof.
  unfold wrapped_candidates. intros Hrun Hin.
  case_decide; [|by injection Hrun as <-].
  apply bind_inv_Ok in Hrun as (cell & _ & Hrun).
  apply bind_inv_Ok in Hrun as (bottom_left & _ & Hrun).
  injection Hrun as <-. apply elem_of_union. by right.
Qed.

Lemma wrapped_candidates_new (n i j : nat)
    (dp_matrix : gmap (nat * nat) (list (gset region)))
    (reg : region) (cands cands' : gset (gset region)) :
  (i < j)%nat →
  wrapped_candidates n dp_matrix i j reg reg cands = Ok cands' →
  ∃ bottom_left,
    dp_matrix !! (S i, (j - 1)%nat) = Some bottom_left
    ∧ ∀ solution, solution ∈ bottom_left → solution ∪ {[reg]} ∈ cands'.
Proof.
  unfold wrapped_candidates. intros Hij Hrun.
  rewrite decide_True in Hrun by done.
  apply bind_inv_Ok in Hrun as (cell & Hcell & Hrun).
  apply bind_inv_Ok in Hrun as (bottom_left & ->%iterate_inv & Hrun).
  injection Hrun as <-.
  apply dp_at_inv in Hcell as (a & b & Ha & Hb & Hcell).
  assert (a = S i) as ->.
  { apply norm_index_inv in Ha as [[? ->] | [? ->]]; lia. }
  assert (b = (j - 1)%nat) as ->.
  { apply norm_index_inv in Hb as [[? ->] | [? ->]]; lia. }
  exists bottom_left. split; [done|].
  intros solution Hsol. apply elem_of_union. left.
  apply elem_of_list_to_set, list_elem_of_fmap. eauto.
Qed.

Section SolverTotal.

Variable cluster : gset region.
Variable keys : list Z.
Variable scoring : list Z.

Let ra : list region :=
  (_get_region_array_for cluster
     (fun a => (Np.to_int32 (start a), Np.to_int32 (stop a)))).1.
Let ss : list Z :=
  (_get_region_array_for cluster
     (fun a => (Np.to_int32 (start a), Np.to_int32 (stop a)))).2.
Let n : nat := (size cluster * 2)%nat.

Hypothesis array : event_array cluster ra keys.
Hypothesis bounds : ∀ reg, reg ∈ cluster → 0 ≤ start reg ∧ stop reg < 2 ^ 31.
Hypothesis values : ss = keys.
Hypothesis conflicting : ∀ reg, reg ∈ cluster →
  ∃ reg', reg' ∈ cluster ∧ crossing reg reg'.
Hypothesis members : ∀ reg, reg ∈ cluster →
  region_pairs reg ≠ []
  ∧ ∀ p, p ∈ region_pairs reg → (p < length scoring)%nat.
Hypothesis positive : Forall (fun v => 0 < v) scoring.
Hypothesis small : exact_scores scoring cluster.

Lemma array_length : length ra = n.
Proof. apply region_array_length. Qed.

Lemma ends_in_range (reg : region) (s e : nat) :
  ends ra keys reg s e → (e < n)%nat ∧ reg ∈ cluster.
Proof.
  intros (_ & _ & He & _). split.
  - rewrite <- array_length. by eapply lookup_lt_Some.
  - destruct array as (_ & _ & _ & Hentry & _). by destruct (Hentry e reg He).
Qed.

Lemma inside_subseteq (a b : nat) (solution : gset region) :
  inside ra keys cluster a b solution → solution ⊆ cluster.
Proof. intros [Hin _] reg Hreg. by destruct (Hin reg Hreg). Qed.

(** A cell holds the empty solution alone or no empty solution. *)
Lemma tied_nonempty (a b : nat) (solutions : list (gset region))
    (solution : gset region) :
  cell_ok scoring ra keys cluster a b solutions →
  solution ∈ solutions → solution ≠ ∅ → ∅ ∉ solutions.
Proof.
  intros (_ & _ & (best & Hbest) & Hinside) Hin Hne Hempty.
  destruct (stored_score_total cluster scoring members positive small solution)
    as (score & Hscore & _ & Hpos).
  { eapply inside_subseteq. by apply Hinside. }
  rewrite (Hbest solution Hin) in Hscore. injection Hscore as ->.
  pose proof (Hbest ∅ Hempty) as Hzero.
  rewrite stored_score_empty in Hzero. injection Hzero as <-.
  specialize (Hpos Hne). lia.
Qed.

Lemma where_first_key (s : nat) (v : Z) :
  keys !! s = Some v → Np.where_first ss v = Ok s.
Proof.
  intros Hs. rewrite values. unfold Np.where_first.
  rewrite (where_first_from_spec keys v 0 s); [done| |exact Hs].
  apply NoDup_alt. intros i j x Hi Hj.
  exact (key_inj cluster ra keys array i j x Hi Hj).
Qed.

(** The positions of the span of a solution that is not empty. *)
Lemma span_positions (a b : nat) (solution : gset region) :
  inside ra keys cluster a b solution → solution ≠ ∅ →
  ∃ lo hi, Np.where_first ss (Np.to_int32 (solution_span solution).1) = Ok lo
           ∧ Np.where_first ss (Np.to_int32 (solution_span solution).2)
             = Ok hi
           ∧ (a ≤ lo)%nat ∧ (hi ≤ b)%nat.
Proof.
  intros Hinside Hne. pose proof Hinside as [Hin _].
  assert (Hpos : ∀ reg, reg ∈ solution →
            0 ≤ start reg ∧ 0 ≤ stop reg ∧ start reg < 2 ^ 31
            ∧ stop reg < 2 ^ 31).
  { intros reg Hreg. destruct (Hin reg Hreg) as (Hc & _).
    destruct array as (_ & _ & Hspan & _).
    pose proof (Hspan reg Hc). pose proof (bounds reg Hc). lia. }
  destruct (solution_span_spec solution) as (_ & Hmin & Hmax & Hnonneg).
  { intros reg Hreg. pose proof (Hpos reg Hreg). lia. }
  specialize (Hnonneg Hne).
  destruct Hmin as [? | (r2 & Hr2 & Hmin)]; [lia|].
  destruct Hmax as [? | (r1 & Hr1 & Hmax)]; [lia|].
  destruct (Hin r2 Hr2) as (_ & s2 & e2 & Hends2 & Hs2 & _).
  destruct (Hin r1 Hr1) as (_ & s1 & e1 & Hends1 & _ & He1).
  exists s2, e1. rewrite Hmin, Hmax.
  rewrite !to_int32_small
    by (pose proof (Hpos r1 Hr1); pose proof (Hpos r2 Hr2); lia).
  destruct Hends2 as (_ & Hk2 & _). destruct Hends1 as (_ & _ & _ & Hk1).
  split; [by apply where_first_key|]. split; [by apply where_first_key|].
  split; lia.
Qed.

Lemma add_subsolutions_total (j i : nat)
    (dp_matrix : gmap (nat * nat) (list (gset region)))
    (cands : gset (gset region)) (k : Z) :
  dp_full ra keys n j (S i) dp_matrix →
  (j < n)%nat → Z.of_nat i ≤ k < Z.of_nat j →
  ∃ cands', add_subsolutions n dp_matrix i j cands k = Ok cands'.
Proof.
  intros [Hfull _] Hjn Hk. unfold add_subsolutions.
  replace k with (Z.of_nat (Z.to_nat k)) by lia.
  replace (Z.of_nat (Z.to_nat k) + 1) with (Z.of_nat (S (Z.to_nat k)))
    by lia.
  rewrite !dp_at_nat by lia. rewrite !bind_Ok.
  destruct (Hfull i (Z.to_nat k)) as [subs1 ->]; [lia | lia | lia|].
  destruct (Hfull (S (Z.to_nat k)) j) as [subs2 ->]; [lia | lia | lia|].
  simpl. apply foldM_total. intros c sub1 _. eauto.
Qed.

Lemma add_pair_total (j i : nat)
    (dp_matrix : gmap (nat * nat) (list (gset region)))
    (solution1 solution2 : gset region) (cands : gset (gset region)) :
  dp_full ra keys n j (S i) dp_matrix →
  (i < j)%nat → (j < n)%nat →
  inside ra keys cluster i (j - 1) solution1 → solution1 ≠ ∅ →
  inside ra keys cluster (S i) j solution2 → solution2 ≠ ∅ →
  ∃ cands',
    add_pair n dp_matrix ss i j solution1
      (Np.to_int32 (solution_span solution1).2) cands
      (solution2, Np.to_int32 (solution_span solution2).1) = Ok cands'.
Proof.
  intros Hfull Hij Hjn H1 Hne1 H2 Hne2. unfold add_pair.
  case_decide; [eauto|].
  destruct (span_positions _ _ _ H1 Hne1) as (lo1 & hi1 & _ & -> & _ & Hhi).
  destruct (span_positions _ _ _ H2 Hne2) as (lo2 & hi2 & -> & _ & Hlo & _).
  rewrite !bind_Ok. apply foldM_total. intros c k Hk.
  apply elem_of_seqZ in Hk.
  apply add_subsolutions_total; [exact Hfull | exact Hjn | lia].
Qed.


Lemma wrapped_candidates_total (j i : nat)
    (dp_matrix : gmap (nat * nat) (list (gset region)))
    (reg_i reg_j : region) (cands : gset (gset region)) :
  dp_full ra keys n j (S i) dp_matrix →
  (i < j)%nat → (j < n)%nat →
  ra !! i = Some reg_i → ra !! j = Some reg_j →
  ∃ cands', wrapped_candidates n dp_matrix i j reg_i reg_j cands = Ok cands'.
Proof.
  intros [Hfull _] Hij Hjn Hreg_i Hreg_j. unfold wrapped_candidates.
  case_decide as Hsame; [|eauto]. subst reg_j.
  destruct (ends_of_occurrence cluster ra keys array reg_i i Hreg_i)
    as (s & e & Hends & Hi).
  pose proof (ends_only cluster ra keys array reg_i s e j Hends Hreg_j)
    as Hj.
  pose proof (ends_lt cluster ra keys array reg_i s e Hends) as Hlt.
  assert (s = i ∧ e = j) as [-> ->] by lia.
  destruct (ends_in_range reg_i i j Hends) as [_ Hreg].
  destruct (conflicting reg_i Hreg) as (reg' & Hreg' & Hcross).
  destruct (ends_exist cluster ra keys array reg' Hreg')
    as (s' & e' & Hends').
  apply (crossing_ends cluster ra keys array _ _ _ _ _ _ Hends Hends')
    in Hcross.
  replace (Z.of_nat i + 1) with (Z.of_nat (S i)) by lia.
  replace (Z.of_nat j - 1) with (Z.of_nat (j - 1)) by lia.
  rewrite dp_at_nat by lia. rewrite bind_Ok.
  destruct (Hfull (S i) (j - 1)%nat) as [bottom_left ->]; [lia | lia | lia|].
  simpl. eauto.
Qed.

Lemma crossed_candidates_total (j i : nat)
    (dp_matrix : gmap (nat * nat) (list (gset region)))
    (left bottom : list (gset region)) (cands : gset (gset region)) :
  dp_inv scoring ra keys cluster j (S i) dp_matrix →
  dp_full ra keys n j (S i) dp_matrix →
  (i < j)%nat → (j < n)%nat →
  dp_matrix !! (i, (j - 1)%nat) = Some left →
  dp_matrix !! (S i, j) = Some bottom →
  ∃ cands',
    crossed_candidates n dp_matrix ss i j left bottom cands = Ok cands'.
Proof.
  intros Hinv Hfull Hij Hjn Hleft Hbottom. unfold crossed_candidates.
  destruct (existsb _ left) eqn:Hex1; [|simpl; eauto].
  destruct (existsb _ bottom) eqn:Hex2; [|simpl; eauto].
  simpl.
  apply existsb_nonempty in Hex1 as (sol1 & Hsol1 & Hne1).
  apply existsb_nonempty in Hex2 as (sol2 & Hsol2 & Hne2).
  destruct (Hinv _ _ _ Hleft) as (_ & _ & Hleft_ok).
  destruct (Hinv _ _ _ Hbottom) as (_ & _ & Hbottom_ok).
  pose proof (tied_nonempty _ _ _ _ Hleft_ok Hsol1 Hne1) as Hleft_ne.
  pose proof (tied_nonempty _ _ _ _ Hbottom_ok Hsol2 Hne2) as Hbottom_ne.
  destruct Hleft_ok as (_ & _ & _ & Hleft_in).
  destruct Hbottom_ok as (_ & _ & _ & Hbottom_in).
  apply foldM_total. intros c sh [Hsh1 Hsh2]%zip_fmap_elem.
  apply foldM_total. intros c' [solution2 lowest] [Hsl1 Hsl2]%zip_fmap_elem.
  simpl in Hsl1, Hsl2. rewrite ?Hsh2, ?Hsl2.
  apply add_pair_total; auto.
  - intros Heq. rewrite Heq in Hsh1. contradiction.
  - intros Heq. rewrite Heq in Hsl1. contradiction.
Qed.

(** Filling the cell [(i, j)] returns. *)
Lemma fill_cell_total (j i : nat)
    (dp_matrix : gmap (nat * nat) (list (gset region))) :
  dp_inv scoring ra keys cluster j (S i) dp_matrix →
  dp_full ra keys n j (S i) dp_matrix →
  (i < j)%nat → (j < n)%nat →
  ∃ dp_matrix', fill_cell scoring n ra ss j dp_matrix i = Ok dp_matrix'
                ∧ dp_full ra keys n j i dp_matrix'.
Proof.
  intros Hinv Hfull Hij Hjn.
  assert (Hrun : ∃ dp_matrix',
            fill_cell scoring n ra ss j dp_matrix i = Ok dp_matrix').
  { pose proof (fill_cell_unfold cluster scoring n j i dp_matrix) as Hunfold.
    fold ra ss in Hunfold. rewrite Hunfold. clear Hunfold.
    replace (Z.of_nat i + 1) with (Z.of_nat (S i)) by lia.
    replace (Z.of_nat j - 1) with (Z.of_nat (j - 1)) by lia.
    rewrite !dp_at_nat by lia. rewrite !bind_Ok.
    pose proof Hfull as [Hassigned _].
    destruct (Hassigned i (j - 1)%nat) as [left Hleft]; [lia | lia | lia|].
    destruct (Hassigned (S i) j) as [bottom Hbottom]; [lia | lia | lia|].
    rewrite Hleft, Hbottom.
    change (iterate (Some left)) with (Ok left).
    change (iterate (Some bottom)) with (Ok bottom). rewrite !bind_Ok.
    destruct (get_in_range ra (Z.of_nat i)) as [reg_i Hreg_i];
      [rewrite array_length; lia|].
    destruct (get_in_range ra (Z.of_nat j)) as [reg_j Hreg_j];
      [rewrite array_length; lia|].
    rewrite Hreg_i, Hreg_j, !bind_Ok.
    apply get_of_nat in Hreg_i, Hreg_j.
    destruct (wrapped_candidates_total j i dp_matrix reg_i reg_j
                (list_to_set left ∪ list_to_set bottom))
      as [cands1 Hcands1]; auto.
    rewrite Hcands1, bind_Ok.
    destruct (crossed_candidates_total j i dp_matrix left bottom cands1)
      as [cands2 Hcands2]; auto.
    rewrite Hcands2, bind_Ok.
    assert (Hinside : ∀ solution, solution ∈ cands2 →
              inside ra keys cluster i j solution).
    { destruct (Hinv _ _ _ Hleft) as (_ & _ & _ & _ & _ & Hinside_left).
      destruct (Hinv _ _ _ Hbottom) as (_ & _ & _ & _ & _ & Hinside_bottom).
      assert (Hleft_in : ∀ solution, solution ∈ left →
                inside ra keys cluster i j solution).
      { intros solution Hsol.
        apply (inside_mono cluster keys i (j - 1)); [auto | lia | lia]. }
      assert (Hbottom_in : ∀ solution, solution ∈ bottom →
                inside ra keys cluster i j solution).
      { intros solution Hsol.
        apply (inside_mono cluster keys (S i) j); [auto | lia | lia]. }
      eapply (crossed_candidates_inside cluster keys scoring array bounds);
        [exact Hinv | exact Hij | exact Hleft_in | exact Hbottom_in
        | | exact Hcands2].
      eapply (wrapped_candidates_inside cluster keys scoring array);
        [exact Hinv | exact Hij | exact Hreg_i | exact Hreg_j
        | | exact Hcands1].
      intros solution [H | H]%elem_of_union;
        apply elem_of_list_to_set in H; auto. }
    destruct (mapM_r_total (stored_score scoring) (elements cands2))
      as [scores Hscores].
    { intros solution Hsol%elem_of_elements.
      destruct (stored_score_total cluster scoring members positive small
                  solution) as (score & Hscore & _).
      - eapply inside_subseteq. by apply Hinside.
      - eauto. }
    rewrite Hscores, bind_Ok.
    destruct scores as [|score scores]; [|simpl; eauto].
    apply mapM_r_inv, Forall2_nil_inv_r in Hscores.
    destruct (Hinv _ _ _ Hleft) as (_ & _ & Hne & _).
    destruct left as [|solution left]; [done|].
    assert (Hin : solution ∈ elements cands2).
    { apply elem_of_elements.
      eapply crossed_candidates_grow; [exact Hcands2|].
      eapply wrapped_candidates_grow; [exact Hcands1|].
      apply elem_of_union. left. apply elem_of_list_to_set. left. }
    rewrite Hscores in Hin. by apply elem_of_nil in Hin. }
  destruct Hrun as [dp_matrix' Hrun]. exists dp_matrix'.
  split; [exact Hrun|].
  destruct (fill_cell_inv_Ok cluster keys scoring array bounds n j i _ _
              Hinv Hij Hrun)
    as (left & bottom & reg_i & reg_j & cands1 & cands2 & scores & best
        & Hleft & Hbottom & Hreg_i & Hreg_j & Hcands1 & Hcands2 & Hscores
        & Hbest & -> & Hinside).
  destruct Hfull as [Hassigned Hfilled]. split.
  - intros a b Hab Hbn Hcase.
    destruct (decide ((i, j) = (a, b))) as [[= <- <-] | Hne].
    + rewrite lookup_insert_eq. eauto.
    + rewrite lookup_insert_ne by done. apply Hassigned; [lia | lia|].
      destruct Hcase as [? | [? | [-> ?]]]; [by left | by right; left|].
      right. right. split; [done|].
      destruct (decide (a = i)) as [-> | ?]; [done | lia].
  - intros a b solutions reg s e
      [[[= <- <-] <-] | [Hother Hold]]%lookup_insert_Some Hends Hs He;
      [|by eapply Hfilled].
    destruct (best_scores_ok scoring (elements cands2) scores best
                (NoDup_elements cands2) Hscores Hbest)
      as (_ & _ & Hbest_in).
    assert (Hcand : ∃ solution, solution ∈ cands2 ∧ solution ≠ ∅).
    { destruct (Hinv _ _ _ Hleft) as (_ & _ & Hleft_ne & _).
      destruct (Hinv _ _ _ Hbottom) as (_ & _ & Hbottom_ne & _).
      destruct (decide (i < s)%nat) as [Hlow | Hlow].
      { destruct bottom as [|solution bottom]; [done|].
        exists solution. split.
        - eapply crossed_candidates_grow; [exact Hcands2|].
          eapply wrapped_candidates_grow; [exact Hcands1|].
          apply elem_of_union. right. apply elem_of_list_to_set. left.
        - intros ->.
          apply (Hfilled _ _ _ reg s e Hbottom Hends); [lia | lia | left]. }
      destruct (decide (e < j)%nat) as [Hhigh | Hhigh].
      { destruct left as [|solution left]; [done|].
        exists solution. split.
        - eapply crossed_candidates_grow; [exact Hcands2|].
          eapply wrapped_candidates_grow; [exact Hcands1|].
          apply elem_of_union. left. apply elem_of_list_to_set. left.
        - intros ->.
          apply (Hfilled _ _ _ reg s e Hleft Hends); [lia | lia | left]. }
      assert (s = i ∧ e = j) as [-> ->] by lia.
      destruct Hends as (Hi & _ & Hj & _).
      fold ra in Hreg_i, Hreg_j.
      rewrite Hreg_i in Hi. rewrite Hreg_j in Hj.
      injection Hi as ->. injection Hj as ->.
      destruct (wrapped_candidates_new _ _ _ _ _ _ _ Hij Hcands1)
        as (bottom_left & Hbl & Hnew).
      destruct (Hinv _ _ _ Hbl) as (_ & _ & Hbl_ne & _).
      destruct bottom_left as [|solution bottom_left]; [done|].
      exists (solution ∪ {[reg]}). split.
      - eapply crossed_candidates_grow; [exact Hcands2|].
        apply Hnew. left.
      - intros Hempty.
        apply (not_elem_of_empty (C := gset region) reg).
        rewrite <- Hempty. apply elem_of_union. right.
        by apply elem_of_singleton. }
    destruct Hcand as (solution & Hsol & Hne).
    destruct (stored_score_total cluster scoring members positive small solution)
      as (score & Hscore & _ & Hpos).
    { eapply inside_subseteq. by apply Hinside. }
    specialize (Hpos Hne).
    assert (Hle : score ≤ best).
    { apply elem_of_elements, list_elem_of_lookup in Hsol as [k Hk].
      pose proof (mapM_r_inv _ _ _ Hscores) as Hall.
      destruct (Forall2_lookup_l _ _ _ _ _ Hall Hk) as (score' & Hk' & Heq).
      rewrite Hscore in Heq. injection Heq as <-.
      destruct scores as [|x xs]; [done|]. injection Hbest as <-.
      apply foldl_max_spec. by eapply list_elem_of_lookup_2. }
    intros Hempty. destruct (Hbest_in ∅ Hempty) as [_ Hzero].
    rewrite stored_score_empty in Hzero. injection Hzero as Hzero. lia.
Qed.


Lemma fill_column_total (j m : nat)
    (dp_matrix : gmap (nat * nat) (list (gset region))) :
  dp_inv scoring ra keys cluster j m dp_matrix →
  dp_full ra keys n j m dp_matrix →
  (m ≤ j)%nat → (j < n)%nat →
  ∃ dp_matrix',
    foldM (fill_cell scoring n ra ss j) dp_matrix (reverse (seq 0 m))
    = Ok dp_matrix'
    ∧ dp_full ra keys n j 0 dp_matrix'.
Proof.
  revert dp_matrix. induction m as [|m IH]; intros dp_matrix Hinv Hfull Hm Hjn.
  - exists dp_matrix. by split.
  - rewrite seq_S, reverse_snoc. simpl.
    destruct (fill_cell_total j m dp_matrix Hinv Hfull) as (dp1 & Hcell & Hfull1);
      [lia | lia|].
    rewrite Hcell, bind_Ok. apply IH; [|exact Hfull1|lia|lia].
    apply (fill_cell_inv cluster keys scoring array bounds n j m dp_matrix);
      [exact Hinv | lia | exact Hcell].
Qed.

Lemma fill_matrix_total (k j : nat)
    (dp_matrix : gmap (nat * nat) (list (gset region))) :
  dp_inv scoring ra keys cluster j j dp_matrix →
  dp_full ra keys n j j dp_matrix →
  (j + k ≤ n)%nat →
  ∃ dp_matrix',
    foldM (fun dp j =>
             foldM (fill_cell scoring n ra ss j) dp (reverse (seq 0 j)))
          dp_matrix (seq j k) = Ok dp_matrix'
    ∧ dp_full ra keys n (j + k) (j + k) dp_matrix'.
Proof.
  revert j dp_matrix. induction k as [|k IH]; intros j dp_matrix Hinv Hfull Hk.
  - exists dp_matrix. rewrite Nat.add_0_r. by split.
  - simpl.
    destruct (fill_column_total j j dp_matrix Hinv Hfull)
      as (dp1 & Hcolumn & Hfull1); [lia | lia|].
    rewrite Hcolumn, bind_Ok.
    replace (j + S k)%nat with (S j + k)%nat by lia.
    apply IH; [| |lia].
    + apply (next_column_inv cluster keys scoring).
      exact (fill_column_inv cluster keys scoring array bounds n j j
               dp_matrix dp1 Hinv (Nat.le_refl j) Hcolumn).
    + destruct Hfull1 as [Hassigned Hfilled]. split; [|exact Hfilled].
      intros a b Hab Hbn Hcase. apply Hassigned; [lia | lia|].
      destruct (decide (a = b)) as [? | ?]; [by left|]. right.
      destruct (decide (b < j)%nat); [by left|]. right. lia.
Qed.

Lemma diagonal_assigned (l : list nat) (a : nat)
    (dp_matrix : gmap (nat * nat) (list (gset region))) :
  a ∈ l ∨ is_Some (dp_matrix !! (a, a)) →
  is_Some (foldl (fun dp i => <[(i, i) := [∅]]> dp) dp_matrix l !! (a, a)).
Proof.
  revert dp_matrix. induction l as [|i l IH]; intros dp_matrix Hcase; simpl.
  - destruct Hcase as [?%elem_of_nil | ?]; done.
  - apply IH. destruct (decide (a = i)) as [-> | Hne].
    + right. rewrite lookup_insert_eq. eauto.
    + destruct Hcase as [[? | ?]%elem_of_cons | ?]; [done | by left|].
      right. rewrite lookup_insert_ne by congruence. done.
Qed.

Lemma diagonal_full :
  dp_full ra keys n 0 0
    (foldl (fun dp i => <[(i, i) := [∅]]> dp) ∅ (seq 0 n)).
Proof.
  split.
  - intros a b Hab Hbn Hcase. assert (a = b) as -> by lia.
    apply diagonal_assigned. left. apply elem_of_seq. lia.
  - intros a b solutions reg s e Hcell Hends Hs He.
    destruct (diagonal_inv cluster keys scoring (seq 0 n) a b solutions Hcell)
      as (Hab & Hfilled & _).
    pose proof (ends_lt cluster ra keys array reg s e Hends). lia.
Qed.

(** The solver returns, and no solution it returns is empty. *)
Lemma optimal_solutions_run :
  cluster ≠ ∅ →
  ∃ solutions,
    _get_optimal_solutions cluster scoring = Ok solutions
    ∧ ∀ solution, solution ∈ solutions → solution ≠ ∅.
Proof.
  intros Hne. unfold _get_optimal_solutions.
  rewrite (surjective_pairing (_get_region_array_for cluster _)).
  fold ra ss n.
  destruct (fill_matrix_total n 0 _
              (diagonal_inv cluster keys scoring (seq 0 n)) diagonal_full)
    as (dp & Hfill & [Hassigned Hfilled]); [lia|].
  rewrite Hfill, bind_Ok.
  apply set_choose_L in Hne as [reg Hreg].
  destruct (ends_exist cluster ra keys array reg Hreg) as (s & e & Hends).
  destruct (ends_in_range reg s e Hends) as [He _].
  assert (H0 : Np.norm_index n 0 = Ok 0%nat).
  { unfold Np.norm_index. by rewrite decide_True by lia. }
  assert (H1 : Np.norm_index n (-1) = Ok (n - 1)%nat).
  { unfold Np.norm_index. rewrite decide_False by lia.
    rewrite decide_True by lia. f_equal. lia. }
  unfold dp_at. rewrite H0, bind_Ok, H1, bind_Ok.
  destruct (Hassigned 0%nat (n - 1)%nat) as [solutions Hcell];
    [lia | lia | right; left; lia|].
  rewrite Hcell. exists solutions. split; [reflexivity|].
  intros solution Hsol ->.
  apply (Hfilled _ _ _ reg s e Hcell Hends); [lia | lia | exact Hsol].
Qed.

End SolverTotal.

Lemma region_array_keys (cluster : gset region) :
  well_placed cluster →
  ∃ keys,
    event_array cluster
      (_get_region_array_for cluster
         (fun a => (Np.to_int32 (start a), Np.to_int32 (stop a)))).1 keys
    ∧ (_get_region_array_for cluster
         (fun a => (Np.to_int32 (start a), Np.to_int32 (stop a)))).2 = keys.
Proof.
  intros Hwp.
  destruct (region_array_event_array cluster
              (fun a => (Np.to_int32 (start a), Np.to_int32 (stop a))) Hwp)
    as (keys & Harray & Hlen & Hvalues).
  exists keys. split; [exact Harray|].
  set (ra := (_get_region_array_for cluster _).1) in *.
  set (ss := (_get_region_array_for cluster _).2) in *.
  apply list_eq. intros i.
  destruct (ra !! i) as [reg|] eqn:Hi.
  - assert (Hreg : reg ∈ cluster).
    { destruct Harray as (_ & _ & _ & Hentry & _).
      by destruct (Hentry i reg Hi). }
    destruct Hwp as [Hspan _]. specialize (Hspan reg Hreg).
    destruct (Hvalues i reg Hi) as [[-> ->] | [-> ->]]; simpl;
      by rewrite to_int32_small by lia.
  - apply lookup_ge_None in Hi.
    destruct Harray as (Hlen' & _).
    rewrite (proj2 (lookup_ge_None ss i)) by lia.
    by rewrite (proj2 (lookup_ge_None keys i)) by lia.
Qed.

(** For positive scores that are computed exactly the solver returns on
    a cluster of regions of which every one crosses another one. *)
Lemma optimal_solutions_total (cluster : gset region) (scoring : list Z) :
  well_placed cluster → cluster ≠ ∅ →
  (∀ reg, reg ∈ cluster → ∃ reg', reg' ∈ cluster ∧ crossing reg reg') →
  (∀ reg, reg ∈ cluster →
     region_pairs reg ≠ []
     ∧ ∀ p, p ∈ region_pairs reg → (p < length scoring)%nat) →
  Forall (fun v => 0 < v) scoring →
  exact_scores scoring cluster →
  ∃ solutions,
    _get_optimal_solutions cluster scoring = Ok solutions
    ∧ ∀ solution, solution ∈ solutions → solution ≠ ∅.
Proof.
  intros Hwp Hne Hconflicting Hmembers Hpositive Hsmall.
  destruct (region_array_keys cluster Hwp) as (keys & Harray & Hvalues).
  apply (optimal_solutions_run cluster keys scoring Harray); auto.
  intros reg Hreg. destruct Hwp as [Hspan _]. apply Hspan in Hreg. lia.
Qed.

(** ** The members of a region are nested *)

Lemma sorted_lookup_le (l : list Z) (i j : nat) (a b : Z) :
  Sorted Z.le l → l !! i = Some a → l !! j = Some b → (i ≤ j)%nat → a ≤ b.
Proof.
  intros Hsorted%Sorted_StronglySorted; [|intros ???; lia].
  revert i j. induction Hsorted as [|x l Hl IH Hx]; intros i j Hi Hj Hij.
  - by rewrite lookup_nil in Hi.
  - destruct i as [|i], j as [|j]; simpl in Hi, Hj.
    + assert (a = b) by congruence. lia.
    + injection Hi as <-. rewrite Forall_forall in Hx.
      apply Hx. by eapply list_elem_of_lookup_2.
    + lia.
    + eapply IH; eauto. lia.
Qed.

Lemma lookup_take_at {A} (a : list A) (mask : list nat) (k : nat) :
  Forall (fun i => (i < length a)%nat) mask →
  Np.take_at a mask !! k = mask !! k ≫= (a !!.).
Proof.
  unfold Np.take_at. revert k.
  induction mask as [|i mask IH]; intros k Hall; [done|].
  apply Forall_cons in Hall as [Hi Hall].
  destruct (lookup_lt_is_Some_2 a i Hi) as [x Hx].
  change (omap (fun i => a !! i) (i :: mask))
    with (match a !! i with
          | Some y => y :: omap (fun i => a !! i) mask
          | None => omap (fun i => a !! i) mask
          end).
  rewrite Hx. destruct k as [|k]; simpl; [by rewrite Hx | by apply IH].
Qed.

Lemma argsort_in_range (keys : list Z) :
  Forall (fun i => (i < length keys)%nat) (Np.argsort keys).
Proof. apply Forall_forall. intros i. apply argsort_bound. Qed.

Lemma sorted_of_nat_seq (a n : nat) : Sorted Z.le (Z.of_nat <$> seq a n).
Proof.
  revert a. induction n as [|n IH]; intros a; simpl; [constructor|].
  constructor; [apply IH|].
  destruct n; simpl; constructor. lia.
Qed.

(** Sorting a permutation of the positions gives its inverse. *)
Lemma argsort_inverse (order : list nat) (n k : nat) :
  order ≡ₚ seq 0 n → (k < n)%nat →
  ∃ r, Np.argsort (Z.of_nat <$> order) !! k = Some r ∧ order !! r = Some k.
Proof.
  intros Hperm Hk.
  set (keys := Z.of_nat <$> order).
  assert (Hsorted : Np.take_at keys (Np.argsort keys) = Z.of_nat <$> seq 0 n).
  { apply (Sorted_unique Z.le).
    - apply argsort_Sorted.
    - apply sorted_of_nat_seq.
    - rewrite take_at_Permutation by apply argsort_Permutation.
      unfold keys. by rewrite Hperm. }
  assert (Hlookup : Np.take_at keys (Np.argsort keys) !! k
                    = Some (Z.of_nat k)).
  { rewrite Hsorted, list_lookup_fmap, lookup_seq_lt by done. done. }
  rewrite lookup_take_at in Hlookup by apply argsort_in_range.
  destruct (Np.argsort keys !! k) as [r|]; [|done]. simpl in Hlookup.
  exists r. split; [done|].
  unfold keys in Hlookup. rewrite list_lookup_fmap in Hlookup.
  destruct (order !! r) as [k'|]; [|done].
  simpl in Hlookup. injection Hlookup as Heq. f_equal. lia.
Qed.

(** A base pair of higher rank has the higher second base. *)
Lemma rank_order (stops : list Z) (i j ri rj : nat) (si sj : Z) :
  Np.argsort (Z.of_nat <$> Np.argsort stops) !! i = Some ri →
  Np.argsort (Z.of_nat <$> Np.argsort stops) !! j = Some rj →
  stops !! i = Some si → stops !! j = Some sj →
  (rj ≤ ri)%nat → sj ≤ si.
Proof.
  intros Hri Hrj Hsi Hsj Hle.
  assert (Hinv : ∀ k r, (k < length stops)%nat →
            Np.argsort (Z.of_nat <$> Np.argsort stops) !! k = Some r →
            Np.take_at stops (Np.argsort stops) !! r = stops !! k).
  { intros k r Hk Hr.
    destruct (argsort_inverse (Np.argsort stops) (length stops) k
                (argsort_Permutation stops) Hk) as (r' & Hr' & Hk').
    rewrite Hr in Hr'. injection Hr' as <-.
    rewrite lookup_take_at by apply argsort_in_range. by rewrite Hk'. }
  apply (sorted_lookup_le (Np.take_at stops (Np.argsort stops)) rj ri);
    [apply argsort_Sorted | | | exact Hle].
  - rewrite (Hinv j rj); [done | by eapply lookup_lt_Some | done].
  - rewrite (Hinv i ri); [done | by eapply lookup_lt_Some | done].
Qed.

Lemma chain_empty (ranks : list nat) (a : nat) : chain ranks a (S a).
Proof. intros t ? ?. lia. Qed.

Lemma chain_ranks (ranks : list nat) (a b t u : nat) :
  chain ranks a b → (a ≤ t)%nat → (t ≤ u)%nat → (u < b)%nat →
  is_Some (ranks !! t) →
  ∃ r, ranks !! t = Some (r + (u - t))%nat ∧ ranks !! u = Some r.
Proof.
  intros Hchain Hat Htu Hub [rt Hrt].
  induction u as [|u IH].
  - assert (t = 0)%nat as -> by lia. exists rt. split; [|done].
    rewrite Hrt. f_equal. lia.
  - destruct (decide (t = S u)) as [-> | Hne].
    { exists rt. split; [|done]. rewrite Hrt. f_equal. lia. }
    destruct IH as (r & Ht & Hu); [lia | lia|].
    destruct (Hchain (S u)) as (r' & Hprev & Hthis); [lia | lia|].
    replace (S u - 1)%nat with u in Hprev by lia.
    rewrite Hu in Hprev. injection Hprev as ->.
    exists r'. split; [|done]. rewrite Ht. f_equal. lia.
Qed.

Lemma slice_snoc {A} (a i : nat) (l : list A) (x : A) :
  (a ≤ i)%nat → l !! i = Some x →
  Np.slice a (S i) l = Np.slice a i l ++ [x].
Proof.
  intros Hai Hx. unfold Np.slice.
  replace (S i - a)%nat with (S (i - a)) by lia.
  apply take_S_r. rewrite lookup_drop.
  by replace (a + (i - a))%nat with i by lia.
Qed.

Lemma slice_empty {A} (a i : nat) (l : list A) :
  (a ≤ i)%nat → (i < length l)%nat → Np.slice a i l = [] → a = i.
Proof.
  intros Hai Hi Hnil. apply (f_equal length) in Hnil.
  unfold Np.slice in Hnil. rewrite length_take, length_drop in Hnil.
  simpl in Hnil. lia.
Qed.

Lemma scan_chain_step base_pairs original_indices (ranks : list nat) i st st' :
  scan_chain original_indices ranks i st →
  find_regions_step base_pairs original_indices (Z.of_nat <$> ranks) st i
  = Ok st' →
  scan_chain original_indices ranks (S i) st'.
Proof.
  intros [(a & Hai & Hpairs & Hchain) Hregions] Hstep.
  destruct st as [[pairs regions] created]. simpl in *.
  apply bind_inv_Ok in Hstep as (orig & Horig%get_of_nat & Hstep).
  pose proof (lookup_lt_Some _ _ _ Horig) as Hi.
  assert (Hold : ∀ reg, reg ∈ regions →
            ∃ a b, (b ≤ S i)%nat
                   ∧ region_pairs reg = Np.slice a b original_indices
                   ∧ chain ranks a b).
  { intros reg Hreg. destruct (Hregions reg Hreg) as (a' & b' & ? & ? & ?).
    exists a', b'. split; [lia | done]. }
  case_decide as Hempty.
  { injection Hstep as <-. split; [|exact Hold]. simpl.
    assert (a = i) as ->.
    { apply (slice_empty a i original_indices); [done | done|].
      rewrite <- Hpairs. by apply nil_length_inv. }
    exists i. split; [lia|]. split; [|apply chain_empty].
    rewrite (slice_snoc i i original_indices orig) by done.
    by rewrite <- Hpairs. }
  assert (Hlt : (a < i)%nat).
  { destruct (decide (a = i)) as [-> | ?]; [|lia]. exfalso. apply Hempty.
    rewrite Hpairs. unfold Np.slice. by rewrite Nat.sub_diag. }
  apply bind_inv_Ok in Hstep as (previous_rank & Hprev & Hstep).
  apply bind_inv_Ok in Hstep as (this_rank & Hthis & Hstep).
  replace (Z.of_nat i - 1) with (Z.of_nat (i - 1)) in Hprev by lia.
  apply get_of_nat in Hprev, Hthis.
  rewrite list_lookup_fmap in Hprev, Hthis.
  destruct (ranks !! (i - 1)%nat) as [r1|] eqn:Hr1; [|done].
  destruct (ranks !! i) as [r2|] eqn:Hr2; [|done].
  simpl in Hprev, Hthis. injection Hprev as <-. injection Hthis as <-.
  case_decide as Hbreak.
  - apply bind_inv_Ok in Hstep as (reg & Hreg%region_init_pairs & Hstep).
    injection Hstep as <-. split; simpl.
    + exists i. split; [lia|]. split; [|apply chain_empty].
      rewrite (slice_snoc i i original_indices orig) by done.
      unfold Np.slice. by rewrite Nat.sub_diag.
    + intros reg' [->%elem_of_singleton | Hreg']%elem_of_union; [|auto].
      exists a, i. split; [lia|]. split; [congruence | done].
  - injection Hstep as <-. split; [|exact Hold]. simpl.
    exists a. split; [lia|]. split.
    + rewrite (slice_snoc a i original_indices orig) by (done || lia).
      by rewrite Hpairs.
    + intros t Hat Hti. destruct (decide (t = i)) as [-> | ?].
      * exists r2. split; [|done]. rewrite Hr1. f_equal. lia.
      * apply Hchain; lia.
Qed.

Lemma scan_chain_loop base_pairs original_indices (ranks : list nat)
    n i st st' :
  scan_chain original_indices ranks i st →
  foldM (find_regions_step base_pairs original_indices (Z.of_nat <$> ranks))
        st (seq i n) = Ok st' →
  scan_chain original_indices ranks (i + n) st'.
Proof.
  revert i st.
  induction n as [|n IH]; intros i st Hinv Hrun; simpl in Hrun.
  - injection Hrun as <-. by rewrite Nat.add_0_r.
  - apply bind_inv_Ok in Hrun as (st1 & Hstep & Hrun).
    replace (i + S n)%nat with (S i + n)%nat by lia.
    eapply IH; [|exact Hrun]. by eapply scan_chain_step.
Qed.

(** Two members of a region: one lies inside the other. *)
Lemma find_regions_nested (base_pairs : list (Z * Z))
    (regions : gset region) (reg : region) (p q : nat) (r1 r2 : Z * Z) :
  _find_regions base_pairs = Ok regions → reg ∈ regions →
  p ∈ region_pairs reg → q ∈ region_pairs reg →
  base_pairs !! p = Some r1 → base_pairs !! q = Some r2 →
  nested_in r1 r2 ∨ nested_in r2 r1.
Proof.
  unfold _find_regions. intros H Hreg Hp Hq Hr1 Hr2.
  set (sorted := (fun p : Z * Z => (Z.min p.1 p.2, Z.max p.1 p.2))
                   <$> base_pairs) in *.
  set (original_indices := Np.argsort (sorted.*1)) in *.
  set (reordered := Np.take_at sorted original_indices) in *.
  set (ranks := Np.argsort (Z.of_nat <$> Np.argsort (reordered.*2))) in *.
  apply bind_inv_Ok in H as ([[pairs regs] created] & Hloop & H).
  apply bind_inv_Ok in H as (last & Hlast%region_init_pairs & H).
  injection H as <-.
  apply (scan_chain_loop _ _ _ _ 0) in Hloop.
  2:{ split; simpl.
      - exists 0%nat. split; [lia|]. split; [done|]. intros t ? ?. lia.
      - by intros reg' ?%elem_of_empty. }
  destruct Hloop as [(a0 & _ & Hpairs & Hchain0) Hregs]. simpl in *.
  assert (Hrun : ∃ a b, region_pairs reg = Np.slice a b original_indices
                        ∧ chain ranks a b).
  { apply elem_of_union in Hreg as [->%elem_of_singleton | Hreg].
    - exists a0, (length reordered). split; [congruence | done].
    - destruct (Hregs reg Hreg) as (a & b & _ & ? & ?). eauto. }
  destruct Hrun as (a & b & Hmembers & Hchain).
  rewrite Hmembers in Hp, Hq.
  apply elem_of_slice in Hp as (t & Hat & Htb & Ht).
  apply elem_of_slice in Hq as (u & Hau & Hub & Hu).
  assert (Hrange : Forall (fun i => (i < length sorted)%nat)
                     original_indices).
  { unfold original_indices.
    rewrite <- (length_fmap fst sorted). apply argsort_in_range. }
  assert (Hlen : length reordered = length sorted).
  { unfold reordered. rewrite take_at_Permutation; [done|].
    unfold original_indices.
    by rewrite argsort_Permutation, length_fmap. }
  assert (Hlen' : length original_indices = length sorted).
  { unfold original_indices. by rewrite argsort_length, length_fmap. }
  assert (Hlen_ranks : length ranks = length sorted).
  { unfold ranks. by rewrite argsort_length, length_fmap, argsort_length,
      length_fmap. }
  assert (Hat_pos : ∀ k x (row : Z * Z),
            original_indices !! k = Some x → base_pairs !! x = Some row →
            reordered !! k = Some (Z.min row.1 row.2, Z.max row.1 row.2)).
  { intros k x row Hk Hx. unfold reordered.
    rewrite lookup_take_at by done. rewrite Hk. simpl.
    unfold sorted. by rewrite list_lookup_fmap, Hx. }
  assert (Hstarts : Sorted Z.le (reordered.*1)).
  { unfold reordered. rewrite <- take_at_fmap. apply argsort_Sorted. }
  assert (Horder : ∀ t u x y (rx ry : Z * Z),
            (a ≤ t)%nat → (t ≤ u)%nat → (u < b)%nat →
            original_indices !! t = Some x →
            original_indices !! u = Some y →
            base_pairs !! x = Some rx → base_pairs !! y = Some ry →
            nested_in rx ry).
  { intros t' u' x y rx ry Hat' Htu Hub' Hx Hy Hrx Hry.
    pose proof (Hat_pos t' x rx Hx Hrx) as Hpx.
    pose proof (Hat_pos u' y ry Hy Hry) as Hpy.
    split.
    - apply (sorted_lookup_le (reordered.*1) t' u'); [done | | |done].
      + by rewrite list_lookup_fmap, Hpx.
      + by rewrite list_lookup_fmap, Hpy.
    - destruct (chain_ranks ranks a b t' u' Hchain Hat' Htu Hub')
        as (r & Hrt & Hru).
      { apply lookup_lt_is_Some. rewrite Hlen_ranks, <- Hlen'.
        by eapply lookup_lt_Some. }
      apply (rank_order (reordered.*2) t' u' (r + (u' - t')) r);
        [done | done | | |lia].
      + by rewrite list_lookup_fmap, Hpx.
      + by rewrite list_lookup_fmap, Hpy. }
  destruct (decide (t ≤ u)%nat).
  - left. by apply (Horder t u p q).
  - right. apply (Horder u t q p); auto. lia.
Qed.

(** No base pair is twice a member of a region. *)
Lemma find_regions_NoDup (base_pairs : list (Z * Z)) (regions : gset region)
    (reg : region) :
  _find_regions base_pairs = Ok regions → reg ∈ regions →
  NoDup (region_pairs reg).
Proof.
  unfold _find_regions. intros H Hreg.
  set (sorted := (fun p : Z * Z => (Z.min p.1 p.2, Z.max p.1 p.2))
                   <$> base_pairs) in *.
  set (original_indices := Np.argsort (sorted.*1)) in *.
  set (reordered := Np.take_at sorted original_indices) in *.
  set (ranks := Np.argsort (Z.of_nat <$> Np.argsort (reordered.*2))) in *.
  apply bind_inv_Ok in H as ([[pairs regs] created] & Hloop & H).
  apply bind_inv_Ok in H as (last & Hlast%region_init_pairs & H).
  injection H as <-.
  apply (scan_chain_loop _ _ _ _ 0) in Hloop.
  2:{ split; simpl.
      - exists 0%nat. split; [lia|]. split; [done|]. intros t ? ?. lia.
      - by intros reg' ?%elem_of_empty. }
  destruct Hloop as [(a0 & _ & Hpairs & _) Hregs]. simpl in *.
  assert (Hrun : ∃ a b, region_pairs reg = Np.slice a b original_indices).
  { apply elem_of_union in Hreg as [->%elem_of_singleton | Hreg].
    - exists a0, (length reordered). congruence.
    - destruct (Hregs reg Hreg) as (a & b & _ & ? & _). eauto. }
  destruct Hrun as (a & b & ->). unfold Np.slice.
  eapply sublist_NoDup; [apply argsort_NoDup|].
  etrans; [apply sublist_take | apply sublist_drop].
Qed.

(** ** [pseudoknots] returns for positive scores *)

Lemma foldM_total_inv {A S} (P : S -> Prop) (f : S -> A -> result S)
    (l : list A) (s : S) :
  (∀ s x, x ∈ l → P s → ∃ s', f s x = Ok s' ∧ P s') → P s →
  ∃ s', foldM f s l = Ok s' ∧ P s'.
Proof.
  revert s. induction l as [|x l IH]; intros s Hstep Hs; simpl; [eauto|].
  destruct (Hstep s x) as (s1 & -> & Hs1); [left | exact Hs|].
  rewrite bind_Ok. apply IH; [|exact Hs1].
  intros s' y Hy. apply Hstep. by right.
Qed.

Lemma mapM_r_total_inv {A B} (P : B -> Prop) (f : A -> result B)
    (l : list A) :
  (∀ x, x ∈ l → ∃ y, f x = Ok y ∧ P y) →
  ∃ ys, mapM_r f l = Ok ys ∧ Forall P ys ∧ length ys = length l.
Proof.
  induction l as [|x l IH]; intros Hall; simpl.
  - exists []. by repeat split.
  - destruct (Hall x) as (y & -> & Hy); [left|]. rewrite bind_Ok.
    destruct IH as (ys & -> & Hys & Hlen); [intros z Hz; apply Hall; by right|].
    rewrite bind_Ok. exists (y :: ys). split; [reflexivity|].
    split; [by constructor | simpl; by rewrite Hlen].
Qed.

Lemma well_placed_subseteq (regions regions' : gset region) :
  well_placed regions → regions' ⊆ regions → well_placed regions'.
Proof.
  intros [Hspan Hdistinct] Hsub. split.
  - intros reg Hreg. by apply Hspan, Hsub.
  - intros reg1 reg2 H1 H2. apply Hdistinct; by apply Hsub.
Qed.

Lemma increments_total (regs : list region) (row : list Z) :
  (∀ reg p, reg ∈ regs → p ∈ region_pairs reg → (p < length row)%nat) →
  ∃ row',
    foldM (fun results reg => increment_at results (get_index_mask reg))
          row regs = Ok row'
    ∧ length row' = length row.
Proof.
  intros Hin.
  apply (foldM_total_inv (fun row' : list Z => length row' = length row));
    [|reflexivity].
  intros row' reg Hreg Hlen. unfold increment_at, get_index_mask.
  rewrite decide_True.
  - eexists. split; [reflexivity|]. by rewrite length_imap.
  - apply Forall_forall. intros p Hp. rewrite Hlen. by eapply Hin.
Qed.

(** *** Scores below [2 ^ 53] *)

Lemma foldl_add_foldr (vals : list Z) (acc : Z) :
  foldl Z.add acc vals = acc + foldr Z.add 0 vals.
Proof.
  revert acc. induction vals as [|v vals IH]; intros acc; simpl; [lia|].
  rewrite IH. lia.
Qed.

Lemma foldr_add_app (l1 l2 : list Z) :
  foldr Z.add 0 (l1 ++ l2) = foldr Z.add 0 l1 + foldr Z.add 0 l2.
Proof. induction l1 as [|x l1 IH]; simpl; [done|]. rewrite IH. lia. Qed.

Lemma foldr_add_Permutation (l1 l2 : list Z) :
  l1 ≡ₚ l2 → foldr Z.add 0 l1 = foldr Z.add 0 l2.
Proof.
  induction 1 as [|x l1 l2 _ IH|x y l|l1 l2 l3 _ IH1 _ IH2]; simpl;
    [done | by rewrite IH | lia | congruence].
Qed.

Lemma foldr_add_nonneg (l : list Z) :
  Forall (fun v => 0 ≤ v) l → 0 ≤ foldr Z.add 0 l.
Proof.
  induction 1 as [|x l Hx _ IH]; simpl; lia.
Qed.

Lemma scores_of_positions (scoring : list Z) :
  (fun p => default 0 (scoring !! p)) <$> seq 0 (length scoring) = scoring.
Proof.
  apply list_eq. intros i. rewrite list_lookup_fmap.
  destruct (scoring !! i) as [v|] eqn:Hi.
  - rewrite lookup_seq_lt by by eapply lookup_lt_Some.
    simpl. by rewrite Hi.
  - rewrite lookup_seq_ge; [done|by apply lookup_ge_None].
Qed.

(** The scores at positions of which none is taken twice add up to at
    most the sum of all scores. *)
Lemma positions_weight_bound (scoring : list Z) (positions : list nat) :
  Forall (fun v => 0 < v) scoring → NoDup positions →
  (∀ p, p ∈ positions → (p < length scoring)%nat) →
  foldr Z.add 0 ((fun p => default 0 (scoring !! p)) <$> positions)
  ≤ foldr Z.add 0 scoring.
Proof.
  intros Hpositive Hnd Hin.
  assert (Hsub : positions ⊆+ seq 0 (length scoring)).
  { apply NoDup_submseteq; [exact Hnd|]. intros p Hp.
    apply elem_of_seq. specialize (Hin p Hp). lia. }
  apply submseteq_Permutation in Hsub as [rest Hrest].
  assert (Hall : foldr Z.add 0 scoring
                 = foldr Z.add 0 ((fun p => default 0 (scoring !! p))
                                    <$> seq 0 (length scoring)))
    by by rewrite scores_of_positions.
  rewrite Hall.
  rewrite (foldr_add_Permutation _ _ (fmap_Permutation _ _ _ Hrest)).
  rewrite fmap_app, foldr_add_app.
  assert (0 ≤ foldr Z.add 0
                ((fun p => default 0 (scoring !! p)) <$> rest)); [|lia].
  apply foldr_add_nonneg, Forall_forall.
  intros v (p & -> & _)%list_elem_of_fmap.
  destruct (scoring !! p) as [v|] eqn:Hp; simpl; [|lia].
  rewrite Forall_forall in Hpositive.
  pose proof (Hpositive v (list_elem_of_lookup_2 _ _ _ Hp)). lia.
Qed.

Lemma total_weight_concat (scoring : list Z) (regs : list region) :
  total_weight scoring regs
  = foldr Z.add 0 ((fun p => default 0 (scoring !! p))
                     <$> concat (region_pairs <$> regs)).
Proof.
  induction regs as [|reg regs IH]; [done|].
  change (total_weight scoring (reg :: regs))
    with (weight scoring reg + total_weight scoring regs).
  rewrite fmap_cons.
  change (concat (region_pairs reg :: (region_pairs <$> regs)))
    with (region_pairs reg ++ concat (region_pairs <$> regs)).
  rewrite fmap_app, foldr_add_app, <- IH. unfold weight.
  rewrite foldl_add_foldr. lia.
Qed.

Lemma members_NoDup (regs : list region) :
  NoDup regs →
  (∀ reg, reg ∈ regs → region_pairs reg ≠ [] ∧ NoDup (region_pairs reg)) →
  (∀ reg1 reg2 p, reg1 ∈ regs → reg2 ∈ regs →
     p ∈ region_pairs reg1 → p ∈ region_pairs reg2 → reg1 = reg2) →
  NoDup (concat (region_pairs <$> regs)).
Proof.
  induction regs as [|reg regs IH]; intros Hnd Heach Hdisj; simpl.
  - constructor.
  - apply NoDup_cons in Hnd as [Hnot Hnd]. apply NoDup_app.
    split; [apply Heach; left|]. split.
    + intros p Hp Hrest.
      apply list_elem_of_In, in_concat in Hrest as (l & Hl & Hpl).
      apply list_elem_of_In, list_elem_of_fmap in Hl as (reg' & -> & Hreg').
      apply list_elem_of_In in Hpl.
      assert (reg = reg') as <-; [|contradiction].
      apply (Hdisj reg reg' p); [left | by right | done | done].
    + apply IH; [exact Hnd| |].
      * intros r Hr. apply Heach. by right.
      * intros r1 r2 p H1 H2. apply Hdisj; by right.
Qed.

(** The scores of the regions of a cluster add up to at most the sum of
    all scores when no base pair is a member twice. *)
Lemma cluster_weight_bound (scoring : list Z) (cluster : gset region) :
  Forall (fun v => 0 < v) scoring →
  (∀ reg, reg ∈ cluster →
     region_pairs reg ≠ [] ∧ NoDup (region_pairs reg)
     ∧ ∀ p, p ∈ region_pairs reg → (p < length scoring)%nat) →
  disjoint_members cluster →
  solution_weight scoring cluster ≤ foldr Z.add 0 scoring.
Proof.
  intros Hpositive Heach Hdisj. unfold solution_weight.
  rewrite total_weight_concat.
  apply positions_weight_bound; [exact Hpositive| |].
  - apply members_NoDup; [apply NoDup_elements| |].
    + intros reg Hreg%elem_of_elements.
      destruct (Heach reg Hreg) as (? & ? & _). by split.
    + intros reg1 reg2 p H1%elem_of_elements H2%elem_of_elements.
      by apply Hdisj.
  - intros p Hp.
    apply list_elem_of_In, in_concat in Hp as (l & Hl & Hpl).
    apply list_elem_of_In, list_elem_of_fmap in Hl
      as (reg & -> & Hreg%elem_of_elements).
    apply list_elem_of_In in Hpl.
    destruct (Heach reg Hreg) as (_ & _ & Hin). by apply Hin.
Qed.

Lemma exact_scores_subseteq (scoring : list Z) (cluster next : gset region) :
  (∀ reg, reg ∈ cluster →
     region_pairs reg ≠ []
     ∧ ∀ p, p ∈ region_pairs reg → (p < length scoring)%nat) →
  Forall (fun v => 0 < v) scoring →
  exact_scores scoring cluster → next ⊆ cluster →
  exact_scores scoring next.
Proof.
  intros Hmembers Hpositive Hsmall Hsub. unfold exact_scores in *.
  eapply Z.le_lt_trans; [|exact Hsmall].
  by apply (solution_weight_subseteq cluster scoring).
Qed.

(** A well-formed input has fewer than [2 ^ 31] base pairs. *)
Lemma well_formed_length (base_pairs : list (Z * Z)) :
  well_formed base_pairs → Z.of_nat (length base_pairs) < 2 ^ 31.
Proof.
  intros (_ & Hrange & Hnd).
  assert (Hsub : flat_map (fun p : Z * Z => [p.1; p.2]) base_pairs
                 ⊆+ seqZ 0 (2 ^ 31)).
  { apply NoDup_submseteq; [exact Hnd|]. intros x Hx.
    apply list_elem_of_In, in_flat_map in Hx as (p & Hp & Hx).
    apply list_elem_of_In in Hp, Hx.
    rewrite Forall_forall in Hrange. specialize (Hrange p Hp).
    apply elem_of_seqZ.
    apply elem_of_cons in Hx as [-> | Hx]; [lia|].
    apply list_elem_of_singleton in Hx as ->. lia. }
  apply submseteq_length in Hsub. rewrite length_seqZ in Hsub.
  assert (Hlen : length (flat_map (fun p : Z * Z => [p.1; p.2]) base_pairs)
                 = (2 * length base_pairs)%nat).
  { clear. induction base_pairs as [|p l IH]; simpl; [done|]. lia. }
  rewrite Hlen in Hsub. lia.
Qed.

Lemma foldr_add_replicate (n : nat) :
  foldr Z.add 0 (replicate n 1) = Z.of_nat n.
Proof. induction n as [|n IH]; simpl; [done|]. lia. Qed.

(** What the filter leaves of the regions outside a solution. *)
Lemma next_cluster_conflicting (scoring : list Z)
    (cluster solution : gset region) :
  conflicting scoring cluster →
  ∃ next, _remove_non_conflicting_regions (cluster ∖ solution) = Ok next
          ∧ next ⊆ cluster ∖ solution
          ∧ conflicting scoring next.
Proof.
  intros (Hwp & Hcross & Hmembers).
  assert (Hsub : cluster ∖ solution ⊆ cluster).
  { intros reg Hreg. by apply elem_of_difference in Hreg as [? _]. }
  destruct (conflict_filter_spec (cluster ∖ solution)
              (well_placed_subseteq _ _ Hwp Hsub)) as (next & Hnext & Hspec).
  exists next. split; [exact Hnext|].
  assert (Hsub' : next ⊆ cluster ∖ solution).
  { intros reg Hreg. by apply Hspec in Hreg as [? _]. }
  split; [exact Hsub'|]. split; [|split].
  - apply (well_placed_subseteq cluster); [exact Hwp|].
    intros reg Hreg. by apply Hsub, Hsub'.
  - intros reg Hreg. apply Hspec in Hreg as (Hreg & reg' & Hreg' & Hc).
    exists reg'. split; [|exact Hc]. apply Hspec. split; [exact Hreg'|].
    exists reg. split; [exact Hreg | by apply crossing_sym].
  - intros reg Hreg. by apply Hmembers, Hsub, Hsub'.
Qed.

Lemma add_rows_length (row diff : list Z) :
  length diff = length row → length (add_rows row diff) = length row.
Proof. intros Hlen. unfold add_rows. rewrite length_zip_with. lia. Qed.

(** The recursion returns when the limit exceeds the size of the
    cluster: no call is nested deeper than the cluster has regions. *)
Lemma result_diff_total (scoring : list Z) (limit : nat)
    (cluster : gset region) :
  Forall (fun v => 0 < v) scoring →
  conflicting scoring cluster → exact_scores scoring cluster →
  cluster ≠ ∅ → (size cluster < limit)%nat →
  ∃ rows, _get_result_diff limit cluster scoring = Ok rows
          ∧ rows_of (length scoring) rows.
Proof.
  intros Hpositive. revert cluster.
  induction limit as [|limit IH];
    intros cluster Hgood Hsmall Hne Hsize; [lia|].
  pose proof Hgood as (Hwp & Hcross & Hmembers). simpl.
  destruct (optimal_solutions_total cluster scoring Hwp Hne Hcross Hmembers
              Hpositive Hsmall) as (solutions & Hsolutions & Hnonempty).
  destruct (optimal_solutions_cell cluster scoring solutions Hwp Hsolutions)
    as (Hsome & _ & _ & Hsound).
  rewrite Hsolutions, bind_Ok.
  destruct (mapM_r_total_inv (rows_of (length scoring))
              (result_diff_of_solution
                 (fun next_cluster =>
                    _get_result_diff limit next_cluster scoring)
                 cluster scoring) solutions)
    as (diffs & -> & Hdiffs & Hlen).
  - intros solution Hsol. unfold result_diff_of_solution.
    destruct (increments_total (elements (cluster ∖ solution))
                (replicate (length scoring) 0)) as (row & -> & Hrow).
    { intros reg p Hreg%elem_of_elements Hp.
      apply elem_of_difference in Hreg as [Hreg _].
      rewrite length_replicate. by apply (Hmembers reg Hreg). }
    rewrite length_replicate in Hrow. rewrite bind_Ok.
    destruct (next_cluster_conflicting scoring cluster solution Hgood)
      as (next & -> & Hsub & Hnext).
    rewrite bind_Ok. case_decide as Hrest.
    + destruct (IH next Hnext) as (rows & -> & Hrows_ne & Hrows).
      * apply (exact_scores_subseteq scoring cluster); auto.
        intros r Hr%Hsub. by apply elem_of_difference in Hr as [? _].
      * intros ->. rewrite size_empty in Hrest. lia.
      * assert (next ⊂ cluster) as Hless%subset_size; [|lia].
        destruct (Hsound solution Hsol) as [Hin _].
        specialize (Hnonempty solution Hsol).
        apply set_choose_L in Hnonempty as [reg Hreg]. split.
        -- intros r Hr%Hsub. by apply elem_of_difference in Hr as [? _].
        -- intros Hall. pose proof (Hin reg Hreg) as Hc.
           apply Hall, Hsub, elem_of_difference in Hc as [_ Hno].
           contradiction.
      * rewrite bind_Ok. eexists. split; [reflexivity|]. split.
        -- destruct rows; [done | discriminate].
        -- apply Forall_forall. intros r (diff & <- & Hdiff)%list_elem_of_In
             %in_map_iff.
           rewrite add_rows_length; [done|].
           rewrite Forall_forall in Hrows. rewrite Hrow.
           by apply Hrows, list_elem_of_In.
    + eexists. split; [reflexivity|]. split; [done|].
      by apply Forall_singleton.
  - rewrite bind_Ok. eexists. split; [reflexivity|]. split.
    + destruct solutions as [|solution solutions]; [done|].
      destruct diffs as [|diff diffs]; [discriminate|].
      apply Forall_cons in Hdiffs as [[Hdiff _] _].
      destruct diff; [done | discriminate].
    + apply Forall_forall. intros row Hrow.
      apply list_elem_of_In, in_concat in Hrow as (diff & Hdiff & Hrow).
      apply list_elem_of_In in Hdiff, Hrow.
      rewrite Forall_forall in Hdiffs.
      destruct (Hdiffs diff Hdiff) as [_ Hall].
      rewrite Forall_forall in Hall. by apply Hall.
Qed.

(** The members of the regions of an input. *)
Lemma find_regions_members (base_pairs : list (Z * Z))
    (regions : gset region) :
  _find_regions base_pairs = Ok regions →
  ∀ reg, reg ∈ regions →
    region_pairs reg ≠ []
    ∧ ∀ p, p ∈ region_pairs reg → (p < length base_pairs)%nat.
Proof.
  intros Hregions reg Hreg.
  destruct (find_regions_disjoint base_pairs regions Hregions) as [Hbound _].
  destruct (find_regions_cover base_pairs regions Hregions) as [_ Hmade].
  split; [|intros p Hp; by eapply Hbound].
  destruct (region_init_spec _ _ _ _ (Hmade reg Hreg))
    as (_ & _ & _ & (p & row & Hp & _) & _).
  intros Hnil. rewrite Hnil in Hp. by apply elem_of_nil in Hp.
Qed.

(** There are no more regions than base pairs. *)
Lemma find_regions_size (base_pairs : list (Z * Z)) (regions : gset region) :
  _find_regions base_pairs = Ok regions →
  (size regions ≤ length base_pairs)%nat.
Proof.
  intros Hregions.
  destruct (find_regions_disjoint base_pairs regions Hregions)
    as [Hbound Hdisj].
  pose proof (find_regions_members base_pairs regions Hregions) as Hmembers.
  set (first := fun reg => default 0%nat (head (region_pairs reg))).
  assert (Hfirst : ∀ reg, reg ∈ regions → first reg ∈ region_pairs reg).
  { intros reg Hreg. destruct (Hmembers reg Hreg) as [Hne _].
    unfold first. destruct (region_pairs reg); [done | left]. }
  assert (Hnd : NoDup (first <$> elements regions)).
  { apply NoDup_fmap_2_strong; [|apply NoDup_elements].
    intros reg1 reg2 H1%elem_of_elements H2%elem_of_elements Heq.
    apply (Hdisj reg1 reg2 (first reg1)); auto.
    rewrite Heq. auto. }
  assert (Hsub : first <$> elements regions ⊆+ seq 0 (length base_pairs)).
  { apply NoDup_submseteq; [exact Hnd|].
    intros p (reg & -> & Hreg%elem_of_elements)%list_elem_of_fmap.
    apply elem_of_seq. split; [lia|]. simpl.
    apply (Hbound reg); auto. }
  apply submseteq_length in Hsub.
  by rewrite length_fmap, length_seq in Hsub.
Qed.

(** The clusters [pseudoknots] solves. *)
Lemma clusters_conflicting (base_pairs : list (Z * Z)) (scoring : list Z)
    (regions cleaned cluster : gset region) :
  length scoring = length base_pairs →
  _find_regions base_pairs = Ok regions → well_placed regions →
  _remove_non_conflicting_regions regions = Ok cleaned →
  cluster ∈ _cluster_conflicts cleaned →
  conflicting scoring cluster ∧ cluster ≠ ∅
  ∧ (size cluster ≤ length base_pairs)%nat.
Proof.
  intros Hlen Hregions Hwp Hcleaned Hcluster.
  pose proof (remove_non_conflicting_subset _ _ Hcleaned) as Hsub.
  pose proof (cluster_conflicts_subset _ _ Hcluster) as Hsub'.
  destruct (conflict_filter_spec regions Hwp) as (cleaned' & Hrun & Hspec).
  rewrite Hcleaned in Hrun. injection Hrun as <-.
  assert (Hwp' : well_placed cleaned) by by eapply well_placed_subseteq.
  destruct (cluster_conflicts_spec cleaned Hwp') as [_ Hclosed].
  destruct (cluster_conflicts_cover_nonempty cleaned) as [_ Hne].
  split; [|split; [by apply Hne|]].
  - split; [by eapply well_placed_subseteq|]. split.
    + intros reg Hreg.
      destruct (proj1 (Hspec reg) (Hsub' reg Hreg))
        as (_ & reg' & Hreg' & Hcross).
      exists reg'. split; [|exact Hcross].
      apply (Hclosed cluster reg reg' Hcluster Hreg);
        [|by apply crossing_overlapping].
      apply Hspec. split; [exact Hreg'|]. exists reg.
      split; [by apply Hsub, Hsub' | by apply crossing_sym].
    + intros reg Hreg. rewrite Hlen.
      by apply (find_regions_members base_pairs regions Hregions), Hsub, Hsub'.
  - etrans; [|by apply (find_regions_size base_pairs regions)].
    apply subseteq_size. intros reg Hreg. by apply Hsub, Hsub'.
Qed.

(** The scores of the regions of a cluster of an input add up to at
    most the sum of all scores. *)
Lemma input_cluster_weight (base_pairs : list (Z * Z)) (scoring : list Z)
    (regions cleaned cluster : gset region) :
  length scoring = length base_pairs →
  Forall (fun v => 0 < v) scoring →
  _find_regions base_pairs = Ok regions →
  _remove_non_conflicting_regions regions = Ok cleaned →
  cluster ∈ _cluster_conflicts cleaned →
  solution_weight scoring cluster ≤ foldr Z.add 0 scoring.
Proof.
  intros Hlen Hpositive Hregions Hcleaned Hcluster.
  pose proof (remove_non_conflicting_subset _ _ Hcleaned) as Hsub.
  pose proof (cluster_conflicts_subset _ _ Hcluster) as Hsub'.
  destruct (find_regions_disjoint base_pairs regions Hregions)
    as [_ Hdisj].
  apply cluster_weight_bound; [exact Hpositive| |].
  - intros reg Hreg%Hsub'%Hsub.
    destruct (find_regions_members base_pairs regions Hregions reg Hreg)
      as [Hne Hin].
    split; [exact Hne|]. split; [by eapply find_regions_NoDup|].
    by rewrite Hlen.
  - intros reg1 reg2 p H1%Hsub'%Hsub H2%Hsub'%Hsub. by apply Hdisj.
Qed.

(** For a well-formed input and positive scores that add up to less
    than [2 ^ 53], [pseudoknots] returns rows with one entry per base
    pair. *)
Lemma pseudoknots_rows (limit : nat) (base_pairs : list (Z * Z))
    (scoring : option (list Z)) :
  well_formed base_pairs →
  (∀ sc, scoring = Some sc →
     length sc = length base_pairs ∧ Forall (fun v => 0 < v) sc
     ∧ foldr Z.add 0 sc < 2 ^ 53) →
  (length base_pairs < limit)%nat →
  ∃ rows, pseudoknots limit base_pairs scoring = Ok rows
          ∧ rows_of (length base_pairs) rows.
Proof.
  intros Hwf Hscoring Hlimit. unfold pseudoknots.
  set (sc := default (replicate (length base_pairs) 1) scoring).
  assert (Hsc : length sc = length base_pairs ∧ Forall (fun v => 0 < v) sc
                ∧ foldr Z.add 0 sc < 2 ^ 53).
  { unfold sc. destruct scoring as [sc'|]; simpl; [by apply Hscoring|].
    split; [by rewrite length_replicate|].
    split; [apply Forall_replicate; lia|].
    rewrite foldr_add_replicate.
    pose proof (well_formed_length base_pairs Hwf). lia. }
  destruct Hsc as (Hlen & Hpositive & Hsum).
  rewrite decide_True by done.
  destruct (find_regions_well_placed base_pairs Hwf)
    as (regions & Hregions & Hwp).
  rewrite Hregions, bind_Ok.
  destruct (conflict_filter_spec regions Hwp) as (cleaned & Hcleaned & _).
  rewrite Hcleaned, bind_Ok.
  destruct (foldM_total_inv (rows_of (length base_pairs))
              (fun _ cluster => _get_result_diff limit cluster sc)
              (_cluster_conflicts cleaned)
              [replicate (length base_pairs) 0])
    as (rows & -> & Hne & Hrows).
  - intros _ cluster Hcluster _.
    destruct (clusters_conflicting base_pairs sc regions cleaned cluster
                Hlen Hregions Hwp Hcleaned Hcluster)
      as (Hgood & Hne & Hsize).
    destruct (result_diff_total sc limit cluster Hpositive Hgood)
      as (rows & Hrows & Hok); [|exact Hne|lia|].
    { eapply Z.le_lt_trans; [|exact Hsum].
      apply (input_cluster_weight base_pairs sc regions cleaned cluster);
        auto. }
    exists rows. split; [exact Hrows|]. by rewrite <- Hlen.
  - split; [done|]. apply Forall_singleton. by rewrite length_replicate.
  - rewrite bind_Ok. exists rows. split; [|by split].
    unfold Np.vstack. destruct rows as [|row rows]; [done|].
    apply Forall_cons in Hrows as [Hrow Hrows].
    rewrite decide_True; [done|].
    eapply Forall_impl; [exact Hrows|]. simpl. intros r Hr. by rewrite Hr.
Qed.

(** ** Regions of one order do not cross *)

Lemma increment_at_spec (row row' : list Z) (mask : list nat) :
  increment_at row mask = Ok row' →
  length row' = length row
  ∧ (∀ p, p ∉ mask → row' !! p = row !! p)
  ∧ (∀ p, p ∈ mask →
       ∃ v, row !! p = Some v ∧ row' !! p = Some (Np.to_int32 (v + 1))).
Proof.
  unfold increment_at. case_decide as Hmask; [|discriminate].
  intros [= <-]. split; [by rewrite length_imap|]. split.
  - intros p Hp. rewrite list_lookup_imap.
    destruct (row !! p) as [v|]; [|done]. simpl. by rewrite decide_False.
  - intros p Hp. rewrite Forall_forall in Hmask.
    destruct (lookup_lt_is_Some_2 row p (Hmask p Hp)) as [v Hv].
    exists v. split; [exact Hv|].
    rewrite list_lookup_imap, Hv. simpl. by rewrite decide_True.
Qed.

(** The increments of the regions outside a solution. *)
Lemma increments_spec (regs : list region) (row row' : list Z) :
  NoDup regs →
  (∀ reg1 reg2 p, reg1 ∈ regs → reg2 ∈ regs →
     p ∈ region_pairs reg1 → p ∈ region_pairs reg2 → reg1 = reg2) →
  foldM (fun results reg => increment_at results (get_index_mask reg))
        row regs = Ok row' →
  length row' = length row
  ∧ (∀ p, (∀ reg, reg ∈ regs → p ∉ region_pairs reg) → row' !! p = row !! p)
  ∧ (∀ reg p, reg ∈ regs → p ∈ region_pairs reg →
       ∃ v, row !! p = Some v ∧ row' !! p = Some (Np.to_int32 (v + 1))).
Proof.
  revert row. induction regs as [|reg regs IH]; intros row Hnd Hdisj Hrun.
  - injection Hrun as <-. split; [done|]. split; [done|].
    by intros reg p ?%elem_of_nil.
  - simpl in Hrun. apply bind_inv_Ok in Hrun as (row1 & Hstep & Hrun).
    apply NoDup_cons in Hnd as [Hreg Hnd].
    apply increment_at_spec in Hstep as (Hlen1 & Hout1 & Hin1).
    unfold get_index_mask in Hout1, Hin1.
    destruct (IH row1 Hnd) as (Hlen & Hout & Hin); [|exact Hrun|].
    { intros reg1 reg2 p H1 H2. apply Hdisj; by right. }
    split; [congruence|]. split.
    + intros p Hp. rewrite Hout, Hout1; [done | apply Hp; left|].
      intros reg' Hreg'. apply Hp. by right.
    + intros reg0 p [-> | Hreg0]%elem_of_cons Hp.
      * destruct (Hin1 p Hp) as (v & Hv & Hv1). exists v.
        split; [exact Hv|]. rewrite Hout; [exact Hv1|].
        intros reg' Hreg' Hp'.
        assert (reg = reg') as ->; [|done].
        apply (Hdisj reg reg' p); [left | by right | done | done].
      * destruct (Hin reg0 p Hreg0 Hp) as (v & Hv & Hv').
        exists v. split; [|exact Hv'].
        rewrite <- Hv. symmetry. apply Hout1. intros Hp'.
        assert (reg = reg0) as ->; [|done].
        apply (Hdisj reg reg0 p); [left | by right | done | done].
Qed.

Lemma add_rows_lookup (row diff : list Z) (p : nat) (v w : Z) :
  row !! p = Some v → diff !! p = Some w →
  add_rows row diff !! p = Some (Np.to_int32 (v + w)).
Proof.
  intros Hv Hw. unfold add_rows. apply lookup_zip_with_Some. eauto.
Qed.

Lemma disjoint_members_subseteq (regions regions' : gset region) :
  disjoint_members regions → regions' ⊆ regions → disjoint_members regions'.
Proof.
  intros Hdisj Hsub reg1 reg2 p H1 H2. apply Hdisj; by apply Hsub.
Qed.

(** The row of one solution, given the row of the recursive call. *)
Lemma layered_step (scoring : list Z) (limit : nat)
    (cluster solution next : gset region) (row0 next_row row : list Z) :
  Z.of_nat (S limit) < 2 ^ 31 →
  conflicting scoring cluster → disjoint_members cluster →
  solution ⊆ cluster →
  (∀ reg1 reg2, reg1 ∈ solution → reg2 ∈ solution → ¬ crossing reg1 reg2) →
  foldM (fun results reg => increment_at results (get_index_mask reg))
        (replicate (length scoring) 0) (elements (cluster ∖ solution))
  = Ok row0 →
  _remove_non_conflicting_regions (cluster ∖ solution) = Ok next →
  layered (length scoring) limit next next_row →
  length row = length scoring →
  (∀ p v w, row0 !! p = Some v → next_row !! p = Some w →
     - 2 ^ 31 ≤ v + w < 2 ^ 31 → row !! p = Some (v + w)) →
  layered (length scoring) (S limit) cluster row
  ∧ ∀ reg, reg ∈ cluster → (order_of row reg 0 ↔ reg ∈ solution).
Proof.
  intros Hlimit (Hwp & _ & Hmembers) Hdisj Hsol Hfree Hrow0 Hnext
    (Hlen' & Hzero' & ord' & Hord' & Hfree') Hlen Hrow.
  assert (Hrest : cluster ∖ solution ⊆ cluster).
  { intros reg Hreg. by apply elem_of_difference in Hreg as [? _]. }
  destruct (conflict_filter_spec (cluster ∖ solution)
              (well_placed_subseteq _ _ Hwp Hrest)) as (next' & Hrun & Hspec).
  rewrite Hnext in Hrun. injection Hrun as <-.
  assert (Hsub : next ⊆ cluster ∖ solution).
  { intros reg Hreg. by apply Hspec in Hreg as [? _]. }
  apply increments_spec in Hrow0 as (Hlen0 & Hout0 & Hin0);
    [|apply NoDup_elements|].
  2:{ intros reg1 reg2 p H1%elem_of_elements H2%elem_of_elements.
      apply Hdisj; by apply Hrest. }
  rewrite length_replicate in Hlen0.
  assert (Hzero0 : ∀ p, (p < length scoring)%nat →
            (∀ reg, reg ∈ cluster ∖ solution → p ∉ region_pairs reg) →
            row0 !! p = Some 0).
  { intros p Hp Hout. rewrite Hout0.
    - by apply lookup_replicate_2.
    - intros reg Hreg%elem_of_elements. by apply Hout. }
  assert (Hone0 : ∀ reg p, reg ∈ cluster ∖ solution → p ∈ region_pairs reg →
            row0 !! p = Some 1).
  { intros reg p Hreg Hp.
    destruct (Hin0 reg p) as (v & Hv & Hv'); [by apply elem_of_elements|done|].
    apply lookup_replicate in Hv as [-> _]. exact Hv'. }
  assert (Hrange : ∀ reg p, reg ∈ cluster → p ∈ region_pairs reg →
            (p < length scoring)%nat).
  { intros reg p Hreg Hp. by apply (Hmembers reg Hreg). }
  assert (Houtside : ∀ reg p, reg ∈ cluster → reg ∉ next →
            p ∈ region_pairs reg → next_row !! p = Some 0).
  { intros reg p Hreg Hno Hp. apply Hzero'; [by eapply Hrange|].
    intros reg' Hreg' Hp'. apply Hno.
    assert (reg = reg') as ->; [|done].
    apply (Hdisj reg reg' p); [done | by apply Hrest, Hsub | done | done]. }
  split; [split; [|split]|].
  - exact Hlen.
  - intros p Hp Hout.
    rewrite (Hrow p 0 0); [done| | |lia].
    + apply Hzero0; [exact Hp|]. intros reg Hreg. by apply Hout, Hrest.
    + apply Hzero'; [exact Hp|]. intros reg Hreg. by apply Hout, Hrest, Hsub.
  - exists (fun reg => if decide (reg ∈ solution) then 0%nat
                       else if decide (reg ∈ next) then S (ord' reg)
                       else 1%nat).
    split.
    + intros reg Hreg. case_decide as Hin; [|case_decide as Hin'].
      * split; [lia|]. intros p Hp.
        rewrite (Hrow p 0 0); [done| | |lia].
        -- apply Hzero0; [by eapply Hrange|].
           intros reg' Hreg' Hp'.
           assert (reg = reg') as ->; [apply (Hdisj reg reg' p); auto|].
           by apply elem_of_difference in Hreg' as [_ ?].
        -- apply (Houtside reg); auto. intros Hno%Hsub.
           by apply elem_of_difference in Hno as [_ ?].
      * destruct (Hord' reg Hin') as [Hbound Horder]. split; [lia|].
        intros p Hp.
        rewrite (Hrow p 1 (Z.of_nat (ord' reg)));
          [|apply (Hone0 reg); [by apply Hsub | done]|by apply Horder|lia].
        f_equal. lia.
      * split; [lia|]. intros p Hp.
        rewrite (Hrow p 1 0); [done| | |lia].
        -- apply (Hone0 reg); [|done]. by apply elem_of_difference.
        -- by apply (Houtside reg).
    + assert (Hlone : ∀ reg reg', reg ∈ cluster → reg ∉ solution →
                reg ∉ next → reg' ∈ cluster → reg' ∉ solution →
                ¬ crossing reg reg').
      { intros reg reg' Hreg Hno Hno' Hreg' Hnos Hcross. apply Hno'.
        apply Hspec. split; [by apply elem_of_difference|].
        exists reg'. split; [by apply elem_of_difference | done]. }
      intros reg1 reg2 H1 H2.
      repeat case_decide; intros Heq; try lia.
      * by apply Hfree.
      * apply Hfree'; [done | done | lia].
      * intros Hc%crossing_sym. by apply (Hlone reg2 reg1).
      * by apply Hlone.
      * by apply Hlone.
  - intros reg Hreg. split.
    + intros Hzero. destruct (decide (reg ∈ solution)) as [|Hno]; [done|].
      exfalso. destruct (Hmembers reg Hreg) as [Hne _].
      destruct (region_pairs reg) as [|p pairs] eqn:Hpairs; [done|].
      assert (Hp : p ∈ region_pairs reg) by (rewrite Hpairs; left).
      specialize (Hzero p Hp).
      assert (Hin : reg ∈ cluster ∖ solution) by by apply elem_of_difference.
      pose proof (Hone0 reg p Hin Hp) as H1.
      destruct (decide (reg ∈ next)) as [Hn | Hn].
      * destruct (Hord' reg Hn) as [Hb Ho].
        rewrite (Hrow p 1 (Z.of_nat (ord' reg)) H1 (Ho p Hp)) in Hzero by lia.
        injection Hzero. lia.
      * rewrite (Hrow p 1 0 H1 (Houtside reg p Hreg Hn Hp)) in Hzero by lia.
        discriminate.
    + intros Hin p Hp. rewrite (Hrow p 0 0); [done| | |lia].
      * apply Hzero0; [by eapply Hrange|].
        intros reg' Hreg' Hp'.
        assert (reg = reg') as ->; [apply (Hdisj reg reg' p); auto|].
        by apply elem_of_difference in Hreg' as [_ ?].
      * apply (Houtside reg); auto. intros Hno%Hsub.
        by apply elem_of_difference in Hno as [_ ?].
Qed.

(** [_get_result_diff] returns at least one row. *)
Lemma result_diff_nonempty (scoring : list Z) (limit : nat)
    (cluster : gset region) (rows : list (list Z)) :
  well_placed cluster →
  _get_result_diff limit cluster scoring = Ok rows → rows ≠ [].
Proof.
  revert cluster rows.
  induction limit as [|limit IH]; intros cluster rows Hwp Hrun;
    [discriminate|].
  simpl in Hrun.
  apply bind_inv_Ok in Hrun as (solutions & Hsolutions & Hrun).
  apply bind_inv_Ok in Hrun as (diffs & Hdiffs%mapM_r_inv & Hrun).
  injection Hrun as <-.
  destruct (optimal_solutions_cell cluster scoring solutions Hwp Hsolutions)
    as (Hsome & _).
  destruct Hdiffs as [|solution diff solutions diffs Hone _]; [done|].
  unfold result_diff_of_solution in Hone.
  apply bind_inv_Ok in Hone as (row0 & _ & Hone).
  apply bind_inv_Ok in Hone as (next & Hnext & Hone).
  case_decide as Hrest.
  - apply bind_inv_Ok in Hone as (next_rows & Hrec & Hone).
    injection Hone as <-.
    assert (Hwp' : well_placed next).
    { apply (well_placed_subseteq cluster); [exact Hwp|].
      intros reg Hreg%(remove_non_conflicting_subset _ _ Hnext).
      by apply elem_of_difference in Hreg as [? _]. }
    pose proof (IH next next_rows Hwp' Hrec) as Hne.
    destruct next_rows; [done | discriminate].
  - by injection Hone as <-.
Qed.

(** The rows of one solution of a cluster. *)
Lemma solution_rows (scoring : list Z) (limit : nat)
    (cluster solution : gset region) (diff : list (list Z)) :
  Z.of_nat (S limit) < 2 ^ 31 →
  conflicting scoring cluster → disjoint_members cluster →
  solution ⊆ cluster →
  (∀ reg1 reg2, reg1 ∈ solution → reg2 ∈ solution → ¬ crossing reg1 reg2) →
  (∀ next rows, conflicting scoring next → disjoint_members next →
     _get_result_diff limit next scoring = Ok rows →
     ∀ row, row ∈ rows → layered (length scoring) limit next row) →
  result_diff_of_solution
    (fun next_cluster => _get_result_diff limit next_cluster scoring)
    cluster scoring solution = Ok diff →
  ∀ row, row ∈ diff →
    layered (length scoring) (S limit) cluster row
    ∧ ∀ reg, reg ∈ cluster → (order_of row reg 0 ↔ reg ∈ solution).
Proof.
  intros Hlimit Hgood Hdisj Hsub Hfree IH Hone row Hrow.
  unfold result_diff_of_solution in Hone.
  apply bind_inv_Ok in Hone as (row0 & Hrow0 & Hone).
  apply bind_inv_Ok in Hone as (next & Hnext & Hone).
  pose proof Hrow0 as Hlen0.
  apply increments_spec in Hlen0 as (Hlen0 & _);
    [|apply NoDup_elements|].
  2:{ intros reg1 reg2 p H1%elem_of_elements H2%elem_of_elements.
      apply Hdisj.
      - by apply elem_of_difference in H1 as [? _].
      - by apply elem_of_difference in H2 as [? _]. }
  rewrite length_replicate in Hlen0.
  destruct (next_cluster_conflicting scoring cluster solution Hgood)
    as (next' & Hnext' & Hnext_sub & Hnext_good).
  rewrite Hnext in Hnext'. injection Hnext' as <-.
  case_decide as Hrest.
  - apply bind_inv_Ok in Hone as (next_rows & Hrec & Hone).
    injection Hone as <-.
    apply list_elem_of_In, in_map_iff in Hrow as (next_row & <- & Hin).
    apply list_elem_of_In in Hin.
    assert (Hlayer : layered (length scoring) limit next next_row).
    { apply (IH next next_rows); [exact Hnext_good | | exact Hrec | exact Hin].
      apply (disjoint_members_subseteq cluster); [exact Hdisj|].
      intros reg Hreg%Hnext_sub. by apply elem_of_difference in Hreg as [? _]. }
    apply (layered_step scoring limit cluster solution next row0 next_row);
      auto.
    + destruct Hlayer as (Hlen' & _). rewrite add_rows_length; congruence.
    + intros p v w Hv Hw Hsmall.
      rewrite (add_rows_lookup row0 next_row p v w Hv Hw).
      by rewrite to_int32_small.
  - injection Hone as <-. apply list_elem_of_singleton in Hrow as ->.
    assert (next = ∅) as ->.
    { apply leibniz_equiv, size_empty_iff. lia. }
    apply (layered_step scoring limit cluster solution ∅ row0
             (replicate (length scoring) 0)); auto.
    + split; [by rewrite length_replicate|]. split.
      * intros p Hp _. by apply lookup_replicate_2.
      * exists (fun _ => 0%nat).
        split; [by intros reg ?%elem_of_empty
               | by intros reg1 reg2 ?%elem_of_empty].
    + intros p v w Hv [-> _]%lookup_replicate _.
      rewrite Hv. f_equal. lia.
Qed.

(** What [_get_result_diff] computed when it returns. *)
Lemma result_diff_inv (scoring : list Z) (limit : nat)
    (cluster : gset region) (rows : list (list Z)) :
  _get_result_diff (S limit) cluster scoring = Ok rows →
  ∃ solutions diffs,
    _get_optimal_solutions cluster scoring = Ok solutions
    ∧ Forall2 (fun solution diff =>
                 result_diff_of_solution
                   (fun next_cluster =>
                      _get_result_diff limit next_cluster scoring)
                   cluster scoring solution = Ok diff)
              solutions diffs
    ∧ rows = concat diffs.
Proof.
  simpl. intros Hrun.
  apply bind_inv_Ok in Hrun as (solutions & Hsolutions & Hrun).
  apply bind_inv_Ok in Hrun as (diffs & Hdiffs%mapM_r_inv & Hrun).
  injection Hrun as <-. eauto.
Qed.

(** The rows of a cluster. *)
Lemma result_diff_layered (scoring : list Z) (limit : nat)
    (cluster : gset region) (rows : list (list Z)) :
  Z.of_nat limit < 2 ^ 31 →
  conflicting scoring cluster → disjoint_members cluster →
  _get_result_diff limit cluster scoring = Ok rows →
  ∀ row, row ∈ rows → layered (length scoring) limit cluster row.
Proof.
  revert cluster rows.
  induction limit as [|limit IH];
    intros cluster rows Hlimit Hgood Hdisj Hrun row Hrow; [discriminate|].
  apply result_diff_inv in Hrun as (solutions & diffs & Hsolutions & Hdiffs
                                    & ->).
  apply list_elem_of_In, in_concat in Hrow as (diff & Hdiff & Hrow).
  apply list_elem_of_In in Hdiff, Hrow.
  apply list_elem_of_lookup in Hdiff as [k Hk].
  destruct (Forall2_lookup_r _ _ _ _ _ Hdiffs Hk) as (solution & Hsol & Hone).
  apply list_elem_of_lookup_2 in Hsol.
  pose proof Hgood as (Hwp & _).
  destruct (optimal_solutions_cell cluster scoring solutions Hwp Hsolutions)
    as (_ & _ & _ & Hsound).
  destruct (Hsound solution Hsol) as [Hsub Hfree].
  apply (solution_rows scoring limit cluster solution diff); auto.
  intros next rows' Hnext Hdisj'. apply IH; [lia | done | done].
Qed.

(** There is a row for every solution, and the regions at order 0 in a
    row are the regions of its solution. *)
Lemma result_diff_solutions (scoring : list Z) (limit : nat)
    (cluster : gset region) (solutions : list (gset region))
    (rows : list (list Z)) :
  Z.of_nat limit < 2 ^ 31 →
  conflicting scoring cluster → disjoint_members cluster →
  _get_optimal_solutions cluster scoring = Ok solutions →
  _get_result_diff limit cluster scoring = Ok rows →
  (∀ row, row ∈ rows →
     ∃ solution, solution ∈ solutions
       ∧ ∀ reg, reg ∈ cluster → (order_of row reg 0 ↔ reg ∈ solution))
  ∧ (∀ solution, solution ∈ solutions →
       ∃ row, row ∈ rows
         ∧ ∀ reg, reg ∈ cluster → (order_of row reg 0 ↔ reg ∈ solution)).
Proof.
  intros Hlimit Hgood Hdisj Hsolutions Hrun.
  destruct limit as [|limit]; [discriminate|].
  apply result_diff_inv in Hrun as (solutions' & diffs & Hsolutions' & Hdiffs
                                    & ->).
  rewrite Hsolutions in Hsolutions'. injection Hsolutions' as <-.
  pose proof Hgood as (Hwp & _).
  destruct (optimal_solutions_cell cluster scoring solutions Hwp Hsolutions)
    as (_ & _ & _ & Hsound).
  assert (Hrows : ∀ solution diff row,
            solution ∈ solutions →
            result_diff_of_solution
              (fun next_cluster =>
                 _get_result_diff limit next_cluster scoring)
              cluster scoring solution = Ok diff →
            row ∈ diff →
            ∀ reg, reg ∈ cluster → (order_of row reg 0 ↔ reg ∈ solution)).
  { intros solution diff row Hsol Hone Hrow.
    destruct (Hsound solution Hsol) as [Hsub Hfree].
    apply (solution_rows scoring limit cluster solution diff); auto.
    intros next rows' Hnext Hdisj'.
    apply result_diff_layered; [lia | done | done]. }
  split.
  - intros row Hrow.
    apply list_elem_of_In, in_concat in Hrow as (diff & Hdiff & Hrow).
    apply list_elem_of_In in Hdiff, Hrow.
    apply list_elem_of_lookup in Hdiff as [k Hk].
    destruct (Forall2_lookup_r _ _ _ _ _ Hdiffs Hk)
      as (solution & Hsol & Hone).
    apply list_elem_of_lookup_2 in Hsol.
    exists solution. split; [exact Hsol|]. by eapply Hrows.
  - intros solution Hsol.
    apply list_elem_of_lookup in Hsol as [k Hk].
    destruct (Forall2_lookup_l _ _ _ _ _ Hdiffs Hk) as (diff & Hdiff & Hone).
    apply list_elem_of_lookup_2 in Hk.
    assert (Hne : diff ≠ []).
    { unfold result_diff_of_solution in Hone.
      apply bind_inv_Ok in Hone as (row0 & _ & Hone).
      apply bind_inv_Ok in Hone as (next & Hnext & Hone).
      case_decide as Hrest; [|by injection Hone as <-].
      apply bind_inv_Ok in Hone as (next_rows & Hrec & Hone).
      injection Hone as <-.
      destruct (next_cluster_conflicting scoring cluster solution Hgood)
        as (next' & Hnext' & _ & Hnext_wp & _).
      rewrite Hnext in Hnext'. injection Hnext' as <-.
      pose proof (result_diff_nonempty scoring limit next next_rows Hnext_wp
                    Hrec) as Hsome.
      destruct next_rows; [done | discriminate]. }
    destruct diff as [|row diff]; [done|].
    exists row. split.
    + apply list_elem_of_In, in_concat. exists (row :: diff).
      split; [|by left].
      apply list_elem_of_In. by eapply list_elem_of_lookup_2.
    + eapply Hrows; [exact Hk | exact Hone | left].
Qed.

(** ** The rows [pseudoknots] returns *)

Lemma foldM_last {A S} (f : A -> result S) (s s' : S) (l : list A) (x : A) :
  foldM (fun _ a => f a) s (l ++ [x]) = Ok s' → f x = Ok s'.
Proof.
  revert s. induction l as [|y l IH]; intros s Hrun; simpl in Hrun.
  - destruct (f x); [by injection Hrun as -> | discriminate].
  - apply bind_inv_Ok in Hrun as (s1 & _ & Hrun). by eapply IH.
Qed.

Lemma vstack_inv (rows rows' : list (list Z)) :
  Np.vstack rows = Ok rows' → rows' = rows.
Proof.
  unfold Np.vstack. destruct rows as [|row rows]; [discriminate|].
  case_decide; [by intros [= <-] | discriminate].
Qed.

(** What [pseudoknots] computed when it returns. *)
Lemma pseudoknots_inv (limit : nat) (base_pairs : list (Z * Z))
    (scoring : option (list Z)) (rows : list (list Z)) :
  pseudoknots limit base_pairs scoring = Ok rows →
  ∃ regions cleaned,
    length (default (replicate (length base_pairs) 1) scoring)
    = length base_pairs
    ∧ _find_regions base_pairs = Ok regions
    ∧ _remove_non_conflicting_regions regions = Ok cleaned
    ∧ foldM (fun _ cluster =>
               _get_result_diff limit cluster
                 (default (replicate (length base_pairs) 1) scoring))
            [replicate (length base_pairs) 0] (_cluster_conflicts cleaned)
      = Ok rows.
Proof.
  unfold pseudoknots. intros Hrun.
  case_decide as Hlen; [|discriminate].
  apply bind_inv_Ok in Hrun as (regions & Hregions & Hrun).
  apply bind_inv_Ok in Hrun as (cleaned & Hcleaned & Hrun).
  apply bind_inv_Ok in Hrun as (rows' & Hrows & ->%vstack_inv).
  exists regions, cleaned. by repeat split.
Qed.

Lemma order_of_unique (row : list Z) (reg : region) (k k' : Z) :
  region_pairs reg ≠ [] → order_of row reg k → order_of row reg k' → k = k'.
Proof.
  intros Hne Hk Hk'. destruct (region_pairs reg) as [|p pairs] eqn:Hpairs;
    [done|].
  assert (Hp : p ∈ region_pairs reg) by (rewrite Hpairs; left).
  specialize (Hk p Hp). specialize (Hk' p Hp). congruence.
Qed.

(** Regions of one order in a row of a cluster do not cross. *)
Lemma layered_cross_free (n limit : nat) (cluster : gset region)
    (row : list Z) (reg1 reg2 : region) (k : Z) :
  layered n limit cluster row →
  (∀ reg, reg ∈ cluster → region_pairs reg ≠ []) →
  reg1 ∈ cluster → reg2 ∈ cluster →
  order_of row reg1 k → order_of row reg2 k → ¬ crossing reg1 reg2.
Proof.
  intros (_ & _ & ord & Hord & Hfree) Hne H1 H2 Hk1 Hk2.
  apply Hfree; [done | done|].
  destruct (Hord reg1 H1) as [_ Ho1]. destruct (Hord reg2 H2) as [_ Ho2].
  pose proof (order_of_unique row reg1 _ _ (Hne reg1 H1) Hk1 Ho1).
  pose proof (order_of_unique row reg2 _ _ (Hne reg2 H2) Hk2 Ho2). lia.
Qed.

(** The filter run on what it returned removes nothing. *)
Lemma conflict_filter_fixpoint (regions cleaned : gset region) :
  well_placed regions →
  _remove_non_conflicting_regions regions = Ok cleaned →
  _remove_non_conflicting_regions cleaned = Ok cleaned.
Proof.
  intros Hwp Hcleaned.
  destruct (conflict_filter_spec regions Hwp) as (cleaned' & Hrun & Hspec).
  rewrite Hcleaned in Hrun. injection Hrun as <-.
  assert (Hsub : cleaned ⊆ regions).
  { intros reg Hreg. by apply Hspec in Hreg as [? _]. }
  destruct (conflict_filter_spec cleaned (well_placed_subseteq _ _ Hwp Hsub))
    as (again & -> & Hagain).
  f_equal. apply set_eq. intros reg. rewrite Hagain. split; [by intros [? _]|].
  intros Hreg. split; [exact Hreg|].
  apply Hspec in Hreg as (Hreg & reg' & Hreg' & Hcross).
  exists reg'. split; [|exact Hcross]. apply Hspec.
  split; [exact Hreg'|]. exists reg. split; [exact Hreg | by apply crossing_sym].
Qed.

(** With at most one cluster, regions of one order do not cross. *)
Lemma single_cluster_layers (limit : nat) (base_pairs : list (Z * Z))
    (scoring : option (list Z)) (rows : list (list Z))
    (regions cleaned : gset region) (row : list Z) (reg1 reg2 : region)
    (k : Z) :
  well_formed base_pairs → Z.of_nat limit < 2 ^ 31 →
  pseudoknots limit base_pairs scoring = Ok rows →
  _find_regions base_pairs = Ok regions →
  _remove_non_conflicting_regions regions = Ok cleaned →
  (length (_cluster_conflicts cleaned) ≤ 1)%nat →
  row ∈ rows → reg1 ∈ regions → reg2 ∈ regions →
  order_of row reg1 k → order_of row reg2 k → ¬ crossing reg1 reg2.
Proof.
  intros Hwf Hlimit Hrun Hregions Hcleaned Hone Hrow H1 H2 Hk1 Hk2.
  destruct (find_regions_well_placed base_pairs Hwf)
    as (regions' & Hregions' & Hwp).
  rewrite Hregions in Hregions'. injection Hregions' as <-.
  destruct (conflict_filter_spec regions Hwp) as (cleaned' & Hrun' & Hspec).
  rewrite Hcleaned in Hrun'. injection Hrun' as <-.
  assert (Hlone : ∀ reg reg', reg ∈ regions → reg' ∈ regions →
            reg ∉ cleaned → ¬ crossing reg reg').
  { intros reg reg' Hreg Hreg' Hno Hcross. apply Hno, Hspec. eauto. }
  destruct (decide (reg1 ∈ cleaned)) as [Hc1 | Hc1]; [|by apply Hlone].
  destruct (decide (reg2 ∈ cleaned)) as [Hc2 | Hc2].
  2:{ intros Hc%crossing_sym. by apply (Hlone reg2 reg1). }
  apply pseudoknots_inv in Hrun
    as (regions' & cleaned' & Hlen & Hregions' & Hcleaned' & Hrows).
  rewrite Hregions in Hregions'. injection Hregions' as <-.
  rewrite Hcleaned in Hcleaned'. injection Hcleaned' as <-.
  destruct (cluster_conflicts_cover_nonempty cleaned) as [Hcover _].
  pose proof (clusters_conflicting base_pairs
                (default (replicate (length base_pairs) 1) scoring)
                regions cleaned) as Hgood.
  destruct (_cluster_conflicts cleaned) as [|cluster [|cluster' clusters]];
    [|clear Hone|simpl in Hone; lia].
  { simpl in Hcover. subst cleaned. by apply elem_of_empty in Hc1. }
  simpl in Hcover. rewrite (right_id_L ∅ (∪)) in Hcover. subst cluster.
  destruct (Hgood cleaned Hlen Hregions Hwp Hcleaned (list_elem_of_here _ _))
    as (Hconflicting & _ & _).
  apply (foldM_last _ _ _ []) in Hrows.
  destruct (find_regions_disjoint base_pairs regions Hregions) as [_ Hdisj].
  assert (Hsub : cleaned ⊆ regions).
  { intros reg Hreg. by apply Hspec in Hreg as [? _]. }
  eapply (layered_cross_free _ limit cleaned row); eauto.
  - eapply result_diff_layered; eauto.
    intros r1 r2 p Hr1 Hr2. apply Hdisj; by apply Hsub.
  - intros reg Hreg. destruct Hconflicting as (_ & _ & Hmembers).
    by apply Hmembers.
Qed.

(** The orders [pseudoknots] returns lie between 0 and the recursion
    limit, and the members of the regions the filter removed are at
    order 0. *)
Lemma pseudoknots_orders (limit : nat) (base_pairs : list (Z * Z))
    (scoring : option (list Z)) (rows : list (list Z))
    (regions cleaned : gset region) (row : list Z) :
  well_formed base_pairs → Z.of_nat limit < 2 ^ 31 →
  pseudoknots limit base_pairs scoring = Ok rows →
  _find_regions base_pairs = Ok regions →
  _remove_non_conflicting_regions regions = Ok cleaned →
  row ∈ rows →
  (∀ p v, row !! p = Some v → 0 ≤ v ≤ Z.of_nat limit)
  ∧ (∀ reg, reg ∈ regions → reg ∉ cleaned → order_of row reg 0).
Proof.
  intros Hwf Hlimit Hrun Hregions Hcleaned Hrow.
  destruct (find_regions_well_placed base_pairs Hwf)
    as (regions' & Hregions' & Hwp).
  rewrite Hregions in Hregions'. injection Hregions' as <-.
  apply pseudoknots_inv in Hrun
    as (regions' & cleaned' & Hlen & Hregions' & Hcleaned' & Hrows).
  rewrite Hregions in Hregions'. injection Hregions' as <-.
  rewrite Hcleaned in Hcleaned'. injection Hcleaned' as <-.
  destruct (find_regions_disjoint base_pairs regions Hregions)
    as [Hbound Hdisj].
  destruct (find_regions_cover base_pairs regions Hregions) as [Hcover _].
  pose proof (remove_non_conflicting_subset _ _ Hcleaned) as Hsub.
  pose proof (clusters_conflicting base_pairs
                (default (replicate (length base_pairs) 1) scoring)
                regions cleaned) as Hgood.
  pose proof (cluster_conflicts_subset cleaned) as Hsub'.
  destruct (_cluster_conflicts cleaned) as [|cluster clusters _]
    using rev_ind.
  { injection Hrows as <-. apply list_elem_of_singleton in Hrow as ->. split.
    - intros p v [-> _]%lookup_replicate. lia.
    - intros reg Hreg _ p Hp. apply lookup_replicate_2.
      by apply (Hbound reg). }
  apply foldM_last in Hrows.
  assert (Hlast : cluster ∈ clusters ++ [cluster]).
  { apply elem_of_app. right. left. }
  destruct (Hgood cluster Hlen Hregions Hwp Hcleaned Hlast)
    as (Hconflicting & _ & _).
  assert (Hin : cluster ⊆ regions).
  { intros reg Hreg. by apply Hsub, (Hsub' cluster). }
  destruct (result_diff_layered _ limit cluster rows Hlimit Hconflicting
              (disjoint_members_subseteq regions cluster Hdisj Hin)
              Hrows row Hrow) as (Hrow_len & Hzero & ord & Hord & _).
  rewrite Hlen in Hrow_len, Hzero.
  assert (Hother : ∀ reg p, reg ∈ regions → reg ∉ cluster →
            p ∈ region_pairs reg → row !! p = Some 0).
  { intros reg p Hreg Hno Hp. apply Hzero; [by apply (Hbound reg)|].
    intros reg' Hreg' Hp'. apply Hno.
    assert (reg = reg') as ->; [|done].
    apply (Hdisj reg reg' p); auto. }
  split.
  - intros p v Hv.
    assert (Hp : (p < length base_pairs)%nat).
    { rewrite <- Hrow_len. by eapply lookup_lt_Some. }
    destruct (Hcover p Hp) as (reg & Hreg & Hmember).
    destruct (decide (reg ∈ cluster)) as [Hc | Hc].
    + destruct (Hord reg Hc) as [Hle Horder].
      rewrite (Horder p Hmember) in Hv. injection Hv as <-. lia.
    + rewrite (Hother reg p Hreg Hc Hmember) in Hv. injection Hv as <-. lia.
  - intros reg Hreg Hno p Hp. apply (Hother reg); auto.
    intros Hc. by apply Hno, (Hsub' cluster).
Qed.

(** ** The solutions of the dynamic programme have the highest score *)

Lemma foldM_grow {A B} `{Countable B} (f : gset B -> A -> result (gset B))
    (l : list A) (s s' : gset B) (z : B) :
  (∀ s1 y s2 z, f s1 y = Ok s2 → z ∈ s1 → z ∈ s2) →
  foldM f s l = Ok s' → z ∈ s → z ∈ s'.
Proof.
  intros Hgrow Hrun Hz.
  eapply (foldM_invariant (fun c : gset B => z ∈ c)); [|exact Hz|exact Hrun].
  intros c y c' _ Hc Hstep. by eapply Hgrow.
Qed.

(** What an iteration of a loop adds to a growing set is in the final
    set. *)
Lemma foldM_step_of {A B} `{Countable B} (f : gset B -> A -> result (gset B))
    (l : list A) (s s' : gset B) (x : A) :
  (∀ s1 y s2 z, f s1 y = Ok s2 → z ∈ s1 → z ∈ s2) →
  x ∈ l → foldM f s l = Ok s' →
  ∃ c c', f c x = Ok c' ∧ ∀ z, z ∈ c' → z ∈ s'.
Proof.
  intros Hgrow. revert s. induction l as [|y l IH]; intros s Hx Hrun.
  - by apply elem_of_nil in Hx.
  - simpl in Hrun. apply bind_inv_Ok in Hrun as (s1 & Hstep & Hrun).
    apply elem_of_cons in Hx as [-> | Hx]; [|by eapply IH].
    exists s, s1. split; [exact Hstep|].
    intros z Hz. by eapply foldM_grow.
Qed.

Lemma foldl_union_elem (sub1 sub2 : gset region)
    (cands : gset (gset region)) (cell2 : list (gset region)) :
  sub2 ∈ cell2 →
  sub1 ∪ sub2
  ∈ foldl (fun cands subsolution2 => {[sub1 ∪ subsolution2]} ∪ cands)
      cands cell2.
Proof.
  revert cands. induction cell2 as [|x cell2 IH]; intros cands Hin.
  - by apply elem_of_nil in Hin.
  - simpl. apply elem_of_cons in Hin as [-> | Hin]; [|by apply IH].
    apply (foldl_invariant (fun c : gset (gset region) => sub1 ∪ x ∈ c)).
    + intros c y _ Hc. apply elem_of_union. by right.
    + apply elem_of_union. left. by apply elem_of_singleton.
Qed.

(** The loop body for [k] adds every union of a solution of
    [dp_matrix[i, k]] with one of [dp_matrix[k+1, j]]. *)
Lemma add_subsolutions_new (n i j k : nat)
    (dp_matrix : gmap (nat * nat) (list (gset region)))
    (cands cands' : gset (gset region))
    (cell1 cell2 : list (gset region)) (sub1 sub2 : gset region) :
  add_subsolutions n dp_matrix i j cands (Z.of_nat k) = Ok cands' →
  (i < n)%nat → (j < n)%nat → (S k < n)%nat →
  dp_matrix !! (i, k) = Some cell1 → dp_matrix !! (S k, j) = Some cell2 →
  sub1 ∈ cell1 → sub2 ∈ cell2 → sub1 ∪ sub2 ∈ cands'.
Proof.
  unfold add_subsolutions. intros Hrun Hi Hj Hk Hcell1 Hcell2 Hsub1 Hsub2.
  rewrite dp_at_nat in Hrun by lia. rewrite bind_Ok in Hrun.
  replace (Z.of_nat k + 1) with (Z.of_nat (S k)) in Hrun by lia.
  rewrite dp_at_nat in Hrun by lia. rewrite bind_Ok in Hrun.
  rewrite Hcell1, Hcell2 in Hrun. simpl in Hrun.
  eapply (foldM_step_of _ _ _ _ sub1) in Hrun as (c & c' & Hstep & Hsub);
    [|clear; intros s1 y s2 z Hstep Hz|exact Hsub1].
  - injection Hstep as <-. apply Hsub. by apply foldl_union_elem.
  - injection Hstep as <-.
    apply (foldl_invariant (fun c : gset (gset region) => z ∈ c));
      [|exact Hz].
    intros c0 sub _ Hc0. apply elem_of_union. by right.
Qed.

Lemma amax_upper (scores : list Z) (best score : Z) :
  Np.amax scores = Ok best → score ∈ scores → score ≤ best.
Proof.
  destruct scores as [|x xs]; [discriminate|]. intros [= <-] Hin.
  by apply foldl_max_spec.
Qed.

Section SolverBest.
Variable cluster : gset region.
Variable keys : list Z.
Variable scoring : list Z.

Let ra : list region :=
  (_get_region_array_for cluster
     (fun a => (Np.to_int32 (start a), Np.to_int32 (stop a)))).1.
Let ss : list Z :=
  (_get_region_array_for cluster
     (fun a => (Np.to_int32 (start a), Np.to_int32 (stop a)))).2.
Let n : nat := (size cluster * 2)%nat.

Hypothesis array : event_array cluster ra keys.
Hypothesis bounds : ∀ reg, reg ∈ cluster → 0 ≤ start reg ∧ stop reg < 2 ^ 31.
Hypothesis values : ss = keys.
Hypothesis conflicting : ∀ reg, reg ∈ cluster →
  ∃ reg', reg' ∈ cluster ∧ crossing reg reg'.
Hypothesis members : ∀ reg, reg ∈ cluster →
  region_pairs reg ≠ []
  ∧ ∀ p, p ∈ region_pairs reg → (p < length scoring)%nat.
Hypothesis positive : Forall (fun v => 0 < v) scoring.
Hypothesis small : exact_scores scoring cluster.

Lemma stored_score_inside (a b : nat) (solution : gset region) :
  inside ra keys cluster a b solution →
  stored_score scoring solution = Ok (solution_weight scoring solution).
Proof.
  intros [Hin _].
  apply (stored_score_weight cluster scoring members positive small).
  intros reg Hreg. by destruct (Hin reg Hreg).
Qed.

(** The solutions of a cell have one weight. *)
Lemma cell_weight (a b : nat) (solutions : list (gset region))
    (solution1 solution2 : gset region) :
  cell_ok scoring ra keys cluster a b solutions →
  solution1 ∈ solutions → solution2 ∈ solutions →
  solution_weight scoring solution1 = solution_weight scoring solution2.
Proof.
  intros (_ & _ & (best & Hbest) & Hinside) H1 H2.
  pose proof (Hbest _ H1) as Hs1. pose proof (Hbest _ H2) as Hs2.
  rewrite (stored_score_inside a b) in Hs1 by auto.
  rewrite (stored_score_inside a b) in Hs2 by auto. congruence.
Qed.

Lemma inside_disjoint (a b c d : nat) (solution1 solution2 : gset region) :
  inside ra keys cluster a b solution1 →
  inside ra keys cluster c d solution2 →
  (b < c)%nat → solution1 ## solution2.
Proof.
  intros [H1 _] [H2 _] Hbc reg Hreg1 Hreg2.
  destruct (H1 reg Hreg1) as (_ & s1 & e1 & Hends1 & _ & He1).
  destruct (H2 reg Hreg2) as (_ & s2 & e2 & Hends2 & Hs2 & _).
  pose proof (ends_lt cluster ra keys array reg _ _ Hends2).
  destruct Hends1 as (_ & _ & _ & Hk1). destruct Hends2 as (_ & _ & _ & Hk2).
  pose proof (key_inj cluster ra keys array _ _ _ Hk1 Hk2). lia.
Qed.

Lemma inside_drop_first (i j : nat) (solution : gset region) (reg : region) :
  inside ra keys cluster i j solution →
  ra !! i = Some reg → reg ∉ solution →
  inside ra keys cluster (S i) j solution.
Proof.
  intros [Hin Hfree] Hreg Hnot. split; [|exact Hfree].
  intros r Hr. destruct (Hin r Hr) as (Hc & s & e & Hends & Hs & He).
  split; [exact Hc|]. exists s, e. split; [exact Hends|].
  split; [|exact He].
  destruct (decide (s = i)) as [->|]; [|lia].
  destruct Hends as (Hra & _). congruence.
Qed.

Lemma inside_drop_last (i j : nat) (solution : gset region) (reg : region) :
  inside ra keys cluster i j solution →
  ra !! j = Some reg → reg ∉ solution →
  inside ra keys cluster i (j - 1) solution.
Proof.
  intros [Hin Hfree] Hreg Hnot. split; [|exact Hfree].
  intros r Hr. destruct (Hin r Hr) as (Hc & s & e & Hends & Hs & He).
  split; [exact Hc|]. exists s, e. split; [exact Hends|].
  split; [exact Hs|].
  destruct (decide (e = j)) as [->|]; [|lia].
  destruct Hends as (_ & _ & Hra & _). congruence.
Qed.

Lemma inside_empty (a b : nat) : inside ra keys cluster a b ∅.
Proof.
  split; [intros reg Hreg | intros reg1 reg2 Hreg];
    by apply elem_of_empty in Hreg.
Qed.

Lemma inside_singleton (a b s e : nat) (reg : region) :
  ends ra keys reg s e → (a ≤ s)%nat → (e ≤ b)%nat →
  inside ra keys cluster a b {[reg]}.
Proof.
  intros Hends Hs He. split.
  - intros r ->%elem_of_singleton. split; [|by eauto].
    destruct array as (_ & _ & _ & Hentry & _).
    destruct Hends as (Hra & _). by destruct (Hentry _ _ Hra).
  - intros r1 r2 ->%elem_of_singleton ->%elem_of_singleton.
    apply crossing_irrefl.
Qed.

(** The positions of the lowest start and of the highest stop of a
    solution enclose it. *)
Lemma span_inside (a b : nat) (solution : gset region) :
  inside ra keys cluster a b solution → solution ≠ ∅ →
  ∃ lo hi,
    Np.where_first ss (Np.to_int32 (solution_span solution).1) = Ok lo
    ∧ Np.where_first ss (Np.to_int32 (solution_span solution).2) = Ok hi
    ∧ keys !! lo = Some (Np.to_int32 (solution_span solution).1)
    ∧ keys !! hi = Some (Np.to_int32 (solution_span solution).2)
    ∧ (a ≤ lo)%nat ∧ (hi ≤ b)%nat
    ∧ inside ra keys cluster lo hi solution.
Proof.
  intros Hinside Hne. pose proof Hinside as [Hin Hfree].
  assert (Hpos : ∀ reg, reg ∈ solution →
            0 ≤ start reg ∧ 0 ≤ stop reg ∧ start reg < 2 ^ 31
            ∧ stop reg < 2 ^ 31).
  { intros reg Hreg. destruct (Hin reg Hreg) as (Hc & _).
    destruct array as (_ & _ & Hspan & _).
    pose proof (Hspan reg Hc). pose proof (bounds reg Hc). lia. }
  destruct (solution_span_spec solution) as (Hall & Hmin & Hmax & Hnonneg).
  { intros reg Hreg. pose proof (Hpos reg Hreg). lia. }
  specialize (Hnonneg Hne).
  destruct Hmin as [? | (r2 & Hr2 & Hmin)]; [lia|].
  destruct Hmax as [? | (r1 & Hr1 & Hmax)]; [lia|].
  destruct (Hin r2 Hr2) as (_ & s2 & e2 & Hends2 & Hs2 & _).
  destruct (Hin r1 Hr1) as (_ & s1 & e1 & Hends1 & _ & He1).
  exists s2, e1.
  assert (Hlo : Np.to_int32 (solution_span solution).1 = start r2).
  { rewrite Hmin. apply to_int32_small. pose proof (Hpos r2 Hr2). lia. }
  assert (Hhi : Np.to_int32 (solution_span solution).2 = stop r1).
  { rewrite Hmax. apply to_int32_small. pose proof (Hpos r1 Hr1). lia. }
  rewrite Hlo, Hhi.
  destruct Hends2 as (_ & Hk2 & _). destruct Hends1 as (_ & _ & _ & Hk1).
  split; [by apply (where_first_key cluster keys array values)|].
  split; [by apply (where_first_key cluster keys array values)|].
  do 4 (split; [done|]).
  split; [|exact Hfree]. intros reg Hreg.
  destruct (Hin reg Hreg) as (Hc & s & e & Hends & Hs & He).
  split; [exact Hc|]. exists s, e. split; [exact Hends|].
  destruct (Hall reg Hreg) as [Hge Hle].
  destruct Hends as (_ & Hks & _ & Hke).
  pose proof (key_order cluster ra keys array s s2 _ _ Hks Hk2).
  pose proof (key_order cluster ra keys array e1 e _ _ Hk1 Hke).
  lia.
Qed.

Lemma inside_point (a : nat) (solution : gset region) :
  inside ra keys cluster a a solution → solution = ∅.
Proof.
  intros [Hin _]. apply leibniz_equiv, elem_of_equiv_empty. intros reg Hreg.
  destruct (Hin reg Hreg) as (_ & s & e & Hends & Hs & He).
  pose proof (ends_lt cluster ra keys array reg _ _ Hends). lia.
Qed.

(** A region of a solution that starts at the first position of the
    cell splits the solution at its stop. *)
Lemma split_at_stop (i j e1 : nat) (other : gset region) (reg : region) :
  inside ra keys cluster i j other →
  ends ra keys reg i e1 → reg ∈ other →
  ∃ part1 part2,
    other = part1 ∪ part2 ∧ part1 ## part2 ∧ reg ∈ part1
    ∧ inside ra keys cluster i e1 part1
    ∧ inside ra keys cluster (S e1) j part2.
Proof.
  intros [Hin Hfree] Hends Hreg.
  exists (filter (fun r => stop r ≤ stop reg) other),
         (filter (fun r => ¬ stop r ≤ stop reg) other).
  split; [|split; [|split; [|split]]].
  - symmetry. apply leibniz_equiv, filter_union_complement.
  - apply disjoint_filter_complement.
  - apply elem_of_filter. split; [lia | exact Hreg].
  - split.
    + intros r [Hstop Hr]%elem_of_filter.
      destruct (Hin r Hr) as (Hc & s & e & Hends_r & Hs & He).
      split; [exact Hc|]. exists s, e. split; [exact Hends_r|].
      split; [exact Hs|].
      destruct Hends as (_ & _ & _ & Hke).
      destruct Hends_r as (_ & _ & _ & Hke_r).
      pose proof (key_order cluster ra keys array e1 e _ _ Hke Hke_r). lia.
    + intros r1 r2 [_ Hr1]%elem_of_filter [_ Hr2]%elem_of_filter.
      by apply Hfree.
  - split.
    + intros r [Hstop Hr]%elem_of_filter.
      destruct (Hin r Hr) as (Hc & s & e & Hends_r & Hs & He).
      split; [exact Hc|]. exists s, e. split; [exact Hends_r|].
      split; [|exact He].
      assert (Hne : reg ≠ r) by (intros ->; lia).
      destruct (ends_distinct ra keys _ _ _ _ _ _ Hends Hends_r Hne)
        as (Hss & Hse & Hes & Hee).
      pose proof (Hfree reg r Hreg Hr) as Hnot.
      rewrite (crossing_ends cluster ra keys array _ _ _ _ _ _
                 Hends Hends_r) in Hnot.
      destruct Hends as (_ & _ & _ & Hke).
      pose proof Hends_r as (_ & _ & _ & Hke_r).
      pose proof (key_order cluster ra keys array e1 e _ _ Hke Hke_r).
      lia.
    + intros r1 r2 [_ Hr1]%elem_of_filter [_ Hr2]%elem_of_filter.
      by apply Hfree.
Qed.

Lemma zip_fmap_elem_of {A B} (f : A -> B) (l : list A) (x : A) :
  x ∈ l → (x, f x) ∈ zip l (f <$> l).
Proof.
  intros [k Hk]%list_elem_of_lookup. apply (list_elem_of_lookup_2 _ k).
  apply lookup_zip_with_Some. exists x, (f x).
  split; [done|]. split; [done|]. by rewrite list_lookup_fmap, Hk.
Qed.

(** The cross term runs the body for every solution of the left cell
    with every solution of the bottom cell, when neither cell holds the
    empty solution. *)
Lemma crossed_candidates_new (j i : nat)
    (dp_matrix : gmap (nat * nat) (list (gset region)))
    (left bottom : list (gset region)) (cands cands' : gset (gset region))
    (solution1 solution2 : gset region) :
  crossed_candidates n dp_matrix ss i j left bottom cands = Ok cands' →
  solution1 ∈ left → solution1 ≠ ∅ → solution2 ∈ bottom → solution2 ≠ ∅ →
  ∃ c c',
    add_pair n dp_matrix ss i j solution1
      (Np.to_int32 (solution_span solution1).2) c
      (solution2, Np.to_int32 (solution_span solution2).1) = Ok c'
    ∧ ∀ z, z ∈ c' → z ∈ cands'.
Proof.
  intros Hrun Hsol1 Hne1 Hsol2 Hne2. unfold crossed_candidates in Hrun.
  assert (Hex1 : existsb (fun solution => bool_decide (solution ≠ ∅)) left
                 = true).
  { apply existsb_exists. exists solution1.
    split; [by apply list_elem_of_In | by apply bool_decide_eq_true]. }
  assert (Hex2 : existsb (fun solution => bool_decide (solution ≠ ∅)) bottom
                 = true).
  { apply existsb_exists. exists solution2.
    split; [by apply list_elem_of_In | by apply bool_decide_eq_true]. }
  rewrite Hex1, Hex2 in Hrun. simpl in Hrun.
  eapply (foldM_step_of _ _ _ _
            (solution1, Np.to_int32 (solution_span solution1).2))
    in Hrun as (c1 & c1' & Hstep & Hsub1).
  - simpl in Hstep.
    eapply (foldM_step_of _ _ _ _
              (solution2, Np.to_int32 (solution_span solution2).1))
      in Hstep as (c2 & c2' & Hstep & Hsub2).
    + exists c2, c2'. split; [exact Hstep|]. auto.
    + intros s1 y s2 z. apply add_pair_grow.
    + by apply (zip_fmap_elem_of
                  (fun solution => Np.to_int32 (solution_span solution).1)).
  - intros s1 y s2 z Hinner Hz.
    eapply (foldM_grow _ _ _ _ z) in Hinner; [done| |done].
    intros s1' y' s2' z'. apply add_pair_grow.
  - by apply (zip_fmap_elem_of
                (fun solution => Np.to_int32 (solution_span solution).2)).
Qed.

(** A split point in the range of the loop over [k] whose two cells
    weigh at least as much as the two parts gives a candidate that weighs
    at least as much as both parts together. *)
Lemma add_subsolutions_dominates (j i k : nat)
    (dp_matrix : gmap (nat * nat) (list (gset region)))
    (cands cands' : gset (gset region)) (w1 w2 : Z) :
  dp_inv scoring ra keys cluster j (S i) dp_matrix →
  dp_full ra keys n j (S i) dp_matrix →
  (i ≤ k)%nat → (k < j)%nat → (j < n)%nat →
  add_subsolutions n dp_matrix i j cands (Z.of_nat k) = Ok cands' →
  (∀ solutions solution, dp_matrix !! (i, k) = Some solutions →
     solution ∈ solutions → w1 ≤ solution_weight scoring solution) →
  (∀ solutions solution, dp_matrix !! (S k, j) = Some solutions →
     solution ∈ solutions → w2 ≤ solution_weight scoring solution) →
  ∃ z, z ∈ cands' ∧ w1 + w2 ≤ solution_weight scoring z.
Proof.
  intros Hinv [Hassigned _] Hik Hkj Hjn Hrun Hw1 Hw2.
  destruct (Hassigned i k) as [cell1 Hcell1]; [lia | lia | lia|].
  destruct (Hassigned (S k) j) as [cell2 Hcell2]; [lia | lia | lia|].
  destruct (Hinv _ _ _ Hcell1) as (_ & _ & Hne1 & _ & _ & Hin1).
  destruct (Hinv _ _ _ Hcell2) as (_ & _ & Hne2 & _ & _ & Hin2).
  destruct cell1 as [|sub1 cell1]; [done|].
  destruct cell2 as [|sub2 cell2]; [done|].
  exists (sub1 ∪ sub2). split.
  - eapply (add_subsolutions_new n i j k); eauto; try lia; by left.
  - rewrite solution_weight_union.
    + pose proof (Hw1 _ sub1 Hcell1 ltac:(left)).
      pose proof (Hw2 _ sub2 Hcell2 ltac:(left)). lia.
    + apply (inside_disjoint i k (S k) j); [| |lia].
      * apply Hin1. by left.
      * apply Hin2. by left.
Qed.

(** The body of the loops over [left] and [bottom] adds a candidate that
    weighs at least as much as a solution made of a part up to position
    [e1] and a part after it. *)
Lemma add_pair_dominates (j i e1 : nat)
    (dp_matrix : gmap (nat * nat) (list (gset region)))
    (left bottom : list (gset region)) (solution1 solution2 : gset region)
    (cands cands' : gset (gset region)) (part1 part2 : gset region) :
  dp_inv scoring ra keys cluster j (S i) dp_matrix →
  dp_full ra keys n j (S i) dp_matrix →
  dp_opt scoring ra keys cluster dp_matrix →
  (i < j)%nat → (j < n)%nat →
  dp_matrix !! (i, (j - 1)%nat) = Some left →
  dp_matrix !! (S i, j) = Some bottom →
  solution1 ∈ left → solution1 ≠ ∅ → solution2 ∈ bottom → solution2 ≠ ∅ →
  add_pair n dp_matrix ss i j solution1
    (Np.to_int32 (solution_span solution1).2) cands
    (solution2, Np.to_int32 (solution_span solution2).1) = Ok cands' →
  (i ≤ e1)%nat → (e1 < j)%nat →
  inside ra keys cluster i e1 part1 →
  inside ra keys cluster (S e1) j part2 →
  ∃ z, z ∈ cands'
       ∧ solution_weight scoring part1 + solution_weight scoring part2
         ≤ solution_weight scoring z.
Proof.
  intros Hinv Hfull Hopt Hij Hjn Hleft Hbottom Hsol1 Hne1 Hsol2 Hne2 Hrun
    Hie He Hpart1 Hpart2.
  destruct (Hinv _ _ _ Hleft) as (_ & _ & _ & _ & _ & Hin_left).
  destruct (Hinv _ _ _ Hbottom) as (_ & _ & _ & _ & _ & Hin_bottom).
  pose proof (Hin_left _ Hsol1) as Hinside1.
  pose proof (Hin_bottom _ Hsol2) as Hinside2.
  destruct (span_inside _ _ _ Hinside1 Hne1)
    as (lo1 & hi1 & _ & Hwhere1 & _ & Hkey1 & Hlo1 & Hhi1 & Hspan1).
  destruct (span_inside _ _ _ Hinside2 Hne2)
    as (lo2 & hi2 & Hwhere2 & _ & Hkey2 & _ & Hlo2 & Hhi2 & Hspan2).
  assert (Hw1 : solution_weight scoring part1
                ≤ solution_weight scoring solution1).
  { apply (Hopt _ _ _ _ _ Hleft Hsol1).
    apply (inside_mono cluster keys i e1); [exact Hpart1 | lia | lia]. }
  assert (Hw2 : solution_weight scoring part2
                ≤ solution_weight scoring solution2).
  { apply (Hopt _ _ _ _ _ Hbottom Hsol2).
    apply (inside_mono cluster keys (S e1) j); [exact Hpart2 | lia | lia]. }
  pose proof (key_order cluster ra keys array hi1 lo2 _ _ Hkey1 Hkey2)
    as Horder.
  unfold add_pair in Hrun. case_decide as Hdirect.
  - injection Hrun as <-. exists (solution1 ∪ solution2). split.
    + apply elem_of_union. left. by apply elem_of_singleton.
    + rewrite solution_weight_union; [lia|].
      apply (inside_disjoint lo1 hi1 lo2 hi2); [done | done | lia].
  - rewrite Hwhere2, bind_Ok, Hwhere1, bind_Ok in Hrun.
    assert (Hsplit : ∃ k, (i ≤ k)%nat ∧ (k < j)%nat
              ∧ Z.of_nat lo2 - 1 ≤ Z.of_nat k ≤ Z.of_nat hi1
              ∧ (∀ solutions solution,
                   dp_matrix !! (i, k) = Some solutions →
                   solution ∈ solutions →
                   solution_weight scoring part1
                   ≤ solution_weight scoring solution)
              ∧ (∀ solutions solution,
                   dp_matrix !! (S k, j) = Some solutions →
                   solution ∈ solutions →
                   solution_weight scoring part2
                   ≤ solution_weight scoring solution)).
    { destruct (decide (e1 < lo2 - 1)%nat) as [Hbefore|Hnot_before].
      - exists (lo2 - 1)%nat. split; [lia|]. split; [lia|]. split; [lia|].
        split.
        + intros solutions solution Hcell Hsol.
          apply (Hopt _ _ _ _ _ Hcell Hsol).
          apply (inside_mono cluster keys i e1); [exact Hpart1 | lia | lia].
        + intros solutions solution Hcell Hsol.
          etrans; [exact Hw2|].
          apply (Hopt _ _ _ _ _ Hcell Hsol).
          apply (inside_mono cluster keys lo2 hi2);
            [exact Hspan2 | lia | lia].
      - destruct (decide (hi1 < e1)%nat) as [Hafter|Hnot_after].
        + exists hi1. split; [lia|]. split; [lia|]. split; [lia|]. split.
          * intros solutions solution Hcell Hsol.
            etrans; [exact Hw1|].
            apply (Hopt _ _ _ _ _ Hcell Hsol).
            apply (inside_mono cluster keys lo1 hi1);
              [exact Hspan1 | lia | lia].
          * intros solutions solution Hcell Hsol.
            apply (Hopt _ _ _ _ _ Hcell Hsol).
            apply (inside_mono cluster keys (S e1) j);
              [exact Hpart2 | lia | lia].
        + exists e1. split; [lia|]. split; [lia|]. split; [lia|]. split.
          * intros solutions solution Hcell Hsol.
            by apply (Hopt _ _ _ _ _ Hcell Hsol).
          * intros solutions solution Hcell Hsol.
            by apply (Hopt _ _ _ _ _ Hcell Hsol). }
    destruct Hsplit as (k & Hik & Hkj & Hrange & Hbest1 & Hbest2).
    eapply (foldM_step_of _ _ _ _ (Z.of_nat k))
      in Hrun as (c & c' & Hstep & Hsub).
    + destruct (add_subsolutions_dominates j i k dp_matrix c c'
                  (solution_weight scoring part1)
                  (solution_weight scoring part2))
        as (z & Hz & Hweight); auto.
      exists z. split; [by apply Hsub | exact Hweight].
    + intros s1 y s2 z. apply add_subsolutions_grow.
    + unfold Np.range. apply elem_of_seqZ. lia.
Qed.

Lemma best_dominates (i j : nat) (cands : gset (gset region))
    (scores : list Z) (best : Z) (solution : gset region) :
  (∀ solution, solution ∈ cands → inside ra keys cluster i j solution) →
  mapM_r (stored_score scoring) (elements cands) = Ok scores →
  Np.amax scores = Ok best →
  solution ∈ cands → solution_weight scoring solution ≤ best.
Proof.
  intros Hinside Hscores%mapM_r_inv Hbest Hsol.
  apply elem_of_elements, list_elem_of_lookup in Hsol as [k Hk].
  destruct (Forall2_lookup_l _ _ _ _ _ Hscores Hk) as (score & Hscore & Heq).
  rewrite (stored_score_inside i j) in Heq.
  - injection Heq as <-. apply (amax_upper scores); [exact Hbest|].
    by eapply list_elem_of_lookup_2.
  - apply Hinside, elem_of_elements. by eapply list_elem_of_lookup_2.
Qed.

(** Among the candidates of a cell there is one that weighs at least as
    much as a given crossing-free set of regions between the two
    positions of the cell. *)
Lemma fill_cell_candidate (j i : nat)
    (dp_matrix : gmap (nat * nat) (list (gset region)))
    (left bottom : list (gset region)) (reg_i reg_j : region)
    (cands1 cands2 : gset (gset region)) (other : gset region) :
  dp_inv scoring ra keys cluster j (S i) dp_matrix →
  dp_full ra keys n j (S i) dp_matrix →
  dp_opt scoring ra keys cluster dp_matrix →
  (i < j)%nat → (j < n)%nat →
  dp_matrix !! (i, (j - 1)%nat) = Some left →
  dp_matrix !! (S i, j) = Some bottom →
  ra !! i = Some reg_i → ra !! j = Some reg_j →
  wrapped_candidates n dp_matrix i j reg_i reg_j
    (list_to_set left ∪ list_to_set bottom) = Ok cands1 →
  crossed_candidates n dp_matrix ss i j left bottom cands1 = Ok cands2 →
  inside ra keys cluster i j other →
  ∃ z, z ∈ cands2
       ∧ solution_weight scoring other ≤ solution_weight scoring z.
Proof.
  intros Hinv Hfull Hopt Hij Hjn Hleft Hbottom Hreg_i Hreg_j Hwrapped
    Hcrossed Hother.
  destruct (Hinv _ _ _ Hleft) as (_ & _ & Hleft_ne & _ & _ & _).
  destruct (Hinv _ _ _ Hbottom) as (_ & _ & Hbottom_ne & _ & _ & _).
  destruct left as [|solution1 left']; [done|].
  destruct bottom as [|solution2 bottom']; [done|].
  assert (Hold : ∀ z, z ∈ solution1 :: left' ∨ z ∈ solution2 :: bottom' →
            z ∈ cands2).
  { intros z Hz.
    eapply crossed_candidates_grow; [exact Hcrossed|].
    eapply wrapped_candidates_grow; [exact Hwrapped|].
    apply elem_of_union. rewrite !elem_of_list_to_set. tauto. }
  destruct (decide (reg_i ∈ other)) as [Hin_i|Hnot_i].
  2:{ exists solution2. split; [apply Hold; right; left|].
      apply (Hopt _ _ _ _ _ Hbottom ltac:(left)).
      by apply (inside_drop_first i j other reg_i). }
  destruct (decide (reg_j ∈ other)) as [Hin_j|Hnot_j].
  2:{ exists solution1. split; [apply Hold; left; left|].
      apply (Hopt _ _ _ _ _ Hleft ltac:(left)).
      by apply (inside_drop_last i j other reg_j). }
  pose proof Hother as [Hin Hfree].
  destruct (Hin reg_i Hin_i) as (Hc_i & s1 & e1 & Hends_i & Hs1 & He1).
  destruct (Hin reg_j Hin_j) as (Hc_j & s2 & e2 & Hends_j & Hs2 & He2).
  pose proof (ends_lt cluster ra keys array _ _ _ Hends_i) as Hlt_i.
  pose proof (ends_lt cluster ra keys array _ _ _ Hends_j) as Hlt_j.
  pose proof (ends_only cluster ra keys array _ _ _ _ Hends_i Hreg_i) as Hi.
  pose proof (ends_only cluster ra keys array _ _ _ _ Hends_j Hreg_j) as Hj.
  assert (s1 = i) as -> by lia. assert (e2 = j) as -> by lia.
  destruct (decide (reg_i = reg_j)) as [Hsame|Hdiff].
  - subst reg_j.
    pose proof (ends_only cluster ra keys array _ _ _ _ Hends_i Hreg_j).
    assert (e1 = j) as -> by lia.
    destruct (wrapped_candidates_new n i j dp_matrix reg_i _ _ Hij Hwrapped)
      as (bottom_left & Hcell & Hnew).
    destruct (Hinv _ _ _ Hcell) as (_ & _ & Hbl_ne & _ & _ & Hbl_in).
    destruct bottom_left as [|solution bottom_left]; [done|].
    exists (solution ∪ {[reg_i]}). split.
    + eapply crossed_candidates_grow; [exact Hcrossed|].
      apply Hnew. by left.
    + assert (Hrest : inside ra keys cluster (S i) (j - 1)
                        (other ∖ {[reg_i]})).
      { split.
        - intros r [Hr Hne%not_elem_of_singleton]%elem_of_difference.
          destruct (Hin r Hr) as (Hc & s & e & Hends & Hs & He).
          split; [exact Hc|]. exists s, e. split; [exact Hends|].
          destruct (ends_distinct ra keys _ _ _ _ _ _ Hends Hends_i Hne)
            as (? & ? & ? & ?).
          lia.
        - intros r1 r2 [Hr1 _]%elem_of_difference
            [Hr2 _]%elem_of_difference.
          by apply Hfree. }
      pose proof (Hopt _ _ _ _ _ Hcell ltac:(left) Hrest) as Hle.
      rewrite (union_difference_singleton_L reg_i other Hin_i) at 1.
      rewrite !solution_weight_union.
      * rewrite !solution_weight_singleton. lia.
      * apply disjoint_singleton_r. intros Hin_sol.
        destruct (Hbl_in solution ltac:(left)) as [Hin_bl _].
        destruct (Hin_bl reg_i Hin_sol) as (_ & s & e & Hends & Hs & He).
        pose proof (ends_lt cluster ra keys array _ _ _ Hends).
        destruct Hends as (_ & Hks & _). destruct Hends_i as (_ & Hki & _).
        pose proof (key_inj cluster ra keys array _ _ _ Hks Hki). lia.
      * apply disjoint_singleton_l.
        rewrite elem_of_difference, elem_of_singleton. tauto.
  - destruct (ends_distinct ra keys _ _ _ _ _ _ Hends_i Hends_j Hdiff)
      as (? & ? & ? & ?).
    destruct (split_at_stop i j e1 other reg_i Hother Hends_i Hin_i)
      as (part1 & part2 & -> & Hparts & _ & Hpart1 & Hpart2).
    rewrite (solution_weight_union scoring part1 part2 Hparts).
    destruct Hfull as [Hassigned Hfilled].
    assert (Hne_left : ∅ ∉ solution1 :: left').
    { apply (Hfilled _ _ _ reg_i i e1 Hleft Hends_i); lia. }
    assert (Hne_bottom : ∅ ∉ solution2 :: bottom').
    { apply (Hfilled _ _ _ reg_j s2 j Hbottom Hends_j); lia. }
    destruct (crossed_candidates_new j i dp_matrix _ _ _ _
                solution1 solution2 Hcrossed)
      as (c & c' & Hpair & Hsub).
    + by left.
    + intros ->. apply Hne_left. by left.
    + by left.
    + intros ->. apply Hne_bottom. by left.
    + destruct (add_pair_dominates j i e1 dp_matrix
                  (solution1 :: left') (solution2 :: bottom')
                  solution1 solution2 c c' part1 part2)
        as (z & Hz & Hweight); auto; try lia.
      * by split.
      * by left.
      * intros ->. apply Hne_left. by left.
      * by left.
      * intros ->. apply Hne_bottom. by left.
      * exists z. split; [by apply Hsub | exact Hweight].
Qed.

(** Filling a cell keeps the matrix optimal. *)
Lemma fill_cell_opt (j i : nat)
    (dp_matrix dp_matrix' : gmap (nat * nat) (list (gset region))) :
  dp_inv scoring ra keys cluster j (S i) dp_matrix →
  dp_full ra keys n j (S i) dp_matrix →
  dp_opt scoring ra keys cluster dp_matrix →
  (i < j)%nat → (j < n)%nat →
  fill_cell scoring n ra ss j dp_matrix i = Ok dp_matrix' →
  dp_opt scoring ra keys cluster dp_matrix'.
Proof.
  intros Hinv Hfull Hopt Hij Hjn Hrun.
  destruct (fill_cell_inv_Ok cluster keys scoring array bounds
              n j i dp_matrix dp_matrix' Hinv Hij Hrun)
    as (left & bottom & reg_i & reg_j & cands1 & cands2 & scores & best
        & Hleft & Hbottom & Hreg_i & Hreg_j & Hwrapped & Hcrossed
        & Hscores & Hbest & -> & Hinside).
  intros a b solutions solution other Hcell Hsol Hother.
  destruct (decide ((a, b) = (i, j))) as [[= -> ->]|Hne].
  - rewrite lookup_insert_eq in Hcell. injection Hcell as <-.
    destruct (best_scores_ok scoring (elements cands2)
                scores best (NoDup_elements cands2) Hscores Hbest)
      as (_ & _ & Hchosen).
    destruct (Hchosen solution Hsol) as [Hcand Hscore].
    rewrite (stored_score_inside i j) in Hscore
      by by apply Hinside, elem_of_elements.
    injection Hscore as ->.
    destruct (fill_cell_candidate j i dp_matrix left bottom reg_i reg_j
                cands1 cands2 other)
      as (z & Hz & Hweight); auto.
    etrans; [exact Hweight|].
    by apply (best_dominates i j cands2 scores).
  - rewrite lookup_insert_ne in Hcell by congruence.
    by apply (Hopt a b solutions).
Qed.

Lemma fill_column_opt (j m : nat)
    (dp_matrix dp_matrix' : gmap (nat * nat) (list (gset region))) :
  dp_inv scoring ra keys cluster j m dp_matrix →
  dp_full ra keys n j m dp_matrix →
  dp_opt scoring ra keys cluster dp_matrix →
  (m ≤ j)%nat → (j < n)%nat →
  foldM (fill_cell scoring n ra ss j) dp_matrix (reverse (seq 0 m))
  = Ok dp_matrix' →
  dp_opt scoring ra keys cluster dp_matrix'.
Proof.
  revert dp_matrix.
  induction m as [|m IH]; intros dp_matrix Hinv Hfull Hopt Hm Hjn Hrun.
  - by injection Hrun as <-.
  - rewrite seq_S, reverse_snoc in Hrun. simpl in Hrun.
    apply bind_inv_Ok in Hrun as (dp1 & Hcell & Hrun).
    destruct (fill_cell_total cluster keys scoring array bounds values
                conflicting members positive small j m dp_matrix Hinv Hfull)
      as (dp1' & Hcell' & Hfull1); [lia | lia|].
    fold ra ss n in Hcell'. rewrite Hcell in Hcell'.
    injection Hcell' as <-.
    apply (IH dp1); [|exact Hfull1| |lia|lia|exact Hrun].
    + apply (fill_cell_inv cluster keys scoring array bounds n j m dp_matrix);
        [exact Hinv | lia | exact Hcell].
    + apply (fill_cell_opt j m dp_matrix); auto; lia.
Qed.

Lemma fill_matrix_opt (k j : nat)
    (dp_matrix dp_matrix' : gmap (nat * nat) (list (gset region))) :
  dp_inv scoring ra keys cluster j j dp_matrix →
  dp_full ra keys n j j dp_matrix →
  dp_opt scoring ra keys cluster dp_matrix →
  (j + k ≤ n)%nat →
  foldM (fun dp j =>
           foldM (fill_cell scoring n ra ss j) dp (reverse (seq 0 j)))
        dp_matrix (seq j k) = Ok dp_matrix' →
  dp_opt scoring ra keys cluster dp_matrix'.
Proof.
  revert j dp_matrix.
  induction k as [|k IH]; intros j dp_matrix Hinv Hfull Hopt Hk Hrun.
  - by injection Hrun as <-.
  - simpl in Hrun. apply bind_inv_Ok in Hrun as (dp1 & Hcolumn & Hrun).
    destruct (fill_column_total cluster keys scoring array bounds values
                conflicting members positive small j j dp_matrix Hinv Hfull)
      as (dp1' & Hcolumn' & Hfull1); [lia | lia|].
    fold ra ss n in Hcolumn'. rewrite Hcolumn in Hcolumn'.
    injection Hcolumn' as <-.
    apply (IH (S j) dp1); [| | |lia|exact Hrun].
    + apply (next_column_inv cluster keys scoring).
      exact (fill_column_inv cluster keys scoring array bounds n j j
               dp_matrix dp1 Hinv (Nat.le_refl j) Hcolumn).
    + destruct Hfull1 as [Hassigned Hfilled]. split; [|exact Hfilled].
      intros a b Hab Hbn Hcase. apply Hassigned; [lia | lia|].
      destruct (decide (a = b)) as [? | ?]; [by left|]. right.
      destruct (decide (b < j)%nat); [by left|]. right. lia.
    + apply (fill_column_opt j j dp_matrix); auto; lia.
Qed.

Lemma diagonal_opt (l : list nat) :
  dp_opt scoring ra keys cluster
    (foldl (fun dp i => <[(i, i) := [∅]]> dp) ∅ l).
Proof.
  intros a b solutions solution other Hcell Hsol Hother.
  destruct (diagonal_inv cluster keys scoring l a b solutions Hcell)
    as (Hab & Hcase & _ & _ & _ & Hinside).
  assert (a = b) as -> by lia.
  rewrite (inside_point b other Hother).
  rewrite (inside_point b solution (Hinside solution Hsol)). lia.
Qed.

(** No crossing-free subset of the cluster weighs more than a solution
    returned. *)
Lemma optimal_solutions_weight (solutions : list (gset region))
    (solution other : gset region) :
  _get_optimal_solutions cluster scoring = Ok solutions →
  solution ∈ solutions → other ⊆ cluster →
  (∀ reg1 reg2, reg1 ∈ other → reg2 ∈ other → ¬ crossing reg1 reg2) →
  solution_weight scoring other ≤ solution_weight scoring solution.
Proof.
  intros Hrun Hsol Hsub Hfree. unfold _get_optimal_solutions in Hrun.
  rewrite (surjective_pairing (_get_region_array_for cluster _)) in Hrun.
  fold ra ss n in Hrun.
  apply bind_inv_Ok in Hrun as (dp & Hfill & Hrun).
  apply bind_inv_Ok in Hrun as (cell & Hcell & ->%iterate_inv).
  apply (fill_matrix_opt n 0) in Hfill;
    [|apply diagonal_inv
     |by apply (diagonal_full cluster keys scoring)
     |apply diagonal_opt|lia].
  apply dp_at_inv in Hcell as (a & b & Ha & Hb & Hcell). symmetry in Hcell.
  apply norm_index_inv in Ha as [[? ->] | [? ?]]; [|lia].
  apply norm_index_inv in Hb as [[? ?] | [? ->]]; [lia|].
  apply (Hfill _ _ _ _ other Hcell Hsol). split; [|exact Hfree].
  intros reg Hreg. split; [by apply Hsub|].
  destruct (ends_exist cluster ra keys array reg (Hsub reg Hreg))
    as (s & e & Hends).
  exists s, e. split; [exact Hends|]. split; [lia|].
  destruct Hends as (_ & _ & He & _). apply lookup_lt_Some in He.
  unfold ra in He. rewrite region_array_length in He. fold n. lia.
Qed.

(** *** Every set of regions of the highest score is a solution *)

Lemma best_scores_in (cands : list (gset region)) (scores : list Z)
    (best : Z) (solution : gset region) :
  mapM_r (stored_score scoring) cands = Ok scores →
  solution ∈ cands → stored_score scoring solution = Ok best →
  solution
  ∈ (filter (fun ss : gset region * Z => ss.2 = best) (zip cands scores)).*1.
Proof.
  intros Hscores%mapM_r_inv [k Hk]%list_elem_of_lookup Hbest.
  destruct (Forall2_lookup_l _ _ _ _ _ Hscores Hk) as (score & Hscore & Heq).
  rewrite Hbest in Heq. injection Heq as <-.
  apply list_elem_of_fmap. exists (solution, best). split; [done|].
  apply list_elem_of_filter. split; [done|].
  apply (list_elem_of_lookup_2 _ k). apply lookup_zip_with_Some. eauto.
Qed.

Lemma inside_ends (a b s e : nat) (solution : gset region) (reg : region) :
  inside ra keys cluster a b solution → reg ∈ solution →
  ends ra keys reg s e → (a ≤ s)%nat ∧ (e ≤ b)%nat.
Proof.
  intros [Hin _] Hreg (_ & Hks & _ & Hke).
  destruct (Hin reg Hreg) as (_ & s' & e' & (_ & Hks' & _ & Hke') & Hs & He).
  pose proof (key_inj cluster ra keys array _ _ _ Hks Hks').
  pose proof (key_inj cluster ra keys array _ _ _ Hke Hke'). lia.
Qed.

(** What the body of the loops over [left] and [bottom] does for two
    solutions that are not empty: [hi1] is the position of the highest
    stop of the first and [lo2] the position of the lowest start of the
    second. *)
Lemma add_pair_cases (j i a1 b1 a2 b2 : nat)
    (dp_matrix : gmap (nat * nat) (list (gset region)))
    (solution1 solution2 : gset region) (cands cands' : gset (gset region)) :
  inside ra keys cluster a1 b1 solution1 → solution1 ≠ ∅ →
  inside ra keys cluster a2 b2 solution2 → solution2 ≠ ∅ →
  add_pair n dp_matrix ss i j solution1
    (Np.to_int32 (solution_span solution1).2) cands
    (solution2, Np.to_int32 (solution_span solution2).1) = Ok cands' →
  ∃ lo1 hi1 lo2 hi2,
    (a1 ≤ lo1)%nat ∧ (hi1 ≤ b1)%nat ∧ (a2 ≤ lo2)%nat ∧ (hi2 ≤ b2)%nat
    ∧ (lo2 < hi2)%nat
    ∧ inside ra keys cluster lo1 hi1 solution1
    ∧ inside ra keys cluster lo2 hi2 solution2
    ∧ (∃ reg s, reg ∈ solution1 ∧ ends ra keys reg s hi1)
    ∧ (∃ reg e, reg ∈ solution2 ∧ ends ra keys reg lo2 e)
    ∧ (((hi1 < lo2)%nat
        ∧ solution1 ∪ solution2 ∈ cands'
        ∧ solution_weight scoring (solution1 ∪ solution2)
          = solution_weight scoring solution1
            + solution_weight scoring solution2)
       ∨ (¬ (hi1 < lo2)%nat
          ∧ ∀ k, Z.of_nat lo2 - 1 ≤ Z.of_nat k ≤ Z.of_nat hi1 →
              ∃ c c', add_subsolutions n dp_matrix i j c (Z.of_nat k) = Ok c'
                      ∧ ∀ z, z ∈ c' → z ∈ cands')).
Proof.
  intros Hinside1 Hne1 Hinside2 Hne2 Hrun.
  destruct (span_inside _ _ _ Hinside1 Hne1)
    as (lo1 & hi1 & _ & Hwhere1 & _ & Hkey1 & Hlo1 & Hhi1 & Hspan1).
  destruct (span_inside _ _ _ Hinside2 Hne2)
    as (lo2 & hi2 & Hwhere2 & _ & Hkey2 & _ & Hlo2 & Hhi2 & Hspan2).
  exists lo1, hi1, lo2, hi2. do 4 (split; [done|]).
  assert (Hlt2 : (lo2 < hi2)%nat).
  { apply set_choose_L in Hne2 as [reg Hreg].
    destruct Hspan2 as [Hin _].
    destruct (Hin reg Hreg) as (_ & s & e & Hends & Hs & He).
    pose proof (ends_lt cluster ra keys array _ _ _ Hends). lia. }
  split; [exact Hlt2|]. split; [exact Hspan1|]. split; [exact Hspan2|].
  split.
  { pose proof Hinside1 as [Hin1 _].
    assert (Hpos : ∀ reg, reg ∈ solution1 → 0 ≤ start reg ∧ 0 ≤ stop reg).
    { intros reg Hreg. destruct (Hin1 reg Hreg) as (Hc & _).
      destruct array as (_ & _ & Hspan & _).
      pose proof (Hspan reg Hc). pose proof (bounds reg Hc). lia. }
    destruct (solution_span_spec solution1 Hpos)
      as (_ & _ & Hmax & Hnonneg).
    specialize (Hnonneg Hne1).
    destruct Hmax as [? | (reg & Hreg & Hmax)]; [lia|].
    destruct (Hin1 reg Hreg) as (Hc & s & e & Hends & _).
    exists reg, s. split; [exact Hreg|].
    assert (e = hi1) as <-; [|exact Hends].
    destruct Hends as (_ & _ & _ & Hke).
    apply (key_inj cluster ra keys array _ _ (stop reg)); [exact Hke|].
    rewrite Hkey1, Hmax. f_equal. apply to_int32_small.
    pose proof (bounds reg Hc). pose proof (Hpos reg Hreg). lia. }
  split.
  { pose proof Hinside2 as [Hin2 _].
    assert (Hpos : ∀ reg, reg ∈ solution2 → 0 ≤ start reg ∧ 0 ≤ stop reg).
    { intros reg Hreg. destruct (Hin2 reg Hreg) as (Hc & _).
      destruct array as (_ & _ & Hspan & _).
      pose proof (Hspan reg Hc). pose proof (bounds reg Hc). lia. }
    destruct (solution_span_spec solution2 Hpos)
      as (_ & Hmin & _ & Hnonneg).
    specialize (Hnonneg Hne2).
    destruct Hmin as [? | (reg & Hreg & Hmin)]; [lia|].
    destruct (Hin2 reg Hreg) as (Hc & s & e & Hends & _).
    exists reg, e. split; [exact Hreg|].
    assert (s = lo2) as <-; [|exact Hends].
    destruct Hends as (_ & Hks & _).
    apply (key_inj cluster ra keys array _ _ (start reg)); [exact Hks|].
    rewrite Hkey2, Hmin. f_equal. apply to_int32_small.
    destruct array as (_ & _ & Hspan & _). pose proof (Hspan reg Hc).
    pose proof (bounds reg Hc). pose proof (Hpos reg Hreg). lia. }
  pose proof (key_order cluster ra keys array hi1 lo2 _ _ Hkey1 Hkey2)
    as Horder.
  unfold add_pair in Hrun. case_decide as Hdirect.
  - left. injection Hrun as <-. split; [lia|]. split.
    + apply elem_of_union. left. by apply elem_of_singleton.
    + apply solution_weight_union.
      apply (inside_disjoint lo1 hi1 lo2 hi2); [done | done | lia].
  - right. split; [lia|]. intros k Hk.
    rewrite Hwhere2, bind_Ok, Hwhere1, bind_Ok in Hrun.
    eapply (foldM_step_of _ _ _ _ (Z.of_nat k)) in Hrun; [exact Hrun| |].
    + intros s1 y s2 z. apply add_subsolutions_grow.
    + unfold Np.range. apply elem_of_seqZ. lia.
Qed.

(** A split point at which the candidates are known not to outweigh the
    two parts of a solution gives the solution itself. *)
Lemma add_subsolutions_exact (j i k : nat)
    (dp_matrix : gmap (nat * nat) (list (gset region)))
    (cands cands' : gset (gset region)) (part1 part2 : gset region) :
  dp_inv scoring ra keys cluster j (S i) dp_matrix →
  dp_full ra keys n j (S i) dp_matrix →
  dp_opt scoring ra keys cluster dp_matrix →
  dp_complete scoring ra keys cluster dp_matrix →
  (i ≤ k)%nat → (k < j)%nat → (j < n)%nat →
  add_subsolutions n dp_matrix i j cands (Z.of_nat k) = Ok cands' →
  inside ra keys cluster i k part1 →
  inside ra keys cluster (S k) j part2 →
  (∀ z, z ∈ cands' →
     solution_weight scoring z
     ≤ solution_weight scoring part1 + solution_weight scoring part2) →
  part1 ∪ part2 ∈ cands'.
Proof.
  intros Hinv Hfull Hopt Hcomplete Hik Hkj Hjn Hrun Hpart1 Hpart2 Hmax.
  pose proof Hfull as [Hassigned _].
  destruct (Hassigned i k) as [cell1 Hcell1]; [lia | lia | lia|].
  destruct (Hassigned (S k) j) as [cell2 Hcell2]; [lia | lia | lia|].
  destruct (Hinv _ _ _ Hcell1) as (_ & _ & Hne1 & _ & _ & Hin1).
  destruct (Hinv _ _ _ Hcell2) as (_ & _ & Hne2 & _ & _ & Hin2).
  destruct cell1 as [|sub1 cell1]; [done|].
  destruct cell2 as [|sub2 cell2]; [done|].
  pose proof (Hopt _ _ _ _ _ Hcell1 ltac:(left) Hpart1) as Hle1.
  pose proof (Hopt _ _ _ _ _ Hcell2 ltac:(left) Hpart2) as Hle2.
  assert (Hsub : sub1 ∪ sub2 ∈ cands').
  { eapply (add_subsolutions_new n i j k); eauto; try lia; by left. }
  apply Hmax in Hsub. rewrite solution_weight_union in Hsub.
  2:{ apply (inside_disjoint i k (S k) j); [| |lia].
      - apply Hin1. by left.
      - apply Hin2. by left. }
  eapply (add_subsolutions_new n i j k); eauto; try lia.
  - apply (Hcomplete _ _ _ sub1 part1 Hcell1); [by left | exact Hpart1 | lia].
  - apply (Hcomplete _ _ _ sub2 part2 Hcell2); [by left | exact Hpart2 | lia].
Qed.

(** A crossing-free set of regions between the two positions of a cell
    that no candidate outweighs is among the candidates. *)
Lemma fill_cell_exact (j i : nat)
    (dp_matrix : gmap (nat * nat) (list (gset region)))
    (left bottom : list (gset region)) (reg_i reg_j : region)
    (cands1 cands2 : gset (gset region)) (other : gset region) :
  dp_inv scoring ra keys cluster j (S i) dp_matrix →
  dp_full ra keys n j (S i) dp_matrix →
  dp_opt scoring ra keys cluster dp_matrix →
  dp_complete scoring ra keys cluster dp_matrix →
  (i < j)%nat → (j < n)%nat →
  dp_matrix !! (i, (j - 1)%nat) = Some left →
  dp_matrix !! (S i, j) = Some bottom →
  ra !! i = Some reg_i → ra !! j = Some reg_j →
  wrapped_candidates n dp_matrix i j reg_i reg_j
    (list_to_set left ∪ list_to_set bottom) = Ok cands1 →
  crossed_candidates n dp_matrix ss i j left bottom cands1 = Ok cands2 →
  inside ra keys cluster i j other →
  (∀ z, z ∈ cands2 →
     solution_weight scoring z ≤ solution_weight scoring other) →
  other ∈ cands2.
Proof.
  intros Hinv Hfull Hopt Hcomplete Hij Hjn Hleft Hbottom Hreg_i Hreg_j
    Hwrapped Hcrossed Hother Hmax.
  destruct (Hinv _ _ _ Hleft) as (_ & _ & Hleft_ne & _ & _ & Hleft_in).
  destruct (Hinv _ _ _ Hbottom) as (_ & _ & Hbottom_ne & _ & _ & Hbottom_in).
  destruct left as [|solution1 left']; [done|].
  destruct bottom as [|solution2 bottom']; [done|].
  assert (Hold : ∀ z, z ∈ solution1 :: left' ∨ z ∈ solution2 :: bottom' →
            z ∈ cands2).
  { intros z Hz.
    eapply crossed_candidates_grow; [exact Hcrossed|].
    eapply wrapped_candidates_grow; [exact Hwrapped|].
    apply elem_of_union. rewrite !elem_of_list_to_set. tauto. }
  destruct (decide (reg_i ∈ other)) as [Hin_i|Hnot_i].
  2:{ apply Hold. right.
      apply (Hcomplete _ _ _ solution2 other Hbottom); [by left| |].
      - by apply (inside_drop_first i j other reg_i).
      - apply Hmax, Hold. right. by left. }
  destruct (decide (reg_j ∈ other)) as [Hin_j|Hnot_j].
  2:{ apply Hold. left.
      apply (Hcomplete _ _ _ solution1 other Hleft); [by left| |].
      - by apply (inside_drop_last i j other reg_j).
      - apply Hmax, Hold. left. by left. }
  pose proof Hother as [Hin Hfree].
  destruct (Hin reg_i Hin_i) as (Hc_i & s1 & e1 & Hends_i & Hs1 & He1).
  destruct (Hin reg_j Hin_j) as (Hc_j & s2 & e2 & Hends_j & Hs2 & He2).
  pose proof (ends_lt cluster ra keys array _ _ _ Hends_i) as Hlt_i.
  pose proof (ends_lt cluster ra keys array _ _ _ Hends_j) as Hlt_j.
  pose proof (ends_only cluster ra keys array _ _ _ _ Hends_i Hreg_i) as Hi.
  pose proof (ends_only cluster ra keys array _ _ _ _ Hends_j Hreg_j) as Hj.
  assert (s1 = i) as -> by lia. assert (e2 = j) as -> by lia.
  destruct (decide (reg_i = reg_j)) as [Hsame|Hdiff].
  - subst reg_j.
    pose proof (ends_only cluster ra keys array _ _ _ _ Hends_i Hreg_j).
    assert (e1 = j) as -> by lia.
    destruct (wrapped_candidates_new n i j dp_matrix reg_i _ _ Hij Hwrapped)
      as (bottom_left & Hcell & Hnew).
    destruct (Hinv _ _ _ Hcell) as (_ & _ & Hbl_ne & _ & _ & Hbl_in).
    destruct bottom_left as [|solution bottom_left]; [done|].
    assert (Hrest : inside ra keys cluster (S i) (j - 1)
                      (other ∖ {[reg_i]})).
    { split.
      - intros r [Hr Hne%not_elem_of_singleton]%elem_of_difference.
        destruct (Hin r Hr) as (Hc & s & e & Hends & Hs & He).
        split; [exact Hc|]. exists s, e. split; [exact Hends|].
        destruct (ends_distinct ra keys _ _ _ _ _ _ Hends Hends_i Hne)
          as (? & ? & ? & ?).
        lia.
      - intros r1 r2 [Hr1 _]%elem_of_difference
          [Hr2 _]%elem_of_difference.
        by apply Hfree. }
    assert (Hwhole : other ∖ {[reg_i]} ∪ {[reg_i]} = other).
    { apply set_eq. intros r.
      rewrite elem_of_union, elem_of_difference, elem_of_singleton.
      split; [intros [[? _] | ->]; done|]. intros Hr.
      destruct (decide (r = reg_i)); [by right | by left]. }
    assert (Hwrap : solution_weight scoring (solution ∪ {[reg_i]})
                    ≤ solution_weight scoring other).
    { apply Hmax. eapply crossed_candidates_grow; [exact Hcrossed|].
      apply Hnew. by left. }
    rewrite <- Hwhole in Hwrap. rewrite !solution_weight_union in Hwrap.
    + rewrite <- Hwhole. eapply crossed_candidates_grow; [exact Hcrossed|].
      apply Hnew.
      apply (Hcomplete _ _ _ solution _ Hcell); [by left | exact Hrest | lia].
    + apply disjoint_singleton_r.
      rewrite elem_of_difference, elem_of_singleton. tauto.
    + apply disjoint_singleton_r. intros Hin_sol.
      pose proof (inside_ends _ _ _ _ _ _ (Hbl_in solution ltac:(left))
                    Hin_sol Hends_i). lia.
  - destruct (ends_distinct ra keys _ _ _ _ _ _ Hends_i Hends_j Hdiff)
      as (? & ? & ? & ?).
    destruct (split_at_stop i j e1 other reg_i Hother Hends_i Hin_i)
      as (part1 & part2 & Hwhole & Hparts & Hreg1 & Hpart1 & Hpart2).
    subst other.
    rewrite (solution_weight_union scoring part1 part2 Hparts) in Hmax.
    assert (Hreg2 : reg_j ∈ part2).
    { apply elem_of_union in Hin_j as [Hin_j|Hin_j]; [|exact Hin_j].
      pose proof (inside_ends _ _ _ _ _ _ Hpart1 Hin_j Hends_j). lia. }
    assert (Hne1 : part1 ≠ ∅) by (intros Heq; by rewrite Heq in Hreg1).
    assert (Hne2 : part2 ≠ ∅) by (intros Heq; by rewrite Heq in Hreg2).
    pose proof Hfull as [Hassigned Hfilled].
    assert (Hne_left : solution1 ≠ ∅).
    { intros ->. apply (Hfilled _ _ _ reg_i i e1 Hleft Hends_i); [lia|lia|].
      by left. }
    assert (Hne_bottom : solution2 ≠ ∅).
    { intros ->. apply (Hfilled _ _ _ reg_j s2 j Hbottom Hends_j); [lia|lia|].
      by left. }
    assert (Hwide1 : inside ra keys cluster i (j - 1) part1).
    { apply (inside_mono cluster keys i e1); [exact Hpart1 | lia | lia]. }
    assert (Hwide2 : inside ra keys cluster (S i) j part2).
    { apply (inside_mono cluster keys (S e1) j); [exact Hpart2 | lia | lia]. }
    pose proof (Hopt _ _ _ _ _ Hleft ltac:(left) Hwide1) as Hw1.
    pose proof (Hopt _ _ _ _ _ Hbottom ltac:(left) Hwide2) as Hw2.
    assert (Hchoice : ∃ first second,
              first ∈ solution1 :: left' ∧ second ∈ solution2 :: bottom'
              ∧ ((first = part1
                  ∧ solution_weight scoring solution1
                    ≤ solution_weight scoring part1)
                 ∨ (first = solution1
                    ∧ solution_weight scoring part1
                      < solution_weight scoring solution1))
              ∧ ((second = part2
                  ∧ solution_weight scoring solution2
                    ≤ solution_weight scoring part2)
                 ∨ (second = solution2
                    ∧ solution_weight scoring part2
                      < solution_weight scoring solution2))).
    { destruct (decide (solution_weight scoring solution1
                        ≤ solution_weight scoring part1)) as [Hl|Hl];
        destruct (decide (solution_weight scoring solution2
                          ≤ solution_weight scoring part2)) as [Hb|Hb].
      - exists part1, part2. split; [|split; [|split; [by left | by left]]].
        + apply (Hcomplete _ _ _ solution1 _ Hleft); [by left|done|done].
        + apply (Hcomplete _ _ _ solution2 _ Hbottom); [by left|done|done].
      - exists part1, solution2.
        split; [|split; [by left|split; [by left | right; split; [done|lia]]]].
        apply (Hcomplete _ _ _ solution1 _ Hleft); [by left|done|done].
      - exists solution1, part2.
        split; [by left|split; [|split; [right; split; [done|lia] | by left]]].
        apply (Hcomplete _ _ _ solution2 _ Hbottom); [by left|done|done].
      - exists solution1, solution2.
        split; [by left|]. split; [by left|].
        split; right; (split; [done|lia]). }
    destruct Hchoice as (first & second & Hfirst & Hsecond & Hcase1 & Hcase2).
    assert (Hne_first : first ≠ ∅)
      by (destruct Hcase1 as [[-> _]|[-> _]]; done).
    assert (Hne_second : second ≠ ∅)
      by (destruct Hcase2 as [[-> _]|[-> _]]; done).
    assert (Hfirst_w : solution_weight scoring part1
                       ≤ solution_weight scoring first)
      by (destruct Hcase1 as [[-> _]|[-> _]]; lia).
    assert (Hsecond_w : solution_weight scoring part2
                        ≤ solution_weight scoring second)
      by (destruct Hcase2 as [[-> _]|[-> _]]; lia).
    destruct (crossed_candidates_new j i dp_matrix _ _ _ _
                first second Hcrossed Hfirst Hne_first Hsecond Hne_second)
      as (c & c' & Hpair & Hsub).
    destruct (add_pair_cases j i i (j - 1) (S i) j dp_matrix first second
                c c' (Hleft_in first Hfirst) Hne_first
                (Hbottom_in second Hsecond) Hne_second Hpair)
      as (lo1 & hi1 & lo2 & hi2 & Hlo1 & Hhi1 & Hlo2 & Hhi2 & Hlt2
          & Hspan1 & Hspan2 & (top & s_top & Htop & Hends_top)
          & (low & e_low & Hlow & Hends_low) & Hcases).
    assert (Hpos1 : first = part1 → hi1 = e1).
    { intros ->.
      pose proof (inside_ends _ _ _ _ _ _ Hspan1 Hreg1 Hends_i).
      pose proof (inside_ends _ _ _ _ _ _ Hpart1 Htop Hends_top). lia. }
    assert (Hpos2 : second = part2 → (e1 < lo2)%nat).
    { intros ->.
      pose proof (inside_ends _ _ _ _ _ _ Hpart2 Hlow Hends_low). lia. }
    destruct Hcases as [(Hdirect & Hunion & Hweight)
                       | (Hindirect & Hrange)].
    + apply Hsub in Hunion as Hcand. apply Hmax in Hcand.
      rewrite Hweight in Hcand.
      destruct Hcase1 as [[-> Hl]|[-> Hl]]; [|lia].
      destruct Hcase2 as [[-> Hb]|[-> Hb]]; [|lia].
      by apply Hsub.
    + assert (Hsplit : ∃ k, (i ≤ k)%nat ∧ (k < j)%nat
                ∧ Z.of_nat lo2 - 1 ≤ Z.of_nat k ≤ Z.of_nat hi1
                ∧ ((inside ra keys cluster i k part1
                    ∧ inside ra keys cluster (S k) j part2)
                   ∨ ∀ c0 c0',
                       add_subsolutions n dp_matrix i j c0 (Z.of_nat k)
                       = Ok c0' →
                       ∃ z, z ∈ c0'
                            ∧ solution_weight scoring part1
                              + solution_weight scoring part2
                              < solution_weight scoring z)).
      { destruct Hcase2 as [[-> Hb]|[-> Hb]].
        - specialize (Hpos2 eq_refl).
          exists (lo2 - 1)%nat.
          split; [lia|]. split; [lia|]. split; [lia|]. left. split.
          + apply (inside_mono cluster keys i e1); [exact Hpart1|lia|lia].
          + replace (S (lo2 - 1)) with lo2 by lia.
            apply (inside_mono cluster keys lo2 hi2); [exact Hspan2|lia|lia].
        - destruct Hcase1 as [[-> Hl]|[-> Hl]].
          + specialize (Hpos1 eq_refl). subst hi1.
            exists e1. split; [lia|]. split; [lia|]. split; [lia|].
            left. by split.
          + destruct (decide (hi1 < e1)%nat) as [Hafter|Hnot_after].
            * exists hi1. split; [lia|]. split; [lia|]. split; [lia|].
              right. intros c0 c0' Hrun.
              destruct (add_subsolutions_dominates j i hi1 dp_matrix c0 c0'
                          (solution_weight scoring solution1)
                          (solution_weight scoring part2))
                as (z & Hz & Hweight); auto; try lia.
              -- intros solutions solution Hcell Hsol.
                 apply (Hopt _ _ _ _ _ Hcell Hsol).
                 apply (inside_mono cluster keys lo1 hi1);
                   [exact Hspan1|lia|lia].
              -- intros solutions solution Hcell Hsol.
                 apply (Hopt _ _ _ _ _ Hcell Hsol).
                 apply (inside_mono cluster keys (S e1) j);
                   [exact Hpart2|lia|lia].
              -- exists z. split; [exact Hz|lia].
            * destruct (decide (e1 < lo2 - 1)%nat) as [Hbefore|Hnot_before].
              -- exists (lo2 - 1)%nat.
                 split; [lia|]. split; [lia|]. split; [lia|].
                 right. intros c0 c0' Hrun.
                 destruct (add_subsolutions_dominates j i (lo2 - 1)
                             dp_matrix c0 c0'
                             (solution_weight scoring part1)
                             (solution_weight scoring solution2))
                   as (z & Hz & Hweight); auto; try lia.
                 ++ intros solutions solution Hcell Hsol.
                    apply (Hopt _ _ _ _ _ Hcell Hsol).
                    apply (inside_mono cluster keys i e1);
                      [exact Hpart1|lia|lia].
                 ++ intros solutions solution Hcell Hsol.
                    apply (Hopt _ _ _ _ _ Hcell Hsol).
                    replace (S (lo2 - 1)) with lo2 by lia.
                    apply (inside_mono cluster keys lo2 hi2);
                      [exact Hspan2|lia|lia].
                 ++ exists z. split; [exact Hz|lia].
              -- exists e1. split; [lia|]. split; [lia|]. split; [lia|].
                 left. by split. }
      destruct Hsplit as (k & Hik & Hkj & Hk & Hat).
      destruct (Hrange k Hk) as (c0 & c0' & Hrun & Hsub0).
      destruct Hat as [[Hat1 Hat2] | Hmore].
      * apply Hsub, Hsub0.
        apply (add_subsolutions_exact j i k dp_matrix c0 c0'); auto.
      * destruct (Hmore c0 c0' Hrun) as (z & Hz & Hweight).
        apply Hsub0, Hsub, Hmax in Hz. lia.
Qed.

(** Filling a cell keeps the matrix complete. *)
Lemma fill_cell_complete (j i : nat)
    (dp_matrix dp_matrix' : gmap (nat * nat) (list (gset region))) :
  dp_inv scoring ra keys cluster j (S i) dp_matrix →
  dp_full ra keys n j (S i) dp_matrix →
  dp_opt scoring ra keys cluster dp_matrix →
  dp_complete scoring ra keys cluster dp_matrix →
  (i < j)%nat → (j < n)%nat →
  fill_cell scoring n ra ss j dp_matrix i = Ok dp_matrix' →
  dp_complete scoring ra keys cluster dp_matrix'.
Proof.
  intros Hinv Hfull Hopt Hcomplete Hij Hjn Hrun.
  destruct (fill_cell_inv_Ok cluster keys scoring array bounds
              n j i dp_matrix dp_matrix' Hinv Hij Hrun)
    as (left & bottom & reg_i & reg_j & cands1 & cands2 & scores & best
        & Hleft & Hbottom & Hreg_i & Hreg_j & Hwrapped & Hcrossed
        & Hscores & Hbest & -> & Hinside).
  intros a b solutions solution other Hcell Hsol Hother Hle.
  destruct (decide ((a, b) = (i, j))) as [[= -> ->]|Hne].
  - rewrite lookup_insert_eq in Hcell. injection Hcell as <-.
    destruct (best_scores_ok scoring (elements cands2)
                scores best (NoDup_elements cands2) Hscores Hbest)
      as (_ & _ & Hchosen).
    destruct (Hchosen solution Hsol) as [Hcand Hscore].
    rewrite (stored_score_inside i j) in Hscore
      by by apply Hinside, elem_of_elements.
    injection Hscore as Hscore.
    assert (Hmax : ∀ z, z ∈ cands2 →
              solution_weight scoring z ≤ solution_weight scoring other).
    { intros z Hz.
      pose proof (best_dominates i j cands2 scores best z Hinside Hscores
                    Hbest Hz). lia. }
    assert (Hin : other ∈ cands2).
    { by apply (fill_cell_exact j i dp_matrix left bottom reg_i reg_j
                  cands1 cands2 other). }
    apply best_scores_in; [exact Hscores | by apply elem_of_elements|].
    rewrite (stored_score_inside i j other Hother). f_equal.
    pose proof (best_dominates i j cands2 scores best other Hinside Hscores
                  Hbest Hin). lia.
  - rewrite lookup_insert_ne in Hcell by congruence.
    by apply (Hcomplete a b solutions solution).
Qed.

Lemma fill_column_complete (j m : nat)
    (dp_matrix dp_matrix' : gmap (nat * nat) (list (gset region))) :
  dp_inv scoring ra keys cluster j m dp_matrix →
  dp_full ra keys n j m dp_matrix →
  dp_opt scoring ra keys cluster dp_matrix →
  dp_complete scoring ra keys cluster dp_matrix →
  (m ≤ j)%nat → (j < n)%nat →
  foldM (fill_cell scoring n ra ss j) dp_matrix (reverse (seq 0 m))
  = Ok dp_matrix' →
  dp_complete scoring ra keys cluster dp_matrix'.
Proof.
  revert dp_matrix.
  induction m as [|m IH];
    intros dp_matrix Hinv Hfull Hopt Hcomplete Hm Hjn Hrun.
  - by injection Hrun as <-.
  - rewrite seq_S, reverse_snoc in Hrun. simpl in Hrun.
    apply bind_inv_Ok in Hrun as (dp1 & Hcell & Hrun).
    destruct (fill_cell_total cluster keys scoring array bounds values
                conflicting members positive small j m dp_matrix Hinv Hfull)
      as (dp1' & Hcell' & Hfull1); [lia | lia|].
    fold ra ss n in Hcell'. rewrite Hcell in Hcell'.
    injection Hcell' as <-.
    apply (IH dp1); [|exact Hfull1| | |lia|lia|exact Hrun].
    + apply (fill_cell_inv cluster keys scoring array bounds n j m dp_matrix);
        [exact Hinv | lia | exact Hcell].
    + apply (fill_cell_opt j m dp_matrix); auto; lia.
    + apply (fill_cell_complete j m dp_matrix); auto; lia.
Qed.

Lemma fill_matrix_complete (k j : nat)
    (dp_matrix dp_matrix' : gmap (nat * nat) (list (gset region))) :
  dp_inv scoring ra keys cluster j j dp_matrix →
  dp_full ra keys n j j dp_matrix →
  dp_opt scoring ra keys cluster dp_matrix →
  dp_complete scoring ra keys cluster dp_matrix →
  (j + k ≤ n)%nat →
  foldM (fun dp j =>
           foldM (fill_cell scoring n ra ss j) dp (reverse (seq 0 j)))
        dp_matrix (seq j k) = Ok dp_matrix' →
  dp_complete scoring ra keys cluster dp_matrix'.
Proof.
  revert j dp_matrix.
  induction k as [|k IH];
    intros j dp_matrix Hinv Hfull Hopt Hcomplete Hk Hrun.
  - by injection Hrun as <-.
  - simpl in Hrun. apply bind_inv_Ok in Hrun as (dp1 & Hcolumn & Hrun).
    destruct (fill_column_total cluster keys scoring array bounds values
                conflicting members positive small j j dp_matrix Hinv Hfull)
      as (dp1' & Hcolumn' & Hfull1); [lia | lia|].
    fold ra ss n in Hcolumn'. rewrite Hcolumn in Hcolumn'.
    injection Hcolumn' as <-.
    apply (IH (S j) dp1); [| | | |lia|exact Hrun].
    + apply (next_column_inv cluster keys scoring).
      exact (fill_column_inv cluster keys scoring array bounds n j j
               dp_matrix dp1 Hinv (Nat.le_refl j) Hcolumn).
    + destruct Hfull1 as [Hassigned Hfilled]. split; [|exact Hfilled].
      intros a b Hab Hbn Hcase. apply Hassigned; [lia | lia|].
      destruct (decide (a = b)) as [? | ?]; [by left|]. right.
      destruct (decide (b < j)%nat); [by left|]. right. lia.
    + apply (fill_column_opt j j dp_matrix); auto; lia.
    + apply (fill_column_complete j j dp_matrix); auto; lia.
Qed.

Lemma diagonal_complete (l : list nat) :
  dp_complete scoring ra keys cluster
    (foldl (fun dp i => <[(i, i) := [∅]]> dp) ∅ l).
Proof.
  intros a b solutions solution other Hcell Hsol Hother _.
  destruct (diagonal_inv cluster keys scoring l a b solutions Hcell)
    as (Hab & Hcase & _ & _ & _ & Hinside).
  assert (a = b) as -> by lia.
  rewrite (inside_point b other Hother).
  by rewrite <- (inside_point b solution (Hinside solution Hsol)).
Qed.

(** Every crossing-free subset of the cluster that weighs as much as a
    solution returned is returned. *)
Lemma optimal_solutions_all (solutions : list (gset region))
    (solution other : gset region) :
  _get_optimal_solutions cluster scoring = Ok solutions →
  solution ∈ solutions → other ⊆ cluster →
  (∀ reg1 reg2, reg1 ∈ other → reg2 ∈ other → ¬ crossing reg1 reg2) →
  solution_weight scoring solution ≤ solution_weight scoring other →
  other ∈ solutions.
Proof.
  intros Hrun Hsol Hsub Hfree Hle. unfold _get_optimal_solutions in Hrun.
  rewrite (surjective_pairing (_get_region_array_for cluster _)) in Hrun.
  fold ra ss n in Hrun.
  apply bind_inv_Ok in Hrun as (dp & Hfill & Hrun).
  apply bind_inv_Ok in Hrun as (cell & Hcell & ->%iterate_inv).
  apply (fill_matrix_complete n 0) in Hfill;
    [|apply diagonal_inv
     |by apply (diagonal_full cluster keys scoring)
     |apply diagonal_opt|apply diagonal_complete|lia].
  apply dp_at_inv in Hcell as (a & b & Ha & Hb & Hcell). symmetry in Hcell.
  apply norm_index_inv in Ha as [[? ->] | [? ?]]; [|lia].
  apply norm_index_inv in Hb as [[? ?] | [? ->]]; [lia|].
  apply (Hfill _ _ _ solution other Hcell Hsol); [|exact Hle].
  split; [|exact Hfree].
  intros reg Hreg. split; [by apply Hsub|].
  destruct (ends_exist cluster ra keys array reg (Hsub reg Hreg))
    as (s & e & Hends).
  exists s, e. split; [exact Hends|]. split; [lia|].
  destruct Hends as (_ & _ & He & _). apply lookup_lt_Some in He.
  unfold ra in He. rewrite region_array_length in He. fold n. lia.
Qed.

End SolverBest.

Lemma optimal_solutions_best (cluster : gset region) (scoring : list Z)
    (solutions : list (gset region)) (solution other : gset region) :
  well_placed cluster →
  (∀ reg, reg ∈ cluster → ∃ reg', reg' ∈ cluster ∧ crossing reg reg') →
  (∀ reg, reg ∈ cluster →
     region_pairs reg ≠ []
     ∧ ∀ p, p ∈ region_pairs reg → (p < length scoring)%nat) →
  Forall (fun v => 0 < v) scoring →
  exact_scores scoring cluster →
  _get_optimal_solutions cluster scoring = Ok solutions →
  solution ∈ solutions → other ⊆ cluster →
  (∀ reg1 reg2, reg1 ∈ other → reg2 ∈ other → ¬ crossing reg1 reg2) →
  ∃ best score,
    solution_score scoring solution = Ok best
    ∧ solution_score scoring other = Ok score
    ∧ score ≤ best.
Proof.
  intros Hwp Hconflicting Hmembers Hpositive Hsmall Hrun Hsol Hsub Hfree.
  destruct (region_array_keys cluster Hwp) as (keys & Harray & Hvalues).
  assert (Hbounds : ∀ reg, reg ∈ cluster →
            0 ≤ start reg ∧ stop reg < 2 ^ 31).
  { intros reg Hreg. destruct Hwp as [Hspan _]. apply Hspan in Hreg. lia. }
  destruct (optimal_solutions_cell cluster scoring solutions Hwp Hrun)
    as (_ & _ & _ & Hcell).
  destruct (Hcell solution Hsol) as [Hsol_sub _].
  exists (solution_weight scoring solution), (solution_weight scoring other).
  split; [|split].
  - by apply (solution_score_weight cluster).
  - by apply (solution_score_weight cluster).
  - by apply (optimal_solutions_weight cluster keys scoring Harray Hbounds
                Hvalues Hconflicting Hmembers Hpositive Hsmall solutions).
Qed.

(** The regions at order 0 in a row of a cluster. *)
Lemma result_diff_best (scoring : list Z) (limit : nat)
    (cluster : gset region) (rows : list (list Z)) (row : list Z)
    (solution other : gset region) :
  Z.of_nat limit < 2 ^ 31 →
  conflicting scoring cluster → disjoint_members cluster →
  Forall (fun v => 0 < v) scoring →
  exact_scores scoring cluster →
  _get_result_diff limit cluster scoring = Ok rows → row ∈ rows →
  solution ⊆ cluster →
  (∀ reg, reg ∈ cluster → (order_of row reg 0 ↔ reg ∈ solution)) →
  other ⊆ cluster →
  (∀ reg1 reg2, reg1 ∈ other → reg2 ∈ other → ¬ crossing reg1 reg2) →
  (∀ reg1 reg2, reg1 ∈ solution → reg2 ∈ solution → ¬ crossing reg1 reg2)
  ∧ ∃ best score,
      solution_score scoring solution = Ok best
      ∧ solution_score scoring other = Ok score
      ∧ score ≤ best.
Proof.
  intros Hlimit Hgood Hdisj Hpositive Hsmall Hrun Hrow Hsol_sub Horders
    Hsub Hfree.
  assert (Hsolver : ∃ solutions,
            _get_optimal_solutions cluster scoring = Ok solutions).
  { destruct limit as [|limit]; [discriminate|]. simpl in Hrun.
    apply bind_inv_Ok in Hrun as (solutions & Hsolutions & _). eauto. }
  destruct Hsolver as (solutions & Hsolutions).
  destruct (result_diff_solutions scoring limit cluster solutions rows
              Hlimit Hgood Hdisj Hsolutions Hrun) as [Hrows _].
  destruct (Hrows row Hrow) as (solution' & Hsol & Horders').
  destruct Hgood as (Hwp & Hcross & Hmembers).
  destruct (optimal_solutions_cell cluster scoring solutions Hwp Hsolutions)
    as (_ & _ & _ & Hcell).
  destruct (Hcell solution' Hsol) as [Hsol_sub' Hsol_free].
  assert (solution = solution') as ->.
  { apply set_eq. intros reg. split; intros Hreg.
    - apply Horders'; [by apply Hsol_sub|]. apply Horders; [|done].
      by apply Hsol_sub.
    - apply Horders; [by apply Hsol_sub'|]. apply Horders'; [|done].
      by apply Hsol_sub'. }
  split; [exact Hsol_free|].
  by apply (optimal_solutions_best cluster scoring solutions).
Qed.

Lemma optimal_solutions_ties (cluster : gset region) (scoring : list Z)
    (solutions : list (gset region)) (solution other : gset region)
    (best score : Z) :
  well_placed cluster →
  (∀ reg, reg ∈ cluster → ∃ reg', reg' ∈ cluster ∧ crossing reg reg') →
  (∀ reg, reg ∈ cluster →
     region_pairs reg ≠ []
     ∧ ∀ p, p ∈ region_pairs reg → (p < length scoring)%nat) →
  Forall (fun v => 0 < v) scoring →
  exact_scores scoring cluster →
  _get_optimal_solutions cluster scoring = Ok solutions →
  solution ∈ solutions → other ⊆ cluster →
  (∀ reg1 reg2, reg1 ∈ other → reg2 ∈ other → ¬ crossing reg1 reg2) →
  solution_score scoring solution = Ok best →
  solution_score scoring other = Ok score →
  best ≤ score → other ∈ solutions.
Proof.
  intros Hwp Hconflicting Hmembers Hpositive Hsmall Hrun Hsol Hsub Hfree
    Hbest Hscore Hle.
  destruct (region_array_keys cluster Hwp) as (keys & Harray & Hvalues).
  assert (Hbounds : ∀ reg, reg ∈ cluster →
            0 ≤ start reg ∧ stop reg < 2 ^ 31).
  { intros reg Hreg. destruct Hwp as [Hspan _]. apply Hspan in Hreg. lia. }
  destruct (optimal_solutions_cell cluster scoring solutions Hwp Hrun)
    as (_ & _ & _ & Hcell).
  destruct (Hcell solution Hsol) as [Hsol_sub _].
  rewrite (solution_score_weight cluster scoring Hmembers Hpositive Hsmall)
    in Hbest by exact Hsol_sub.
  rewrite (solution_score_weight cluster scoring Hmembers Hpositive Hsmall)
    in Hscore by exact Hsub.
  injection Hbest as <-. injection Hscore as <-.
  by apply (optimal_solutions_all cluster keys scoring Harray Hbounds
              Hvalues Hconflicting Hmembers Hpositive Hsmall solutions
              solution).
Qed.

Lemma result_diff_ties (scoring : list Z) (limit : nat)
    (cluster : gset region) (rows : list (list Z)) (other : gset region) :
  Z.of_nat limit < 2 ^ 31 →
  conflicting scoring cluster → disjoint_members cluster →
  Forall (fun v => 0 < v) scoring →
  exact_scores scoring cluster →
  _get_result_diff limit cluster scoring = Ok rows →
  other ⊆ cluster →
  (∀ reg1 reg2, reg1 ∈ other → reg2 ∈ other → ¬ crossing reg1 reg2) →
  (∀ candidate, candidate ⊆ cluster →
     (∀ reg1 reg2, reg1 ∈ candidate → reg2 ∈ candidate →
        ¬ crossing reg1 reg2) →
     ∃ score best,
       solution_score scoring candidate = Ok score
       ∧ solution_score scoring other = Ok best
       ∧ score ≤ best) →
  ∃ row, row ∈ rows
         ∧ ∀ reg, reg ∈ cluster → (order_of row reg 0 ↔ reg ∈ other).
Proof.
  intros Hlimit Hgood Hdisj Hpositive Hsmall Hrun Hsub Hfree Hmax.
  assert (Hsolver : ∃ solutions,
            _get_optimal_solutions cluster scoring = Ok solutions).
  { destruct limit as [|limit]; [discriminate|]. simpl in Hrun.
    apply bind_inv_Ok in Hrun as (solutions & Hsolutions & _). eauto. }
  destruct Hsolver as (solutions & Hsolutions).
  destruct (result_diff_solutions scoring limit cluster solutions rows
              Hlimit Hgood Hdisj Hsolutions Hrun) as [_ Hrows].
  apply Hrows. destruct Hgood as (Hwp & Hcross & Hmembers).
  destruct (optimal_solutions_cell cluster scoring solutions Hwp Hsolutions)
    as (Hne & _ & _ & Hcell).
  destruct solutions as [|solution solutions]; [done|].
  destruct (Hcell solution ltac:(left)) as [Hsol_sub Hsol_free].
  destruct (Hmax solution Hsol_sub Hsol_free)
    as (score & best & Hscore & Hbest & Hle).
  apply (optimal_solutions_ties cluster scoring _ solution other score best);
    auto. by left.
Qed.

(** * Input without conflicts *)

(** C5.  On a well-formed input of which no two regions cross,
    [pseudoknots] returns one row of zeros, one entry per base pair: the
    filter removes every region and no cluster is left. *)
Theorem no_conflict_single_zero_row (limit : nat) (base_pairs : list (Z * Z))
    (scoring : option (list Z)) :
  well_formed base_pairs →
  (∀ sc, scoring = Some sc → length sc = length base_pairs) →
  (∀ regions, _find_regions base_pairs = Ok regions →
     ∀ reg1 reg2, reg1 ∈ regions → reg2 ∈ regions →
       ¬ crossing reg1 reg2) →
  pseudoknots limit base_pairs scoring
  = Ok [replicate (length base_pairs) 0].
Proof.
  intros Hwf Hlen Hfree.
  destruct (find_regions_well_placed base_pairs Hwf)
    as (regions & Hregions & Hwp).
  destruct (conflict_filter_spec regions Hwp) as (cleaned & Hcleaned & Hspec).
  assert (cleaned = ∅) as ->.
  { apply leibniz_equiv, elem_of_equiv_empty.
    intros reg (Hreg & reg' & Hreg' & Hcross)%Hspec.
    by apply (Hfree regions Hregions reg reg'). }
  unfold pseudoknots. rewrite decide_True.
  - rewrite Hregions, bind_Ok, Hcleaned, bind_Ok, cluster_conflicts_empty.
    reflexivity.
  - destruct scoring as [sc|]; simpl.
    + symmetry. by apply Hlen.
    + by rewrite length_replicate.
Qed.

Lemma no_conflict_single_zero_row_witness :
  well_formed side_by_side_input
  ∧ _find_regions side_by_side_input
    = Ok {[Region 0 0 5 [0%nat]; Region 1 1 2 [1%nat];
           Region 2 3 4 [2%nat]]}
  ∧ pseudoknots 10 side_by_side_input None = Ok [[0; 0; 0]].
Proof.
  assert (Hregions : _find_regions side_by_side_input
                     = Ok {[Region 0 0 5 [0%nat]; Region 1 1 2 [1%nat];
                            Region 2 3 4 [2%nat]]})
    by by_evaluation.
  split; [by_evaluation|]. split; [exact Hregions|].
  apply (no_conflict_single_zero_row 10 side_by_side_input None).
  - by_evaluation.
  - discriminate.
  - intros regions Hrun. rewrite Hregions in Hrun. injection Hrun as <-.
    intros reg1 reg2 Hreg1. revert reg2. revert reg1 Hreg1.
    change (set_Forall
              (fun reg1 =>
                 set_Forall (fun reg2 => ¬ crossing reg1 reg2)
                   ({[Region 0 0 5 [0%nat]; Region 1 1 2 [1%nat];
                      Region 2 3 4 [2%nat]]} : gset region))
              ({[Region 0 0 5 [0%nat]; Region 1 1 2 [1%nat];
                 Region 2 3 4 [2%nat]]} : gset region)).
    by_evaluation.
Defined.

(** * The order of the rows *)

(** The regions of [pseudoknots] are those of the case in which the
    [k]-th object is at the address [k]. *)
Lemma pseudoknots_at_creation_order (limit : nat)
    (base_pairs : list (Z * Z)) (scoring : option (list Z)) :
  pseudoknots_at (fun k => k) limit base_pairs scoring
  = pseudoknots limit base_pairs scoring.
Proof. reflexivity. Qed.

(** C9.  Two calls of [pseudoknots] with the same base pairs and the
    same scores do not return the same matrix when the [_region]
    objects lie at other addresses: for two crossing base pairs the two
    rows come in one order or in the other. *)
Theorem row_order_follows_addresses (limit : nat) :
  ∃ address1 address2 : nat -> nat,
    Inj (=) (=) address1 ∧ Inj (=) (=) address2
    ∧ pseudoknots_at address1 (S limit) crossing_input None
      = Ok [[1; 0]; [0; 1]]
    ∧ pseudoknots_at address2 (S limit) crossing_input None
      = Ok [[0; 1]; [1; 0]].
Proof.
  exists (fun k => k), (fun k => (7 * k)%nat).
  split; [by intros x y|]. split; [intros x y; lia|].
  split; vm_compute; reflexivity.
Qed.

(** * Properties of the stages *)

(** ** Region detection *)

(** X1.  On every input that is not empty [_find_regions] returns a set
    of regions, no more than there are base pairs, and every base pair is
    a member of exactly one of them. *)
Theorem find_regions_partitions_base_pairs (base_pairs : list (Z * Z)) :
  base_pairs ≠ [] →
  ∃ regions,
    _find_regions base_pairs = Ok regions
    ∧ (size regions ≤ length base_pairs)%nat
    ∧ ∀ p, (p < length base_pairs)%nat →
        ∃ reg, reg ∈ regions ∧ p ∈ region_pairs reg
               ∧ ∀ reg', reg' ∈ regions → p ∈ region_pairs reg' → reg' = reg.
Proof.
  intros Hne.
  destruct (find_regions_total base_pairs Hne) as [regions Hregions].
  exists regions. split; [exact Hregions|].
  split; [by apply find_regions_size|].
  destruct (find_regions_disjoint base_pairs regions Hregions) as [_ Hdisj].
  destruct (find_regions_cover base_pairs regions Hregions) as [Hcover _].
  intros p Hp. destruct (Hcover p Hp) as (reg & Hreg & Hin).
  exists reg. split; [exact Hreg|]. split; [exact Hin|].
  intros reg' Hreg' Hin'. by apply (Hdisj reg' reg p).
Qed.

Lemma find_regions_partitions_base_pairs_witness :
  crossing_input ≠ []
  ∧ ∃ regions,
      _find_regions crossing_input = Ok regions
      ∧ (size regions ≤ length crossing_input)%nat
      ∧ ∀ p, (p < length crossing_input)%nat →
          ∃ reg, reg ∈ regions ∧ p ∈ region_pairs reg
                 ∧ ∀ reg', reg' ∈ regions → p ∈ region_pairs reg' →
                     reg' = reg.
Proof.
  split; [discriminate|].
  apply (find_regions_partitions_base_pairs crossing_input). discriminate.
Defined.

(** X2.  A region spans its members: both bases of every member lie
    between [start] and [stop], which are bases of members themselves,
    and a region has at least one member. *)
Theorem region_spans_its_members (base_pairs : list (Z * Z))
    (regions : gset region) (reg : region) :
  _find_regions base_pairs = Ok regions → reg ∈ regions →
  region_pairs reg ≠ []
  ∧ (∀ p, p ∈ region_pairs reg →
       ∃ row, base_pairs !! p = Some row
              ∧ start reg ≤ row.1 ≤ stop reg ∧ start reg ≤ row.2 ≤ stop reg)
  ∧ (∃ p row, p ∈ region_pairs reg ∧ base_pairs !! p = Some row
              ∧ (start reg = row.1 ∨ start reg = row.2))
  ∧ (∃ p row, p ∈ region_pairs reg ∧ base_pairs !! p = Some row
              ∧ (stop reg = row.1 ∨ stop reg = row.2)).
Proof.
  intros Hregions Hreg.
  destruct (find_regions_members base_pairs regions Hregions reg Hreg)
    as [Hne _].
  destruct (find_regions_cover base_pairs regions Hregions) as [_ Hmade].
  destruct (region_init_spec _ _ _ _ (Hmade reg Hreg))
    as (_ & _ & Hspan & Hstart & Hstop).
  by repeat split.
Qed.

Lemma region_spans_its_members_witness :
  region_pairs stack_a ≠ []
  ∧ (∀ p, p ∈ region_pairs stack_a →
       ∃ row, stacked_input !! p = Some row
              ∧ start stack_a ≤ row.1 ≤ stop stack_a
              ∧ start stack_a ≤ row.2 ≤ stop stack_a)
  ∧ (∃ p row, p ∈ region_pairs stack_a ∧ stacked_input !! p = Some row
              ∧ (start stack_a = row.1 ∨ start stack_a = row.2))
  ∧ (∃ p row, p ∈ region_pairs stack_a ∧ stacked_input !! p = Some row
              ∧ (stop stack_a = row.1 ∨ stop stack_a = row.2)).
Proof.
  apply (region_spans_its_members stacked_input {[stack_a; stack_b]} stack_a).
  - by_evaluation.
  - by_evaluation.
Defined.

(** X3.  On a well-formed input the regions are well placed: every
    region starts at a non-negative base before the base it stops at,
    no base is an end of two regions, and no base pair is a member of two
    regions. *)
Theorem well_formed_input_regions (base_pairs : list (Z * Z)) :
  well_formed base_pairs →
  ∃ regions,
    _find_regions base_pairs = Ok regions
    ∧ well_placed regions ∧ disjoint_members regions.
Proof.
  intros Hwf.
  destruct (find_regions_well_placed base_pairs Hwf)
    as (regions & Hregions & Hwp).
  exists regions. split; [exact Hregions|]. split; [exact Hwp|].
  by destruct (find_regions_disjoint base_pairs regions Hregions).
Qed.

Lemma well_formed_input_regions_witness :
  well_formed crossing_input
  ∧ ∃ regions,
      _find_regions crossing_input = Ok regions
      ∧ well_placed regions ∧ disjoint_members regions.
Proof.
  split; [by_evaluation|].
  apply (well_formed_input_regions crossing_input). by_evaluation.
Defined.

(** X4.  Of two members of a region one lies inside the other: the
    members of a region are nested and never cross. *)
Theorem region_members_are_nested (base_pairs : list (Z * Z))
    (regions : gset region) (reg : region) (p q : nat) (r1 r2 : Z * Z) :
  _find_regions base_pairs = Ok regions → reg ∈ regions →
  p ∈ region_pairs reg → q ∈ region_pairs reg →
  base_pairs !! p = Some r1 → base_pairs !! q = Some r2 →
  (nested_in r1 r2 ∨ nested_in r2 r1) ∧ ¬ crossing_pairs r1 r2.
Proof.
  intros Hregions Hreg Hp Hq Hr1 Hr2.
  pose proof (find_regions_nested base_pairs regions reg p q r1 r2
                Hregions Hreg Hp Hq Hr1 Hr2) as Hnested.
  split; [exact Hnested|].
  unfold crossing_pairs, nested_in in *. simpl. lia.
Qed.

Lemma region_members_are_nested_witness :
  (nested_in (0, 7) (1, 6) ∨ nested_in (1, 6) (0, 7))
  ∧ ¬ crossing_pairs (0, 7) (1, 6).
Proof.
  apply (region_members_are_nested stacked_input {[stack_a; stack_b]}
           stack_a 0 1 (0, 7) (1, 6)).
  - by_evaluation.
  - by_evaluation.
  - by_evaluation.
  - by_evaluation.
  - reflexivity.
  - reflexivity.
Defined.

(** ** The event array *)

(** X5.  For well-placed regions [_get_region_array_for] returns two
    arrays of twice as many entries as there are regions, in the strict
    order of the bases: every entry is the start of its region with the
    first content or the stop of its region with the second content, and
    every region has both entries. *)
Theorem region_array_lists_sorted_events {C} (regions : gset region)
    (content : region -> C * C) :
  well_placed regions →
  length (_get_region_array_for regions content).1 = (size regions * 2)%nat
  ∧ ∃ keys : list Z,
      length (_get_region_array_for regions content).1 = length keys
      ∧ length (_get_region_array_for regions content).2 = length keys
      ∧ StronglySorted Z.lt keys
      ∧ (∀ i reg, (_get_region_array_for regions content).1 !! i = Some reg →
           reg ∈ regions
           ∧ ((keys !! i = Some (start reg)
               ∧ (_get_region_array_for regions content).2 !! i
                 = Some (content reg).1)
              ∨ (keys !! i = Some (stop reg)
                 ∧ (_get_region_array_for regions content).2 !! i
                   = Some (content reg).2)))
      ∧ (∀ reg, reg ∈ regions →
           ∃ s e, (_get_region_array_for regions content).1 !! s = Some reg
                  ∧ keys !! s = Some (start reg)
                  ∧ (_get_region_array_for regions content).1 !! e = Some reg
                  ∧ keys !! e = Some (stop reg)).
Proof.
  intros Hwp. split; [apply region_array_length|].
  by apply region_array_spec.
Qed.

Lemma region_array_lists_sorted_events_witness :
  length (_get_region_array_for {[region_a; region_b]}
            (fun _ => (true, false))).1
  = (size ({[region_a; region_b]} : gset region) * 2)%nat.
Proof.
  apply (region_array_lists_sorted_events {[region_a; region_b]}
           (fun _ => (true, false))).
  by_evaluation.
Defined.

(** X6.  [_get_first_occurrence_for] returns the least position of the
    value, and [None] exactly when the value does not occur. *)
Theorem first_occurrence_is_least (array : list region) (wanted : region) :
  match _get_first_occurrence_for array wanted with
  | Some i => array !! i = Some wanted
              ∧ ∀ j, (j < i)%nat → array !! j ≠ Some wanted
  | None => wanted ∉ array
  end.
Proof.
  unfold _get_first_occurrence_for.
  pose proof (first_occurrence_from_spec array wanted 0) as Hspec.
  destruct (first_occurrence_from 0 array wanted) as [i|]; [|exact Hspec].
  rewrite Nat.sub_0_r in Hspec. by destruct Hspec as (_ & ? & ?).
Qed.

(** ** The conflict filter *)

(** X7.  On well-placed regions the filter returns exactly the regions
    that cross another region, so every region it keeps crosses a region
    it keeps. *)
Theorem conflict_filter_keeps_crossing_regions (regions : gset region) :
  well_placed regions →
  ∃ cleaned,
    _remove_non_conflicting_regions regions = Ok cleaned
    ∧ (∀ reg, reg ∈ cleaned
         ↔ reg ∈ regions ∧ ∃ reg', reg' ∈ regions ∧ crossing reg reg')
    ∧ (∀ reg, reg ∈ cleaned → ∃ reg', reg' ∈ cleaned ∧ crossing reg reg').
Proof.
  intros Hwp.
  destruct (conflict_filter_spec regions Hwp) as (cleaned & Hcleaned & Hspec).
  exists cleaned. split; [exact Hcleaned|]. split; [exact Hspec|].
  intros reg (Hreg & reg' & Hreg' & Hcross)%Hspec.
  exists reg'. split; [|exact Hcross]. apply Hspec. split; [exact Hreg'|].
  exists reg. split; [exact Hreg | by apply crossing_sym].
Qed.

Lemma conflict_filter_keeps_crossing_regions_witness :
  well_placed {[wrap_a; wrap_b; wrap_c]}
  ∧ ∃ cleaned,
      _remove_non_conflicting_regions {[wrap_a; wrap_b; wrap_c]} = Ok cleaned
      ∧ (∀ reg, reg ∈ cleaned
           ↔ reg ∈ ({[wrap_a; wrap_b; wrap_c]} : gset region)
             ∧ ∃ reg', reg' ∈ ({[wrap_a; wrap_b; wrap_c]} : gset region)
                       ∧ crossing reg reg')
      ∧ (∀ reg, reg ∈ cleaned → ∃ reg', reg' ∈ cleaned ∧ crossing reg reg').
Proof.
  split; [by_evaluation|].
  apply (conflict_filter_keeps_crossing_regions {[wrap_a; wrap_b; wrap_c]}).
  by_evaluation.
Defined.

(** X8.  The filter is idempotent on well-placed regions. *)
Theorem conflict_filter_idempotent (regions cleaned : gset region) :
  well_placed regions →
  _remove_non_conflicting_regions regions = Ok cleaned →
  _remove_non_conflicting_regions cleaned = Ok cleaned.
Proof. apply conflict_filter_fixpoint. Qed.

Lemma conflict_filter_idempotent_witness :
  _remove_non_conflicting_regions {[wrap_b; wrap_c]} = Ok {[wrap_b; wrap_c]}.
Proof.
  apply (conflict_filter_idempotent {[wrap_a; wrap_b; wrap_c]}
           {[wrap_b; wrap_c]}).
  - by_evaluation.
  - by_evaluation.
Defined.

(** ** The clusters *)

(** X9.  The clusters cover the regions they are made of, and no
    cluster is empty. *)
Theorem clusters_cover_regions (regions : gset region) :
  ⋃ _cluster_conflicts regions = regions
  ∧ ∀ cluster, cluster ∈ _cluster_conflicts regions → cluster ≠ ∅.
Proof. apply cluster_conflicts_cover_nonempty. Qed.

(** X10.  The clusters of well-placed regions are separated: no region is
    in two clusters, and a region whose span overlaps the span of a
    region of a cluster is in that cluster. *)
Theorem clusters_are_separated (regions : gset region) :
  well_placed regions →
  pairwise_disjoint (_cluster_conflicts regions)
  ∧ ∀ cluster reg reg',
      cluster ∈ _cluster_conflicts regions → reg ∈ cluster →
      reg' ∈ regions → overlapping reg reg' → reg' ∈ cluster.
Proof. apply cluster_conflicts_spec. Qed.

Lemma clusters_are_separated_witness :
  well_placed {[region_a; region_b; region_c; region_d]}
  ∧ pairwise_disjoint
      (_cluster_conflicts {[region_a; region_b; region_c; region_d]}).
Proof.
  split; [by_evaluation|].
  apply (clusters_are_separated {[region_a; region_b; region_c; region_d]}).
  by_evaluation.
Defined.

(** X11.  A cluster of well-placed regions does not split: of two
    parts of a cluster, a region of the one overlaps a region of the
    other, so the clusters are the classes of regions linked by
    overlaps. *)
Theorem clusters_do_not_split (regions cluster part : gset region) :
  well_placed regions →
  cluster ∈ _cluster_conflicts regions →
  (∃ reg, reg ∈ cluster ∧ reg ∈ part) →
  (∃ reg, reg ∈ cluster ∧ reg ∉ part) →
  ∃ reg reg', reg ∈ cluster ∧ reg ∈ part ∧ reg' ∈ cluster
              ∧ (reg' ∉ part) ∧ overlapping reg reg'.
Proof. apply cluster_conflicts_connected. Qed.

Lemma clusters_do_not_split_witness :
  ∃ reg reg', reg ∈ ({[region_a; region_b]} : gset region)
              ∧ reg ∈ ({[region_a]} : gset region)
              ∧ reg' ∈ ({[region_a; region_b]} : gset region)
              ∧ (reg' ∉ ({[region_a]} : gset region))
              ∧ overlapping reg reg'.
Proof.
  apply (clusters_do_not_split {[region_a; region_b; region_c; region_d]}
           {[region_a; region_b]} {[region_a]}).
  - by_evaluation.
  - by_evaluation.
  - exists region_a. split; by_evaluation.
  - exists region_b. split; by_evaluation.
Defined.

(** ** The dynamic programme *)

(** X12.  Every solution [_get_optimal_solutions] returns for
    well-placed regions is a set of regions of the cluster of which no
    two cross. *)
Theorem optimal_solutions_cross_free (cluster : gset region)
    (scoring : list Z) (solutions : list (gset region)) :
  well_placed cluster →
  _get_optimal_solutions cluster scoring = Ok solutions →
  ∀ solution, solution ∈ solutions →
    solution ⊆ cluster
    ∧ ∀ reg1 reg2, reg1 ∈ solution → reg2 ∈ solution →
        ¬ crossing reg1 reg2.
Proof.
  intros Hwp Hrun.
  by destruct (optimal_solutions_cell cluster scoring solutions Hwp Hrun)
    as (_ & _ & _ & ?).
Qed.

Lemma optimal_solutions_cross_free_witness :
  ({[region_b]} : gset region) ⊆ {[region_a; region_b]}
  ∧ ∀ reg1 reg2, reg1 ∈ ({[region_b]} : gset region) →
      reg2 ∈ ({[region_b]} : gset region) → ¬ crossing reg1 reg2.
Proof.
  apply (optimal_solutions_cross_free {[region_a; region_b]} [1; 1]
           [{[region_b]}; {[region_a]}]).
  - by_evaluation.
  - by_evaluation.
  - apply list_elem_of_here.
Defined.

(** X13.  The solutions returned are tied: there is at least one, none
    is returned twice, and all have one score once it is stored in the
    [float64] array [scores]; scores that differ beyond 53 bits are
    tied. *)
Theorem optimal_solutions_tied (cluster : gset region) (scoring : list Z)
    (solutions : list (gset region)) :
  well_placed cluster →
  _get_optimal_solutions cluster scoring = Ok solutions →
  solutions ≠ [] ∧ NoDup solutions
  ∧ ∃ best, ∀ solution, solution ∈ solutions →
      stored_score scoring solution = Ok best.
Proof.
  intros Hwp Hrun.
  destruct (optimal_solutions_cell cluster scoring solutions Hwp Hrun)
    as (Hne & Hnd & Hbest & _).
  by repeat split.
Qed.

Lemma optimal_solutions_tied_witness :
  _get_optimal_solutions {[region_a; region_b]}
    [9007199254740993; 9007199254740992]
  = Ok [{[region_b]}; {[region_a]}]
  ∧ [{[region_b]}; {[region_a]}] ≠ ([] : list (gset region))
  ∧ NoDup [{[region_b]}; {[region_a]} : gset region]
  ∧ ∃ best, ∀ solution, solution ∈ [{[region_b]}; {[region_a]}] →
      stored_score [9007199254740993; 9007199254740992] solution = Ok best.
Proof.
  split; [by_evaluation|].
  apply (optimal_solutions_tied {[region_a; region_b]}
           [9007199254740993; 9007199254740992]).
  - by_evaluation.
  - by_evaluation.
Defined.

(** X14.  For positive scores that add up to less than [2 ^ 53] over the
    cluster, the solver returns on every cluster of which each region
    crosses another one, and no solution it returns is empty. *)
Theorem optimal_solutions_return (cluster : gset region) (scoring : list Z) :
  conflicting scoring cluster → cluster ≠ ∅ →
  Forall (fun v => 0 < v) scoring → exact_scores scoring cluster →
  ∃ solutions,
    _get_optimal_solutions cluster scoring = Ok solutions
    ∧ ∀ solution, solution ∈ solutions → solution ≠ ∅.
Proof.
  intros (Hwp & Hcross & Hmembers) Hne Hpositive Hsmall.
  by apply optimal_solutions_total.
Qed.

Lemma optimal_solutions_return_witness :
  conflicting [1; 1] {[region_a; region_b]}
  ∧ ∃ solutions,
      _get_optimal_solutions {[region_a; region_b]} [1; 1] = Ok solutions
      ∧ ∀ solution, solution ∈ solutions → solution ≠ ∅.
Proof.
  split; [by_evaluation|].
  apply (optimal_solutions_return {[region_a; region_b]} [1; 1]).
  - by_evaluation.
  - by_evaluation.
  - by_evaluation.
  - by_evaluation.
Defined.

(** X15.  For positive scores that add up to less than [2 ^ 53] over the
    cluster, every solution the solver returns for a cluster of which
    each region crosses another one has the highest score: no set of
    regions of the cluster of which no two cross scores higher. *)
Theorem optimal_solutions_maximal (cluster : gset region) (scoring : list Z)
    (solutions : list (gset region)) (solution other : gset region) :
  conflicting scoring cluster → Forall (fun v => 0 < v) scoring →
  exact_scores scoring cluster →
  _get_optimal_solutions cluster scoring = Ok solutions →
  solution ∈ solutions → other ⊆ cluster →
  (∀ reg1 reg2, reg1 ∈ other → reg2 ∈ other → ¬ crossing reg1 reg2) →
  ∃ best score,
    solution_score scoring solution = Ok best
    ∧ solution_score scoring other = Ok score
    ∧ score ≤ best.
Proof.
  intros (Hwp & Hcross & Hmembers) Hpositive Hsmall.
  by apply optimal_solutions_best.
Qed.

Lemma optimal_solutions_maximal_witness :
  conflicting [2; 1] {[region_a; region_b]}
  ∧ _get_optimal_solutions {[region_a; region_b]} [2; 1]
    = Ok [{[region_a]}]
  ∧ ∃ best score,
      solution_score [2; 1] {[region_a]} = Ok best
      ∧ solution_score [2; 1] {[region_b]} = Ok score
      ∧ score ≤ best.
Proof.
  split; [by_evaluation|]. split; [by_evaluation|].
  apply (optimal_solutions_maximal {[region_a; region_b]} [2; 1]
           [{[region_a]}] {[region_a]} {[region_b]}).
  - by_evaluation.
  - by_evaluation.
  - by_evaluation.
  - by_evaluation.
  - apply list_elem_of_here.
  - by_evaluation.
  - intros reg1 reg2 ->%elem_of_singleton ->%elem_of_singleton.
    apply crossing_irrefl.
Defined.

(** X16.  For positive scores that add up to less than [2 ^ 53] over the
    cluster, the solver returns every tie: a set of regions of the
    cluster of which no two cross and that scores as high as a solution
    returned is itself returned. *)
Theorem optimal_solutions_complete (cluster : gset region)
    (scoring : list Z) (solutions : list (gset region))
    (solution other : gset region) (best score : Z) :
  conflicting scoring cluster → Forall (fun v => 0 < v) scoring →
  exact_scores scoring cluster →
  _get_optimal_solutions cluster scoring = Ok solutions →
  solution ∈ solutions → other ⊆ cluster →
  (∀ reg1 reg2, reg1 ∈ other → reg2 ∈ other → ¬ crossing reg1 reg2) →
  solution_score scoring solution = Ok best →
  solution_score scoring other = Ok score →
  best ≤ score → other ∈ solutions.
Proof.
  intros (Hwp & Hcross & Hmembers) Hpositive Hsmall.
  by apply optimal_solutions_ties.
Qed.

Lemma optimal_solutions_complete_witness :
  conflicting [1; 1] {[region_a; region_b]}
  ∧ _get_optimal_solutions {[region_a; region_b]} [1; 1]
    = Ok [{[region_b]}; {[region_a]}]
  ∧ ({[region_a]} : gset region) ∈ [{[region_b]}; {[region_a]}].
Proof.
  split; [by_evaluation|]. split; [by_evaluation|].
  apply (optimal_solutions_complete {[region_a; region_b]} [1; 1]
           [{[region_b]}; {[region_a]}] {[region_b]} {[region_a]} 1 1).
  - by_evaluation.
  - by_evaluation.
  - by_evaluation.
  - by_evaluation.
  - apply list_elem_of_here.
  - by_evaluation.
  - intros reg1 reg2 ->%elem_of_singleton ->%elem_of_singleton.
    apply crossing_irrefl.
  - by_evaluation.
  - by_evaluation.
  - lia.
Defined.

(** ** The orders *)

(** X17.  In every row [_get_result_diff] returns for a cluster, each
    region of the cluster is at one order between 0 and the recursion
    limit, regions at one order do not cross, and the base pairs outside
    the cluster are at order 0. *)
Theorem result_diff_orders_cross_free (scoring : list Z) (limit : nat)
    (cluster : gset region) (rows : list (list Z)) (row : list Z) :
  Z.of_nat limit < 2 ^ 31 →
  conflicting scoring cluster → disjoint_members cluster →
  _get_result_diff limit cluster scoring = Ok rows → row ∈ rows →
  length row = length scoring
  ∧ (∀ reg, reg ∈ cluster →
       ∃ k, 0 ≤ k ≤ Z.of_nat limit ∧ order_of row reg k)
  ∧ (∀ reg1 reg2 k, reg1 ∈ cluster → reg2 ∈ cluster →
       order_of row reg1 k → order_of row reg2 k → ¬ crossing reg1 reg2)
  ∧ (∀ p, (p < length scoring)%nat →
       (∀ reg, reg ∈ cluster → p ∉ region_pairs reg) → row !! p = Some 0).
Proof.
  intros Hlimit Hgood Hdisj Hrun Hrow.
  pose proof (result_diff_layered scoring limit cluster rows Hlimit Hgood
                Hdisj Hrun row Hrow) as Hlayered.
  pose proof Hlayered as (Hlen & Hzero & ord & Hord & _).
  split; [exact Hlen|]. split; [|split; [|exact Hzero]].
  - intros reg Hreg. destruct (Hord reg Hreg) as [Hbound Horder].
    exists (Z.of_nat (ord reg)). split; [lia | exact Horder].
  - intros reg1 reg2 k H1 H2 Hk1 Hk2.
    apply (layered_cross_free (length scoring) limit cluster row reg1 reg2 k);
      auto.
    intros reg Hreg. destruct Hgood as (_ & _ & Hmembers).
    by apply Hmembers.
Qed.

Lemma result_diff_orders_cross_free_witness :
  length [1; 0] = length [1; 1]
  ∧ (∀ reg, reg ∈ ({[region_a; region_b]} : gset region) →
       ∃ k, 0 ≤ k ≤ Z.of_nat 10 ∧ order_of [1; 0] reg k)
  ∧ (∀ reg1 reg2 k, reg1 ∈ ({[region_a; region_b]} : gset region) →
       reg2 ∈ ({[region_a; region_b]} : gset region) →
       order_of [1; 0] reg1 k → order_of [1; 0] reg2 k →
       ¬ crossing reg1 reg2)
  ∧ (∀ p, (p < length [1; 1])%nat →
       (∀ reg, reg ∈ ({[region_a; region_b]} : gset region) →
          p ∉ region_pairs reg) →
       [1; 0] !! p = Some 0).
Proof.
  apply (result_diff_orders_cross_free [1; 1] 10 {[region_a; region_b]}
           [[1; 0]; [0; 1]] [1; 0]).
  - by_evaluation.
  - by_evaluation.
  - by_evaluation.
  - by_evaluation.
  - by_evaluation.
Defined.

(** X18.  For positive scores that add up to less than [2 ^ 53] over the
    cluster, the calls of [_get_result_diff] never nest deeper than the
    cluster has regions: the recursion returns rows, one entry per
    score, as soon as the interpreter leaves room for more nested calls
    than that. *)
Theorem result_diff_returns (scoring : list Z) (limit : nat)
    (cluster : gset region) :
  Forall (fun v => 0 < v) scoring →
  conflicting scoring cluster → exact_scores scoring cluster →
  cluster ≠ ∅ → (size cluster < limit)%nat →
  ∃ rows, _get_result_diff limit cluster scoring = Ok rows
          ∧ rows ≠ []
          ∧ Forall (fun row => length row = length scoring) rows.
Proof. apply result_diff_total. Qed.

Lemma result_diff_returns_witness :
  ∃ rows, _get_result_diff 3 {[region_a; region_b]} [1; 1] = Ok rows
          ∧ rows ≠ []
          ∧ Forall (fun row => length row = length [1; 1]) rows.
Proof.
  apply (result_diff_returns [1; 1] 3 {[region_a; region_b]}).
  - by_evaluation.
  - by_evaluation.
  - by_evaluation.
  - by_evaluation.
  - by_evaluation.
Defined.

(** ** [pseudoknots] *)

(** X19.  On a well-formed input with positive scores that add up to
    less than [2 ^ 53] (or with no scores), [pseudoknots] returns at
    least one row, every row with one entry per base pair, as soon as
    the interpreter leaves room for more nested calls of
    [_get_result_diff] than there are base pairs. *)
Theorem pseudoknots_returns_rows (limit : nat) (base_pairs : list (Z * Z))
    (scoring : option (list Z)) :
  well_formed base_pairs →
  (∀ sc, scoring = Some sc →
     length sc = length base_pairs ∧ Forall (fun v => 0 < v) sc
     ∧ foldr Z.add 0 sc < 2 ^ 53) →
  (length base_pairs < limit)%nat →
  ∃ rows, pseudoknots limit base_pairs scoring = Ok rows
          ∧ rows ≠ []
          ∧ Forall (fun row => length row = length base_pairs) rows.
Proof. apply pseudoknots_rows. Qed.

Lemma pseudoknots_returns_rows_witness :
  well_formed stacked_input
  ∧ ∃ rows, pseudoknots 5 stacked_input (Some [3; 1; 2; 2]) = Ok rows
            ∧ rows ≠ []
            ∧ Forall (fun row => length row = length stacked_input) rows.
Proof.
  split; [by_evaluation|].
  apply (pseudoknots_returns_rows 5 stacked_input (Some [3; 1; 2; 2])).
  - by_evaluation.
  - intros sc [= <-]. split; [reflexivity|]. split; by_evaluation.
  - by_evaluation.
Defined.

(** X20.  The rows [pseudoknots] returns are the rows of the last
    cluster alone. *)
Theorem pseudoknots_rows_of_last_cluster (limit : nat)
    (base_pairs : list (Z * Z)) (scoring : option (list Z))
    (rows : list (list Z)) (regions cleaned : gset region)
    (clusters : list (gset region)) (cluster : gset region) :
  pseudoknots limit base_pairs scoring = Ok rows →
  _find_regions base_pairs = Ok regions →
  _remove_non_conflicting_regions regions = Ok cleaned →
  _cluster_conflicts cleaned = clusters ++ [cluster] →
  _get_result_diff limit cluster
    (default (replicate (length base_pairs) 1) scoring) = Ok rows.
Proof.
  intros Hrun Hregions Hcleaned Hclusters.
  apply pseudoknots_inv in Hrun
    as (regions' & cleaned' & _ & Hregions' & Hcleaned' & Hrows).
  rewrite Hregions in Hregions'. injection Hregions' as <-.
  rewrite Hcleaned in Hcleaned'. injection Hcleaned' as <-.
  rewrite Hclusters in Hrows. by apply foldM_last in Hrows.
Qed.

Lemma pseudoknots_rows_of_last_cluster_witness :
  _get_result_diff 10 {[region_c; region_d]}
    (default (replicate (length two_cluster_input) 1) None)
  = Ok [[0; 0; 1; 0]; [0; 0; 0; 1]].
Proof.
  apply (pseudoknots_rows_of_last_cluster 10 two_cluster_input None
           [[0; 0; 1; 0]; [0; 0; 0; 1]]
           {[region_a; region_b; region_c; region_d]}
           {[region_a; region_b; region_c; region_d]}
           [{[region_a; region_b]}] {[region_c; region_d]}).
  - by_evaluation.
  - by_evaluation.
  - by_evaluation.
  - by_evaluation.
Defined.

(** X21.  When the regions that cross form at most one cluster, regions
    at one order in a row of [pseudoknots] do not cross. *)
Theorem single_cluster_orders_cross_free (limit : nat)
    (base_pairs : list (Z * Z)) (scoring : option (list Z))
    (rows : list (list Z)) (regions cleaned : gset region) (row : list Z)
    (reg1 reg2 : region) (k : Z) :
  well_formed base_pairs → Z.of_nat limit < 2 ^ 31 →
  pseudoknots limit base_pairs scoring = Ok rows →
  _find_regions base_pairs = Ok regions →
  _remove_non_conflicting_regions regions = Ok cleaned →
  (length (_cluster_conflicts cleaned) ≤ 1)%nat →
  row ∈ rows → reg1 ∈ regions → reg2 ∈ regions →
  order_of row reg1 k → order_of row reg2 k → ¬ crossing reg1 reg2.
Proof. apply single_cluster_layers. Qed.

Lemma single_cluster_orders_cross_free_witness :
  order_of [0; 0; 1] wrap_a 0 ∧ order_of [0; 0; 1] wrap_b 0
  ∧ ¬ crossing wrap_a wrap_b.
Proof.
  assert (Ha : order_of [0; 0; 1] wrap_a 0).
  { intros p Hp. apply list_elem_of_singleton in Hp. by rewrite Hp. }
  assert (Hb : order_of [0; 0; 1] wrap_b 0).
  { intros p Hp. apply list_elem_of_singleton in Hp. by rewrite Hp. }
  split; [exact Ha|]. split; [exact Hb|].
  apply (single_cluster_orders_cross_free 10 wrapped_input None
           [[0; 0; 1]; [0; 1; 0]] {[wrap_a; wrap_b; wrap_c]}
           {[wrap_b; wrap_c]} [0; 0; 1] wrap_a wrap_b 0).
  - by_evaluation.
  - by_evaluation.
  - by_evaluation.
  - by_evaluation.
  - by_evaluation.
  - by_evaluation.
  - by_evaluation.
  - by_evaluation.
  - by_evaluation.
  - exact Ha.
  - exact Hb.
Defined.

(** X22.  Every order in a row of [pseudoknots] lies between 0 and the
    recursion limit, and the members of the regions the filter removed
    are at order 0 in every row. *)
Theorem orders_within_limit (limit : nat) (base_pairs : list (Z * Z))
    (scoring : option (list Z)) (rows : list (list Z))
    (regions cleaned : gset region) (row : list Z) :
  well_formed base_pairs → Z.of_nat limit < 2 ^ 31 →
  pseudoknots limit base_pairs scoring = Ok rows →
  _find_regions base_pairs = Ok regions →
  _remove_non_conflicting_regions regions = Ok cleaned →
  row ∈ rows →
  (∀ p v, row !! p = Some v → 0 ≤ v ≤ Z.of_nat limit)
  ∧ (∀ reg, reg ∈ regions → reg ∉ cleaned → order_of row reg 0).
Proof. apply pseudoknots_orders. Qed.

Lemma orders_within_limit_witness :
  (∀ p v, [0; 0; 1] !! p = Some v → 0 ≤ v ≤ Z.of_nat 10)
  ∧ (∀ reg, reg ∈ ({[wrap_a; wrap_b; wrap_c]} : gset region) →
       reg ∉ ({[wrap_b; wrap_c]} : gset region) →
       order_of [0; 0; 1] reg 0).
Proof.
  apply (orders_within_limit 10 wrapped_input None [[0; 0; 1]; [0; 1; 0]]
           {[wrap_a; wrap_b; wrap_c]} {[wrap_b; wrap_c]} [0; 0; 1]).
  - by_evaluation.
  - by_evaluation.
  - by_evaluation.
  - by_evaluation.
  - by_evaluation.
  - by_evaluation.
Defined.

(** X23.  The rows of a cluster enumerate the solutions of the solver:
    the regions at order 0 in a row are the regions of one solution, and
    every solution has such a row. *)
Theorem rows_enumerate_solutions (scoring : list Z) (limit : nat)
    (cluster : gset region) (solutions : list (gset region))
    (rows : list (list Z)) :
  Z.of_nat limit < 2 ^ 31 →
  conflicting scoring cluster → disjoint_members cluster →
  _get_optimal_solutions cluster scoring = Ok solutions →
  _get_result_diff limit cluster scoring = Ok rows →
  (∀ row, row ∈ rows →
     ∃ solution, solution ∈ solutions
       ∧ ∀ reg, reg ∈ cluster → (order_of row reg 0 ↔ reg ∈ solution))
  ∧ (∀ solution, solution ∈ solutions →
       ∃ row, row ∈ rows
         ∧ ∀ reg, reg ∈ cluster → (order_of row reg 0 ↔ reg ∈ solution)).
Proof. apply result_diff_solutions. Qed.

Lemma rows_enumerate_solutions_witness :
  (∀ row, row ∈ [[1; 0]; [0; 1]] →
     ∃ solution : gset region, solution ∈ [{[region_b]}; {[region_a]}]
       ∧ ∀ reg, reg ∈ ({[region_a; region_b]} : gset region) →
           (order_of row reg 0 ↔ reg ∈ solution))
  ∧ (∀ solution : gset region, solution ∈ [{[region_b]}; {[region_a]}] →
       ∃ row, row ∈ [[1; 0]; [0; 1]]
         ∧ ∀ reg, reg ∈ ({[region_a; region_b]} : gset region) →
             (order_of row reg 0 ↔ reg ∈ solution)).
Proof.
  apply (rows_enumerate_solutions [1; 1] 10 {[region_a; region_b]}
           [{[region_b]}; {[region_a]}] [[1; 0]; [0; 1]]).
  - by_evaluation.
  - by_evaluation.
  - by_evaluation.
  - by_evaluation.
  - by_evaluation.
Defined.

(** X24.  For positive scores that add up to less than [2 ^ 53] over the
    cluster, the regions of the cluster that are at order 0 in a row are
    a set of the highest score: no two of them cross, and no set of
    regions of the cluster of which no two cross scores higher. *)
Theorem order_zero_regions_maximal (scoring : list Z) (limit : nat)
    (cluster : gset region) (rows : list (list Z)) (row : list Z)
    (solution other : gset region) :
  Z.of_nat limit < 2 ^ 31 →
  conflicting scoring cluster → disjoint_members cluster →
  Forall (fun v => 0 < v) scoring → exact_scores scoring cluster →
  _get_result_diff limit cluster scoring = Ok rows → row ∈ rows →
  solution ⊆ cluster →
  (∀ reg, reg ∈ cluster → (order_of row reg 0 ↔ reg ∈ solution)) →
  other ⊆ cluster →
  (∀ reg1 reg2, reg1 ∈ other → reg2 ∈ other → ¬ crossing reg1 reg2) →
  (∀ reg1 reg2, reg1 ∈ solution → reg2 ∈ solution → ¬ crossing reg1 reg2)
  ∧ ∃ best score,
      solution_score scoring solution = Ok best
      ∧ solution_score scoring other = Ok score
      ∧ score ≤ best.
Proof. apply result_diff_best. Qed.

Lemma order_zero_regions_maximal_witness :
  _get_result_diff 10 {[region_a; region_b]} [2; 1] = Ok [[0; 1]]
  ∧ (∀ reg1 reg2, reg1 ∈ ({[region_a]} : gset region) →
       reg2 ∈ ({[region_a]} : gset region) → ¬ crossing reg1 reg2)
  ∧ ∃ best score,
      solution_score [2; 1] {[region_a]} = Ok best
      ∧ solution_score [2; 1] {[region_b]} = Ok score
      ∧ score ≤ best.
Proof.
  split; [by_evaluation|].
  apply (order_zero_regions_maximal [2; 1] 10 {[region_a; region_b]}
           [[0; 1]] [0; 1] {[region_a]} {[region_b]}).
  - by_evaluation.
  - by_evaluation.
  - by_evaluation.
  - by_evaluation.
  - by_evaluation.
  - by_evaluation.
  - apply list_elem_of_here.
  - by_evaluation.
  - change (set_Forall
              (fun reg => order_of [0; 1] reg 0
                          ↔ reg ∈ ({[region_a]} : gset region))
              ({[region_a; region_b]} : gset region)).
    by_evaluation.
  - by_evaluation.
  - intros reg1 reg2 ->%elem_of_singleton ->%elem_of_singleton.
    apply crossing_irrefl.
Defined.

(** X25.  For positive scores that add up to less than [2 ^ 53] over the
    cluster, every tie has a row: a set of regions of the cluster of
    which no two cross and that no other such set outscores is the set
    of the regions at order 0 of a row. *)
Theorem rows_cover_ties (scoring : list Z) (limit : nat)
    (cluster : gset region) (rows : list (list Z)) (other : gset region) :
  Z.of_nat limit < 2 ^ 31 →
  conflicting scoring cluster → disjoint_members cluster →
  Forall (fun v => 0 < v) scoring → exact_scores scoring cluster →
  _get_result_diff limit cluster scoring = Ok rows →
  other ⊆ cluster →
  (∀ reg1 reg2, reg1 ∈ other → reg2 ∈ other → ¬ crossing reg1 reg2) →
  (∀ candidate, candidate ⊆ cluster →
     (∀ reg1 reg2, reg1 ∈ candidate → reg2 ∈ candidate →
        ¬ crossing reg1 reg2) →
     ∃ score best,
       solution_score scoring candidate = Ok score
       ∧ solution_score scoring other = Ok best
       ∧ score ≤ best) →
  ∃ row, row ∈ rows
         ∧ ∀ reg, reg ∈ cluster → (order_of row reg 0 ↔ reg ∈ other).
Proof. apply result_diff_ties. Qed.

Lemma rows_cover_ties_witness :
  _get_result_diff 10 {[region_a; region_b]} [1; 1] = Ok [[1; 0]; [0; 1]]
  ∧ ∃ row, row ∈ [[1; 0]; [0; 1]]
      ∧ ∀ reg, reg ∈ ({[region_a; region_b]} : gset region) →
          (order_of row reg 0 ↔ reg ∈ ({[region_a]} : gset region)).
Proof.
  split; [by_evaluation|].
  apply (rows_cover_ties [1; 1] 10 {[region_a; region_b]}
           [[1; 0]; [0; 1]] {[region_a]}).
  - by_evaluation.
  - by_evaluation.
  - by_evaluation.
  - by_evaluation.
  - by_evaluation.
  - by_evaluation.
  - by_evaluation.
  - intros reg1 reg2 ->%elem_of_singleton ->%elem_of_singleton.
    apply crossing_irrefl.
  - intros candidate Hsub Hfree.
    assert (Hbest : ∃ best score,
              solution_score [1; 1] {[region_a]} = Ok best
              ∧ solution_score [1; 1] candidate = Ok score
              ∧ score ≤ best).
    { apply (optimal_solutions_best {[region_a; region_b]} [1; 1]
               [{[region_b]}; {[region_a]}] {[region_a]} candidate).
      - by_evaluation.
      - change (set_Forall
                  (fun reg => ∃ reg', reg' ∈ ({[region_a; region_b]}
                                              : gset region)
                                     ∧ crossing reg reg')
                  ({[region_a; region_b]} : gset region)).
        apply set_Forall_union; apply set_Forall_singleton.
        + exists region_b. split; by_evaluation.
        + exists region_a. split; by_evaluation.
      - change (set_Forall
                  (fun reg => region_pairs reg ≠ []
                              ∧ ∀ p, p ∈ region_pairs reg →
                                  (p < length [1; 1])%nat)
                  ({[region_a; region_b]} : gset region)).
        apply set_Forall_union; apply set_Forall_singleton.
        + split; [done|]. intros p ->%list_elem_of_singleton. simpl. lia.
        + split; [done|]. intros p ->%list_elem_of_singleton. simpl. lia.
      - by_evaluation.
      - by_evaluation.
      - by_evaluation.
      - apply list_elem_of_further, list_elem_of_here.
      - exact Hsub.
      - exact Hfree. }
    destruct Hbest as (best & score & Hbest & Hscore & Hle).
    exists score, best. auto.
Defined.
